(** * compound: a verification model of the compound-interest calculator

    The development embeds the Python package [compound] (calculator.py,
    utils.py, cli.py and the formatters) and proves properties of the
    projection engine, of the derived metrics, of the frequency parser and
    of the quiet rendering paths.

    Data is modelled as the program has it:
    - [decimal.Decimal] values are sign / coefficient / exponent triples and
      every arithmetic operation rounds in the default context of the
      [decimal] module (28 significant digits, ROUND_HALF_EVEN, exponents
      between -999999 and 999999, traps on InvalidOperation, DivisionByZero
      and Overflow);
    - [float] values are IEEE-754 binary64 numbers ([spec_float], precision
      53, emax 1024) with round-to-nearest-even operations;
    - [int] values are unbounded integers ([Z]);
    - raised exceptions are explicit results ([Raise e]). *)

From Stdlib Require Import ZArith NArith QArith Qabs Qpower Lia Lqa List Bool.
From Stdlib Require Import Ascii String.
From Stdlib Require Import SpecFloat.
Import ListNotations.

Local Open Scope Z_scope.

(* ================================================================== *)
(** * Exceptions and results *)
(* ================================================================== *)

(** The exceptions the modelled code can raise.  [InvalidOperation],
    [DivisionByZero] and [Overflow] are the trapped signals of the decimal
    context; [ZeroDivisionError], [OverflowError] and [ValueError] are
    Python built-ins.  [SpecialValue] is no exception of Python: it marks a
    run that leaves the modelled fragment because a Decimal infinity or NaN
    was built from a string. *)
Inductive exn : Type :=
| InvalidOperation
| DivisionByZero
| Overflow
| ZeroDivisionError
| OverflowError
| ValueError (msg : string)
| SpecialValue.

(** A computation either returns a value or raises. *)
Inductive outcome (A : Type) : Type :=
| Ok (a : A)
| Raise (e : exn).

Arguments Ok {A} a.
Arguments Raise {A} e.

Definition bind {A B : Type} (m : outcome A) (k : A -> outcome B) : outcome B :=
  match m with
  | Ok a => k a
  | Raise e => Raise e
  end.

Notation "x <- m ;; k" := (bind m (fun x => k))
  (at level 61, m at next level, right associativity).
Notation "' pat <- m ;; k" := (bind m (fun x => match x with pat => k end))
  (at level 61, pat pattern, m at next level, right associativity).

(** A [for] loop over a list whose body may raise: the state is threaded
    from one iteration to the next and the first exception ends the loop. *)
Fixpoint for_each {S I : Type} (body : S -> I -> outcome S) (items : list I) (s : S)
  : outcome S :=
  match items with
  | [] => Ok s
  | i :: rest => s' <- body s i ;; for_each body rest s'
  end.

(** [range(lo, hi)] of Python, as the list of its integers. *)
Definition range (lo hi : Z) : list Z :=
  map (fun k => lo + Z.of_nat k) (seq 0 (Z.to_nat (hi - lo))).

(* ================================================================== *)
(** * decimal.Decimal in the default context *)
(* ================================================================== *)

Module Decimal.

(** A finite Decimal: [(-1)^sign * coeff * 10^expo].  The special values
    (infinities and NaNs) are outside this type; the arithmetic of the
    engine never produces one from finite operands, because the signals
    that would are trapped and raise instead. *)
Record t : Type := mk { sign : bool; coeff : N; expo : Z }.

(** The coefficient as an [int], and a Decimal built from a coefficient
    computed as an [int] (never negative in this module). *)
Definition cz (d : t) : Z := Z.of_N (coeff d).
Definition mkz (s : bool) (c : Z) (e : Z) : t := mk s (Z.to_N c) e.

(** The default context of the [decimal] module. *)
Definition prec : Z := 28.
Definition Emax : Z := 999999.
Definition Emin : Z := -999999.
Definition Etiny : Z := Emin - prec + 1.
Definition Etop : Z := Emax - prec + 1.

Inductive rounding : Type := ROUND_HALF_EVEN | ROUND_HALF_UP.

(** [len(str(c))]: the number of decimal digits of a coefficient. *)
Fixpoint ndigits_aux (fuel : nat) (c : Z) : Z :=
  match fuel with
  | O => 1
  | S f => if c <? 10 then 1 else 1 + ndigits_aux f (c / 10)
  end.

Definition ndigits (c : Z) : Z := ndigits_aux (S (Z.to_nat (Z.log2 c))) c.

(** The rounding functions of the module decide from the digits that are
    dropped: [1] rounds away from zero, [0] says the dropped digits are
    all zero, [-1] truncates a non-zero tail.  [k >= 1] is the number of
    dropped digits of the coefficient [c]. *)
Definition round_half_up (c k : Z) : Z :=
  let r := c mod 10 ^ k in
  if 5 * 10 ^ (k - 1) <=? r then 1
  else if r =? 0 then 0
  else -1.

Definition round_half_even (c k : Z) : Z :=
  let q := c / 10 ^ k in
  let r := c mod 10 ^ k in
  if (r =? 5 * 10 ^ (k - 1)) && Z.even q then -1
  else round_half_up c k.

Definition pick_rounding_function (rnd : rounding) : Z -> Z -> Z :=
  match rnd with
  | ROUND_HALF_EVEN => round_half_even
  | ROUND_HALF_UP => round_half_up
  end.

(** The coefficient and the number of digits to drop when a value with
    coefficient [c] and exponent [e] is rounded to the exponent [e'] > e.
    A value below one tenth of the target unit is replaced by [1] one
    place below the target, as [_rescale] and [_fix] do. *)
Definition rounding_operand (c e e' : Z) : Z * Z :=
  if ndigits c + e - e' <? 0 then (1, 1) else (c, e' - e).

(** [Decimal._rescale(exp, rounding)]. *)
Definition rescale (d : t) (e : Z) (rnd : rounding) : t :=
  if cz d =? 0 then mkz (sign d) 0 e
  else if e <=? expo d then mkz (sign d) (cz d * 10 ^ (expo d - e)) e
  else
    let '(c, k) := rounding_operand (cz d) (expo d) e in
    let changed := pick_rounding_function rnd c k in
    let q := c / 10 ^ k in
    mkz (sign d) (if changed =? 1 then q + 1 else q) e.

(** [Decimal._fix(context)]: round to the context precision and check the
    exponent range.  Overflow is trapped; the other signals of this
    function only set flags, which the program never reads. *)
Definition fix_ (d : t) : outcome t :=
  if cz d =? 0 then
    Ok (mkz (sign d) 0 (Z.min (Z.max (expo d) Etiny) Emax))
  else
    let exp_min := ndigits (cz d) + expo d - prec in
    if Etop <? exp_min then Raise Overflow
    else
      let exp_min := if exp_min <? Etiny then Etiny else exp_min in
      if expo d <? exp_min then
        let '(c, k) := rounding_operand (cz d) (expo d) exp_min in
        let changed := round_half_even c k in
        let q := c / 10 ^ k in
        let '(q, exp_min) :=
          if 0 <? changed then
            if prec <? ndigits (q + 1) then ((q + 1) / 10, exp_min + 1)
            else (q + 1, exp_min)
          else (q, exp_min) in
        if Etop <? exp_min then Raise Overflow
        else Ok (mkz (sign d) q exp_min)
      else Ok d.

(** [_normalize(op1, op2, prec)]: bring two non-zero operands to a common
    exponent before an addition. *)
Definition normalize (op1 op2 : t) : t * t :=
  let swap := expo op1 <? expo op2 in
  let tmp := if swap then op2 else op1 in
  let other := if swap then op1 else op2 in
  let e := expo tmp + Z.min (-1) (ndigits (cz tmp) - prec - 2) in
  let other :=
    if ndigits (cz other) + expo other - 1 <? e then mkz (sign other) 1 e
    else other in
  let tmp := mkz (sign tmp) (cz tmp * 10 ^ (expo tmp - expo other)) (expo other) in
  if swap then (other, tmp) else (tmp, other).

(** [Decimal.__add__]. *)
Definition add (a b : t) : outcome t :=
  let e := Z.min (expo a) (expo b) in
  if (cz a =? 0) && (cz b =? 0) then
    fix_ (mkz (sign a && sign b) 0 e)
  else if cz a =? 0 then
    fix_ (rescale b (Z.max e (expo b - prec - 1)) ROUND_HALF_EVEN)
  else if cz b =? 0 then
    fix_ (rescale a (Z.max e (expo a - prec - 1)) ROUND_HALF_EVEN)
  else
    let '(op1, op2) := normalize a b in
    if Bool.eqb (sign op1) (sign op2) then
      fix_ (mkz (sign op1) (cz op1 + cz op2) (expo op1))
    else if cz op1 =? cz op2 then
      fix_ (mkz false 0 e)
    else
      let '(big, small) :=
        if cz op1 <? cz op2 then (op2, op1) else (op1, op2) in
      fix_ (mkz (sign big) (cz big - cz small) (expo big)).

(** [Decimal.__mul__]. *)
Definition mul (a b : t) : outcome t :=
  fix_ (mkz (xorb (sign a) (sign b)) (cz a * cz b) (expo a + expo b)).

(** The loop of [__truediv__] that brings an exact quotient as close to
    the ideal exponent as its trailing zeros allow. *)
Fixpoint strip_zeros (fuel : nat) (c e : Z) : Z * Z :=
  match fuel with
  | O => (c, e)
  | S f => if c mod 10 =? 0 then strip_zeros f (c / 10) (e + 1) else (c, e)
  end.

(** [Decimal.__truediv__]. *)
Definition div (a b : t) : outcome t :=
  let s := xorb (sign a) (sign b) in
  if cz b =? 0 then
    if cz a =? 0 then Raise InvalidOperation else Raise DivisionByZero
  else if cz a =? 0 then
    fix_ (mkz s 0 (expo a - expo b))
  else
    let shift := ndigits (cz b) - ndigits (cz a) + prec + 1 in
    let e := expo a - expo b - shift in
    let '(q, r) :=
      if 0 <=? shift then Z.div_eucl (cz a * 10 ^ shift) (cz b)
      else Z.div_eucl (cz a) (cz b * 10 ^ (- shift)) in
    if r =? 0 then
      let '(q, e) := strip_zeros (Z.to_nat (expo a - expo b - e)) q e in
      fix_ (mkz s q e)
    else
      fix_ (mkz s (if q mod 5 =? 0 then q + 1 else q) e).

(** [self.adjusted()]: the exponent of the most significant digit. *)
Definition adjusted (d : t) : Z := expo d + ndigits (cz d) - 1.

(** [Decimal.quantize(exp, rounding)], for a finite [exp] operand whose
    exponent is [e]. *)
Definition quantize (d : t) (e : Z) (rnd : rounding) : outcome t :=
  if negb ((Etiny <=? e) && (e <=? Emax)) then Raise InvalidOperation
  else if cz d =? 0 then fix_ (mkz (sign d) 0 e)
  else if Emax <? adjusted d then Raise InvalidOperation
  else if prec <? adjusted d - e + 1 then Raise InvalidOperation
  else
    let ans := rescale d e rnd in
    if Emax <? adjusted ans then Raise InvalidOperation
    else if prec <? ndigits (cz ans) then Raise InvalidOperation
    else fix_ ans.

(** [Decimal(n)] for an [int]. *)
Definition of_int (n : Z) : t := mkz (n <? 0) (Z.abs n) 0.

(** [Decimal._cmp]: the order of two finite values. *)
Definition signed_coeff (d : t) : Z := if sign d then - cz d else cz d.

Definition cmp (a b : t) : comparison :=
  let e := Z.min (expo a) (expo b) in
  Z.compare (signed_coeff a * 10 ^ (expo a - e)) (signed_coeff b * 10 ^ (expo b - e)).

Definition gtb (a b : t) : bool := match cmp a b with Gt => true | _ => false end.
Definition ltb (a b : t) : bool := match cmp a b with Lt => true | _ => false end.
Definition leb (a b : t) : bool := negb (gtb a b).

Definition zero : t := mk false 0%N 0.

(** The rational number a Decimal denotes. *)
Definition to_Q (d : t) : Q := inject_Z (signed_coeff d) * inject_Z 10 ^ expo d.

End Decimal.

(* ================================================================== *)
(** * float: IEEE-754 binary64 *)
(* ================================================================== *)

Module Float.

Definition t : Type := spec_float.

Definition prec : Z := 53.
Definition emax : Z := 1024.

Definition zero : t := S754_zero false.
Definition inf : t := S754_infinity false.

(** The float nearest to an integer (ties to even). *)
Definition of_Z (n : Z) : t := binary_normalize prec emax n 0 false.

(** Conversion of an [int] operand in mixed arithmetic; an [int] beyond
    the float range raises OverflowError. *)
Definition of_int (n : Z) : outcome t :=
  match of_Z n with
  | S754_infinity _ => Raise OverflowError
  | f => Ok f
  end.

(** The float nearest to [(-1)^s * num / den]. *)
Definition of_ratio (s : bool) (num den : positive) : t :=
  let '(mz, ez, lz) := SFdiv_core_binary prec emax (Zpos num) 0 (Zpos den) 0 in
  binary_round_aux prec emax s mz ez lz.

(** The float nearest to [(-1)^s * c * 10^e], which is what parsing the
    decimal string of this number gives. *)
Definition of_decimal_triple (s : bool) (c e : Z) : t :=
  match c with
  | Zpos p =>
      if 0 <=? e then binary_normalize prec emax ((if s then -1 else 1) * (c * 10 ^ e)) 0 false
      else of_ratio s p (Z.to_pos (10 ^ (- e)))
  | _ => S754_zero s
  end.

(** [float(d)] for a finite Decimal: [Decimal.__float__] converts through
    the string of the number. *)
Definition of_decimal (d : Decimal.t) : t :=
  of_decimal_triple (Decimal.sign d) (Decimal.cz d) (Decimal.expo d).

Definition add (x y : t) : t := SFadd prec emax x y.
Definition sub (x y : t) : t := SFsub prec emax x y.
Definition mul (x y : t) : t := SFmul prec emax x y.

Definition is_zero (x : t) : bool :=
  match x with S754_zero _ => true | _ => false end.

(** [x / y] raises ZeroDivisionError on a zero divisor. *)
Definition div (x y : t) : outcome t :=
  if is_zero y then Raise ZeroDivisionError else Ok (SFdiv prec emax x y).

Definition leb (x y : t) : bool := SFleb x y.
Definition ltb (x y : t) : bool := SFltb x y.
Definition eqb (x y : t) : bool := SFeqb x y.

(** The exact decimal expansion [c * 10^e] of a finite float
    [m * 2^ex]: every binary fraction is a decimal fraction. *)
Definition exact_decimal (m : positive) (ex : Z) : Z * Z :=
  if 0 <=? ex then (Zpos m * 2 ^ ex, 0) else (Zpos m * 5 ^ (- ex), ex).

(** [round(x, ndigits)]: the exact value of [x] is rounded half-even to
    [ndigits] places after the decimal point and the decimal result is
    converted back to the nearest float; infinities and NaN round to
    themselves. *)
Definition round (x : t) (ndigits : Z) : t :=
  match x with
  | S754_finite s m ex =>
      let '(c, e) := exact_decimal m ex in
      let k := - e - ndigits in
      if k <=? 0 then x
      else
        let q := c / 10 ^ k in
        let q := if 0 <? Decimal.round_half_even c k then q + 1 else q in
        of_decimal_triple s q (- ndigits)
  | _ => x
  end.

(** Is [x] an odd integer?  (DOUBLE_IS_ODD_INTEGER of floatobject.c) *)
Definition is_odd_integer (x : t) : bool :=
  match x with
  | S754_finite _ m ex =>
      if 0 <? ex then false
      else (Zpos m mod 2 ^ (- ex) =? 0) && Z.odd (Zpos m / 2 ^ (- ex))
  | _ => false
  end.

Definition is_nan (x : t) : bool :=
  match x with S754_nan => true | _ => false end.
Definition is_inf (x : t) : bool :=
  match x with S754_infinity _ => true | _ => false end.
Definition sign_bit (x : t) : bool :=
  match x with
  | S754_zero s | S754_infinity s | S754_finite s _ _ => s
  | S754_nan => false
  end.

End Float.

(* ================================================================== *)
(** * str: strings of code points below 256 *)
(* ================================================================== *)

Module Str.

Local Open Scope string_scope.
Local Open Scope Z_scope.

Definition code (c : ascii) : N := N_of_ascii c.

(** [str.isspace] on one character (the same class is [\s] in a [re]
    pattern and what [str.strip] removes). *)
Definition is_space (c : ascii) : bool :=
  let n := code c in
  ((9 <=? n) && (n <=? 13) || (28 <=? n) && (n <=? 32)
   || (n =? 133) || (n =? 160))%N.

(** A decimal digit ([\d]); below 256 these are the ASCII digits. *)
Definition is_digit (c : ascii) : bool :=
  let n := code c in ((48 <=? n) && (n <=? 57))%N.

Definition digit_value (c : ascii) : Z := Z.of_N (code c) - 48.

(** [str.lower] on one character. *)
Definition lower_char (c : ascii) : ascii :=
  let n := code c in
  if ((65 <=? n) && (n <=? 90) || (192 <=? n) && (n <=? 222) && negb (n =? 215))%N
  then ascii_of_N (n + 32) else c.

Fixpoint lower (s : string) : string :=
  match s with
  | EmptyString => EmptyString
  | String c r => String (lower_char c) (lower r)
  end.

Fixpoint lstrip (s : string) : string :=
  match s with
  | String c r => if is_space c then lstrip r else s
  | EmptyString => EmptyString
  end.

Fixpoint rev_acc (s acc : string) : string :=
  match s with
  | EmptyString => acc
  | String c r => rev_acc r (String c acc)
  end.

Definition rev (s : string) : string := rev_acc s EmptyString.

Definition rstrip (s : string) : string := rev (lstrip (rev s)).

(** [s.strip()] *)
Definition strip (s : string) : string := rstrip (lstrip s).

(** Remove every character satisfying [p]: [s.replace(c, "")] for a
    one-character [c], and [re.sub] of a character class by the empty
    string. *)
Fixpoint remove (p : ascii -> bool) (s : string) : string :=
  match s with
  | EmptyString => EmptyString
  | String c r => if p c then remove p r else String c (remove p r)
  end.

Definition is_char (a : ascii) (c : ascii) : bool := Ascii.eqb a c.

Fixpoint contains_char (a : ascii) (s : string) : bool :=
  match s with
  | EmptyString => false
  | String c r => Ascii.eqb a c || contains_char a r
  end.

(** [sep.join(items)] *)
Fixpoint join (sep : string) (items : list string) : string :=
  match items with
  | [] => ""
  | [x] => x
  | x :: rest => x ++ sep ++ join sep rest
  end.

(** The longest prefix of digits and what follows it. *)
Fixpoint span_digits (s : string) : string * string :=
  match s with
  | String c r =>
      if is_digit c then let '(d, rest) := span_digits r in (String c d, rest)
      else (EmptyString, s)
  | EmptyString => (EmptyString, EmptyString)
  end.

(** The number a string of digits denotes (0 for the empty string). *)
Fixpoint digits_value_acc (s : string) (acc : Z) : Z :=
  match s with
  | EmptyString => acc
  | String c r => digits_value_acc r (10 * acc + digit_value c)
  end.

Definition digits_value (s : string) : Z := digits_value_acc s 0.

Definition digit_char (d : Z) : ascii := ascii_of_N (Z.to_N (48 + d)).

(** [str(n)] for a non-negative [int]. *)
Fixpoint of_nonneg_aux (fuel : nat) (n : Z) (acc : string) : string :=
  match fuel with
  | O => acc
  | S f =>
      let acc := String (digit_char (n mod 10)) acc in
      if (n <? 10)%Z then acc else of_nonneg_aux f (n / 10) acc
  end.

Definition of_nonneg (n : Z) : string :=
  of_nonneg_aux (S (Z.to_nat (Z.log2 n))) n "".

(** [str(n)] for an [int] of at most 4300 digits.  That is the default
    limit of CPython on the conversions between [int] and [str]: beyond
    it [str(n)] raises ValueError, which this function does not model. *)
Definition of_int (n : Z) : string :=
  if (n <? 0)%Z then "-" ++ of_nonneg (- n) else of_nonneg n.

Fixpoint repeat (c : ascii) (n : nat) : string :=
  match n with
  | O => ""
  | S k => String c (repeat c k)
  end.

(** Every character of the string satisfies [p]. *)
Fixpoint all_chars (p : ascii -> bool) (s : string) : bool :=
  match s with
  | "" => true
  | String c r => p c && all_chars p r
  end.

(** [needle in haystack]: the haystack is [pre ++ needle ++ post]. *)
Definition occurs_in (needle haystack : string) : Prop :=
  exists pre post, haystack = pre ++ needle ++ post.

End Str.

(* ================================================================== *)
(** * Decimal(str) and str(float) *)
(* ================================================================== *)

Module DecimalStr.

Local Open Scope string_scope.
Local Open Scope Z_scope.

(** What the Decimal constructor can build from a string. *)
Inductive value : Type :=
| Finite (d : Decimal.t)
| Infinity (s : bool)
| NaN (s : bool) (signaling : bool) (payload : Z).

Definition starts_with (p s : string) : option string :=
  if String.prefix p s then Some (substring (length p) ((length s - length p)%nat) s)
  else None.

(** The optional exponent part [(E[-+]?\d+)?] followed by the end of the
    string; the argument is lower-cased. *)
Definition parse_exponent (s : string) : option Z :=
  match s with
  | "" => Some 0%Z
  | String "e" r =>
      let '(neg, r) :=
        match r with
        | String "-" r' => (true, r')
        | String "+" r' => (false, r')
        | _ => (false, r)
        end in
      let '(ds, rest) := Str.span_digits r in
      match ds, rest with
      | String _ _, "" => Some (if neg then - Str.digits_value ds else Str.digits_value ds)%Z
      | _, _ => None
      end
  | _ => None
  end.

(** The numeric alternative of the parser: digits with an optional
    fraction and an optional exponent, at least one digit in all. *)
Definition parse_number (s : bool) (body : string) : option value :=
  let '(intpart, r1) := Str.span_digits body in
  let '(fracpart, r2) :=
    match r1 with
    | String "." r => Str.span_digits r
    | _ => ("", r1)
    end in
  match intpart ++ fracpart with
  | "" => None
  | digits =>
      match parse_exponent r2 with
      | Some e =>
          Some (Finite (Decimal.mkz s (Str.digits_value digits)
                                    (e - Z.of_nat (length fracpart))))
      | None => None
      end
  end.

(** [Decimal(text)]: [None] stands for the ConversionSyntax condition,
    which the callers see as InvalidOperation. *)
Definition parse (text : string) : option value :=
  let v := Str.remove (Str.is_char "_") (Str.strip text) in
  let '(s, body) :=
    match v with
    | String "-" r => (true, r)
    | String "+" r => (false, r)
    | _ => (false, v)
    end in
  let body := Str.lower body in
  if String.eqb body "inf" || String.eqb body "infinity" then Some (Infinity s)
  else
    match starts_with "snan" body, starts_with "nan" body with
    | Some diag, _ =>
        match Str.span_digits diag with
        | (ds, "") => Some (NaN s true (Str.digits_value ds))
        | _ => None
        end
    | None, Some diag =>
        match Str.span_digits diag with
        | (ds, "") => Some (NaN s false (Str.digits_value ds))
        | _ => None
        end
    | None, None => parse_number s body
    end.

End DecimalStr.

Module FloatStr.

Local Open Scope string_scope.
Local Open Scope Z_scope.

(** The digits and the decimal exponent of the shortest decimal numeral
    that converts back to the positive float [m * 2^ex], the nearest one
    when several have that length: the numeral is [digits * 10^e10]. *)
Fixpoint shortest_from (lengths : list Z) (x : Float.t) (c ed : Z) : Z * Z :=
  match lengths with
  | [] => (c, ed)
  | nd :: more =>
      let k := Decimal.ndigits c - nd in
      if k <=? 0 then (c, ed)
      else
        let lo := c / 10 ^ k in
        let r := c mod 10 ^ k in
        let lo_ok := Float.eqb (Float.of_decimal_triple false lo (ed + k)) x in
        let hi_ok := Float.eqb (Float.of_decimal_triple false (lo + 1) (ed + k)) x in
        let up := (10 ^ k <? 2 * r) || ((10 ^ k =? 2 * r) && Z.odd lo) in
        if lo_ok && hi_ok then ((if up then lo + 1 else lo), ed + k)
        else if lo_ok then (lo, ed + k)
        else if hi_ok then (lo + 1, ed + k)
        else shortest_from more x c ed
  end.

Definition shortest (m : positive) (ex : Z) : Z * Z :=
  let '(c, ed) := Float.exact_decimal m ex in
  let '(d, e10) := shortest_from (range 1 18) (S754_finite false m ex) c ed in
  Decimal.strip_zeros (Z.to_nat (Decimal.ndigits d)) d e10.

Definition sign_prefix (s : bool) : string := if s then "-" else "".

(** The exponent of the [e] notation: a sign and at least two digits. *)
Definition exponent_text (e : Z) : string :=
  (if e <? 0 then "e-" else "e+")%Z ++
  (if (Z.abs e <? 10)%Z then "0" else "") ++ Str.of_nonneg (Z.abs e).

(** [repr(x)], which is also [str(x)]. *)
Definition repr (x : Float.t) : string :=
  match x with
  | S754_nan => "nan"
  | S754_infinity s => sign_prefix s ++ "inf"
  | S754_zero s => sign_prefix s ++ "0.0"
  | S754_finite s m ex =>
      let '(d, e10) := shortest m ex in
      let ds := Str.of_nonneg d in
      let n := Z.of_nat (length ds) in
      let decpt := (n + e10)%Z in
      sign_prefix s ++
      (if (decpt <=? -4)%Z || (16 <? decpt)%Z then
         String.substring 0%nat 1%nat ds ++
         (if (1 <? n)%Z then "." ++ String.substring 1%nat (length ds - 1)%nat ds else "") ++
         exponent_text (decpt - 1)
       else if (decpt <=? 0)%Z then
         "0." ++ Str.repeat "0" (Z.to_nat (- decpt)) ++ ds
       else if (n <=? decpt)%Z then
         ds ++ Str.repeat "0" (Z.to_nat (decpt - n)) ++ ".0"
       else
         String.substring 0%nat (Z.to_nat decpt) ds ++ "." ++
         String.substring (Z.to_nat decpt) (length ds - Z.to_nat decpt)%nat ds)
  end.

(** Group the digits of an integer numeral in threes with commas. *)
Fixpoint group_thousands_rev (s : string) (count : nat) (acc : string) : string :=
  match s with
  | "" => acc
  | String c r =>
      match count with
      | 3%nat => group_thousands_rev r 1%nat (String c (String "," acc))
      | _ => group_thousands_rev r (S count) (String c acc)
      end
  end.

Definition group_thousands (s : string) : string :=
  group_thousands_rev (Str.rev s) 0%nat "".

(** [format(x, ",.<places>f")] (with [commas]) or [format(x, ".<places>f")]:
    the exact value rounded half-even to [places] decimals. *)
Definition format_fixed (commas : bool) (places : Z) (x : Float.t) : string :=
  let render (s : bool) (q : Z) : string :=
    let unit := (10 ^ places)%Z in
    let ip := Str.of_nonneg (q / unit) in
    let fp := Str.of_nonneg (q mod unit) in
    sign_prefix s ++ (if commas then group_thousands ip else ip) ++
    (if (0 <? places)%Z
     then "." ++ Str.repeat "0" (Z.to_nat places - length fp)%nat ++ fp
     else "") in
  match x with
  | S754_nan => "nan"
  | S754_infinity s => sign_prefix s ++ "inf"
  | S754_zero s => render s 0%Z
  | S754_finite s m ex =>
      let '(c, e) := Float.exact_decimal m ex in
      let k := (- e - places)%Z in
      if (k <=? 0)%Z then render s (c * 10 ^ (- k))%Z
      else
        let q := (c / 10 ^ k)%Z in
        render s (if (0 <? Decimal.round_half_even c k)%Z then q + 1 else q)%Z
  end.

End FloatStr.

(* ================================================================== *)
(** * calculator.py *)
(* ================================================================== *)

(** The two functions of the C library the engine reaches through
    [math.log] and [float.__pow__].  Their results depend on the platform,
    so the engine is modelled over an arbitrary one.  [libm_pow] is called
    on a finite positive base other than 1 and a finite non-zero exponent
    and includes the errno protocol of [float_pow]: a range error is
    OverflowError. *)
Record Platform : Type := {
  libm_log : Float.t -> Float.t;
  libm_pow : Float.t -> Float.t -> outcome Float.t
}.

Module Calculator.

Local Open Scope string_scope.
Local Open Scope Z_scope.

(** Data for a single year in the projection. *)
Record YearlySnapshot : Type := {
  year : Z;
  balance : Decimal.t;
  interest_earned : Decimal.t;
  contributions_ytd : Decimal.t;
  ytd_growth_pct : Float.t;
  cumulative_interest : Decimal.t
}.

(** Complete projection results. *)
Record ProjectionResult : Type := {
  principal : Decimal.t;
  final_amount : Decimal.t;
  total_interest : Decimal.t;
  total_contributions : Decimal.t;
  effective_apy : DecimalStr.value;
  doubling_time : Float.t;
  rate : Decimal.t;
  years : Z;
  compound_freq : Z;
  contribution : Decimal.t;
  contribution_freq : Z;
  yearly_breakdown : list YearlySnapshot
}.

(** [Decimal("0.01")] and [Decimal("0")]. *)
Definition cent : Decimal.t := Decimal.mk false 1 (-2).
Definition dec0 : Decimal.t := Decimal.mk false 0 0.

(** Round to 2 decimal places for currency. *)
Definition _round_currency (value : Decimal.t) : outcome Decimal.t :=
  Decimal.quantize value (Decimal.expo cent) Decimal.ROUND_HALF_UP.

(** [a // b] on [int]s. *)
Definition floordiv (a b : Z) : outcome Z :=
  if b =? 0 then Raise ZeroDivisionError else Ok (a / b).

Definition one : Float.t := Float.of_Z 1.

(** [except ZeroDivisionError] also catches the decimal signal
    DivisionByZero, which is a subclass of it. *)
Definition is_ZeroDivisionError (e : exn) : bool :=
  match e with
  | ZeroDivisionError | DivisionByZero => true
  | _ => false
  end.

Definition is_ValueError (e : exn) : bool :=
  match e with
  | ValueError _ => true
  | _ => false
  end.

Section Engine.

Variable libm : Platform.

(** [math.log(x)] *)
Definition math_log (x : Float.t) : outcome Float.t :=
  match x with
  | S754_nan => Ok x
  | S754_infinity false => Ok x
  | S754_finite false _ _ => Ok (libm_log libm x)
  | _ => Raise (ValueError "math domain error")
  end.

(** [v ** w] for floats, where [w] is an integer converted to float (a
    negative base with a fractional exponent does not occur). *)
Definition float_pow (v w : Float.t) : outcome Float.t :=
  if Float.is_zero w then Ok one
  else if Float.is_nan v then Ok v
  else if Float.is_nan w then Ok (if Float.eqb v one then one else w)
  else if Float.is_inf w then
    let av := SFabs v in
    if Float.eqb av one then Ok one
    else if Bool.eqb (Float.ltb Float.zero w) (Float.ltb one av) then Ok Float.inf
    else Ok Float.zero
  else if Float.is_inf v then
    let odd := Float.is_odd_integer w in
    if Float.ltb Float.zero w then Ok (if odd then v else SFabs v)
    else Ok (if odd then S754_zero (Float.sign_bit v) else Float.zero)
  else if Float.is_zero v then
    if Float.ltb w Float.zero then Raise ZeroDivisionError
    else Ok (if Float.is_odd_integer w then v else Float.zero)
  else
    let negate_result := Float.ltb v Float.zero && Float.is_odd_integer w in
    let av := SFabs v in
    if Float.eqb av one then Ok (if negate_result then SFopp one else one)
    else
      ix <- libm_pow libm av w ;;
      Ok (if negate_result then SFopp ix else ix).

(** Calculate effective annual percentage yield.
    APY = (1 + r/n)^n - 1 *)
Definition calculate_effective_apy (rate : Decimal.t) (compound_freq : Z)
  : outcome DecimalStr.value :=
  let r := Float.of_decimal rate in
  let n := compound_freq in
  nf <- Float.of_int n ;;
  q <- Float.div r nf ;;
  p <- float_pow (Float.add one q) nf ;;
  let apy := Float.sub p one in
  match DecimalStr.parse (FloatStr.repr apy) with
  | Some v => Ok v
  | None => Raise InvalidOperation
  end.

(** The body of the [try] block of [calculate_doubling_time]:
    t = ln(2) / (n * ln(1 + r/n)), rounded to one decimal. *)
Definition closed_form_doubling_time (r : Float.t) (n : Z) : outcome Float.t :=
  l2 <- math_log (Float.of_Z 2) ;;
  nf <- Float.of_int n ;;
  q <- Float.div r nf ;;
  l <- math_log (Float.add one q) ;;
  t <- Float.div l2 (Float.mul nf l) ;;
  Ok (Float.round t 1).

(** The [except] branch: the Rule of 72. *)
Definition rule_of_72 (r : Float.t) : outcome Float.t :=
  t <- Float.div (Float.of_Z 72) (Float.mul r (Float.of_Z 100)) ;;
  Ok (Float.round t 1).

(** Calculate time to double using the exact formula. *)
Definition calculate_doubling_time (rate : Decimal.t) (compound_freq : Z)
  : outcome Float.t :=
  let r := Float.of_decimal rate in
  let n := compound_freq in
  if Float.leb r Float.zero then Ok Float.inf
  else
    match closed_form_doubling_time r n with
    | Ok t => Ok t
    | Raise e =>
        if is_ValueError e || is_ZeroDivisionError e then rule_of_72 r
        else Raise e
    end.

(** The variables the inner loop updates. *)
Record PeriodState : Type := {
  p_balance : Decimal.t;
  p_year_interest : Decimal.t;
  p_year_contributions : Decimal.t;
  p_total_contributions : Decimal.t
}.

(** The variables the outer loop updates. *)
Record YearState : Type := {
  y_balance : Decimal.t;
  y_total_contributions : Decimal.t;
  y_cumulative_interest : Decimal.t;
  y_breakdown : list YearlySnapshot
}.

Section Simulation.

Variables (period_rate contribution : Decimal.t).
Variables (compound_freq contribution_freq : Z).

(** One compounding period: the body of [for period in
    range(compound_freq)]. *)
Definition period_body (s : PeriodState) (period : Z) : outcome PeriodState :=
  interest <- Decimal.mul (p_balance s) period_rate ;;
  balance <- Decimal.add (p_balance s) interest ;;
  year_interest <- Decimal.add (p_year_interest s) interest ;;
  if Decimal.gtb contribution (Decimal.of_int 0) then
    q <- floordiv compound_freq contribution_freq ;;
    let periods_per_contribution := if q =? 0 then 1 else q in
    if (period + 1) mod periods_per_contribution =? 0 then
      let contrib_this_period := contribution in
      balance <- Decimal.add balance contrib_this_period ;;
      year_contributions <- Decimal.add (p_year_contributions s) contrib_this_period ;;
      total_contributions <- Decimal.add (p_total_contributions s) contrib_this_period ;;
      Ok {| p_balance := balance;
            p_year_interest := year_interest;
            p_year_contributions := year_contributions;
            p_total_contributions := total_contributions |}
    else
      Ok {| p_balance := balance;
            p_year_interest := year_interest;
            p_year_contributions := p_year_contributions s;
            p_total_contributions := p_total_contributions s |}
  else
    Ok {| p_balance := balance;
          p_year_interest := year_interest;
          p_year_contributions := p_year_contributions s;
          p_total_contributions := p_total_contributions s |}.

(** The YTD growth percentage of a year, before it is rounded. *)
Definition ytd_growth_of (year_interest year_start_balance : Decimal.t)
  : outcome Float.t :=
  if Decimal.gtb year_start_balance (Decimal.of_int 0) then
    q <- Decimal.div year_interest year_start_balance ;;
    Ok (Float.mul (Float.of_decimal q) (Float.of_Z 100))
  else Ok (S754_zero false).

(** One simulated year: the body of [for year in range(1, years + 1)]. *)
Definition year_body (s : YearState) (year : Z) : outcome YearState :=
  let year_start_balance := y_balance s in
  p <- for_each period_body (range 0 compound_freq)
         {| p_balance := y_balance s;
            p_year_interest := dec0;
            p_year_contributions := dec0;
            p_total_contributions := y_total_contributions s |} ;;
  cumulative_interest <- Decimal.add (y_cumulative_interest s) (p_year_interest p) ;;
  ytd_growth <- ytd_growth_of (p_year_interest p) year_start_balance ;;
  b <- _round_currency (p_balance p) ;;
  ie <- _round_currency (p_year_interest p) ;;
  cy <- _round_currency (p_year_contributions p) ;;
  ci <- _round_currency cumulative_interest ;;
  Ok {| y_balance := p_balance p;
        y_total_contributions := p_total_contributions p;
        y_cumulative_interest := cumulative_interest;
        y_breakdown :=
          (y_breakdown s ++
           [ {| year := year;
                balance := b;
                interest_earned := ie;
                contributions_ytd := cy;
                ytd_growth_pct := Float.round ytd_growth 2;
                cumulative_interest := ci |} ])%list |}.

End Simulation.

(** Calculate compound interest with optional regular contributions. *)
Definition calculate_compound_interest
    (principal rate : Decimal.t) (years compound_freq : Z)
    (contribution : Decimal.t) (contribution_freq : Z)
  : outcome ProjectionResult :=
  period_rate <- Decimal.div rate (Decimal.of_int compound_freq) ;;
  s <- for_each (year_body period_rate contribution compound_freq contribution_freq)
         (range 1 (years + 1))
         {| y_balance := principal;
            y_total_contributions := dec0;
            y_cumulative_interest := dec0;
            y_breakdown := [] |} ;;
  final_amount <- _round_currency (y_balance s) ;;
  total_interest <- _round_currency (y_cumulative_interest s) ;;
  effective_apy <- calculate_effective_apy rate compound_freq ;;
  doubling_time <- calculate_doubling_time rate compound_freq ;;
  total_contributions <- _round_currency (y_total_contributions s) ;;
  Ok {| principal := principal;
        final_amount := final_amount;
        total_interest := total_interest;
        total_contributions := total_contributions;
        effective_apy := effective_apy;
        doubling_time := doubling_time;
        rate := rate;
        years := years;
        compound_freq := compound_freq;
        contribution := contribution;
        contribution_freq := contribution_freq;
        yearly_breakdown := y_breakdown s |}.

End Engine.

End Calculator.

(* ================================================================== *)
(** * utils.py *)
(* ================================================================== *)

Module Utils.

Local Open Scope string_scope.
Local Open Scope Z_scope.

(** A dict keeps its insertion order, which [keys()] exposes. *)
Definition FREQUENCY_MAP : list (string * Z) :=
  [ ("daily", 365);
    ("weekly", 52);
    ("biweekly", 26);
    ("monthly", 12);
    ("quarterly", 4);
    ("semiannually", 2);
    ("annually", 1);
    ("yearly", 1) ].

(** [d.get(key)] on an insertion-ordered dict. *)
Fixpoint lookup (key : string) (d : list (string * Z)) : option Z :=
  match d with
  | [] => None
  | (k, v) :: rest => if String.eqb key k then Some v else lookup key rest
  end.

Definition keys (d : list (string * Z)) : list string := map fst d.

(** The digits of an integer literal with single underscores between
    digits, as [int(str)] accepts them; [prev_digit] tells whether the
    previous character was a digit. *)
Fixpoint int_digits (s : string) (prev_digit : bool) (acc : Z) : option Z :=
  match s with
  | "" => if prev_digit then Some acc else None
  | String c r =>
      if Str.is_digit c then int_digits r true (10 * acc + Str.digit_value c)
      else if Ascii.eqb c "_" && prev_digit then int_digits r false acc
      else None
  end.

(** [int(text)] in base 10: surrounding whitespace, an optional sign,
    then digits.  [None] is ValueError.  A literal of more than 4300
    digits, which CPython refuses with ValueError by default, is read
    like any other: the limit is not modelled. *)
Definition py_int (text : string) : option Z :=
  let s := Str.strip text in
  let '(neg, body) :=
    match s with
    | String "-" r => (true, r)
    | String "+" r => (false, r)
    | _ => (false, s)
    end in
  match int_digits body false 0 with
  | Some n => Some (if neg then - n else n)
  | None => None
  end.

(** [Decimal(text)] for the texts of finite numbers.  For the text of an
    infinity or of a NaN Python returns a special Decimal and the program
    goes on with it; the arithmetic of special values is not modelled, so
    such a run leaves the modelled fragment here: [Raise SpecialValue]
    marks it and stands for no exception of Python. *)
Definition finite_decimal (text : string) : outcome Decimal.t :=
  match DecimalStr.parse text with
  | Some (DecimalStr.Finite d) => Ok d
  | Some _ => Raise SpecialValue
  | None => Raise InvalidOperation
  end.

(** The argument of [parse_rate]: [str | float | Decimal] (an [int] takes
    the branch of [float]). *)
Inductive rate_arg : Type :=
| RateStr (s : string)
| RateInt (n : Z)
| RateFloat (x : Float.t)
| RateDecimal (d : Decimal.t).

Definition percent_or_fraction (below_one : bool) (d : Decimal.t) : outcome Decimal.t :=
  if below_one then Ok d else Decimal.div d (Decimal.of_int 100).

(** Parse a rate from various formats. *)
Definition parse_rate (value : rate_arg) : outcome Decimal.t :=
  match value with
  | RateDecimal d =>
      percent_or_fraction (Decimal.ltb d (Decimal.of_int 1)) d
  | RateInt n =>
      d <- finite_decimal (Str.of_int n) ;;
      percent_or_fraction (n <? 1) d
  | RateFloat x =>
      d <- finite_decimal (FloatStr.repr x) ;;
      percent_or_fraction (Float.ltb x (Float.of_Z 1)) d
  | RateStr s =>
      let value := Str.strip s in
      if Str.contains_char "%" value then
        num <- finite_decimal
                 (Str.remove (fun c => Ascii.eqb c "%" || Str.is_space c) value) ;;
        Decimal.div num (Decimal.of_int 100)
      else
        num <- finite_decimal value ;;
        percent_or_fraction (Decimal.ltb num (Decimal.of_int 1)) num
  end.

(** The message of the ValueError of [parse_frequency]. *)
Definition invalid_frequency_message (value : string) : string :=
  let valid := Str.join ", " (keys FREQUENCY_MAP) in
  "Invalid frequency '" ++ value ++ "'. Use: " ++ valid ++ " or an integer.".

(** The argument of [parse_frequency]: [str | int]. *)
Inductive frequency_arg : Type :=
| FreqStr (s : string)
| FreqInt (n : Z).

(** Parse compounding frequency from string or int. *)
Definition parse_frequency (value : frequency_arg) : outcome Z :=
  match value with
  | FreqInt n => Ok n
  | FreqStr s =>
      let value := Str.lower (Str.strip s) in
      match lookup value FREQUENCY_MAP with
      | Some n => Ok n
      | None =>
          match py_int value with
          | Some n => Ok n
          | None => Raise (ValueError (invalid_frequency_message value))
          end
      end
  end.

(** Format a number as currency with commas and 2 decimal places. *)
Definition format_currency_float (amount : Float.t) (symbol : string) : string :=
  symbol ++ FloatStr.format_fixed true 2 amount.

Definition format_currency (amount : Decimal.t) : string :=
  format_currency_float (Float.of_decimal amount) "$".

End Utils.

(* ================================================================== *)
(** * formatters *)
(* ================================================================== *)

Module Formatters.

Import Calculator.
Local Open Scope string_scope.
Local Open Scope Z_scope.

(** Options controlling output rendering. *)
Record RenderOptions : Type := {
  show_chart : bool;
  show_table : bool;
  quiet : bool
}.

Definition dquote : string := String (ascii_of_N 34) "".
Definition CR : ascii := ascii_of_N 13.
Definition LF : ascii := ascii_of_N 10.
Definition CRLF : string := String CR (String LF "").

(** ** csv.writer with the default (excel) dialect *)

(** A cell of a row: what [writerow] receives. *)
Inductive cell : Type :=
| CStr (s : string)
| CInt (n : Z)
| CFloat (x : Float.t).

Definition cell_text (c : cell) : string :=
  match c with
  | CStr s => s
  | CInt n => Str.of_int n
  | CFloat x => FloatStr.repr x
  end.

Fixpoint needs_quotes (s : string) : bool :=
  match s with
  | "" => false
  | String c r =>
      Ascii.eqb c "," || Ascii.eqb c (ascii_of_N 34) || Ascii.eqb c CR
      || Ascii.eqb c LF || needs_quotes r
  end.

Fixpoint double_quotes (s : string) : string :=
  match s with
  | "" => ""
  | String c r =>
      if Ascii.eqb c (ascii_of_N 34) then String c (String c (double_quotes r))
      else String c (double_quotes r)
  end.

(** QUOTE_MINIMAL: a field is quoted when it holds a delimiter, a quote
    or a line break, and a row made of one empty field is quoted too. *)
Definition csv_field (alone : bool) (s : string) : string :=
  if needs_quotes s || (alone && String.eqb s "")
  then dquote ++ double_quotes s ++ dquote
  else s.

(** [writer.writerow(cells)]: the line appended to the output. *)
Definition writerow (cells : list cell) : string :=
  let alone := match cells with [_] => true | _ => false end in
  Str.join "," (map (fun c => csv_field alone (cell_text c)) cells) ++ CRLF.

(** The rows [CsvFormatter.render] writes, in order. *)
Definition csv_header : list cell :=
  [ CStr "year"; CStr "balance"; CStr "interest_earned";
    CStr "contributions_ytd"; CStr "ytd_growth_pct"; CStr "cumulative_interest" ].

Definition csv_data_row (snap : YearlySnapshot) : list cell :=
  [ CInt (year snap);
    CFloat (Float.of_decimal (balance snap));
    CFloat (Float.of_decimal (interest_earned snap));
    CFloat (Float.of_decimal (contributions_ytd snap));
    CFloat (ytd_growth_pct snap);
    CFloat (Float.of_decimal (cumulative_interest snap)) ].

Definition csv_rows (result : ProjectionResult) (options : RenderOptions)
  : list (list cell) :=
  if quiet options then
    [ [ CStr "final_amount" ];
      [ CFloat (Float.of_decimal (final_amount result)) ] ]
  else
    csv_header :: map csv_data_row (yearly_breakdown result).

(** [CsvFormatter.render]: render projection as CSV. *)
Definition csv_render (result : ProjectionResult) (options : RenderOptions)
  : string :=
  String.concat "" (map writerow (csv_rows result options)).

(** ** json.dumps *)

(** The JSON documents the formatter builds: numbers, objects with
    string keys in insertion order, and arrays. *)
#[local] Unset Elimination Schemes.
Inductive json : Type :=
| JInt (n : Z)
| JFloat (x : Float.t)
| JObject (fields : list (string * json))
| JArray (items : list json).
#[local] Set Elimination Schemes.

(** Floats use [float.__repr__], and the three non-finite values their
    JavaScript names. *)
Definition json_float (x : Float.t) : string :=
  match x with
  | S754_nan => "NaN"
  | S754_infinity false => "Infinity"
  | S754_infinity true => "-Infinity"
  | _ => FloatStr.repr x
  end.

Definition json_key (k : string) : string := dquote ++ k ++ dquote.

(** [json.dumps(v)] with the default separators and no indent. *)
Fixpoint dumps (v : json) : string :=
  match v with
  | JInt n => Str.of_int n
  | JFloat x => json_float x
  | JObject fields =>
      "{" ++ Str.join ", "
               (map (fun kv => json_key (fst kv) ++ ": " ++ dumps (snd kv)) fields)
          ++ "}"
  | JArray items => "[" ++ Str.join ", " (map dumps items) ++ "]"
  end.

Definition newline_indent (level : nat) : string :=
  String LF (Str.repeat " " (2 * level)).

(** [json.dumps(v, indent=2)] at a nesting level. *)
Fixpoint dumps_indent (level : nat) (v : json) : string :=
  match v with
  | JInt n => Str.of_int n
  | JFloat x => json_float x
  | JObject [] => "{}"
  | JObject fields =>
      "{" ++ newline_indent (S level)
          ++ Str.join ("," ++ newline_indent (S level))
               (map (fun kv => json_key (fst kv) ++ ": "
                               ++ dumps_indent (S level) (snd kv)) fields)
          ++ newline_indent level ++ "}"
  | JArray [] => "[]"
  | JArray items =>
      "[" ++ newline_indent (S level)
          ++ Str.join ("," ++ newline_indent (S level))
               (map (dumps_indent (S level)) items)
          ++ newline_indent level ++ "]"
  end.

(** [float(d)] for what the Decimal constructor built. *)
Definition float_of_value (v : DecimalStr.value) : outcome Float.t :=
  match v with
  | DecimalStr.Finite d => Ok (Float.of_decimal d)
  | DecimalStr.Infinity s => Ok (S754_infinity s)
  | DecimalStr.NaN _ false _ => Ok S754_nan
  | DecimalStr.NaN _ true _ =>
      Raise (ValueError "Cannot convert signaling NaN to float")
  end.

Definition json_snapshot (snap : YearlySnapshot) : json :=
  JObject
    [ ("year", JInt (year snap));
      ("balance", JFloat (Float.of_decimal (balance snap)));
      ("interest_earned", JFloat (Float.of_decimal (interest_earned snap)));
      ("contributions_ytd", JFloat (Float.of_decimal (contributions_ytd snap)));
      ("ytd_growth_pct", JFloat (ytd_growth_pct snap));
      ("cumulative_interest", JFloat (Float.of_decimal (cumulative_interest snap))) ].

(** The document [JsonFormatter.render] serialises. *)
Definition json_document (result : ProjectionResult) (options : RenderOptions)
  : outcome json :=
  if quiet options then
    Ok (JObject [ ("final_amount", JFloat (Float.of_decimal (final_amount result))) ])
  else
    apy <- float_of_value (effective_apy result) ;;
    Ok (JObject
          [ ("summary",
              JObject
                [ ("principal", JFloat (Float.of_decimal (principal result)));
                  ("final_amount", JFloat (Float.of_decimal (final_amount result)));
                  ("total_interest", JFloat (Float.of_decimal (total_interest result)));
                  ("total_contributions",
                     JFloat (Float.of_decimal (total_contributions result)));
                  ("effective_apy", JFloat apy);
                  ("doubling_time_years", JFloat (doubling_time result)) ]);
            ("parameters",
              JObject
                [ ("rate", JFloat (Float.of_decimal (rate result)));
                  ("years", JInt (years result));
                  ("compound_frequency", JInt (compound_freq result));
                  ("contribution", JFloat (Float.of_decimal (contribution result)));
                  ("contribution_frequency", JInt (contribution_freq result)) ]);
            ("yearly_breakdown",
              JArray (map json_snapshot (yearly_breakdown result))) ]).

(** [JsonFormatter.render]: render projection as JSON. *)
Definition json_render (result : ProjectionResult) (options : RenderOptions)
  : outcome string :=
  doc <- json_document result options ;;
  Ok (if quiet options then dumps doc else dumps_indent 0 doc).

(** ** The text formatters *)

Section Text.

(** The layouts of the full reports (header box, metrics panel,
    sparkline and table of plain_fmt.py; the panels and tables of the
    rich library) are parameters: only the quiet path is studied. *)
Variable plain_report : ProjectionResult -> RenderOptions -> outcome string.
Variable rich_report : ProjectionResult -> RenderOptions -> outcome string.

(** RICH_AVAILABLE: whether the rich library could be imported. *)
Variable RICH_AVAILABLE : bool.

(** [PlainFormatter.render]: render projection as plain ASCII text. *)
Definition plain_render (result : ProjectionResult) (options : RenderOptions)
  : outcome string :=
  if quiet options then Ok (Utils.format_currency (final_amount result))
  else plain_report result options.

(** [RichFormatter.render]: render projection with rich formatting;
    without the library the formatter falls back to the plain one. *)
Definition rich_render (result : ProjectionResult) (options : RenderOptions)
  : outcome string :=
  if negb RICH_AVAILABLE then plain_render result options
  else if quiet options then Ok (Utils.format_currency (final_amount result))
  else rich_report result options.

(** The closed set of formatters. *)
Inductive formatter : Type := RichFormatter | PlainFormatter | JsonFormatter | CsvFormatter.

(** Get a formatter by name. *)
Definition get_formatter (name : string) : outcome formatter :=
  let name := Str.strip (Str.lower name) in
  if String.eqb name "rich" then Ok RichFormatter
  else if String.eqb name "plain" then Ok PlainFormatter
  else if String.eqb name "json" then Ok JsonFormatter
  else if String.eqb name "csv" then Ok CsvFormatter
  else Raise (ValueError ("Unknown formatter: " ++ name
                          ++ ". Use: rich, plain, json, csv")).

(** [formatter.render(result, options)] *)
Definition render (f : formatter) (result : ProjectionResult)
    (options : RenderOptions) : outcome string :=
  match f with
  | RichFormatter => rich_render result options
  | PlainFormatter => plain_render result options
  | JsonFormatter => json_render result options
  | CsvFormatter => Ok (csv_render result options)
  end.

End Text.

End Formatters.

(* ================================================================== *)
(** * cli.py *)
(* ================================================================== *)

Module Cli.

Import Calculator.
Local Open Scope string_scope.
Local Open Scope Z_scope.

(** The namespace [parser.parse_args] returns. *)
Record Args : Type := {
  arg_principal : string;
  arg_rate : string;
  arg_time : Z;
  arg_compound : string;
  arg_contribution : string;
  arg_contribution_freq : string;
  arg_output : string;
  arg_no_chart : bool;
  arg_no_table : bool;
  arg_quiet : bool
}.

(** The defaults of [create_parser] around a principal. *)
Definition default_args (principal : string) : Args :=
  {| arg_principal := principal;
     arg_rate := "7%";
     arg_time := 10;
     arg_compound := "monthly";
     arg_contribution := "0";
     arg_contribution_freq := "monthly";
     arg_output := "rich";
     arg_no_chart := false;
     arg_no_table := false;
     arg_quiet := false |}.

(** Parse an amount string, allowing commas and currency symbols. *)
Definition parse_amount (value : string) : outcome Decimal.t :=
  let cleaned :=
    Str.strip
      (Str.remove (Str.is_char " ")
         (Str.remove (Str.is_char ",")
            (Str.remove (Str.is_char "$") value))) in
  match Utils.finite_decimal cleaned with
  | Raise InvalidOperation => Raise (ValueError ("Invalid amount: " ++ value))
  | r => r
  end.

(** What a run of [main] leaves behind: the lines printed on the two
    streams and how it ended. *)
Inductive ending : Type :=
| Returned (code : Z)
| Uncaught (e : exn).

Record run : Type := {
  stdout : list string;
  stderr : list string;
  ended : ending
}.

Definition fail_with (warnings : list string) (message : string) : run :=
  {| stdout := []; stderr := (warnings ++ [message])%list; ended := Returned 1 |}.

Definition crash (warnings : list string) (e : exn) : run :=
  {| stdout := []; stderr := warnings; ended := Uncaught e |}.

(** The validated inputs [main] hands to the engine. *)
Record EngineInputs : Type := {
  in_principal : Decimal.t;
  in_rate : Decimal.t;
  in_years : Z;
  in_compound_freq : Z;
  in_contribution : Decimal.t;
  in_contribution_freq : Z
}.

(** The input parsing and validation of [main], up to the call of the
    engine: either the run ends here, or the engine is called with the
    inputs returned (after the warnings listed were printed).  The text
    of an [InvalidOperation] that [Decimal(text)] raises on a malformed
    rate is [[<class 'decimal.ConversionSyntax'>]]. *)
Definition validate (args : Args) : run + (list string * EngineInputs) :=
  match parse_amount (arg_principal args) with
  | Raise (ValueError msg) => inl (fail_with [] ("Error: " ++ msg))
  | Raise e => inl (crash [] e)
  | Ok principal =>
    if Decimal.ltb principal (Decimal.of_int 0)
    then inl (fail_with [] "Error: Principal cannot be negative.")
    else
    match Utils.parse_rate (Utils.RateStr (arg_rate args)) with
    | Raise (ValueError msg) => inl (fail_with [] ("Error parsing rate: " ++ msg))
    | Raise InvalidOperation =>
        inl (fail_with [] "Error parsing rate: [<class 'decimal.ConversionSyntax'>]")
    | Raise e => inl (crash [] e)
    | Ok rate =>
      let warnings :=
        if Decimal.gtb rate (Decimal.of_int 1) then
          [ "Warning: Rate "
            ++ FloatStr.format_fixed false 1
                 (Float.mul (Float.of_decimal rate) (Float.of_Z 100))
            ++ "% seems high. Did you mean " ++ arg_rate args ++ "?" ]
        else [] in
      match Utils.parse_frequency (Utils.FreqStr (arg_compound args)) with
      | Raise (ValueError msg) => inl (fail_with warnings ("Error: " ++ msg))
      | Raise e => inl (crash warnings e)
      | Ok compound_freq =>
        match parse_amount (arg_contribution args) with
        | Raise (ValueError msg) =>
            inl (fail_with warnings ("Error parsing contribution: " ++ msg))
        | Raise e => inl (crash warnings e)
        | Ok contribution =>
          if Decimal.ltb contribution (Decimal.of_int 0)
          then inl (fail_with warnings "Error: Contribution cannot be negative.")
          else
          match Utils.parse_frequency (Utils.FreqStr (arg_contribution_freq args)) with
          | Raise (ValueError msg) => inl (fail_with warnings ("Error: " ++ msg))
          | Raise e => inl (crash warnings e)
          | Ok contribution_freq =>
            if arg_time args <=? 0
            then inl (fail_with warnings "Error: Time must be positive.")
            else
              inr (warnings,
                   {| in_principal := principal;
                      in_rate := rate;
                      in_years := arg_time args;
                      in_compound_freq := compound_freq;
                      in_contribution := contribution;
                      in_contribution_freq := contribution_freq |})
          end
        end
      end
    end
  end.

Section Main.

Variable libm : Platform.
Variable plain_report : ProjectionResult -> Formatters.RenderOptions -> outcome string.
Variable rich_report : ProjectionResult -> Formatters.RenderOptions -> outcome string.
Variable RICH_AVAILABLE : bool.

(** Main entry point, from the namespace [args] that
    [parser.parse_args(argv)] returned.  The parsing of the command line,
    which prints a usage or a version message and exits on [-h],
    [--version] and malformed arguments, comes before and is not part of
    this function. *)
Definition main (args : Args) : run :=
  match validate args with
  | inl r => r
  | inr (warnings, i) =>
    match calculate_compound_interest libm
            (in_principal i) (in_rate i) (in_years i) (in_compound_freq i)
            (in_contribution i) (in_contribution_freq i) with
    | Raise e => crash warnings e
    | Ok result =>
      match Formatters.get_formatter (arg_output args) with
      | Raise (ValueError msg) => fail_with warnings ("Error: " ++ msg)
      | Raise e => crash warnings e
      | Ok formatter =>
        let options :=
          {| Formatters.show_chart := negb (arg_no_chart args);
             Formatters.show_table := negb (arg_no_table args);
             Formatters.quiet := arg_quiet args |} in
        match Formatters.render plain_report rich_report RICH_AVAILABLE
                formatter result options with
        | Raise e => crash warnings e
        | Ok output =>
            {| stdout := [output]; stderr := warnings; ended := Returned 0 |}
        end
      end
    end
  end.

End Main.

End Cli.

(* ================================================================== *)
(** * A reference platform *)
(* ================================================================== *)

(** A concrete C library, used to run the engine on concrete inputs: powers
    with an integral exponent are computed exactly and rounded once, and
    the logarithm is summed from its series in fixed point, 256 bits after
    the binary point. *)
Module RefPlatform.

Definition scale : Z := 2 ^ 256.

(** [sum of z^(2j+1) / (2j+1)], for [j] from [j0], [terms] terms; [zp] is
    the current odd power of [z] and [z2] its square, all scaled. *)
Fixpoint atanh_series (terms : nat) (j : Z) (zp z2 acc : Z) : Z :=
  match terms with
  | O => acc
  | S k => atanh_series k (j + 1) (zp * z2 / scale) z2 (acc + zp / (2 * j + 1))
  end.

(** [ln (num / den)], scaled, for [1 <= num / den <= 2]. *)
Definition ln_near_one (num den : Z) : Z :=
  let z := (num - den) * scale / (num + den) in
  2 * atanh_series 90 0 z (z * z / scale) 0.

Definition ln2 : Z := ln_near_one 2 1.

(** The logarithm of a positive finite float. *)
Definition log (x : Float.t) : Float.t :=
  match x with
  | S754_finite false m ex =>
      let d := Zpos (digits2_pos m) in
      let v := (d - 1 + ex) * ln2 + ln_near_one (Zpos m) (2 ^ (d - 1)) in
      match v with
      | Z0 => S754_zero false
      | Zpos p => Float.of_ratio false p (Z.to_pos scale)
      | Zneg p => Float.of_ratio true p (Z.to_pos scale)
      end
  | _ => S754_nan
  end.

(** The integer an integral float denotes. *)
Definition integer_of (w : Float.t) : Z :=
  match w with
  | S754_finite s m ex =>
      (if s then -1 else 1) * (if 0 <=? ex then Zpos m * 2 ^ ex else Zpos m / 2 ^ (- ex))
  | _ => 0
  end.

(** [v ** w] for a positive finite [v] and an integral [w]. *)
Definition pow (v w : Float.t) : outcome Float.t :=
  match v with
  | S754_finite false m ex =>
      let n := integer_of w in
      let k := Z.abs n in
      let r :=
        if 0 <=? n then binary_normalize Float.prec Float.emax (Zpos m ^ k) (ex * k) false
        else if 0 <=? ex then
          Float.of_ratio false 1 (Z.to_pos (Zpos m ^ k * 2 ^ (ex * k)))
        else
          Float.of_ratio false (Z.to_pos (2 ^ (- ex * k))) (Z.to_pos (Zpos m ^ k)) in
      if Float.is_inf r then Raise OverflowError else Ok r
  | _ => Ok S754_nan
  end.

Definition libm : Platform := {| libm_log := log; libm_pow := pow |}.

End RefPlatform.

(* ================================================================== *)
(** * Definitions used to state the properties *)
(* ================================================================== *)

Module Spec.

Import Calculator.
Local Open Scope string_scope.
Local Open Scope Z_scope.

(** The balance after [k] compounding periods without contributions: each
    period multiplies the balance by the period rate and adds the interest,
    both in Decimal arithmetic. *)
Fixpoint grow (period_rate b : Decimal.t) (k : nat) : outcome Decimal.t :=
  match k with
  | O => Ok b
  | S k' =>
      interest <- Decimal.mul b period_rate ;;
      b' <- Decimal.add b interest ;;
      grow period_rate b' k'
  end.

(** Did a Decimal operation return exactly the rational [q]? *)
Definition returns_exactly (r : outcome Decimal.t) (q : Q) : bool :=
  match r with
  | Ok d => Qeq_bool (Decimal.to_Q d) q
  | Raise _ => false
  end.

(** No product and no sum of [k] periods of growth is rounded. *)
Fixpoint grows_exactly (period_rate b : Decimal.t) (k : nat) : bool :=
  match k with
  | O => true
  | S k' =>
      match Decimal.mul b period_rate with
      | Ok interest =>
          Qeq_bool (Decimal.to_Q interest) (Decimal.to_Q b * Decimal.to_Q period_rate)
          && match Decimal.add b interest with
             | Ok b' =>
                 Qeq_bool (Decimal.to_Q b') (Decimal.to_Q b + Decimal.to_Q interest)
                 && grows_exactly period_rate b' k'
             | Raise _ => false
             end
      | Raise _ => false
      end
  end.

(** No Decimal operation on the way from the principal to the final
    balance is rounded: the division [rate / compound_freq] is exact and so
    is every period of the [compound_freq * years] periods. *)
Definition balance_path_exact (principal rate : Decimal.t) (years compound_freq : Z)
  : bool :=
  match Decimal.div rate (Decimal.of_int compound_freq) with
  | Ok period_rate =>
      Qeq_bool (Decimal.to_Q period_rate) (Decimal.to_Q rate / inject_Z compound_freq)
      && grows_exactly period_rate principal (Z.to_nat (compound_freq * years))
  | Raise _ => false
  end.

(** The closed form [P * (1 + r/n)^(n*Y)] over the rationals. *)
Definition compound_formula (P r : Q) (n Y : Z) : Q :=
  (P * (1 + r / inject_Z n) ^ (n * Y))%Q.

(** One unit in the last place of a coefficient of [prec] digits,
    relative to the value: [10^(1 - prec)], that is 1E-27; and the
    smallest normal magnitude of the context, [10^Emin]. *)
Definition context_ulp : Q := inject_Z 10 ^ (1 - Decimal.prec).
Definition subnormal : Q := inject_Z 10 ^ Decimal.Emin.

(** How far the roundings of the Decimal arithmetic can move the balance
    away from the closed form over [n * Y] periods: the division
    [rate / compound_freq], the product and the sum of each period are
    each rounded to [prec] digits, which costs less than four units in the
    last place per period. *)
Definition rounding_drift (P r : Q) (n Y : Z) : Q :=
  ((Qabs P + subnormal) * (1 + Qabs (r / inject_Z n) + subnormal) ^ (n * Y)
   * ((1 + context_ulp) ^ (4 * (n * Y)) - 1))%Q.

(** The contribution policy as the specification words it:
    [periods_per_contribution = max(1, compound_freq // contribution_freq)]. *)
Definition periods_per_contribution (compound_freq contribution_freq : Z) : Z :=
  Z.max 1 (compound_freq / contribution_freq).

(** Is the 1-based index of the loop index [period] divisible by the
    number of periods per contribution? *)
Definition contributes (compound_freq contribution_freq period : Z) : bool :=
  (period + 1) mod periods_per_contribution compound_freq contribution_freq =? 0.

(** The loop indices of the periods of a year that end with a
    contribution, and how many contributions that makes over the years. *)
Definition contribution_periods (compound_freq contribution_freq : Z) : list Z :=
  filter (contributes compound_freq contribution_freq) (range 0 compound_freq).

(** How many of the loop indices [items] end with a contribution. *)
Definition contributing (compound_freq contribution_freq : Z) (items : list Z) : Z :=
  Z.of_nat (List.length (filter (contributes compound_freq contribution_freq) items)).

Definition contributions_made (years compound_freq contribution_freq : Z) : Z :=
  years * Z.of_nat (List.length (contribution_periods compound_freq contribution_freq)).

(** The sum of [j] contributions when no addition is rounded: the running
    total starts as [Decimal("0")], so the sum has the exponent
    [min(e, 0)] of a contribution of exponent [e], and [j] times its
    coefficient at that exponent. *)
Definition running_total (contribution : Decimal.t) (j : Z) : Decimal.t :=
  if j =? 0 then dec0
  else
    let e := Z.min (Decimal.expo contribution) 0 in
    Decimal.mkz false
      (j * (Decimal.cz contribution * 10 ^ (Decimal.expo contribution - e))) e.

(** No addition of [j] contributions to the running total [total] is
    rounded: each [total + contribution] is returned exactly. *)
Fixpoint sums_exactly (contribution total : Decimal.t) (j : nat) : bool :=
  match j with
  | O => true
  | S j' =>
      match Decimal.add total contribution with
      | Ok total' =>
          Qeq_bool (Decimal.to_Q total')
            (Decimal.to_Q total + Decimal.to_Q contribution)
          && sums_exactly contribution total' j'
      | Raise _ => false
      end
  end.

(** None of the [j] additions that build [total_contributions] from
    [Decimal("0")] is rounded. *)
Definition total_path_exact (contribution : Decimal.t) (j : Z) : bool :=
  sums_exactly contribution dec0 (Z.to_nat j).

(** How far the roundings of [j] Decimal additions can move the running
    total away from [j] times a contribution of value [c]: each sum is
    rounded to [prec] digits, one unit in the last place at most. *)
Definition summing_drift (c : Q) (j : Z) : Q :=
  (((1 + context_ulp) ^ j - 1) * (inject_Z j * c + subnormal))%Q.

(** The state of the outer loop after [k] years, and the state of the inner
    loop at the end of the year that starts in the state [s]. *)
Definition state_after_years (period_rate contribution : Decimal.t)
    (compound_freq contribution_freq : Z) (principal : Decimal.t) (k : Z)
  : outcome YearState :=
  for_each (year_body period_rate contribution compound_freq contribution_freq)
    (range 1 (k + 1))
    {| y_balance := principal;
       y_total_contributions := dec0;
       y_cumulative_interest := dec0;
       y_breakdown := [] |}.

Definition year_end (period_rate contribution : Decimal.t)
    (compound_freq contribution_freq : Z) (s : YearState) : outcome PeriodState :=
  for_each (period_body period_rate contribution compound_freq contribution_freq)
    (range 0 compound_freq)
    {| p_balance := y_balance s;
       p_year_interest := dec0;
       p_year_contributions := dec0;
       p_total_contributions := y_total_contributions s |}.

(** The year-over-year growth as the specification words it,
    [year_interest / year_start_balance * 100], as a rational number. *)
Definition growth_percentage (year_interest year_start_balance : Decimal.t) : Q :=
  (Decimal.to_Q year_interest / Decimal.to_Q year_start_balance * 100)%Q.

(** How far binary floating point can move a finite growth percentage
    away from the percentage [p], beyond the half hundredth of the
    rounding to two places: a relative error of [2^-51], and as much in
    absolute terms. *)
Definition float_drift (p : Q) : Q := ((Qabs p + 1) * (1 # 2251799813685248))%Q.

(** The growth percentage rounded to 2 decimal places in decimal
    arithmetic: the quotient, the product and the rounding are Decimal
    operations. *)
Definition decimal_percentage (year_interest year_start_balance : Decimal.t)
    (rnd : Decimal.rounding) : outcome Decimal.t :=
  q <- Decimal.div year_interest year_start_balance ;;
  p <- Decimal.mul q (Decimal.of_int 100) ;;
  Decimal.quantize p (-2) rnd.

(** The command line [compound 10000 -n 0]: every default, and a
    compounding frequency of zero. *)
Definition zero_frequency_args : Cli.Args :=
  {| Cli.arg_principal := "10000";
     Cli.arg_rate := "7%";
     Cli.arg_time := 10;
     Cli.arg_compound := "0";
     Cli.arg_contribution := "0";
     Cli.arg_contribution_freq := "monthly";
     Cli.arg_output := "rich";
     Cli.arg_no_chart := false;
     Cli.arg_no_table := false;
     Cli.arg_quiet := false |}.

(** A projection result to render: 10000.00 grown to 20096.61, with the
    snapshot of one year in its breakdown. *)
Definition sample_result : ProjectionResult :=
  {| principal := Decimal.mk false 10000 0;
     final_amount := Decimal.mk false 2009661 (-2);
     total_interest := Decimal.mk false 1009661 (-2);
     total_contributions := Decimal.mk false 0 (-2);
     effective_apy := DecimalStr.Finite (Decimal.mk false 722900808562359 (-16));
     doubling_time := S754_infinity false;
     rate := Decimal.mk false 7 (-2);
     years := 10;
     compound_freq := 12;
     contribution := Decimal.mk false 0 0;
     contribution_freq := 12;
     yearly_breakdown :=
       [ {| year := 1;
            balance := Decimal.mk false 1072290 (-2);
            interest_earned := Decimal.mk false 72290 (-2);
            contributions_ytd := Decimal.mk false 0 (-2);
            ytd_growth_pct := S754_zero false;
            cumulative_interest := Decimal.mk false 72290 (-2) |} ] |}.

Definition quiet_options : Formatters.RenderOptions :=
  {| Formatters.show_chart := true;
     Formatters.show_table := true;
     Formatters.quiet := true |}.

(** ** Shapes of results *)

(** A currency amount as the engine reports it: a multiple of 0.01 whose
    coefficient fits the context. *)
Definition cents (d : Decimal.t) : Prop :=
  Decimal.expo d = -2 /\ Decimal.cz d < 10 ^ Decimal.prec.

Definition snapshot_in_cents (snap : YearlySnapshot) : Prop :=
  cents (balance snap) /\ cents (interest_earned snap)
  /\ cents (contributions_ytd snap) /\ cents (cumulative_interest snap).

(** [Decimal("0.00")]. *)
Definition zero_cents : Decimal.t := Decimal.mk false 0 (-2).

(** The snapshot of a year in which nothing happened to [amount]. *)
Definition flat_snapshot (amount : Decimal.t) (y : Z) : YearlySnapshot :=
  {| year := y;
     balance := amount;
     interest_earned := zero_cents;
     contributions_ytd := zero_cents;
     ytd_growth_pct := S754_zero false;
     cumulative_interest := zero_cents |}.

(** [not (d < 0)], the test [main] applies to the principal and to the
    contribution. *)
Definition not_negative (d : Decimal.t) : bool :=
  negb (Decimal.ltb d (Decimal.of_int 0)).

Definition snapshot_not_negative (snap : YearlySnapshot) : Prop :=
  not_negative (balance snap) = true
  /\ not_negative (interest_earned snap) = true
  /\ not_negative (contributions_ytd snap) = true
  /\ not_negative (cumulative_interest snap) = true.

(** A result with another contribution echoed. *)
Definition with_contribution (res : ProjectionResult) (c : Decimal.t) : ProjectionResult :=
  {| principal := principal res;
     final_amount := final_amount res;
     total_interest := total_interest res;
     total_contributions := total_contributions res;
     effective_apy := effective_apy res;
     doubling_time := doubling_time res;
     rate := rate res;
     years := years res;
     compound_freq := compound_freq res;
     contribution := c;
     contribution_freq := contribution_freq res;
     yearly_breakdown := yearly_breakdown res |}.

(** ** Runs of the command line *)

(** A run that reports a failure: nothing on the standard output, exit
    code 1, and a last line on the standard error that starts with
    [Error]. *)
Definition failure_report (r : Cli.run) : Prop :=
  Cli.stdout r = []
  /\ Cli.ended r = Cli.Returned 1
  /\ exists warnings message,
       Cli.stderr r = (warnings ++ [message])%list
       /\ String.prefix "Error" message = true.

(** A run ended by an exception that [main] does not catch. *)
Definition crash_report (r : Cli.run) : Prop :=
  Cli.stdout r = [] /\ exists e, Cli.ended r = Cli.Uncaught e.

(** The characters [parse_amount] removes before it reads a number. *)
Definition amount_noise (c : ascii) : bool :=
  Ascii.eqb c "$" || Ascii.eqb c "," || Ascii.eqb c " ".

(** ** Floats as numbers *)

(** [math.isfinite(x)]: neither an infinity nor a NaN. *)
Definition isfinite (x : Float.t) : bool :=
  negb (Float.is_nan x) && negb (Float.is_inf x).

(** The number a float denotes: [(-1)^s * m * 2^e], and 0 for the zeros. *)
Definition float_value (x : Float.t) : Q :=
  match x with
  | S754_finite s m e => (inject_Z (if s then Z.neg m else Z.pos m) * inject_Z 2 ^ e)%Q
  | _ => 0%Q
  end.

End Spec.
(* ================================================================== *)
(** * Loops and results: general facts *)
(* ================================================================== *)

Lemma bind_Ok {A B : Type} (m : outcome A) (k : A -> outcome B) (b : B) :
  bind m k = Ok b -> exists a, m = Ok a /\ k a = Ok b.
Proof.
  destruct m as [a|e]; simpl; intros H.
  - exists a; split; [reflexivity | exact H].
  - discriminate H.
Qed.

(** Decompose a hypothesis [x <- m ;; k = Ok b] into its steps. *)
Ltac bind_inv H :=
  let a := fresh "v" in
  let Ha := fresh "E" in
  apply bind_Ok in H; destruct H as (a & Ha & H).

Lemma for_each_app {S I : Type} (body : S -> I -> outcome S) (l1 l2 : list I) (s : S) :
  for_each body (l1 ++ l2) s = bind (for_each body l1 s) (for_each body l2).
Proof.
  revert s; induction l1 as [|i l1 IH]; intros s; simpl.
  - reflexivity.
  - destruct (body s i) as [s'|e]; simpl; [apply IH | reflexivity].
Qed.

(** An invariant that the body preserves holds when the loop returns. *)
Lemma for_each_invariant {S I : Type} (body : S -> I -> outcome S) (P : S -> Prop) :
  (forall s i s', P s -> body s i = Ok s' -> P s') ->
  forall items s s', P s -> for_each body items s = Ok s' -> P s'.
Proof.
  intros Hbody items; induction items as [|i items IH]; simpl; intros s s' Hs H.
  - injection H as <-; exact Hs.
  - bind_inv H. eapply IH; [eapply Hbody; eassumption | exact H].
Qed.

Lemma range_length (lo hi : Z) : List.length (range lo hi) = Z.to_nat (hi - lo).
Proof. unfold range. rewrite length_map, length_seq. reflexivity. Qed.

Lemma range_snoc (lo hi : Z) :
  lo <= hi -> range lo (hi + 1) = (range lo hi ++ [hi])%list.
Proof.
  intros H. unfold range.
  replace (Z.to_nat (hi + 1 - lo)) with (Z.to_nat (hi - lo) + 1)%nat by lia.
  rewrite seq_app, map_app. simpl. do 2 f_equal. lia.
Qed.

Lemma range_empty (lo hi : Z) : hi <= lo -> range lo hi = [].
Proof.
  intros H. unfold range. replace (Z.to_nat (hi - lo)) with 0%nat by lia. reflexivity.
Qed.

Lemma seq_from (a b : nat) : seq a b = map (fun k => (a + k)%nat) (seq 0 b).
Proof.
  induction a as [|a IH].
  - cbn. now rewrite map_id.
  - rewrite <- seq_shift, IH, map_map. reflexivity.
Qed.

Lemma range_split (lo mid hi : Z) :
  lo <= mid <= hi -> range lo hi = (range lo mid ++ range mid hi)%list.
Proof.
  intros H. unfold range.
  replace (Z.to_nat (hi - lo)) with (Z.to_nat (mid - lo) + Z.to_nat (hi - mid))%nat by lia.
  rewrite seq_app, map_app. f_equal.
  rewrite (seq_from (0 + Z.to_nat (mid - lo))), map_map.
  apply map_ext. intros k. lia.
Qed.

Lemma range_cons (lo hi : Z) :
  lo < hi -> range lo hi = lo :: range (lo + 1) hi.
Proof.
  intros H. rewrite (range_split lo (lo + 1) hi) by lia.
  unfold range at 1. replace (lo + 1 - lo) with 1 by lia.
  change (Z.to_nat 1) with 1%nat. cbn [seq map app Z.of_nat].
  now rewrite Z.add_0_r.
Qed.

Lemma range_from_one (n : Z) : range 1 (n + 1) = map Z.of_nat (seq 1 (Z.to_nat n)).
Proof.
  unfold range. replace (n + 1 - 1) with n by lia.
  rewrite <- seq_shift, map_map. apply map_ext. intros k. lia.
Qed.

(* ================================================================== *)
(** * The simulation loop, year by year *)
(* ================================================================== *)

Module EngineFacts.

Import Calculator.

Section Loop.

Variables (period_rate contribution : Decimal.t).
Variables (compound_freq contribution_freq : Z).

Local Abbreviation year_body := (year_body period_rate contribution compound_freq contribution_freq).
Local Abbreviation period_body := (period_body period_rate contribution compound_freq contribution_freq).

(** What one iteration of the outer loop does, read off a returning
    iteration: the inner loop ran from the balance at the start of the
    year, and one snapshot was appended. *)
Lemma year_body_inv (s s' : YearState) (y : Z) :
  year_body s y = Ok s' ->
  exists p ci g snap,
    for_each period_body (range 0 compound_freq)
      {| p_balance := y_balance s;
         p_year_interest := dec0;
         p_year_contributions := dec0;
         p_total_contributions := y_total_contributions s |} = Ok p
    /\ Decimal.add (y_cumulative_interest s) (p_year_interest p) = Ok ci
    /\ ytd_growth_of (p_year_interest p) (y_balance s) = Ok g
    /\ y_balance s' = p_balance p
    /\ y_total_contributions s' = p_total_contributions p
    /\ y_cumulative_interest s' = ci
    /\ y_breakdown s' = (y_breakdown s ++ [snap])%list
    /\ year snap = y
    /\ _round_currency (p_balance p) = Ok (balance snap)
    /\ _round_currency (p_year_interest p) = Ok (interest_earned snap)
    /\ _round_currency (p_year_contributions p) = Ok (contributions_ytd snap)
    /\ ytd_growth_pct snap = Float.round g 2
    /\ _round_currency ci = Ok (cumulative_interest snap).
Proof.
  unfold Calculator.year_body. intros H.
  bind_inv H. bind_inv H. bind_inv H. bind_inv H. bind_inv H. bind_inv H. bind_inv H.
  injection H as <-. simpl.
  eexists _, _, _, _. repeat split; try eassumption; reflexivity.
Qed.

(** The years of the snapshots a run of the outer loop appends are the
    items of the loop, in order. *)
Lemma years_appended (items : list Z) (s s' : YearState) :
  for_each year_body items s = Ok s' ->
  map year (y_breakdown s') = (map year (y_breakdown s) ++ items)%list.
Proof.
  revert s; induction items as [|y items IH]; simpl; intros s H.
  - injection H as <-. now rewrite app_nil_r.
  - bind_inv H. apply IH in H. rewrite H.
    apply year_body_inv in E as (p & ci & g & snap & _ & _ & _ & _ & _ & _ & Hb & Hy & _).
    rewrite Hb, map_app, <- app_assoc. simpl. now rewrite Hy.
Qed.

(** After at least one iteration the last snapshot holds the rounded
    balance and the rounded cumulative interest of the final state. *)
Lemma last_snapshot (items : list Z) (s s' : YearState) :
  items <> [] ->
  for_each year_body items s = Ok s' ->
  exists earlier snap,
    y_breakdown s' = (earlier ++ [snap])%list
    /\ _round_currency (y_balance s') = Ok (balance snap)
    /\ _round_currency (y_cumulative_interest s') = Ok (cumulative_interest snap).
Proof.
  intros Hne H.
  destruct (exists_last Hne) as (front & y & ->).
  rewrite for_each_app in H. bind_inv H. simpl in H. bind_inv H.
  injection H as <-.
  apply year_body_inv in E0
    as (p & ci & g & snap & _ & _ & _ & Hbal & _ & Hci & Hb & _ & Hrb & _ & _ & _ & Hrc).
  exists (y_breakdown v), snap. rewrite Hbal, Hci. auto.
Qed.

(** The outer loop only appends to the breakdown. *)
Lemma breakdown_extends (items : list Z) (s s' : YearState) :
  for_each year_body items s = Ok s' ->
  exists more, y_breakdown s' = (y_breakdown s ++ more)%list.
Proof.
  revert s; induction items as [|y items IH]; intros s H; cbn [for_each] in H.
  - injection H as <-. exists []. now rewrite app_nil_r.
  - bind_inv H. apply IH in H as (more & Hmore).
    apply year_body_inv in E as (p & ci & g & snap & _ & _ & _ & _ & _ & _ & Hb & _).
    exists (snap :: more). rewrite Hmore, Hb, <- app_assoc. reflexivity.
Qed.

(** The year-over-year growth of a snapshot, read off the iteration that
    appended it. *)
Lemma year_body_growth (s s' : YearState) (y : Z) :
  year_body s y = Ok s' ->
  exists p snap,
    Spec.year_end period_rate contribution compound_freq contribution_freq s = Ok p
    /\ y_breakdown s' = (y_breakdown s ++ [snap])%list
    /\ year snap = y
    /\ if Decimal.gtb (y_balance s) (Decimal.of_int 0) then
         exists q,
           Decimal.div (p_year_interest p) (y_balance s) = Ok q
           /\ ytd_growth_pct snap
              = Float.round (Float.mul (Float.of_decimal q) (Float.of_Z 100)) 2
       else ytd_growth_pct snap = S754_zero false.
Proof.
  intros H. apply year_body_inv in H
    as (p & ci & g & snap & Hp & _ & Hg & _ & _ & _ & Hb & Hy & _ & _ & _ & Hytd & _).
  exists p, snap. repeat split; try assumption.
  unfold ytd_growth_of in Hg.
  destruct (Decimal.gtb (y_balance s) (Decimal.of_int 0)).
  - bind_inv Hg. injection Hg as <-. exists v. split; [exact E | exact Hytd].
  - injection Hg as <-. rewrite Hytd. reflexivity.
Qed.

(** The iteration of year [k + 1] inside a returning run of [Y] years. *)
Lemma year_of_run (Y k : Z) (s0 sY : YearState) :
  for_each year_body (range 1 (Y + 1)) s0 = Ok sY ->
  y_breakdown s0 = [] ->
  0 <= k < Y ->
  exists sk sk1 snap,
    for_each year_body (range 1 (k + 1)) s0 = Ok sk
    /\ year_body sk (k + 1) = Ok sk1
    /\ y_breakdown sk1 = (y_breakdown sk ++ [snap])%list
    /\ nth_error (y_breakdown sY) (Z.to_nat k) = Some snap.
Proof.
  intros H Hnil Hk.
  rewrite (range_split 1 (k + 1) (Y + 1)), (range_cons (k + 1)) in H by lia.
  rewrite for_each_app in H. bind_inv H. cbn [for_each] in H. bind_inv H.
  pose proof (years_appended _ _ _ E) as Hyears.
  rewrite Hnil in Hyears. cbn [map app] in Hyears.
  apply (f_equal (@List.length Z)) in Hyears.
  rewrite length_map, range_length in Hyears.
  destruct (year_body_inv _ _ _ E0)
    as (p & ci & g & snap & _ & _ & _ & _ & _ & _ & Hb & _).
  apply breakdown_extends in H as (more & Hmore).
  exists v, v0, snap. repeat split; try assumption.
  rewrite Hmore, Hb, <- app_assoc.
  rewrite nth_error_app2 by lia.
  replace (Z.to_nat k - List.length (y_breakdown v))%nat with 0%nat by lia.
  reflexivity.
Qed.

End Loop.

(** What a returning call of the engine did. *)
Lemma calculate_inv (libm : Platform) (P r : Decimal.t) (Y n : Z) (c : Decimal.t) (cf : Z)
    (res : ProjectionResult) :
  calculate_compound_interest libm P r Y n c cf = Ok res ->
  exists pr s,
    Decimal.div r (Decimal.of_int n) = Ok pr
    /\ for_each (year_body pr c n cf) (range 1 (Y + 1))
         {| y_balance := P;
            y_total_contributions := dec0;
            y_cumulative_interest := dec0;
            y_breakdown := [] |} = Ok s
    /\ _round_currency (y_balance s) = Ok (final_amount res)
    /\ _round_currency (y_cumulative_interest s) = Ok (total_interest res)
    /\ _round_currency (y_total_contributions s) = Ok (total_contributions res)
    /\ yearly_breakdown res = y_breakdown s.
Proof.
  unfold calculate_compound_interest. intros H.
  bind_inv H. bind_inv H. bind_inv H. bind_inv H. bind_inv H. bind_inv H. bind_inv H.
  injection H as <-. simpl.
  eexists _, _. repeat split; eassumption.
Qed.

End EngineFacts.


(* ================================================================== *)
(** * Facts about Decimal arithmetic *)
(* ================================================================== *)

Module DecimalFacts.

Import Decimal.

Lemma pow10_pos (k : Z) : 0 <= k -> 0 < 10 ^ k.
Proof. intros H. apply Z.pow_pos_nonneg; lia. Qed.

Lemma pow10_succ (k : Z) : 0 <= k -> 10 ^ (k + 1) = 10 * 10 ^ k.
Proof. intros H. rewrite Z.pow_add_r by lia. lia. Qed.

Lemma ndigits_aux_pos (fuel : nat) (c : Z) : 1 <= ndigits_aux fuel c.
Proof.
  revert c; induction fuel as [|f IH]; intros c; cbn [ndigits_aux]; [lia |].
  destruct (c <? 10); [lia | specialize (IH (c / 10)); lia].
Qed.

Lemma ndigits_aux_spec (fuel : nat) :
  forall c, 0 < c -> c < 10 ^ Z.of_nat fuel ->
  10 ^ (ndigits_aux fuel c - 1) <= c < 10 ^ ndigits_aux fuel c.
Proof.
  induction fuel as [|f IH]; intros c Hc Hlt.
  - simpl in Hlt. lia.
  - cbn [ndigits_aux]. destruct (Z.ltb_spec c 10) as [Hs|Hs].
    + change (10 ^ (1 - 1)) with 1. change (10 ^ 1) with 10. lia.
    + assert (Hq : 0 < c / 10) by (apply Z.div_str_pos; lia).
      assert (Hf : c / 10 < 10 ^ Z.of_nat f).
      { apply Z.div_lt_upper_bound; [lia |].
        rewrite Nat2Z.inj_succ, <- Z.add_1_r, pow10_succ in Hlt by lia. exact Hlt. }
      specialize (IH (c / 10) Hq Hf).
      pose proof (ndigits_aux_pos f (c / 10)) as Hn.
      replace (1 + ndigits_aux f (c / 10) - 1) with (ndigits_aux f (c / 10) - 1 + 1) by lia.
      replace (1 + ndigits_aux f (c / 10)) with (ndigits_aux f (c / 10) + 1) by lia.
      rewrite !pow10_succ by lia.
      pose proof (Z.div_mod c 10 ltac:(lia)) as Hdm.
      pose proof (Z.mod_pos_bound c 10 ltac:(lia)) as Hmb.
      lia.
Qed.

(** A positive coefficient lies between the powers of ten its number of
    digits names. *)
Lemma ndigits_spec (c : Z) :
  0 < c -> 10 ^ (ndigits c - 1) <= c < 10 ^ ndigits c.
Proof.
  intros Hc. unfold ndigits. apply ndigits_aux_spec; [exact Hc |].
  rewrite Nat2Z.inj_succ, Z2Nat.id by apply Z.log2_nonneg.
  pose proof (Z.log2_spec c Hc) as [_ Hlt].
  eapply Z.lt_le_trans; [exact Hlt |].
  apply Z.pow_le_mono_l. pose proof (Z.log2_nonneg c). lia.
Qed.

Lemma ndigits_pos (c : Z) : 1 <= ndigits c.
Proof. apply ndigits_aux_pos. Qed.

Lemma ndigits_le (c k : Z) : 1 <= k -> c < 10 ^ k -> ndigits c <= k.
Proof.
  intros Hk Hlt. destruct (Z.le_gt_cases c 0) as [Hc|Hc].
  - unfold ndigits. destruct c as [|p|p]; try lia; simpl; lia.
  - pose proof (ndigits_spec c Hc) as [Hlo _].
    destruct (Z.le_gt_cases (ndigits c) k) as [|Hgt]; [assumption |].
    assert (10 ^ k <= 10 ^ (ndigits c - 1)) by (apply Z.pow_le_mono_r; lia). lia.
Qed.

Lemma cz_nonneg (d : t) : 0 <= cz d.
Proof. unfold cz. lia. Qed.

Lemma cz_mkz (s : bool) (c e : Z) : 0 <= c -> cz (mkz s c e) = c.
Proof. intros H. unfold cz, mkz. simpl. lia. Qed.

Lemma mkz_cz (d : t) : mkz (sign d) (cz d) (expo d) = d.
Proof. destruct d as [s c e]. unfold mkz, cz. simpl. now rewrite N2Z.id. Qed.

(** ** Values *)

Definition q10 (e : Z) : Q := inject_Z 10 ^ e.

Lemma q10_pos (e : Z) : (0 < q10 e)%Q.
Proof. apply Qpower_0_lt. reflexivity. Qed.

Lemma q10_add (a b : Z) : (q10 (a + b) == q10 a * q10 b)%Q.
Proof. apply Qpower_plus. discriminate. Qed.

Lemma q10_nonneg (k : Z) : 0 <= k -> (q10 k == inject_Z (10 ^ k))%Q.
Proof. intros H. unfold q10. symmetry. now apply Zpower_Qpower. Qed.

Definition signed (s : bool) (c : Z) : Z := if s then - c else c.

Lemma to_Q_mkz (s : bool) (c e : Z) :
  0 <= c -> to_Q (mkz s c e) = (inject_Z (signed s c) * q10 e)%Q.
Proof.
  intros H. unfold to_Q, signed_coeff. rewrite cz_mkz by assumption. reflexivity.
Qed.

Lemma to_Q_unfold (d : t) : to_Q d = (inject_Z (signed (sign d) (cz d)) * q10 (expo d))%Q.
Proof. reflexivity. Qed.

(** Moving [k] powers of ten from the exponent into the coefficient keeps
    the value. *)
Lemma shift_value (s : bool) (c e k : Z) :
  0 <= k ->
  (inject_Z (signed s (c * 10 ^ k)) * q10 e == inject_Z (signed s c) * q10 (e + k))%Q.
Proof.
  intros Hk. rewrite q10_add, (q10_nonneg k Hk).
  replace (signed s (c * 10 ^ k)) with (signed s c * 10 ^ k)%Z
    by (unfold signed; destruct s; lia).
  rewrite inject_Z_mult. ring.
Qed.

(** The distance between two values whose exponents differ by [k]. *)
Lemma value_distance (s : bool) (a b e k : Z) :
  0 <= k ->
  (Qabs (inject_Z (signed s b) * q10 (e + k) - inject_Z (signed s a) * q10 e)
   == inject_Z (Z.abs (b * 10 ^ k - a)) * q10 e)%Q.
Proof.
  intros Hk. rewrite <- (shift_value s b e k Hk).
  transitivity (Qabs (inject_Z (signed s (b * 10 ^ k - a)) * q10 e)).
  - apply Qabs_wd.
    replace (signed s (b * 10 ^ k - a)) with (signed s (b * 10 ^ k) - signed s a)%Z
      by (unfold signed; destruct s; lia).
    unfold Zminus. rewrite inject_Z_plus, inject_Z_opp. ring.
  - rewrite Qabs_Qmult, (Qabs_pos (q10 e)) by (apply Qlt_le_weak, q10_pos).
    apply Qmult_comp; [| reflexivity].
    unfold signed. destruct s; cbn [Qabs inject_Z]; [rewrite Z.abs_opp |]; reflexivity.
Qed.

(** ** Rounding to the context: when nothing is rounded *)

Lemma fix_noop (d : t) :
  Etiny <= expo d <= Emax ->
  ndigits (cz d) <= prec ->
  ndigits (cz d) + expo d - prec <= Etop ->
  fix_ d = Ok d.
Proof.
  intros He Hn Htop. unfold fix_.
  destruct (Z.eqb_spec (cz d) 0) as [Hz|Hz].
  - rewrite Z.max_l, Z.min_l by lia. rewrite <- Hz. now rewrite mkz_cz.
  - destruct (Z.ltb_spec Etop (ndigits (cz d) + expo d - prec)); [lia |].
    destruct (Z.ltb_spec (ndigits (cz d) + expo d - prec) Etiny);
      match goal with |- context [expo d <? ?m] => destruct (Z.ltb_spec (expo d) m) end;
      try reflexivity; lia.
Qed.

Lemma rescale_expo (d : t) (e : Z) (rnd : rounding) : expo (rescale d e rnd) = e.
Proof.
  unfold rescale.
  destruct (cz d =? 0); [reflexivity |].
  destruct (e <=? expo d); [reflexivity |].
  destruct (rounding_operand (cz d) (expo d) e). reflexivity.
Qed.

Lemma rescale_sign (d : t) (e : Z) (rnd : rounding) : sign (rescale d e rnd) = sign d.
Proof.
  unfold rescale.
  destruct (cz d =? 0); [reflexivity |].
  destruct (e <=? expo d); [reflexivity |].
  destruct (rounding_operand (cz d) (expo d) e). reflexivity.
Qed.

(** A quantize that returns has only rescaled its operand. *)
Lemma quantize_inv (d q : t) (e : Z) (rnd : rounding) :
  quantize d e rnd = Ok q ->
  q = rescale d e rnd /\ ndigits (cz q) <= prec /\ Etiny <= e <= Emax.
Proof.
  unfold quantize. intros H.
  destruct (Z.leb_spec Etiny e) as [H1|H1]; [| discriminate H].
  destruct (Z.leb_spec e Emax) as [H2|H2]; [| discriminate H].
  cbn [andb negb] in H.
  destruct (Z.eqb_spec (cz d) 0) as [Hz|Hz].
  - unfold rescale. rewrite Hz, Z.eqb_refl.
    rewrite fix_noop in H.
    + injection H as <-. split; [reflexivity | split; [| lia]].
      rewrite cz_mkz by lia. change (ndigits 0) with 1. unfold prec. lia.
    + cbn [expo mkz]. lia.
    + rewrite cz_mkz by lia. change (ndigits 0) with 1. unfold prec. lia.
    + rewrite cz_mkz by lia. cbn [expo mkz]. change (ndigits 0) with 1.
      cbv [prec Etop Emax] in *. lia.
  - destruct (Z.ltb_spec Emax (adjusted d)); [discriminate H |].
    destruct (Z.ltb_spec prec (adjusted d - e + 1)); [discriminate H |].
    destruct (Z.ltb_spec Emax (adjusted (rescale d e rnd))) as [|Ha]; [discriminate H |].
    destruct (Z.ltb_spec prec (ndigits (cz (rescale d e rnd)))) as [|Hn]; [discriminate H |].
    unfold adjusted in Ha. rewrite rescale_expo in Ha.
    rewrite fix_noop in H.
    + injection H as <-. repeat split; lia.
    + rewrite rescale_expo. lia.
    + exact Hn.
    + rewrite rescale_expo. cbv [prec Etop Emax] in *. lia.
Qed.

(** ** Rescaling: the value moves by at most half a unit of the target *)

Lemma rounding_operand_small (c e e' : Z) :
  0 < c -> e < e' -> ndigits c + e - e' < 0 -> 2 * c <= 10 ^ (e' - e).
Proof.
  intros Hc He Hn.
  pose proof (ndigits_spec c Hc) as [_ Hhi].
  pose proof (ndigits_pos c) as Hp.
  assert (10 ^ ndigits c <= 10 ^ (e' - e - 1)) by (apply Z.pow_le_mono_r; lia).
  replace (e' - e) with (e' - e - 1 + 1) by lia. rewrite pow10_succ by lia. lia.
Qed.

Lemma half_up_distance (c k : Z) :
  0 <= c -> 0 < k ->
  let q := c / 10 ^ k in
  let q' := if round_half_up c k =? 1 then q + 1 else q in
  0 <= q' /\ 2 * Z.abs (q' * 10 ^ k - c) <= 10 ^ k.
Proof.
  intros Hc Hk q q'. subst q q'.
  pose proof (pow10_pos k ltac:(lia)) as Hp.
  pose proof (Z.div_mod c (10 ^ k) ltac:(lia)) as Hdm.
  pose proof (Z.mod_pos_bound c (10 ^ k) Hp) as Hmb.
  assert (Hq : 0 <= c / 10 ^ k) by (apply Z.div_pos; lia).
  assert (Hten : 10 ^ k = 10 * 10 ^ (k - 1)).
  { replace k with (k - 1 + 1) at 1 by lia. apply pow10_succ. lia. }
  unfold round_half_up.
  destruct (Z.leb_spec (5 * 10 ^ (k - 1)) (c mod 10 ^ k)) as [Hh|Hh].
  - change (1 =? 1) with true. cbv iota. split; [lia |]. nia.
  - assert (Hno : ((if c mod 10 ^ k =? 0 then 0 else -1) =? 1) = false)
      by (destruct (c mod 10 ^ k =? 0); reflexivity).
    rewrite Hno. split; [lia |]. nia.
Qed.

Lemma rescale_half_up_close (d : t) (e : Z) :
  (Qabs (to_Q (rescale d e ROUND_HALF_UP) - to_Q d) <= (1 # 2) * q10 e)%Q.
Proof.
  pose proof (cz_nonneg d) as Hc0.
  pose proof (q10_pos e) as Hqe.
  rewrite (to_Q_unfold d). unfold rescale.
  destruct (Z.eqb_spec (cz d) 0) as [Hz|Hz].
  - rewrite to_Q_mkz, Hz by lia.
    setoid_replace (inject_Z (signed (sign d) 0)) with 0%Q
      by (unfold signed; destruct (sign d); reflexivity).
    setoid_replace (0 * q10 e - 0 * q10 (expo d))%Q with 0%Q by ring.
    cbn [Qabs]. apply Qmult_le_0_compat; [discriminate | now apply Qlt_le_weak].
  - destruct (Z.leb_spec e (expo d)) as [He|He].
    + rewrite to_Q_mkz by (pose proof (pow10_pos (expo d - e)); nia).
      rewrite shift_value by lia. replace (e + (expo d - e)) with (expo d) by lia.
      setoid_replace (inject_Z (signed (sign d) (cz d)) * q10 (expo d)
                      - inject_Z (signed (sign d) (cz d)) * q10 (expo d))%Q with 0%Q by ring.
      cbn [Qabs]. apply Qmult_le_0_compat; [discriminate | now apply Qlt_le_weak].
    + remember (e - expo d) as k eqn:Hk.
      assert (He' : e = expo d + k) by lia.
      assert (Hk0 : 0 < k) by lia.
      clear Hk He. subst e.
      assert (Hsplit : (q10 (expo d + k) == inject_Z (10 ^ k) * q10 (expo d))%Q).
      { rewrite q10_add, (q10_nonneg k) by lia. ring. }
      assert (Hgoal : forall q' : Z,
                 0 <= q' -> 2 * Z.abs (q' * 10 ^ k - cz d) <= 10 ^ k ->
                 (Qabs (to_Q (mkz (sign d) q' (expo d + k))
                        - inject_Z (signed (sign d) (cz d)) * q10 (expo d))
                  <= (1 # 2) * q10 (expo d + k))%Q).
      { intros q' Hq0 Hdist.
        rewrite to_Q_mkz by exact Hq0.
        rewrite value_distance by lia.
        rewrite Hsplit.
        setoid_replace ((1 # 2) * (inject_Z (10 ^ k) * q10 (expo d)))%Q
          with (((1 # 2) * inject_Z (10 ^ k)) * q10 (expo d))%Q by ring.
        apply Qmult_le_compat_r; [| apply Qlt_le_weak, q10_pos].
        unfold Qle, Qmult, inject_Z; cbn [Qnum Qden]. lia. }
      unfold rounding_operand.
      destruct (Z.ltb_spec (ndigits (cz d) + expo d - (expo d + k)) 0) as [Hsmall|Hbig].
      * (* below a tenth of the unit: the result is zero *)
        cbn [pick_rounding_function]. change (1 / 10 ^ 1) with 0.
        assert (Hq' : (if round_half_up 1 1 =? 1 then 0 + 1 else 0) = 0) by reflexivity.
        rewrite Hq'. apply Hgoal; [lia |].
        pose proof (rounding_operand_small (cz d) (expo d) (expo d + k)
                      ltac:(lia) ltac:(lia) Hsmall) as Hs.
        replace (expo d + k - expo d) with k in Hs by lia. lia.
      * replace (expo d + k - expo d) with k by lia.
        pose proof (half_up_distance (cz d) k Hc0 Hk0) as [Hq0 Hdist].
        cbn [pick_rounding_function]. apply Hgoal; assumption.
Qed.

Lemma rescale_exact (d : t) (e : Z) (rnd : rounding) :
  e <= expo d -> (to_Q (rescale d e rnd) == to_Q d)%Q.
Proof.
  intros He. pose proof (cz_nonneg d) as Hc0.
  rewrite (to_Q_unfold d). unfold rescale.
  destruct (Z.eqb_spec (cz d) 0) as [Hz|Hz].
  - rewrite to_Q_mkz, Hz by lia.
    setoid_replace (inject_Z (signed (sign d) 0)) with 0%Q
      by (unfold signed; destruct (sign d); reflexivity).
    ring.
  - destruct (Z.leb_spec e (expo d)); [| lia].
    rewrite to_Q_mkz by (pose proof (pow10_pos (expo d - e)); nia).
    rewrite shift_value by lia. replace (e + (expo d - e)) with (expo d) by lia.
    reflexivity.
Qed.

(** ** Additions that do not round *)

Lemma normalize_same_expo (a b : t) :
  expo a = expo b -> normalize a b = (a, b).
Proof.
  intros He. unfold normalize. rewrite He, Z.ltb_irrefl.
  pose proof (ndigits_pos (cz b)) as Hnd.
  match goal with
  | |- context [if ?x <? ?y then _ else _] => destruct (Z.ltb_spec x y) as [Hlt|Hge]
  end.
  - lia.
  - cbv beta iota. replace (expo a - expo b) with 0 by lia.
    rewrite Z.pow_0_r, Z.mul_1_r, <- He, mkz_cz. reflexivity.
Qed.

Lemma add_same_expo (a b : t) :
  expo a = expo b -> sign a = false -> sign b = false -> 0 < cz a -> 0 < cz b ->
  add a b = fix_ (mkz false (cz a + cz b) (expo a)).
Proof.
  intros He Ha Hb Hca Hcb. unfold add.
  destruct (Z.eqb_spec (cz a) 0); [lia |].
  destruct (Z.eqb_spec (cz b) 0); [lia |]. cbn [andb].
  rewrite normalize_same_expo by assumption.
  rewrite Ha, Hb. reflexivity.
Qed.

Lemma add_zero_l (b : t) :
  expo b <= 0 -> 0 < cz b -> add (mk false 0 0) b = fix_ b.
Proof.
  intros He Hcb. unfold add.
  change (cz (mk false 0 0)) with 0. change (expo (mk false 0 0)) with 0.
  cbn [Z.eqb andb].
  destruct (Z.eqb_spec (cz b) 0); [lia |]. cbn [andb].
  rewrite Z.min_r, Z.max_l by (cbv [prec]; lia).
  unfold rescale.
  destruct (Z.eqb_spec (cz b) 0); [lia |].
  rewrite Z.leb_refl, Z.sub_diag, Z.pow_0_r, Z.mul_1_r, mkz_cz. reflexivity.
Qed.

End DecimalFacts.

(* ================================================================== *)
(** * The balance without contributions *)
(* ================================================================== *)

Module GrowthFacts.

Import Calculator Spec.

(** Rounding a currency value moves it by at most half a cent. *)
Lemma round_currency_close (d q : Decimal.t) :
  _round_currency d = Ok q ->
  (Qabs (Decimal.to_Q q - Decimal.to_Q d) <= 1 # 200)%Q.
Proof.
  intros H. apply DecimalFacts.quantize_inv in H as (-> & _ & _).
  apply (DecimalFacts.rescale_half_up_close d (-2)).
Qed.

(** A value with at most two decimal places is not changed. *)
Lemma round_currency_exact (d q : Decimal.t) :
  -2 <= Decimal.expo d ->
  _round_currency d = Ok q ->
  (Decimal.to_Q q == Decimal.to_Q d)%Q.
Proof.
  intros He H. apply DecimalFacts.quantize_inv in H as (-> & _ & _).
  now apply DecimalFacts.rescale_exact.
Qed.

Lemma zero_not_positive (c : Decimal.t) :
  Decimal.cz c = 0 -> Decimal.gtb c (Decimal.of_int 0) = false.
Proof.
  intros Hz. unfold Decimal.gtb, Decimal.cmp, Decimal.signed_coeff.
  rewrite Hz. change (Decimal.cz (Decimal.of_int 0)) with 0.
  change (Decimal.sign (Decimal.of_int 0)) with false.
  destruct (Decimal.sign c); cbn [Z.opp]; rewrite !Z.mul_0_l; reflexivity.
Qed.

Lemma grow_add (pr b : Decimal.t) (k1 k2 : nat) :
  grow pr b (k1 + k2) = bind (grow pr b k1) (fun b' => grow pr b' k2).
Proof.
  revert b; induction k1 as [|k1 IH]; intros b; cbn [grow Nat.add bind].
  - reflexivity.
  - destruct (Decimal.mul b pr) as [i|e]; cbn [bind]; [| reflexivity].
    destruct (Decimal.add b i) as [b'|e]; cbn [bind]; [apply IH | reflexivity].
Qed.

Section NoContribution.

Variables (period_rate contribution : Decimal.t).
Variables (compound_freq contribution_freq : Z).
Hypothesis no_contribution : Decimal.cz contribution = 0.

Local Abbreviation year_body :=
  (year_body period_rate contribution compound_freq contribution_freq).
Local Abbreviation period_body :=
  (period_body period_rate contribution compound_freq contribution_freq).

(** Without a contribution a period only accrues interest. *)
Lemma period_grows (s s' : PeriodState) (period : Z) :
  period_body s period = Ok s' ->
  grow period_rate (p_balance s) 1 = Ok (p_balance s').
Proof.
  unfold Calculator.period_body. rewrite (zero_not_positive _ no_contribution).
  intros H. bind_inv H. bind_inv H. bind_inv H. injection H as <-.
  cbn [grow p_balance]. rewrite E. cbn [bind]. rewrite E0. reflexivity.
Qed.

Lemma periods_grow (items : list Z) (s s' : PeriodState) :
  for_each period_body items s = Ok s' ->
  grow period_rate (p_balance s) (List.length items) = Ok (p_balance s').
Proof.
  revert s; induction items as [|p items IH]; intros s H; cbn [for_each] in H.
  - injection H as <-. reflexivity.
  - bind_inv H. apply IH in H. apply period_grows in E.
    change (List.length (p :: items)) with (1 + List.length items)%nat.
    rewrite grow_add, E. exact H.
Qed.

Lemma years_grow (items : list Z) (s s' : YearState) :
  for_each year_body items s = Ok s' ->
  grow period_rate (y_balance s) (List.length items * Z.to_nat compound_freq)
  = Ok (y_balance s').
Proof.
  revert s; induction items as [|y items IH]; intros s H; cbn [for_each] in H.
  - injection H as <-. reflexivity.
  - bind_inv H. apply IH in H.
    apply EngineFacts.year_body_inv in E
      as (p & ci & g & snap & Hp & _ & _ & Hb & _).
    apply periods_grow in Hp. rewrite range_length in Hp. cbn [p_balance] in Hp.
    replace (compound_freq - 0) with compound_freq in Hp by lia.
    change (List.length (y :: items) * Z.to_nat compound_freq)%nat
      with (Z.to_nat compound_freq + List.length items * Z.to_nat compound_freq)%nat.
    rewrite grow_add, Hp. cbn [bind]. rewrite <- Hb. exact H.
Qed.

End NoContribution.

(** Exact growth follows the closed form. *)
Lemma grow_value (pr : Decimal.t) (k : nat) :
  forall b b',
    grows_exactly pr b k = true ->
    grow pr b k = Ok b' ->
    (Decimal.to_Q b' == Decimal.to_Q b * (1 + Decimal.to_Q pr) ^ Z.of_nat k)%Q.
Proof.
  induction k as [|k IH]; intros b b' Hex Hg.
  - cbn [grow] in Hg. injection Hg as <-. cbn [Z.of_nat Qpower]. ring.
  - cbn [grow grows_exactly] in Hg, Hex.
    destruct (Decimal.mul b pr) as [i|e]; [| discriminate Hex].
    apply andb_prop in Hex as [Hi Hex]. cbn [bind] in Hg.
    destruct (Decimal.add b i) as [b1|e]; [| discriminate Hex].
    apply andb_prop in Hex as [Hb1 Hex].
    cbn [bind] in Hg.
    apply Qeq_bool_eq in Hi, Hb1.
    rewrite (IH b1 b' Hex Hg), Hb1, Hi.
    rewrite Nat2Z.inj_succ, <- Z.add_1_r.
    rewrite Qpower_plus' by lia. change ((1 + Decimal.to_Q pr) ^ 1)%Q
      with (1 + Decimal.to_Q pr)%Q. ring.
Qed.

End GrowthFacts.
(* ================================================================== *)
(** * The rounding error of Decimal arithmetic *)
(* ================================================================== *)

(** Every operation of the engine on the balance rounds its exact result
    to the 28 digits of the context.  This section bounds the error of one
    rounding, of one multiplication, division and addition, and of a whole
    run of compounding periods. *)
Module RoundingFacts.

Import Decimal DecimalFacts.

(** Half a unit in the last place of a full coefficient, relative to the
    value, and the magnitude below which results are subnormal. *)
Definition half_ulp : Q := (1 # 2) * q10 (1 - prec).
Local Abbreviation tiny := Spec.subnormal.

Lemma subnormal_q10 : (Spec.subnormal == q10 Emin)%Q.
Proof. unfold Spec.subnormal, q10. apply Qeq_refl. Qed.

Lemma abs_value (d : t) : (Qabs (to_Q d) == inject_Z (cz d) * q10 (expo d))%Q.
Proof.
  rewrite to_Q_unfold, Qabs_Qmult, (Qabs_pos (q10 (expo d))) by apply Qlt_le_weak, q10_pos.
  apply Qmult_comp; [| reflexivity].
  pose proof (cz_nonneg d) as H. unfold signed.
  destruct (sign d); cbn [Qabs inject_Z]; [rewrite Z.abs_opp |];
    rewrite Z.abs_eq by exact H; reflexivity.
Qed.

Lemma q10_le (a b : Z) : a <= b -> (q10 a <= q10 b)%Q.
Proof.
  intros H. replace b with (a + (b - a)) by lia.
  rewrite q10_add, (q10_nonneg (b - a)) by lia.
  pose proof (q10_pos a) as Ha. pose proof (pow10_pos (b - a) ltac:(lia)) as Hp.
  setoid_replace (q10 a) with (q10 a * 1)%Q at 1 by ring.
  apply Qmult_le_l; [exact Ha |].
  unfold Qle, inject_Z; cbn [Qnum Qden]. lia.
Qed.

Lemma q10_max (a b : Z) : (q10 (Z.max a b) <= q10 a + q10 b)%Q.
Proof.
  pose proof (q10_pos a). pose proof (q10_pos b).
  destruct (Z.max_spec a b) as [[_ ->]|[_ ->]]; lra.
Qed.

Lemma half_even_distance (c k : Z) :
  0 <= c -> 0 < k ->
  let q := c / 10 ^ k in
  let q' := if 0 <? round_half_even c k then q + 1 else q in
  0 <= q' /\ 2 * Z.abs (q' * 10 ^ k - c) <= 10 ^ k.
Proof.
  intros Hc Hk q q'. subst q q'.
  pose proof (pow10_pos k ltac:(lia)) as Hp.
  pose proof (Z.div_mod c (10 ^ k) ltac:(lia)) as Hdm.
  pose proof (Z.mod_pos_bound c (10 ^ k) Hp) as Hmb.
  assert (Hq : 0 <= c / 10 ^ k) by (apply Z.div_pos; lia).
  assert (Hten : 10 ^ k = 10 * 10 ^ (k - 1)).
  { replace k with (k - 1 + 1) at 1 by lia. apply pow10_succ. lia. }
  unfold round_half_even, round_half_up.
  destruct (Z.eqb_spec (c mod 10 ^ k) (5 * 10 ^ (k - 1))) as [Hh|Hh];
    [destruct (Z.even (c / 10 ^ k)) |]; cbn [andb].
  - change (0 <? -1) with false. cbv iota. split; [lia |]. nia.
  - destruct (Z.leb_spec (5 * 10 ^ (k - 1)) (c mod 10 ^ k)); [| lia].
    change (0 <? 1) with true. cbv iota. split; [lia |]. nia.
  - destruct (Z.leb_spec (5 * 10 ^ (k - 1)) (c mod 10 ^ k)) as [Hge|Hlt].
    + change (0 <? 1) with true. cbv iota. split; [lia |]. nia.
    + assert (Hno : (0 <? (if c mod 10 ^ k =? 0 then 0 else -1)) = false)
        by (destruct (c mod 10 ^ k =? 0); reflexivity).
      rewrite Hno. split; [lia |]. nia.
Qed.

(** What [fix_] returns: the coefficient [R], read at the exponent of the
    operand, is the coefficient of the operand or is at most half a unit
    of the new last place away from it. *)
Lemma fix_value (d d' : t) :
  fix_ d = Ok d' ->
  exists R,
    0 <= R
    /\ (to_Q d' == inject_Z (signed (sign d) R) * q10 (expo d))%Q
    /\ (R = cz d
        \/ exists k, 0 < k /\ 0 < cz d /\ 2 * Z.abs (R - cz d) <= 10 ^ k
                     /\ expo d + k = Z.max (ndigits (cz d) + expo d - prec) Etiny).
Proof.
  pose proof (cz_nonneg d) as Hc0.
  unfold fix_. intros H.
  destruct (Z.eqb_spec (cz d) 0) as [Hz|Hz].
  - injection H as <-. exists 0. split; [lia |]. split; [| left; lia].
    rewrite to_Q_mkz by lia.
    setoid_replace (inject_Z (signed (sign d) 0)) with 0%Q
      by (unfold signed; destruct (sign d); reflexivity).
    ring.
  - set (e0 := ndigits (cz d) + expo d - prec) in *.
    destruct (Z.ltb_spec Etop e0) as [|Htop]; [discriminate H |].
    assert (Hmin : (if e0 <? Etiny then Etiny else e0) = Z.max e0 Etiny)
      by (destruct (Z.ltb_spec e0 Etiny); lia).
    rewrite Hmin in H. clear Hmin.
    set (em := Z.max e0 Etiny) in *.
    destruct (Z.ltb_spec (expo d) em) as [Hlt|Hge].
    + set (k := em - expo d).
      assert (Hk : 0 < k) by (subst k; lia).
      assert (Hgoal : forall q', 0 <= q' -> 2 * Z.abs (q' * 10 ^ k - cz d) <= 10 ^ k ->
                exists R, 0 <= R
                  /\ (to_Q (mkz (sign d) q' em)
                      == inject_Z (signed (sign d) R) * q10 (expo d))%Q
                  /\ (R = cz d
                      \/ exists k, 0 < k /\ 0 < cz d /\ 2 * Z.abs (R - cz d) <= 10 ^ k
                                   /\ expo d + k = em)).
      { intros q' Hq0 Hdist. exists (q' * 10 ^ k).
        pose proof (pow10_pos k ltac:(lia)).
        split; [nia |]. split.
        - rewrite to_Q_mkz by exact Hq0. rewrite shift_value by lia.
          replace (expo d + k) with em by (subst k; lia). reflexivity.
        - right. exists k. repeat split; [exact Hk | lia | exact Hdist | subst k; lia]. }
      unfold rounding_operand in H.
      destruct (Z.ltb_spec (ndigits (cz d) + expo d - em) 0) as [Hsmall|Hbig].
      * change (round_half_even 1 1) with (-1) in H.
        change (0 <? -1) with false in H. change (1 / 10 ^ 1) with 0 in H.
        cbv iota beta in H.
        destruct (Z.ltb_spec Etop em); [discriminate H |]. injection H as <-.
        apply Hgoal; [lia |].
        pose proof (rounding_operand_small (cz d) (expo d) em
                      ltac:(lia) ltac:(lia) Hsmall) as Hs.
        fold k in Hs. lia.
      * fold k in H.
        pose proof (half_even_distance (cz d) k Hc0 Hk) as [Hq0 Hdist].
        cbv zeta in Hq0, Hdist.
        assert (Hq : 0 <= cz d / 10 ^ k)
          by (apply Z.div_pos; [lia | apply pow10_pos; lia]).
        destruct (0 <? round_half_even (cz d) k).
        -- destruct (Z.ltb_spec prec (ndigits (cz d / 10 ^ k + 1))) as [Hcarry|Hfit].
           ++ destruct (Z.ltb_spec Etop (em + 1)); [discriminate H |]. injection H as <-.
              (* the coefficient rounded up to 10^prec *)
              assert (Hlt' : cz d / 10 ^ k < 10 ^ prec).
              { apply Z.div_lt_upper_bound; [apply pow10_pos; lia |].
                pose proof (ndigits_spec (cz d) ltac:(lia)) as [_ Hhi].
                eapply Z.lt_le_trans; [exact Hhi |].
                rewrite <- Z.pow_add_r by (unfold prec; lia).
                apply Z.pow_le_mono_r; [lia |]. subst k em e0. lia. }
              assert (Hge' : 10 ^ prec <= cz d / 10 ^ k + 1).
              { destruct (Z.le_gt_cases (10 ^ prec) (cz d / 10 ^ k + 1)) as [|Hc]; [assumption |].
                pose proof (ndigits_le _ prec ltac:(unfold prec; lia) Hc). lia. }
              assert (Heq : cz d / 10 ^ k + 1 = 10 ^ prec) by lia.
              rewrite Heq in *.
              destruct (Hgoal (10 ^ prec) ltac:(unfold prec; lia) Hdist) as (R & HR0 & HRv & HRd).
              exists R. split; [exact HR0 |]. split; [| exact HRd].
              rewrite <- HRv. rewrite !to_Q_mkz by (unfold prec; cbv; discriminate).
              change (10 ^ prec / 10) with (10 ^ (prec - 1)).
              change (10 ^ prec) with (10 ^ (prec - 1) * 10 ^ 1).
              rewrite shift_value by lia. reflexivity.
           ++ destruct (Z.ltb_spec Etop em); [discriminate H |]. injection H as <-.
              apply Hgoal; assumption.
        -- destruct (Z.ltb_spec Etop em); [discriminate H |]. injection H as <-.
           apply Hgoal; assumption.
    + injection H as <-. exists (cz d). split; [lia |]. split; [| left; reflexivity].
      rewrite to_Q_unfold. reflexivity.
Qed.

(** Rounding to the context moves a value by at most half a unit in the
    last place: a relative error of [10^(1 - prec) / 2], or, for a
    subnormal result, half a unit of [Etiny]. *)
Lemma fix_error (d d' : t) :
  fix_ d = Ok d' ->
  (Qabs (to_Q d' - to_Q d) <= half_ulp * (Qabs (to_Q d) + tiny))%Q.
Proof.
  intros H. apply fix_value in H as (R & HR0 & HRv & HRd).
  pose proof (cz_nonneg d) as Hc0.
  pose proof (value_distance (sign d) (cz d) R (expo d) 0 ltac:(lia)) as Hdist.
  rewrite Z.add_0_r, Z.pow_0_r, Z.mul_1_r in Hdist.
  rewrite HRv, abs_value, (to_Q_unfold d), Hdist. clear Hdist HRv.
  unfold half_ulp. rewrite subnormal_q10.
  pose proof (q10_pos (expo d)) as HA.
  pose proof (q10_pos (1 - prec)) as HB.
  pose proof (q10_pos Emin) as HM.
  assert (HC : (0 <= inject_Z (cz d))%Q)
    by (unfold Qle, inject_Z; cbn [Qnum Qden]; lia).
  destruct HRd as [-> | (k & Hk & Hc & Hhalf & Hexp)].
  - rewrite Z.sub_diag. cbn [Z.abs]. 
    setoid_replace (inject_Z 0 * q10 (expo d))%Q with 0%Q by ring.
    apply Qmult_le_0_compat.
    + apply Qmult_le_0_compat; [discriminate | now apply Qlt_le_weak].
    + assert (0 <= inject_Z (cz d) * q10 (expo d))%Q
        by (apply Qmult_le_0_compat; [exact HC | now apply Qlt_le_weak]).
      lra.
  - pose proof (ndigits_spec (cz d) Hc) as [Hlo _].
    pose proof (ndigits_pos (cz d)) as Hnd.
    assert (HX : (2 * inject_Z (Z.abs (R - cz d)) <= inject_Z (10 ^ k))%Q)
      by (unfold Qle, Qmult, inject_Z; cbn [Qnum Qden]; lia).
    assert (HD : (inject_Z (10 ^ (ndigits (cz d) - 1)) <= inject_Z (cz d))%Q)
      by (unfold Qle, inject_Z; cbn [Qnum Qden]; lia).
    assert (Hk10 : (inject_Z (10 ^ k) * q10 (expo d)
                    <= inject_Z (10 ^ (ndigits (cz d) - 1)) * q10 (expo d) * q10 (1 - prec)
                       + q10 (1 - prec) * q10 Emin)%Q).
    { rewrite <- (q10_nonneg k), <- (q10_nonneg (ndigits (cz d) - 1)) by lia.
      rewrite <- !q10_add.
      replace (k + expo d) with (Z.max (ndigits (cz d) + expo d - prec) Etiny) by lia.
      replace (ndigits (cz d) - 1 + expo d + (1 - prec))
        with (ndigits (cz d) + expo d - prec) by lia.
      replace (1 - prec + Emin) with Etiny by (unfold Etiny; lia).
      apply q10_max. }
    set (A := q10 (expo d)) in *. set (B := q10 (1 - prec)) in *.
    set (M := q10 Emin) in *. set (X := inject_Z (Z.abs (R - cz d))) in *.
    set (Pk := inject_Z (10 ^ k)) in *. set (C := inject_Z (cz d)) in *.
    set (D := inject_Z (10 ^ (ndigits (cz d) - 1))) in *.
    assert (H1 : (X * A <= (1 # 2) * (Pk * A))%Q) by nra.
    assert (H2 : (D * A * B <= C * A * B)%Q).
    { apply Qmult_le_compat_r; [| lra]. apply Qmult_le_compat_r; lra. }
    lra.
Qed.

(** ** Signs *)

Definition sgn (s : bool) : Q := if s then (-1)%Q else 1%Q.

Lemma signed_sgn (s : bool) (c : Z) : (inject_Z (signed s c) == sgn s * inject_Z c)%Q.
Proof.
  unfold signed, sgn. destruct s; [rewrite inject_Z_opp |]; ring.
Qed.

Lemma value_sgn (d : t) :
  (to_Q d == sgn (sign d) * inject_Z (cz d) * q10 (expo d))%Q.
Proof. rewrite to_Q_unfold, signed_sgn. reflexivity. Qed.

Lemma value_mkz (s : bool) (c e : Z) :
  0 <= c -> (to_Q (mkz s c e) == sgn s * inject_Z c * q10 e)%Q.
Proof. intros H. rewrite to_Q_mkz, signed_sgn by exact H. reflexivity. Qed.

Lemma sgn_xorb (a b : bool) : (sgn (xorb a b) == sgn a * sgn b)%Q.
Proof. destruct a, b; reflexivity. Qed.

Lemma abs_sgn (s : bool) : (Qabs (sgn s) == 1)%Q.
Proof. destruct s; reflexivity. Qed.

Lemma inject_Z_nonneg (c : Z) : 0 <= c -> (0 <= inject_Z c)%Q.
Proof. intros H. unfold Qle, inject_Z; cbn [Qnum Qden]. lia. Qed.

Lemma inject_Z_pos (c : Z) : 0 < c -> (0 < inject_Z c)%Q.
Proof. intros H. unfold Qlt, inject_Z; cbn [Qnum Qden]. lia. Qed.

Lemma inject_Z_le (a b : Z) : a <= b -> (inject_Z a <= inject_Z b)%Q.
Proof. intros H. unfold Qle, inject_Z; cbn [Qnum Qden]. lia. Qed.

(** ** Multiplication *)

Lemma mul_error (a b d : t) :
  mul a b = Ok d ->
  (Qabs (to_Q d - to_Q a * to_Q b) <= half_ulp * (Qabs (to_Q a * to_Q b) + tiny))%Q.
Proof.
  unfold mul. intros H. apply fix_error in H.
  assert (Hv : (to_Q (mkz (xorb (sign a) (sign b)) (cz a * cz b) (expo a + expo b))
                == to_Q a * to_Q b)%Q).
  { pose proof (cz_nonneg a). pose proof (cz_nonneg b).
    rewrite value_mkz by nia.
    rewrite (value_sgn a), (value_sgn b), sgn_xorb, inject_Z_mult, q10_add. ring. }
  rewrite Hv in H. exact H.
Qed.

(** ** Division *)

(** One unit in the last place of a full coefficient, relative to the
    value: [10^(1 - prec)]. *)
Local Abbreviation ulp := Spec.context_ulp.

Lemma ulp_value : (ulp == 1 # 1000000000000000000000000000)%Q.
Proof. reflexivity. Qed.

Lemma half_ulp_value : (half_ulp == 1 # 2000000000000000000000000000)%Q.
Proof. reflexivity. Qed.

Lemma tiny_pos : (0 < tiny)%Q.
Proof. rewrite subnormal_q10. apply q10_pos. Qed.

Lemma abs_triangle3 (x y z : Q) : (Qabs (x - z) <= Qabs (x - y) + Qabs (y - z))%Q.
Proof.
  setoid_replace (x - z)%Q with ((x - y) + (y - z))%Q by ring. apply Qabs_triangle.
Qed.

Lemma abs_shift (x y : Q) : (Qabs x <= Qabs y + Qabs (x - y))%Q.
Proof.
  setoid_replace x with (y + (x - y))%Q at 1 by ring. apply Qabs_triangle.
Qed.

Lemma strip_zeros_value (fuel : nat) :
  forall c e c' e',
    strip_zeros fuel c e = (c', e') -> 0 <= c ->
    0 <= c' /\ (inject_Z c' * q10 e' == inject_Z c * q10 e)%Q.
Proof.
  induction fuel as [|f IH]; intros c e c' e' H Hc; cbn [strip_zeros] in H.
  - injection H as <- <-. split; [exact Hc | reflexivity].
  - destruct (Z.eqb_spec (c mod 10) 0) as [Hm|Hm].
    + apply IH in H as [Hc' Hv]; [| apply Z.div_pos; lia].
      split; [exact Hc' |]. rewrite Hv.
      rewrite q10_add. change (q10 1) with (inject_Z 10).
      pose proof (Z.div_mod c 10 ltac:(lia)) as Hdm. rewrite Hm, Z.add_0_r in Hdm.
      rewrite Hdm at 2. rewrite inject_Z_mult. ring.
    + injection H as <- <-. split; [exact Hc | reflexivity].
Qed.

(** The quotient of the integers [num] and [den], at least [10^prec],
    truncated, marked when it is inexact, and rounded to the context. *)
Lemma div_core (s : bool) (num den q r e : Z) (fuel : nat) (d : t) :
  0 < den -> den * 10 ^ prec <= num ->
  Z.div_eucl num den = (q, r) ->
  (if r =? 0 then
     let '(q, e) := strip_zeros fuel q e in fix_ (mkz s q e)
   else fix_ (mkz s (if q mod 5 =? 0 then q + 1 else q) e)) = Ok d ->
  let exact := (sgn s * (inject_Z num / inject_Z den) * q10 e)%Q in
  (Qabs (to_Q d - exact) <= ulp * (Qabs exact + tiny))%Q.
Proof.
  intros Hden Hbig Hdiv H exact.
  pose proof (Z_div_mod num den ltac:(lia)) as Hdm. rewrite Hdiv in Hdm.
  destruct Hdm as [Hnum Hr].
  assert (Hp : 0 < 10 ^ prec) by (apply pow10_pos; unfold prec; lia).
  assert (Hq : 10 ^ prec <= q) by nia.
  pose proof (inject_Z_pos den Hden) as HD.
  pose proof (q10_pos e) as HG.
  pose proof tiny_pos as HM.
  pose proof ulp_value as Hu. pose proof half_ulp_value as Hhu.
  set (F := (inject_Z num / inject_Z den)%Q) in *.
  assert (HF : (F == inject_Z q + inject_Z r / inject_Z den)%Q).
  { unfold F. rewrite Hnum, inject_Z_plus, inject_Z_mult. field. lra. }
  assert (Hfrac : (0 <= inject_Z r / inject_Z den < 1)%Q).
  { split.
    - apply Qle_shift_div_l; [exact HD |]. rewrite Qmult_0_l. apply inject_Z_nonneg. lia.
    - apply Qlt_shift_div_r; [exact HD |]. rewrite Qmult_1_l.
      unfold Qlt, inject_Z; cbn [Qnum Qden]. lia. }
  assert (HQ : (inject_Z (10 ^ prec) <= inject_Z q)%Q) by now apply inject_Z_le.
  change (inject_Z (10 ^ prec)) with (10000000000000000000000000000 # 1)%Q in HQ.
  assert (HE : (Qabs exact == F * q10 e)%Q).
  { unfold exact. rewrite !Qabs_Qmult, abs_sgn, (Qabs_pos F), (Qabs_pos (q10 e)) by lra.
    ring. }
  assert (Hsmall : ((10000000000000000000000000000 # 1) * q10 e <= Qabs exact)%Q).
  { rewrite HE. apply Qmult_le_compat_r; lra. }
  destruct (Z.eqb_spec r 0) as [Hr0|Hr0].
  - destruct (strip_zeros fuel q e) as [q' e'] eqn:Hs.
    apply strip_zeros_value in Hs as [Hq' Hv]; [| lia].
    apply fix_error in H. rewrite value_mkz in H by exact Hq'.
    assert (Hx : (sgn s * inject_Z q' * q10 e' == exact)%Q).
    { unfold exact. rewrite HF, Hr0.
      setoid_replace (sgn s * inject_Z q' * q10 e')%Q
        with (sgn s * (inject_Z q' * q10 e'))%Q by ring.
      rewrite Hv. field. lra. }
    rewrite Hx in H.
    pose proof (Qabs_nonneg exact).
    eapply Qle_trans; [exact H |]. nra.
  - set (q' := if q mod 5 =? 0 then q + 1 else q) in *.
    assert (Hq' : 0 <= q') by (subst q'; destruct (q mod 5 =? 0); lia).
    apply fix_error in H. rewrite value_mkz in H by exact Hq'.
    set (X := (sgn s * inject_Z q' * q10 e)%Q) in *.
    assert (Hclose : (Qabs (X - exact) <= q10 e)%Q).
    { unfold X, exact.
      setoid_replace (sgn s * inject_Z q' * q10 e - sgn s * F * q10 e)%Q
        with (sgn s * (inject_Z q' - F) * q10 e)%Q by ring.
      rewrite !Qabs_Qmult, abs_sgn, (Qabs_pos (q10 e)) by lra.
      assert (Hone : (Qabs (inject_Z q' - F) <= 1)%Q).
      { apply Qabs_Qle_condition. subst q'.
        destruct (q mod 5 =? 0); [rewrite inject_Z_plus; change (inject_Z 1) with 1%Q |];
          split; lra. }
      nra. }
    pose proof (abs_triangle3 (to_Q d) X exact) as Ht.
    pose proof (abs_shift X exact) as Hs.
    pose proof (Qabs_nonneg exact).
    rewrite Hhu in H. rewrite Hu. lra.
Qed.

Lemma sgn_nonzero (s : bool) : ~ (sgn s == 0)%Q.
Proof. destruct s; discriminate. Qed.

Lemma q10_nonzero (e : Z) : ~ (q10 e == 0)%Q.
Proof. pose proof (q10_pos e). lra. Qed.

(** The quotient of two values from a quotient of integers. *)
Lemma quotient_value (a b : t) (num den e : Z) :
  0 < cz b -> 0 < den ->
  (inject_Z num * inject_Z (cz b) * q10 (expo b) * q10 e
   == inject_Z den * inject_Z (cz a) * q10 (expo a))%Q ->
  (to_Q a / to_Q b
   == sgn (xorb (sign a) (sign b)) * (inject_Z num / inject_Z den) * q10 e)%Q.
Proof.
  intros Hb Hden Heq.
  pose proof (inject_Z_pos den Hden) as HD.
  pose proof (inject_Z_pos (cz b) Hb) as HCb.
  pose proof (q10_pos (expo b)) as Heb.
  assert (Hbnz : ~ (to_Q b == 0)%Q).
  { rewrite value_sgn. intros Hz.
    apply Qmult_integral in Hz as [Hz|Hz]; [| lra].
    apply Qmult_integral in Hz as [Hz|Hz]; [now apply sgn_nonzero in Hz | lra]. }
  assert (Hva : (to_Q a
                 == sgn (xorb (sign a) (sign b)) * (inject_Z num / inject_Z den) * q10 e
                    * to_Q b)%Q).
  { rewrite (value_sgn a), (value_sgn b), sgn_xorb.
    setoid_replace (sgn (sign a) * sgn (sign b) * (inject_Z num / inject_Z den) * q10 e
                    * (sgn (sign b) * inject_Z (cz b) * q10 (expo b)))%Q
      with (sgn (sign a) * (sgn (sign b) * sgn (sign b))
            * ((inject_Z num * inject_Z (cz b) * q10 (expo b) * q10 e) / inject_Z den))%Q
      by (field; lra).
    rewrite Heq.
    setoid_replace (sgn (sign b) * sgn (sign b))%Q with 1%Q
      by (destruct (sign b); reflexivity).
    field. lra. }
  rewrite Hva at 1. apply Qdiv_mult_l. exact Hbnz.
Qed.

(** A division that returns is within one unit in the last place of the
    quotient (or of [Etiny]). *)
Lemma div_error (a b d : t) :
  div a b = Ok d ->
  cz b <> 0
  /\ (Qabs (to_Q d - to_Q a / to_Q b) <= ulp * (Qabs (to_Q a / to_Q b) + tiny))%Q.
Proof.
  pose proof (cz_nonneg a) as Ha0. pose proof (cz_nonneg b) as Hb0.
  unfold div. intros H.
  destruct (Z.eqb_spec (cz b) 0) as [Hbz|Hbz];
    [destruct (cz a =? 0); discriminate H |].
  split; [exact Hbz |].
  pose proof tiny_pos as HM. pose proof ulp_value as Hu. pose proof half_ulp_value as Hhu.
  destruct (Z.eqb_spec (cz a) 0) as [Haz|Haz].
  - apply fix_error in H. rewrite value_mkz in H by lia.
    assert (Hz : (to_Q a / to_Q b == 0)%Q).
    { rewrite (value_sgn a), Haz. unfold Qdiv. ring. }
    rewrite Hz.
    setoid_replace (sgn (xorb (sign a) (sign b)) * inject_Z 0 * q10 (expo a - expo b))%Q
      with 0%Q in H by ring.
    rewrite Hhu in H. rewrite Hu.
    eapply Qle_trans; [exact H |].
    change (Qabs 0) with 0%Q. lra.
  - set (shift := ndigits (cz b) - ndigits (cz a) + prec + 1) in *.
    set (e := expo a - expo b - shift) in *.
    pose proof (ndigits_spec (cz a) ltac:(lia)) as [Halo Hahi].
    pose proof (ndigits_spec (cz b) ltac:(lia)) as [Hblo Hbhi].
    pose proof (ndigits_pos (cz a)) as Hna. pose proof (ndigits_pos (cz b)) as Hnb.
    destruct (Z.leb_spec 0 shift) as [Hs|Hs].
    + destruct (Z.div_eucl (cz a * 10 ^ shift) (cz b)) as [q r] eqn:Hdiv.
      assert (Hqv : (to_Q a / to_Q b
                     == sgn (xorb (sign a) (sign b))
                        * (inject_Z (cz a * 10 ^ shift) / inject_Z (cz b)) * q10 e)%Q).
      { apply quotient_value; [lia | lia |].
        rewrite inject_Z_mult, <- (q10_nonneg shift) by lia.
        replace (q10 (expo a)) with (q10 (shift + (expo b + e)))
          by (f_equal; subst e; lia).
        rewrite !q10_add. ring. }
      rewrite Hqv.
      apply (div_core _ (cz a * 10 ^ shift) (cz b) q r e _ d ltac:(lia)) in H;
        [exact H | | exact Hdiv].
      assert (10 ^ (ndigits (cz b) + prec) <= cz a * 10 ^ shift).
      { replace (ndigits (cz b) + prec) with (ndigits (cz a) - 1 + shift) by (subst shift; lia).
        rewrite Z.pow_add_r by lia. apply Z.mul_le_mono_nonneg_r; [apply Z.pow_nonneg |]; lia. }
      rewrite Z.pow_add_r in * by (unfold prec; lia).
      pose proof (pow10_pos prec ltac:(unfold prec; lia)). nia.
    + destruct (Z.div_eucl (cz a) (cz b * 10 ^ (- shift))) as [q r] eqn:Hdiv.
      pose proof (pow10_pos (- shift) ltac:(lia)) as Hps.
      assert (Hqv : (to_Q a / to_Q b
                     == sgn (xorb (sign a) (sign b))
                        * (inject_Z (cz a) / inject_Z (cz b * 10 ^ (- shift))) * q10 e)%Q).
      { apply quotient_value; [lia | nia |].
        rewrite inject_Z_mult, <- (q10_nonneg (- shift)) by lia.
        assert (He : (q10 e * q10 (expo b) == q10 (expo a) * q10 (- shift))%Q).
        { rewrite <- !q10_add. replace (e + expo b) with (expo a + - shift) by (subst e; lia).
          reflexivity. }
        setoid_replace (inject_Z (cz a) * inject_Z (cz b) * q10 (expo b) * q10 e)%Q
          with (inject_Z (cz a) * inject_Z (cz b) * (q10 e * q10 (expo b)))%Q by ring.
        rewrite He. ring. }
      rewrite Hqv.
      apply (div_core _ (cz a) (cz b * 10 ^ (- shift)) q r e _ d ltac:(nia)) in H;
        [exact H | | exact Hdiv].
      assert (cz b * 10 ^ (- shift) * 10 ^ prec < 10 ^ (ndigits (cz a) - 1)).
      { replace (ndigits (cz a) - 1) with (ndigits (cz b) + (- shift) + prec)
          by (subst shift; lia).
        rewrite !Z.pow_add_r by (unfold prec; lia).
        pose proof (pow10_pos prec ltac:(unfold prec; lia)).
        apply Z.mul_lt_mono_pos_r; [lia |]. apply Z.mul_lt_mono_pos_r; lia. }
      lia.
Qed.

(** ** Addition *)

(** [_normalize] with the operand of larger exponent first. *)
Definition align (tmp other : t) : t * t :=
  let e := expo tmp + Z.min (-1) (ndigits (cz tmp) - prec - 2) in
  let other' :=
    if ndigits (cz other) + expo other - 1 <? e then mkz (sign other) 1 e else other in
  (mkz (sign tmp) (cz tmp * 10 ^ (expo tmp - expo other')) (expo other'), other').

Lemma normalize_align (op1 op2 : t) :
  normalize op1 op2
  = if expo op1 <? expo op2 then let '(x, o) := align op2 op1 in (o, x)
    else align op1 op2.
Proof.
  unfold normalize, align. destruct (expo op1 <? expo op2); reflexivity.
Qed.

(** The weight of the digit that stands for an operand too small to reach
    the digits kept, relative to the other operand: [10^(-prec - 1)]. *)
Definition sticky : Q := q10 (- prec - 1).

Lemma sticky_value : (sticky == 1 # 100000000000000000000000000000)%Q.
Proof. reflexivity. Qed.

Lemma align_spec (tmp other x o : t) :
  expo other <= expo tmp -> 0 < cz tmp -> 0 < cz other ->
  align tmp other = (x, o) ->
  sign x = sign tmp /\ sign o = sign other /\ expo x = expo o
  /\ 0 < cz x /\ 0 < cz o
  /\ (to_Q x == to_Q tmp)%Q
  /\ exists T : Q,
       (0 <= T)%Q
       /\ (Qabs (to_Q o - to_Q other) <= sticky * T)%Q
       /\ (T <= Qabs (to_Q tmp + to_Q other) + sticky * T)%Q.
Proof.
  intros Hexp Hct Hco H. unfold align in H.
  set (e := expo tmp + Z.min (-1) (ndigits (cz tmp) - prec - 2)) in *.
  pose proof (ndigits_spec (cz tmp) Hct) as [Htlo Hthi].
  pose proof (ndigits_spec (cz other) Hco) as [Holo Hohi].
  pose proof (ndigits_pos (cz tmp)) as Hnt. pose proof (ndigits_pos (cz other)) as Hno.
  pose proof sticky_value as Hk.
  destruct (Z.ltb_spec (ndigits (cz other) + expo other - 1) e) as [Hrep|Hkeep].
  - (* the small operand is replaced by one unit at the exponent [e] *)
    injection H as <- <-. cbn [sign expo mkz].
    assert (He : e < expo tmp) by (subst e; lia).
    pose proof (pow10_pos (expo tmp - e) ltac:(lia)) as Hp.
    rewrite !cz_mkz by nia.
    repeat split; try reflexivity; try nia.
    + rewrite value_mkz, (value_sgn tmp) by nia.
      rewrite inject_Z_mult, <- (q10_nonneg (expo tmp - e)) by lia.
      setoid_replace (sgn (sign tmp) * (inject_Z (cz tmp) * q10 (expo tmp - e)) * q10 e)%Q
        with (sgn (sign tmp) * inject_Z (cz tmp) * (q10 (expo tmp - e) * q10 e))%Q by ring.
      rewrite <- q10_add. replace (expo tmp - e + e) with (expo tmp) by lia. reflexivity.
    + exists (Qabs (to_Q tmp)).
      pose proof (q10_pos e) as HG.
      assert (Hob : (Qabs (to_Q other) <= q10 e)%Q).
      { rewrite abs_value.
        apply Qle_trans with (inject_Z (10 ^ ndigits (cz other)) * q10 (expo other))%Q.
        - apply Qmult_le_compat_r; [apply inject_Z_le; lia | apply Qlt_le_weak, q10_pos].
        - rewrite <- q10_nonneg, <- q10_add by lia. apply q10_le. lia. }
      assert (Htb : (q10 e <= sticky * Qabs (to_Q tmp))%Q).
      { rewrite abs_value. unfold sticky.
        apply Qle_trans
          with (q10 (- prec - 1) * (inject_Z (10 ^ (ndigits (cz tmp) - 1)) * q10 (expo tmp)))%Q.
        - rewrite <- q10_nonneg, <- !q10_add by lia. apply q10_le. subst e. lia.
        - apply Qmult_le_l; [apply q10_pos |].
          apply Qmult_le_compat_r; [apply inject_Z_le; lia | apply Qlt_le_weak, q10_pos]. }
      split; [apply Qabs_nonneg |]. split.
      * eapply Qle_trans; [| exact Htb].
        rewrite value_mkz, (value_sgn other) by lia.
        setoid_replace (sgn (sign other) * inject_Z 1 * q10 e
                        - sgn (sign other) * inject_Z (cz other) * q10 (expo other))%Q
          with (sgn (sign other) * (q10 e - inject_Z (cz other) * q10 (expo other)))%Q
          by (change (inject_Z 1) with 1%Q; ring).
        rewrite Qabs_Qmult, abs_sgn, Qmult_1_l.
        rewrite abs_value in Hob.
        assert (0 <= inject_Z (cz other) * q10 (expo other))%Q
          by (apply Qmult_le_0_compat; [apply inject_Z_nonneg; lia
                                       | apply Qlt_le_weak, q10_pos]).
        rewrite Qabs_pos by lra. lra.
      * pose proof (abs_shift (to_Q tmp) (to_Q tmp + to_Q other)) as Hs.
        setoid_replace (to_Q tmp - (to_Q tmp + to_Q other))%Q with (- to_Q other)%Q in Hs
          by ring.
        rewrite Qabs_opp in Hs. lra.
  - injection H as <- <-. cbn [sign expo mkz].
    pose proof (pow10_pos (expo tmp - expo other) ltac:(lia)) as Hp.
    rewrite !cz_mkz by nia.
    repeat split; try reflexivity; try nia; try lia.
    + rewrite value_mkz, (value_sgn tmp) by nia.
      rewrite inject_Z_mult, <- (q10_nonneg (expo tmp - expo other)) by lia.
      setoid_replace (sgn (sign tmp) * (inject_Z (cz tmp) * q10 (expo tmp - expo other))
                      * q10 (expo other))%Q
        with (sgn (sign tmp) * inject_Z (cz tmp)
              * (q10 (expo tmp - expo other) * q10 (expo other)))%Q by ring.
      rewrite <- q10_add. replace (expo tmp - expo other + expo other) with (expo tmp) by lia.
      reflexivity.
    + exists 0%Q. split; [lra |]. split.
      * setoid_replace (to_Q other - to_Q other)%Q with 0%Q by ring.
        change (Qabs 0) with 0%Q. lra.
      * pose proof (Qabs_nonneg (to_Q tmp + to_Q other)). lra.
Qed.

Lemma normalize_spec (a b op1 op2 : t) :
  0 < cz a -> 0 < cz b ->
  normalize a b = (op1, op2) ->
  sign op1 = sign a /\ sign op2 = sign b /\ expo op1 = expo op2
  /\ 0 < cz op1 /\ 0 < cz op2
  /\ exists T : Q,
       (0 <= T)%Q
       /\ (Qabs ((to_Q op1 + to_Q op2) - (to_Q a + to_Q b)) <= sticky * T)%Q
       /\ (T <= Qabs (to_Q a + to_Q b) + sticky * T)%Q.
Proof.
  intros Ha Hb H. rewrite normalize_align in H.
  destruct (Z.ltb_spec (expo a) (expo b)) as [Hlt|Hge].
  - destruct (align b a) as [x o] eqn:Hal. injection H as <- <-.
    apply align_spec in Hal as (Hsx & Hso & He & Hcx & Hco & Hvx & T & HT0 & HTo & HTs);
      [| lia | exact Hb | exact Ha].
    repeat split; try assumption; [lia |].
    exists T. split; [exact HT0 |]. split.
    + rewrite Hvx.
      setoid_replace (to_Q o + to_Q b - (to_Q a + to_Q b))%Q with (to_Q o - to_Q a)%Q by ring.
      exact HTo.
    + setoid_replace (to_Q a + to_Q b)%Q with (to_Q b + to_Q a)%Q by ring. exact HTs.
  - apply align_spec in H as (Hsx & Hso & He & Hcx & Hco & Hvx & T & HT0 & HTo & HTs);
      [| lia | exact Ha | exact Hb].
    repeat split; try assumption.
    exists T. split; [exact HT0 |]. split.
    + rewrite Hvx.
      setoid_replace (to_Q a + to_Q op2 - (to_Q a + to_Q b))%Q with (to_Q op2 - to_Q b)%Q
        by ring.
      exact HTo.
    + exact HTs.
Qed.

Lemma sgn_negb (s1 s2 : bool) : Bool.eqb s1 s2 = false -> (sgn s2 == - sgn s1)%Q.
Proof. destruct s1, s2; intros H; try discriminate H; reflexivity. Qed.

(** An addition that returns is within one unit in the last place of the
    sum (or of [Etiny]). *)
Lemma add_error (a b d : t) :
  add a b = Ok d ->
  (Qabs (to_Q d - (to_Q a + to_Q b)) <= ulp * (Qabs (to_Q a + to_Q b) + tiny))%Q.
Proof.
  pose proof (cz_nonneg a) as Ha0. pose proof (cz_nonneg b) as Hb0.
  pose proof tiny_pos as HM. pose proof ulp_value as Hu. pose proof half_ulp_value as Hhu.
  pose proof sticky_value as Hk.
  unfold add. intros H.
  assert (Hzero : forall x : t, cz x = 0 -> (to_Q x == 0)%Q).
  { intros x Hx. rewrite value_sgn, Hx. ring. }
  assert (Hweak : forall S : Q,
             (Qabs (to_Q d - S) <= half_ulp * (Qabs S + tiny))%Q ->
             (Qabs (to_Q d - S) <= ulp * (Qabs S + tiny))%Q).
  { intros S HS. pose proof (Qabs_nonneg S). rewrite Hhu in HS. rewrite Hu. lra. }
  destruct (Z.eqb_spec (cz a) 0) as [Haz|Haz]; destruct (Z.eqb_spec (cz b) 0) as [Hbz|Hbz];
    cbn [andb] in H.
  - apply fix_error in H. rewrite value_mkz in H by lia.
    apply Hweak. rewrite (Hzero a Haz), (Hzero b Hbz), Qplus_0_l.
    setoid_replace (sgn (sign a && sign b) * inject_Z 0 * q10 (Z.min (expo a) (expo b)))%Q
      with 0%Q in H by ring.
    exact H.
  - apply fix_error in H.
    pose proof (rescale_exact b (Z.max (Z.min (expo a) (expo b)) (expo b - prec - 1))
                  ROUND_HALF_EVEN ltac:(unfold prec; lia)) as Hr.
    rewrite Hr in H. apply Hweak. rewrite (Hzero a Haz), Qplus_0_l. exact H.
  - apply fix_error in H.
    pose proof (rescale_exact a (Z.max (Z.min (expo a) (expo b)) (expo a - prec - 1))
                  ROUND_HALF_EVEN ltac:(unfold prec; lia)) as Hr.
    rewrite Hr in H. apply Hweak. rewrite (Hzero b Hbz), Qplus_0_r. exact H.
  - destruct (normalize a b) as [op1 op2] eqn:Hn.
    apply normalize_spec in Hn
      as (Hs1 & Hs2 & He & Hc1 & Hc2 & T & HT0 & HTd & HTs); [| lia | lia].
    assert (Hsum : forall X : t,
               fix_ X = Ok d -> (to_Q X == to_Q op1 + to_Q op2)%Q ->
               (Qabs (to_Q d - (to_Q a + to_Q b))
                <= ulp * (Qabs (to_Q a + to_Q b) + tiny))%Q).
    { intros X HX HV. apply fix_error in HX. rewrite HV in HX.
      pose proof (abs_triangle3 (to_Q d) (to_Q op1 + to_Q op2) (to_Q a + to_Q b)) as Ht.
      pose proof (abs_shift (to_Q op1 + to_Q op2) (to_Q a + to_Q b)) as Hs.
      pose proof (Qabs_nonneg (to_Q a + to_Q b)).
      rewrite Hhu in HX. rewrite Hk in HTd, HTs. rewrite Hu. lra. }
    destruct (Bool.eqb (sign op1) (sign op2)) eqn:Hsame.
    + apply (Hsum _ H). apply Bool.eqb_prop in Hsame.
      rewrite value_mkz, (value_sgn op1), (value_sgn op2), <- Hsame, <- He by lia.
      rewrite inject_Z_plus. ring.
    + apply sgn_negb in Hsame.
      destruct (Z.eqb_spec (cz op1) (cz op2)) as [Heq|Hne].
      * apply (Hsum _ H).
        rewrite value_mkz, (value_sgn op1), (value_sgn op2), Hsame, <- He, Heq by lia.
        ring.
      * destruct (Z.ltb_spec (cz op1) (cz op2)) as [Hlt|Hge]; apply (Hsum _ H).
        -- rewrite value_mkz, (value_sgn op1), (value_sgn op2), Hsame, <- He by lia.
           unfold Z.sub. rewrite inject_Z_plus, inject_Z_opp. ring.
        -- rewrite value_mkz, (value_sgn op1), (value_sgn op2), Hsame, <- He by lia.
           unfold Z.sub. rewrite inject_Z_plus, inject_Z_opp. ring.
Qed.
Lemma mul_mono_l (c a b : Q) : (0 <= c)%Q -> (a <= b)%Q -> (c * a <= c * b)%Q.
Proof.
  intros Hc Hab. rewrite (Qmult_comm c a), (Qmult_comm c b).
  now apply Qmult_le_compat_r.
Qed.

Section Drift.

Variables w mu : Q.
Hypothesis w_range : (0 <= w <= 1)%Q.
Hypothesis mu_nonneg : (0 <= mu)%Q.

Lemma period_bound_abs (x y z s al d1 d2 d3 x1 : Q) :
  (0 <= x)%Q -> (0 <= y)%Q -> (0 <= al)%Q ->
  (y <= al + d3)%Q -> (d3 <= w * (al + mu))%Q ->
  (z <= x * y + d2)%Q -> (d2 <= w * (x * y + mu))%Q ->
  (s <= x + z)%Q -> (0 <= s)%Q ->
  (x1 <= s + d1)%Q -> (d1 <= w * (s + mu))%Q ->
  (x1 + mu <= (x + mu) * (1 + al + mu) * ((1 + w) * (1 + w) * (1 + w) * (1 + w)))%Q
  /\ (d1 + d2 + x * d3
      <= (x + mu) * (1 + al + mu) * ((1 + w) * (1 + w) * (1 + w) * (1 + w) - 1))%Q.
Proof.
  intros Hx Hy Hal Hy' Hd3 Hz Hd2 Hs Hs0 Hx1 Hd1.
  destruct w_range as [Hw0 Hw1].
  set (W := (1 + w)%Q) in *.
  set (alpha := (al + mu)%Q).
  assert (HW : (1 <= W)%Q) by (subst W; lra).
  assert (Ha0 : (0 <= alpha)%Q) by (subst alpha; lra).
  assert (HyW : (y <= alpha * W)%Q) by (subst alpha W; nra).
  assert (Hxy : (x * y <= x * alpha * W)%Q) by nra.
  assert (Hxy0 : (0 <= x * y)%Q) by nra.
  assert (Hxa0 : (0 <= x * alpha)%Q) by nra.
  assert (HzW : (z <= x * alpha * W * W + w * mu)%Q) by (subst W; nra).
  assert (HsW : (s <= x + x * alpha * W * W + w * mu)%Q) by lra.
  split.
  - assert (H1 : (x1 + mu <= (x + x * alpha * W * W + w * mu) * W + w * mu + mu)%Q)
      by (subst W; nra).
    assert (H2 : ((x + x * alpha * W * W + w * mu) * W + w * mu + mu
                  == x * W + x * alpha * (W * W * W) + mu * (W * W))%Q)
      by (subst W; ring).
    assert (HW2 : (W <= W * W)%Q) by nra.
    assert (HW3 : (W * W <= W * W * W)%Q) by nra.
    assert (HW4 : (W * W * W <= W * W * W * W)%Q) by nra.
    assert (T1 : (x * W <= x * (W * W * W * W))%Q) by (apply mul_mono_l; lra).
    assert (T2 : (x * alpha * (W * W * W) <= x * alpha * (W * W * W * W))%Q)
      by (apply mul_mono_l; lra).
    assert (T3 : (mu * (W * W) <= mu * (W * W * W * W))%Q) by (apply mul_mono_l; lra).
    assert (T4 : (0 <= mu * alpha * (W * W * W * W))%Q).
    { apply Qmult_le_0_compat; [apply Qmult_le_0_compat; lra | lra]. }
    setoid_replace ((x + mu) * (1 + al + mu) * (W * W * W * W))%Q
      with (x * (W * W * W * W) + x * alpha * (W * W * W * W)
            + mu * (W * W * W * W) + mu * alpha * (W * W * W * W))%Q
      by (subst alpha; ring).
    lra.
  - set (C := ((x + mu) * (1 + alpha))%Q).
    set (B := (x + x * alpha * (W * W) + x * alpha * W + x * alpha + mu * (2 + w))%Q).
    assert (HC : (0 <= C)%Q) by (subst C; apply Qmult_le_0_compat; lra).
    assert (HW2 : (W <= W * W)%Q) by nra.
    assert (E1 : (d1 <= w * (x + x * alpha * W * W + w * mu + mu))%Q).
    { eapply Qle_trans; [exact Hd1 |]. apply mul_mono_l; lra. }
    assert (E2 : (d2 <= w * (x * alpha * W + mu))%Q).
    { eapply Qle_trans; [exact Hd2 |]. apply mul_mono_l; lra. }
    assert (E3 : (x * d3 <= w * (x * alpha))%Q).
    { setoid_replace (w * (x * alpha))%Q with (x * (w * (al + mu)))%Q by (subst alpha; ring).
      apply mul_mono_l; lra. }
    assert (HB : (d1 + d2 + x * d3 <= w * B)%Q).
    { setoid_replace (w * B)%Q
        with (w * (x + x * alpha * W * W + w * mu + mu) + w * (x * alpha * W + mu)
              + w * (x * alpha))%Q by (subst B; ring).
      lra. }
    assert (HB2 : (B <= 3 * (W * W) * C)%Q).
    { assert (T1 : (x * 1 <= x * (3 * (W * W)))%Q) by (apply mul_mono_l; lra).
      assert (T2 : (x * alpha * (W * W + W + 1) <= x * alpha * (3 * (W * W)))%Q)
        by (apply mul_mono_l; lra).
      assert (T3 : (mu * (2 + w) <= mu * (3 * (W * W)))%Q) by (apply mul_mono_l; lra).
      assert (T4 : (0 <= mu * alpha * (3 * (W * W)))%Q).
      { apply Qmult_le_0_compat; [apply Qmult_le_0_compat; lra | lra]. }
      setoid_replace (3 * (W * W) * C)%Q
        with (x * (3 * (W * W)) + x * alpha * (3 * (W * W)) + mu * (3 * (W * W))
              + mu * alpha * (3 * (W * W)))%Q by (subst C; ring).
      setoid_replace B
        with (x * 1 + x * alpha * (W * W + W + 1) + mu * (2 + w))%Q by (subst B; ring).
      lra. }
    assert (HW4 : (w * (3 * (W * W)) <= W * W * W * W - 1)%Q) by (subst W; nra).
    setoid_replace ((x + mu) * (1 + al + mu) * (W * W * W * W - 1))%Q
      with ((W * W * W * W - 1) * C)%Q by (subst C alpha; ring).
    apply Qle_trans with (w * B)%Q; [exact HB |].
    apply Qle_trans with (w * (3 * (W * W) * C))%Q; [apply mul_mono_l; lra |].
    setoid_replace (w * (3 * (W * W) * C))%Q with (w * (3 * (W * W)) * C)%Q by ring.
    apply Qmult_le_compat_r; lra.
Qed.

End Drift.

Lemma pow_succ (x : Q) (k : nat) : (x ^ Z.of_nat (S k) == x * x ^ Z.of_nat k)%Q.
Proof.
  rewrite Nat2Z.inj_succ, <- Z.add_1_l, Qpower_plus' by lia.
  change (x ^ 1)%Q with x. reflexivity.
Qed.

Lemma abs_pow_le (x A : Q) (k : nat) :
  (Qabs x <= A)%Q -> (Qabs (x ^ Z.of_nat k) <= A ^ Z.of_nat k)%Q.
Proof.
  intros H. pose proof (Qabs_nonneg x) as Hx.
  induction k as [|k IH].
  - cbn. discriminate.
  - rewrite !pow_succ, Qabs_Qmult.
    pose proof (Qabs_nonneg (x ^ Z.of_nat k)) as Hk.
    apply Qle_trans with (A * Qabs (x ^ Z.of_nat k))%Q.
    + apply Qmult_le_compat_r; assumption.
    + apply mul_mono_l; [lra | exact IH].
Qed.

(** One more period on top of [k] periods. *)
Lemma drift_step (beta beta1 e1 e2 A G Ak Gk qk : Q) :
  (0 <= beta)%Q -> (0 <= A)%Q -> (1 <= G)%Q -> (0 <= Ak)%Q -> (1 <= Gk)%Q ->
  (0 <= e2)%Q -> (0 <= qk <= Ak)%Q ->
  (beta1 <= beta * A * G)%Q ->
  (e1 <= beta1 * Ak * (Gk - 1))%Q ->
  (e2 <= beta * A * (G - 1))%Q ->
  (e1 + qk * e2 <= beta * (A * Ak) * (G * Gk - 1))%Q.
Proof.
  intros Hb HA HG HAk HGk He2 [Hq0 Hq] Hb1 He1 He2'.
  assert (Hm : (0 <= Ak * (Gk - 1))%Q) by (apply Qmult_le_0_compat; lra).
  assert (H1 : (beta1 * Ak * (Gk - 1) <= beta * A * G * (Ak * (Gk - 1)))%Q).
  { rewrite <- Qmult_assoc. apply Qmult_le_compat_r; assumption. }
  assert (H2 : (qk * e2 <= Ak * e2)%Q) by (apply Qmult_le_compat_r; assumption).
  assert (H3 : (Ak * e2 <= Ak * (beta * A * (G - 1)))%Q) by (apply mul_mono_l; assumption).
  setoid_replace (beta * (A * Ak) * (G * Gk - 1))%Q
    with (beta * A * G * (Ak * (Gk - 1)) + Ak * (beta * A * (G - 1)))%Q by ring.
  lra.
Qed.
(** ** The balance after some periods *)

(** The growth of the relative error over one period: three roundings
    (the period rate, the product and the sum), bounded by four units in
    the last place. *)
Definition period_growth (w : Q) : Q := (1 + w) * (1 + w) * (1 + w) * (1 + w).

Section Periods.

(** The bounds hold for any arithmetic whose products and sums are within
    [w * (|x| + mu)] of the exact result [x]. *)
Variables w mu : Q.
Hypothesis w_range : (0 <= w <= 1)%Q.
Hypothesis mu_pos : (0 < mu)%Q.
Hypothesis mul_close :
  forall x y d : t,
    mul x y = Ok d ->
    (Qabs (to_Q d - to_Q x * to_Q y) <= w * (Qabs (to_Q x * to_Q y) + mu))%Q.
Hypothesis add_close :
  forall x y d : t,
    add x y = Ok d ->
    (Qabs (to_Q d - (to_Q x + to_Q y)) <= w * (Qabs (to_Q x + to_Q y) + mu))%Q.

Variable a : Q.
Variable pr : t.
Hypothesis rate_close : (Qabs (to_Q pr - a) <= w * (Qabs a + mu))%Q.

Lemma period_growth_ge_1 : (1 <= period_growth w)%Q.
Proof.
  destruct w_range as [H0 _]. unfold period_growth.
  assert (H1 : (1 <= (1 + w) * (1 + w))%Q) by nra.
  assert (H2 : ((1 + w) * (1 + w) <= (1 + w) * (1 + w) * (1 + w))%Q) by nra.
  assert (H3 : ((1 + w) * (1 + w) * (1 + w) <= (1 + w) * (1 + w) * (1 + w) * (1 + w))%Q)
    by nra.
  lra.
Qed.

Lemma period_drift (b i b1 : t) :
  mul b pr = Ok i -> add b i = Ok b1 ->
  (Qabs (to_Q b1) + mu
   <= (Qabs (to_Q b) + mu) * (1 + Qabs a + mu) * period_growth w)%Q
  /\ (Qabs (to_Q b1 - (1 + a) * to_Q b)
      <= (Qabs (to_Q b) + mu) * (1 + Qabs a + mu) * (period_growth w - 1))%Q.
Proof.
  intros Hmul Hadd.
  apply mul_close in Hmul. apply add_close in Hadd.
  rewrite Qabs_Qmult in Hmul.
  pose proof (abs_shift (to_Q i) (to_Q b * to_Q pr)) as Hz.
  rewrite Qabs_Qmult in Hz.
  destruct (period_bound_abs w mu w_range (Qlt_le_weak _ _ mu_pos)
              (Qabs (to_Q b)) (Qabs (to_Q pr)) (Qabs (to_Q i)) (Qabs (to_Q b + to_Q i))
              (Qabs a) (Qabs (to_Q b1 - (to_Q b + to_Q i)))
              (Qabs (to_Q i - to_Q b * to_Q pr)) (Qabs (to_Q pr - a)) (Qabs (to_Q b1))
              (Qabs_nonneg _) (Qabs_nonneg _) (Qabs_nonneg _)
              (abs_shift _ _) rate_close Hz Hmul (Qabs_triangle _ _) (Qabs_nonneg _)
              (abs_shift _ _) Hadd) as [H1 H2].
  split; [exact H1 |].
  eapply Qle_trans; [| exact H2].
  setoid_replace (to_Q b1 - (1 + a) * to_Q b)%Q
    with ((to_Q b1 - (to_Q b + to_Q i))
          + ((to_Q i - to_Q b * to_Q pr) + to_Q b * (to_Q pr - a)))%Q by ring.
  eapply Qle_trans; [apply Qabs_triangle |].
  pose proof (Qabs_triangle (to_Q i - to_Q b * to_Q pr) (to_Q b * (to_Q pr - a))) as Ht.
  rewrite Qabs_Qmult in Ht. lra.
Qed.

Lemma grow_drift (k : nat) :
  forall b b',
    Spec.grow pr b k = Ok b' ->
    (Qabs (to_Q b') + mu
     <= (Qabs (to_Q b) + mu) * (1 + Qabs a + mu) ^ Z.of_nat k
        * period_growth w ^ Z.of_nat k)%Q
    /\ (Qabs (to_Q b' - to_Q b * (1 + a) ^ Z.of_nat k)
        <= (Qabs (to_Q b) + mu) * (1 + Qabs a + mu) ^ Z.of_nat k
           * (period_growth w ^ Z.of_nat k - 1))%Q.
Proof.
  pose proof mu_pos as HM. pose proof period_growth_ge_1 as HG.
  pose proof (Qabs_nonneg a) as Ha.
  set (G := period_growth w) in *.
  induction k as [|k IH]; intros b b' H.
  - cbn [Spec.grow] in H. injection H as <-. cbn [Z.of_nat Qpower].
    pose proof (Qabs_nonneg (to_Q b)).
    split; [lra |].
    setoid_replace (to_Q b - to_Q b * 1)%Q with 0%Q by ring.
    change (Qabs 0) with 0%Q. lra.
  - cbn [Spec.grow] in H.
    destruct (mul b pr) as [i|e] eqn:Hmul; [| discriminate H]. cbn [bind] in H.
    destruct (add b i) as [b1|e] eqn:Hadd; [| discriminate H]. cbn [bind] in H.
    destruct (period_drift b i b1 Hmul Hadd) as [P1 P2]. fold G in P1, P2.
    destruct (IH b1 b' H) as [I1 I2].
    set (A := (1 + Qabs a + mu)%Q) in *.
    assert (HA : (0 <= A)%Q) by (subst A; lra).
    pose proof (Qpower_0_le A (Z.of_nat k) HA) as HAk.
    pose proof (Qpower_1_le G (Z.of_nat k) HG (Nat2Z.is_nonneg k)) as HGk.
    pose proof (Qabs_nonneg (to_Q b)) as Hb.
    rewrite !pow_succ.
    set (Ak := (A ^ Z.of_nat k)%Q) in *. set (Gk := (G ^ Z.of_nat k)%Q) in *.
    set (beta := (Qabs (to_Q b) + mu)%Q) in *.
    set (beta1 := (Qabs (to_Q b1) + mu)%Q) in *.
    assert (Hbeta : (0 <= beta)%Q) by (subst beta; lra).
    split.
    + eapply Qle_trans; [exact I1 |].
      setoid_replace (beta * (A * Ak) * (G * Gk))%Q
        with (beta * A * G * (Ak * Gk))%Q by ring.
      rewrite <- Qmult_assoc. apply Qmult_le_compat_r; [exact P1 |].
      apply Qmult_le_0_compat; lra.
    + assert (Hq : (Qabs (1 + a) <= A)%Q).
      { eapply Qle_trans; [apply Qabs_triangle |]. change (Qabs 1) with 1%Q. subst A. lra. }
      pose proof (abs_pow_le (1 + a) A k Hq) as Hqk. fold Ak in Hqk.
      set (qk := ((1 + a) ^ Z.of_nat k)%Q) in *.
      eapply Qle_trans;
        [| exact (drift_step beta beta1
                    (Qabs (to_Q b' - to_Q b1 * qk)) (Qabs (to_Q b1 - (1 + a) * to_Q b))
                    A G Ak Gk (Qabs qk)
                    Hbeta HA HG HAk HGk (Qabs_nonneg _)
                    (conj (Qabs_nonneg _) Hqk) P1 I2 P2)].
      setoid_replace (to_Q b' - to_Q b * ((1 + a) * qk))%Q
        with ((to_Q b' - to_Q b1 * qk) + qk * (to_Q b1 - (1 + a) * to_Q b))%Q by ring.
      eapply Qle_trans; [apply Qabs_triangle |].
      rewrite Qabs_Qmult. lra.
Qed.

End Periods.

Lemma of_int_value (n : Z) : (to_Q (of_int n) == inject_Z n)%Q.
Proof.
  unfold of_int. rewrite to_Q_mkz by lia. change (q10 0) with 1%Q.
  rewrite Qmult_1_r. unfold signed.
  destruct (Z.ltb_spec n 0); [replace (- Z.abs n) with n by lia
                             | replace (Z.abs n) with n by lia]; reflexivity.
Qed.

Lemma period_growth_pow (w : Q) (k : Z) :
  (period_growth w ^ k == (1 + w) ^ (4 * k))%Q.
Proof.
  rewrite Qpower_mult. apply Qpower_comp; [| reflexivity].
  unfold period_growth.
  change ((1 + w) ^ 4)%Q with ((1 + w) * (1 + w) * ((1 + w) * (1 + w)))%Q.
  ring.
Qed.

Lemma ulp_range : (0 <= ulp <= 1)%Q.
Proof. rewrite ulp_value. split; discriminate. Qed.

Lemma mul_error_ulp (a b d : t) :
  mul a b = Ok d ->
  (Qabs (to_Q d - to_Q a * to_Q b) <= ulp * (Qabs (to_Q a * to_Q b) + tiny))%Q.
Proof.
  intros H. apply mul_error in H.
  pose proof tiny_pos. pose proof (Qabs_nonneg (to_Q a * to_Q b)).
  pose proof half_ulp_value as Hh. pose proof ulp_value as Hu.
  rewrite Hh in H. rewrite Hu. lra.
Qed.

(** The balance after [k] periods is the closed form up to the drift of
    the roundings. *)
Lemma balance_drift (rate pr principal b : t) (n k : Z) :
  0 <= k ->
  div rate (of_int n) = Ok pr ->
  Spec.grow pr principal (Z.to_nat k) = Ok b ->
  (Qabs (to_Q b - to_Q principal * (1 + to_Q rate / inject_Z n) ^ k)
   <= (Qabs (to_Q principal) + Spec.subnormal)
      * (1 + Qabs (to_Q rate / inject_Z n) + Spec.subnormal) ^ k
      * ((1 + Spec.context_ulp) ^ (4 * k) - 1))%Q.
Proof.
  intros Hk Hdiv Hgrow.
  apply div_error in Hdiv as [_ Hdiv]. rewrite of_int_value in Hdiv.
  destruct (grow_drift ulp tiny ulp_range tiny_pos mul_error_ulp add_error
              _ pr Hdiv _ _ _ Hgrow) as [_ H].
  rewrite Z2Nat.id in H by exact Hk.
  rewrite period_growth_pow in H. exact H.
Qed.

End RoundingFacts.

(* ================================================================== *)
(** * Contributions *)
(* ================================================================== *)

Module ContributionFacts.

Import Calculator Spec.

(** On valid frequencies the guard of the code computes the maximum the
    specification names. *)
Lemma guard_is_max (n cf : Z) :
  1 <= n -> 1 <= cf ->
  (if n / cf =? 0 then 1 else n / cf) = periods_per_contribution n cf.
Proof.
  intros Hn Hcf. unfold periods_per_contribution.
  assert (0 <= n / cf) by (apply Z.div_pos; lia).
  destruct (Z.eqb_spec (n / cf) 0); lia.
Qed.

Lemma positive_contribution (c : Decimal.t) :
  Decimal.gtb c (Decimal.of_int 0) = true ->
  Decimal.sign c = false /\ 0 < Decimal.cz c.
Proof.
  unfold Decimal.gtb, Decimal.cmp, Decimal.signed_coeff.
  change (Decimal.cz (Decimal.of_int 0)) with 0.
  change (Decimal.sign (Decimal.of_int 0)) with false.
  change (Decimal.expo (Decimal.of_int 0)) with 0.
  cbv iota. rewrite Z.mul_0_l.
  pose proof (DecimalFacts.cz_nonneg c) as Hc.
  pose proof (DecimalFacts.pow10_pos (Decimal.expo c - Z.min (Decimal.expo c) 0) ltac:(lia)) as Hp.
  destruct (Decimal.sign c); intros H.
  - destruct (Z.compare_spec (- Decimal.cz c * 10 ^ (Decimal.expo c - Z.min (Decimal.expo c) 0)) 0);
      try discriminate H. nia.
  - destruct (Z.compare_spec (Decimal.cz c * 10 ^ (Decimal.expo c - Z.min (Decimal.expo c) 0)) 0);
      try discriminate H. split; [reflexivity | nia].
Qed.

(** How many loop indices below [k] have a 1-based index divisible by [m]. *)
Lemma count_multiples (m k : Z) :
  0 < m -> 0 <= k ->
  Z.of_nat (List.length (filter (fun p => (p + 1) mod m =? 0) (range 0 k))) = k / m.
Proof.
  intros Hm. revert k. apply natlike_ind.
  - reflexivity.
  - intros k Hk IH. unfold Z.succ.
    rewrite range_snoc, filter_app, length_app, Nat2Z.inj_add, IH by lia.
    pose proof (Z.div_mod k m ltac:(lia)) as Hdm.
    pose proof (Z.mod_pos_bound k m Hm) as Hb.
    cbn [filter].
    pose proof (Z.div_mod (k + 1) m ltac:(lia)) as Hdm1.
    pose proof (Z.mod_pos_bound (k + 1) m Hm) as Hb1.
    destruct (Z.eqb_spec ((k + 1) mod m) 0) as [Hz|Hz].
    + change (Z.of_nat (List.length [k])) with 1.
      assert (m * ((k + 1) / m - k / m) = k mod m + 1) by lia.
      assert (0 < (k + 1) / m - k / m) by nia.
      assert ((k + 1) / m - k / m < 2) by nia. lia.
    + change (Z.of_nat (List.length (@nil Z))) with 0.
      assert (m * ((k + 1) / m - k / m) = k mod m + 1 - (k + 1) mod m) by lia.
      assert (-1 < (k + 1) / m - k / m) by nia.
      assert ((k + 1) / m - k / m < 1) by nia. lia.
Qed.

(** ** The running total when no addition is rounded *)

(** The coefficient of a contribution at the exponent of the running
    total. *)
Definition aligned (c : Decimal.t) : Z := Decimal.cz c * 10 ^ Z.max 0 (Decimal.expo c).

Lemma running_total_unfold (c : Decimal.t) (j : Z) :
  j <> 0 ->
  running_total c j = Decimal.mkz false (j * aligned c) (Z.min (Decimal.expo c) 0).
Proof.
  intros Hj. unfold running_total, aligned. destruct (Z.eqb_spec j 0); [contradiction |].
  cbv zeta. replace (Decimal.expo c - Z.min (Decimal.expo c) 0) with (Z.max 0 (Decimal.expo c))
    by lia.
  reflexivity.
Qed.

Lemma aligned_pos (c : Decimal.t) : 0 < Decimal.cz c -> 0 < aligned c.
Proof.
  intros H. unfold aligned.
  pose proof (DecimalFacts.pow10_pos (Z.max 0 (Decimal.expo c)) ltac:(lia)). nia.
Qed.

(** A total that fits the context is not rounded. *)
Lemma running_total_fits (c : Decimal.t) (j : Z) :
  0 < Decimal.cz c -> Decimal.Etiny <= Decimal.expo c ->
  0 < j -> j * aligned c < 10 ^ Decimal.prec ->
  Decimal.fix_ (Decimal.mkz false (j * aligned c) (Z.min (Decimal.expo c) 0))
  = Ok (Decimal.mkz false (j * aligned c) (Z.min (Decimal.expo c) 0)).
Proof.
  intros Hc He Hj Hfit. pose proof (aligned_pos c Hc) as Hm.
  apply DecimalFacts.fix_noop; rewrite ?DecimalFacts.cz_mkz by nia;
    cbn [Decimal.expo Decimal.mkz].
  - cbv [Decimal.Etiny Decimal.Emin Decimal.Emax Decimal.prec] in *. lia.
  - apply DecimalFacts.ndigits_le; [cbv [Decimal.prec]; lia | exact Hfit].
  - pose proof (DecimalFacts.ndigits_le _ Decimal.prec ltac:(cbv [Decimal.prec]; lia) Hfit).
    cbv [Decimal.Etop Decimal.Emax Decimal.prec] in *. lia.
Qed.

(** A positive exponent that fits the context is below the precision. *)
Lemma aligned_exponent (c : Decimal.t) :
  0 < Decimal.cz c -> aligned c < 10 ^ Decimal.prec ->
  Z.max 0 (Decimal.expo c) < Decimal.prec.
Proof.
  intros Hc Hfit. unfold aligned in Hfit.
  pose proof (DecimalFacts.pow10_pos (Z.max 0 (Decimal.expo c)) ltac:(lia)) as Hp.
  apply (Z.pow_lt_mono_r_iff 10); [lia | cbv [Decimal.prec]; lia | nia].
Qed.

(** Adding one more contribution to the sum of [j] of them, when the new
    sum still fits the precision of the context: nothing is rounded. *)
Lemma add_to_running_total (c : Decimal.t) (j : Z) :
  Decimal.sign c = false -> 0 < Decimal.cz c ->
  Decimal.Etiny <= Decimal.expo c ->
  0 <= j -> (j + 1) * aligned c < 10 ^ Decimal.prec ->
  Decimal.add (running_total c j) c = Ok (running_total c (j + 1)).
Proof.
  intros Hs Hc He Hj Hfit.
  pose proof (aligned_pos c Hc) as Hm.
  rewrite (running_total_unfold c (j + 1)) by lia.
  rewrite <- (running_total_fits c (j + 1)) by (assumption || lia).
  assert (Hk : Z.max 0 (Decimal.expo c) < Decimal.prec)
    by (apply aligned_exponent; [exact Hc | nia]).
  destruct (Z.eqb_spec j 0) as [-> | Hj0].
  - (* the first contribution is added to [Decimal("0")] *)
    replace ((0 + 1) * aligned c) with (aligned c) by lia.
    unfold running_total. cbn [Z.eqb]. unfold dec0, Decimal.add.
    change (Decimal.cz (Decimal.mk false 0 0)) with 0.
    change (Decimal.expo (Decimal.mk false 0 0)) with 0.
    cbn [Z.eqb andb].
    destruct (Z.eqb_spec (Decimal.cz c) 0); [lia |]. cbn [andb].
    replace (Z.max (Z.min 0 (Decimal.expo c)) (Decimal.expo c - Decimal.prec - 1))
      with (Z.min (Decimal.expo c) 0) by lia.
    unfold Decimal.rescale.
    destruct (Z.eqb_spec (Decimal.cz c) 0); [lia |].
    destruct (Z.leb_spec (Z.min (Decimal.expo c) 0) (Decimal.expo c)); [| lia].
    rewrite Hs. unfold aligned.
    replace (Decimal.expo c - Z.min (Decimal.expo c) 0) with (Z.max 0 (Decimal.expo c)) by lia.
    reflexivity.
  - rewrite (running_total_unfold c j Hj0).
    set (a := Decimal.mkz false (j * aligned c) (Z.min (Decimal.expo c) 0)).
    assert (Hca : Decimal.cz a = j * aligned c) by (apply DecimalFacts.cz_mkz; nia).
    assert (Hea : Decimal.expo a = Z.min (Decimal.expo c) 0) by reflexivity.
    assert (Hsa : Decimal.sign a = false) by reflexivity.
    destruct (Z.le_gt_cases (Decimal.expo c) 0) as [Hle|Hgt].
    + (* both at the exponent of the contribution *)
      assert (Hal : aligned c = Decimal.cz c).
      { unfold aligned. rewrite Z.max_l by lia. rewrite Z.pow_0_r. lia. }
      rewrite (DecimalFacts.add_same_expo a c)
        by first [assumption | lia | rewrite Hca; nia].
      rewrite Hca, Hea, Hal. do 2 f_equal. lia.
    + (* the contribution is brought to the exponent 0 of the total *)
      assert (Hal : aligned c = Decimal.cz c * 10 ^ Decimal.expo c).
      { unfold aligned. rewrite Z.max_r by lia. reflexivity. }
      assert (He0 : Decimal.expo a = 0) by lia.
      assert (Hbig : Decimal.expo c < Decimal.ndigits (Decimal.cz a)).
      { pose proof (DecimalFacts.ndigits_spec (Decimal.cz a) ltac:(nia)) as [_ Hlt].
        pose proof (DecimalFacts.pow10_pos (Decimal.expo c) ltac:(lia)) as Hp.
        apply (Z.pow_lt_mono_r_iff 10);
          [lia | pose proof (DecimalFacts.ndigits_pos (Decimal.cz a)); lia |].
        eapply Z.le_lt_trans; [| exact Hlt]. rewrite Hca, Hal. nia. }
      unfold Decimal.add.
      destruct (Z.eqb_spec (Decimal.cz a) 0); [nia |].
      destruct (Z.eqb_spec (Decimal.cz c) 0); [lia |]. cbn [andb].
      unfold Decimal.normalize.
      destruct (Z.ltb_spec (Decimal.expo a) (Decimal.expo c)); [| lia].
      match goal with
      | |- context [if ?x <? ?y then _ else _] => destruct (Z.ltb_spec x y) as [Hlt|Hge]
      end; [lia |].
      cbv beta iota zeta.
      cbn [Decimal.sign Decimal.mkz Decimal.expo].
      rewrite Hs. fold a. rewrite Hsa. cbn [Bool.eqb].
      assert (Hct : Decimal.cz
                      (Decimal.mkz false
                         (Decimal.cz c * 10 ^ (Decimal.expo c - Decimal.expo a))
                         (Decimal.expo a))
                    = aligned c).
      { rewrite DecimalFacts.cz_mkz; rewrite He0, Z.sub_0_r, <- Hal; [reflexivity | lia]. }
      rewrite Hct, Hca, Hea. do 2 f_equal. lia.
Qed.

Lemma running_total_value (c : Decimal.t) (j : Z) :
  Decimal.sign c = false -> 0 <= j ->
  (Decimal.to_Q (running_total c j) == inject_Z j * Decimal.to_Q c)%Q.
Proof.
  intros Hs Hj.
  destruct (Z.eqb_spec j 0) as [-> | Hj0].
  - change (Decimal.to_Q (running_total c 0)) with (0 * 1)%Q. ring.
  - pose proof (DecimalFacts.cz_nonneg c) as Hc.
    pose proof (DecimalFacts.pow10_pos (Z.max 0 (Decimal.expo c)) ltac:(lia)) as Hp.
    rewrite (running_total_unfold c j Hj0).
    assert (Ha : 0 <= aligned c) by (unfold aligned; apply Z.mul_nonneg_nonneg; lia).
    rewrite DecimalFacts.to_Q_mkz by (apply Z.mul_nonneg_nonneg; lia).
    unfold aligned. rewrite Z.mul_assoc.
    rewrite (DecimalFacts.shift_value false (j * Decimal.cz c)
               (Z.min (Decimal.expo c) 0) (Z.max 0 (Decimal.expo c)) ltac:(lia)).
    replace (Z.min (Decimal.expo c) 0 + Z.max 0 (Decimal.expo c)) with (Decimal.expo c) by lia.
    rewrite (DecimalFacts.to_Q_unfold c), Hs. unfold DecimalFacts.signed.
    rewrite inject_Z_mult. ring.
Qed.

(** A total that fits the 28 digits of the context is summed without
    rounding. *)
Lemma fitting_sums_exactly (c : Decimal.t) (j : nat) :
  Decimal.sign c = false -> 0 < Decimal.cz c ->
  Decimal.Etiny <= Decimal.expo c ->
  forall i : Z,
    0 <= i -> (i + Z.of_nat j) * aligned c < 10 ^ Decimal.prec ->
    sums_exactly c (running_total c i) j = true.
Proof.
  intros Hs Hc He. pose proof (aligned_pos c Hc) as Hm.
  induction j as [|j IH]; intros i Hi Hfit; [reflexivity |].
  cbn [sums_exactly].
  rewrite add_to_running_total by (assumption || nia).
  apply andb_true_intro. split.
  - apply Qeq_bool_iff. rewrite !running_total_value by (assumption || lia).
    rewrite inject_Z_plus. ring.
  - apply IH; [lia |]. rewrite Nat2Z.inj_succ in Hfit. nia.
Qed.

Lemma filter_all {A : Type} (f : A -> bool) (l : list A) :
  (forall x, f x = true) -> filter f l = l.
Proof.
  intros Hf. induction l as [|x l IH]; cbn [filter]; [reflexivity |].
  rewrite Hf, IH. reflexivity.
Qed.

(** A contribution frequency above the compounding frequency makes every
    period a contribution period. *)
Lemma every_period_contributes (n cf : Z) :
  1 <= n -> n < cf ->
  periods_per_contribution n cf = 1 /\ contribution_periods n cf = range 0 n.
Proof.
  intros Hn Hlt.
  assert (Hppc : periods_per_contribution n cf = 1).
  { unfold periods_per_contribution. rewrite Z.div_small by lia. reflexivity. }
  split; [exact Hppc |].
  unfold contribution_periods. apply filter_all. intros p.
  unfold contributes. rewrite Hppc, Z.mod_1_r. reflexivity.
Qed.

(** ** The running total of the engine *)

(** The running total after [j] more contributions: one Decimal addition
    each. *)
Fixpoint sum_of (c total : Decimal.t) (j : nat) : outcome Decimal.t :=
  match j with
  | O => Ok total
  | S j' => total' <- Decimal.add total c ;; sum_of c total' j'
  end.

Lemma sum_of_app (c total : Decimal.t) (a b : nat) :
  sum_of c total (a + b) = (total' <- sum_of c total a ;; sum_of c total' b).
Proof.
  revert total. induction a as [|a IH]; intros total; [reflexivity |].
  cbn [Nat.add sum_of]. destruct (Decimal.add total c) as [t|e]; cbn [bind]; [apply IH | reflexivity].
Qed.

(** Sums that are not rounded add up to the product. *)
Lemma sum_exact (c : Decimal.t) (j : nat) :
  forall total total',
    sums_exactly c total j = true ->
    sum_of c total j = Ok total' ->
    (Decimal.to_Q total' == Decimal.to_Q total + inject_Z (Z.of_nat j) * Decimal.to_Q c)%Q.
Proof.
  induction j as [|j IH]; intros total total' Hex H.
  - cbn [sum_of] in H. injection H as <-. cbn [Z.of_nat]. ring.
  - cbn [sum_of sums_exactly] in H, Hex.
    destruct (Decimal.add total c) as [t|e]; [| discriminate Hex]. cbn [bind] in H.
    apply andb_prop in Hex as [Hq Hex]. apply Qeq_bool_iff in Hq.
    rewrite (IH t total' Hex H), Hq, Nat2Z.inj_succ. unfold Z.succ.
    rewrite inject_Z_plus. ring.
Qed.

Section Contributing.

Variables (period_rate contribution : Decimal.t).
Variables (compound_freq contribution_freq : Z).
Hypothesis contribution_positive :
  Decimal.gtb contribution (Decimal.of_int 0) = true.
Hypothesis compound_freq_valid : 1 <= compound_freq.
Hypothesis contribution_freq_valid : 1 <= contribution_freq.

Local Abbreviation year_body :=
  (year_body period_rate contribution compound_freq contribution_freq).
Local Abbreviation period_body :=
  (period_body period_rate contribution compound_freq contribution_freq).
Local Abbreviation contributes := (contributes compound_freq contribution_freq).

(** One period with a positive contribution: interest first, then the
    contribution on the periods the policy selects, and only on them. *)
Lemma period_body_inv (s s' : PeriodState) (period : Z) :
  period_body s period = Ok s' ->
  exists interest b1,
    Decimal.mul (p_balance s) period_rate = Ok interest
    /\ Decimal.add (p_balance s) interest = Ok b1
    /\ Decimal.add (p_year_interest s) interest = Ok (p_year_interest s')
    /\ if contributes period then
         Decimal.add b1 contribution = Ok (p_balance s')
         /\ Decimal.add (p_year_contributions s) contribution = Ok (p_year_contributions s')
         /\ Decimal.add (p_total_contributions s) contribution = Ok (p_total_contributions s')
       else
         p_balance s' = b1
         /\ p_year_contributions s' = p_year_contributions s
         /\ p_total_contributions s' = p_total_contributions s.
Proof.
  unfold Calculator.period_body. rewrite contribution_positive.
  intros H. bind_inv H. bind_inv H. bind_inv H. bind_inv H.
  unfold floordiv in E2. destruct (Z.eqb_spec contribution_freq 0); [lia |].
  injection E2 as <-.
  rewrite guard_is_max in H by assumption.
  exists v, v0. unfold Spec.contributes.
  destruct ((period + 1) mod periods_per_contribution compound_freq contribution_freq =? 0).
  - bind_inv H. bind_inv H. bind_inv H. injection H as <-.
    cbn [p_balance p_year_interest p_year_contributions p_total_contributions].
    repeat split; assumption.
  - injection H as <-.
    cbn [p_balance p_year_interest p_year_contributions p_total_contributions].
    repeat split; assumption.
Qed.

(** The running total over the periods of a year: one addition for each
    period that contributes. *)
Lemma periods_sum (items : list Z) :
  forall s s' : PeriodState,
    for_each period_body items s = Ok s' ->
    sum_of contribution (p_total_contributions s)
      (List.length (filter contributes items))
    = Ok (p_total_contributions s').
Proof.
  induction items as [|p items IH]; intros s s' H; cbn [for_each] in H.
  - injection H as <-. reflexivity.
  - bind_inv H. apply period_body_inv in E as (i & b1 & _ & _ & _ & Hc).
    cbn [filter]. destruct (contributes p).
    + destruct Hc as (_ & _ & Hadd). cbn [List.length sum_of]. rewrite Hadd. cbn [bind].
      now apply IH.
    + destruct Hc as (_ & _ & Hsame). rewrite <- Hsame. now apply IH.
Qed.

(** The running total over the years. *)
Lemma years_sum (items : list Z) :
  forall s s' : YearState,
    for_each year_body items s = Ok s' ->
    sum_of contribution (y_total_contributions s)
      (List.length items * List.length (filter contributes (range 0 compound_freq)))
    = Ok (y_total_contributions s').
Proof.
  induction items as [|y items IH]; intros s s' H; cbn [for_each] in H.
  - injection H as <-. reflexivity.
  - bind_inv H.
    apply EngineFacts.year_body_inv in E
      as (p & ci & g & snap & Hp & _ & _ & _ & Ht & _).
    apply periods_sum in Hp. cbn [p_total_contributions] in Hp.
    cbn [List.length Nat.mul]. rewrite sum_of_app, Hp. cbn [bind].
    rewrite <- Ht. now apply IH.
Qed.

End Contributing.

(** [total_contributions] is the rounded sum of as many additions as
    contributions were made. *)
Lemma total_is_sum (libm : Platform) (P r : Decimal.t) (Y n : Z) (c : Decimal.t) (cf : Z)
    (res : ProjectionResult) :
  1 <= Y -> 1 <= n -> 1 <= cf ->
  Decimal.gtb c (Decimal.of_int 0) = true ->
  calculate_compound_interest libm P r Y n c cf = Ok res ->
  exists total,
    sum_of c dec0 (Z.to_nat (contributions_made Y n cf)) = Ok total
    /\ _round_currency total = Ok (total_contributions res).
Proof.
  intros HY Hn Hcf Hpos H.
  apply EngineFacts.calculate_inv in H as (pr & s & _ & Hloop & _ & _ & Htc & _).
  apply (years_sum pr c n cf Hpos Hn Hcf) in Hloop. cbn [y_total_contributions] in Hloop.
  exists (y_total_contributions s). split; [| exact Htc].
  rewrite <- Hloop. f_equal.
  unfold contributions_made, contribution_periods.
  rewrite range_length, Z2Nat.inj_mul, Nat2Z.id by lia.
  f_equal. lia.
Qed.

(** ** The error of the additions *)

Section Summing.

(** The relative error [u] of one addition and the smallest magnitude
    [t] of the context. *)
Variables u t : Q.
Hypothesis u_nonneg : (0 <= u)%Q.
Hypothesis add_close :
  forall a b d, Decimal.add a b = Ok d ->
  (Qabs (Decimal.to_Q d - (Decimal.to_Q a + Decimal.to_Q b))
   <= u * (Qabs (Decimal.to_Q a + Decimal.to_Q b) + t))%Q.

Variable c : Decimal.t.
Hypothesis c_nonneg : (0 <= Decimal.to_Q c)%Q.

Local Abbreviation bound i :=
  (((1 + u) ^ Z.of_nat i - 1) * (inject_Z (Z.of_nat i) * Decimal.to_Q c + t))%Q.

Lemma growth_ge_1 (i : nat) : (1 <= (1 + u) ^ Z.of_nat i)%Q.
Proof.
  induction i as [|i IH]; [cbn; lra |].
  rewrite RoundingFacts.pow_succ. nra.
Qed.

Lemma sum_step (total total' : Decimal.t) (i : nat) :
  Decimal.add total c = Ok total' ->
  (Qabs (Decimal.to_Q total - inject_Z (Z.of_nat i) * Decimal.to_Q c) <= bound i)%Q ->
  (Qabs (Decimal.to_Q total' - inject_Z (Z.of_nat (S i)) * Decimal.to_Q c)
   <= bound (S i))%Q.
Proof.
  intros Hadd Hi. apply add_close in Hadd.
  pose proof (growth_ge_1 i) as HA.
  rewrite RoundingFacts.pow_succ, Nat2Z.inj_succ. unfold Z.succ. rewrite inject_Z_plus.
  set (A := ((1 + u) ^ Z.of_nat i)%Q) in *.
  set (k := inject_Z (Z.of_nat i)) in *.
  assert (Hk : (0 <= k)%Q).
  { subst k. apply RoundingFacts.inject_Z_nonneg. lia. }
  set (x := Decimal.to_Q total) in *. set (x' := Decimal.to_Q total') in *.
  set (v := Decimal.to_Q c) in *.
  change (inject_Z 1) with 1%Q.
  assert (Hsum : (Qabs (x + v) <= Qabs (x - k * v) + (k + 1) * v)%Q).
  { setoid_replace (x + v)%Q with ((x - k * v) + (k + 1) * v)%Q by ring.
    eapply Qle_trans; [apply Qabs_triangle |].
    rewrite (Qabs_pos ((k + 1) * v)) by nra. lra. }
  assert (Htri : (Qabs (x' - (k + 1) * v)
                  <= Qabs (x' - (x + v)) + Qabs (x - k * v))%Q).
  { setoid_replace (x' - (k + 1) * v)%Q with ((x' - (x + v)) + (x - k * v))%Q by ring.
    apply Qabs_triangle. }
  set (E := Qabs (x - k * v)) in *. set (D := Qabs (x' - (x + v))) in *.
  set (S := Qabs (x + v)) in *.
  assert (HE0 : (0 <= E)%Q) by apply Qabs_nonneg.
  assert (Hprod : (0 <= (1 + u) * (A - 1) * v)%Q).
  { apply Qmult_le_0_compat; [apply Qmult_le_0_compat; lra | exact c_nonneg]. }
  assert (HuS : (u * S <= u * (E + (k + 1) * v))%Q)
    by (apply RoundingFacts.mul_mono_l; assumption).
  assert (HuE : (u * E <= u * ((A - 1) * (k * v + t)))%Q)
    by (apply RoundingFacts.mul_mono_l; assumption).
  eapply Qle_trans; [exact Htri |].
  setoid_replace (((1 + u) * A - 1) * ((k + 1) * v + t))%Q
    with ((A - 1) * (k * v + t) + u * ((A - 1) * (k * v + t))
          + u * ((k + 1) * v + t) + (1 + u) * (A - 1) * v)%Q by ring.
  lra.
Qed.

Lemma sum_drift (j : nat) :
  forall (total total' : Decimal.t) (i : nat),
    sum_of c total j = Ok total' ->
    (Qabs (Decimal.to_Q total - inject_Z (Z.of_nat i) * Decimal.to_Q c) <= bound i)%Q ->
    (Qabs (Decimal.to_Q total' - inject_Z (Z.of_nat (i + j)) * Decimal.to_Q c)
     <= bound (i + j))%Q.
Proof.
  induction j as [|j IH]; intros total total' i H Hi.
  - cbn [sum_of] in H. injection H as <-. rewrite Nat.add_0_r. exact Hi.
  - cbn [sum_of] in H. bind_inv H.
    replace (i + S j)%nat with (S i + j)%nat by lia.
    apply (IH v total' (S i) H). exact (sum_step total v i E Hi).
Qed.

(** From [Decimal("0")]. *)
Lemma sum_from_zero (j : nat) (total : Decimal.t) :
  sum_of c dec0 j = Ok total ->
  (Qabs (Decimal.to_Q total - inject_Z (Z.of_nat j) * Decimal.to_Q c) <= bound j)%Q.
Proof.
  intros H. apply (sum_drift j dec0 total 0%nat H).
  change (Decimal.to_Q dec0) with (0 * 1)%Q. cbn [Z.of_nat].
  change ((1 + u) ^ 0)%Q with 1%Q.
  match goal with
  | |- (Qabs ?l <= ?r)%Q =>
      setoid_replace l with 0%Q by ring
  end.
  match goal with
  | |- (_ <= ?r)%Q =>
      setoid_replace r with 0%Q by ring
  end.
  cbn. lra.
Qed.

End Summing.

(** The sum of [j] contributions, as the engine adds them up from
    [Decimal("0")], is within the drift of the product. *)
Lemma total_drift (c total : Decimal.t) (j : Z) :
  Decimal.sign c = false -> 0 <= j ->
  sum_of c dec0 (Z.to_nat j) = Ok total ->
  (Qabs (Decimal.to_Q total - inject_Z j * Decimal.to_Q c)
   <= summing_drift (Decimal.to_Q c) j)%Q.
Proof.
  intros Hs Hj H.
  assert (Hc : (0 <= Decimal.to_Q c)%Q).
  { rewrite DecimalFacts.to_Q_unfold, Hs. unfold DecimalFacts.signed.
    apply Qmult_le_0_compat;
      [apply RoundingFacts.inject_Z_nonneg, DecimalFacts.cz_nonneg
      | apply Qlt_le_weak, DecimalFacts.q10_pos]. }
  pose proof (sum_from_zero context_ulp subnormal
                (proj1 RoundingFacts.ulp_range)
                RoundingFacts.add_error c Hc (Z.to_nat j) total H) as Hd.
  rewrite (Z2Nat.id j Hj) in Hd. unfold summing_drift. exact Hd.
Qed.

(** Rounding to cents does not change a whole number of cents. *)
Lemma round_currency_of_cents (d q : Decimal.t) (z : Z) :
  (Decimal.to_Q d == inject_Z z * (1 # 100))%Q ->
  _round_currency d = Ok q ->
  (Decimal.to_Q q == Decimal.to_Q d)%Q.
Proof.
  intros Hz H.
  pose proof (GrowthFacts.round_currency_close d q H) as Hclose.
  apply DecimalFacts.quantize_inv in H as (Hq & _ & _).
  assert (He : Decimal.expo q = -2) by (rewrite Hq; apply DecimalFacts.rescale_expo).
  rewrite (DecimalFacts.to_Q_unfold q), He in Hclose |- *.
  change (DecimalFacts.q10 (-2)) with (1 # 100)%Q in *.
  rewrite Hz in Hclose |- *.
  set (w := DecimalFacts.signed (Decimal.sign q) (Decimal.cz q)) in *.
  assert (Hw : w = z).
  { assert (Hd : (Qabs (inject_Z (w - z)) <= 1 # 2)%Q).
    { unfold Zminus. rewrite inject_Z_plus, inject_Z_opp.
      setoid_replace (inject_Z w + - inject_Z z)%Q
        with (100 * (inject_Z w * (1 # 100) - inject_Z z * (1 # 100)))%Q by ring.
      rewrite Qabs_Qmult. change (Qabs 100) with 100%Q. lra. }
    unfold Qle, Qabs, inject_Z in Hd. cbn [Qnum Qden] in Hd. lia. }
  rewrite Hw. reflexivity.
Qed.

End ContributionFacts.

(* ================================================================== *)
(** * Facts about floats: their sign and their value *)
(* ================================================================== *)

Module FloatFacts.

(** The float has the sign [s] and is not a NaN. *)
Definition has_sign (s : bool) (x : Float.t) : Prop :=
  match x with
  | S754_zero s' | S754_infinity s' | S754_finite s' _ _ => s' = s
  | S754_nan => False
  end.

Lemma shr_1_nonneg (mrs : shr_record) : 0 <= shr_m mrs -> 0 <= shr_m (shr_1 mrs).
Proof.
  destruct mrs as [m r s]. cbn [shr_m]. intros Hm.
  destruct m as [|p|p]; [| destruct p | lia]; cbn; lia.
Qed.

Lemma iter_pos_invariant {A : Type} (f : A -> A) (Inv : A -> Prop) :
  (forall x, Inv x -> Inv (f x)) ->
  forall (p : positive) (x : A), Inv x -> Inv (iter_pos f p x).
Proof.
  intros Hf. induction p as [p IH|p IH|]; intros x Hx; cbn [iter_pos].
  - apply IH, IH, Hf, Hx.
  - apply IH, IH, Hx.
  - apply Hf, Hx.
Qed.

Lemma shr_fexp_nonneg (m e : Z) (l : location) :
  0 <= m -> 0 <= shr_m (fst (shr_fexp Float.prec Float.emax m e l)).
Proof.
  intros Hm. unfold shr_fexp, shr.
  assert (H0 : 0 <= shr_m (shr_record_of_loc m l))
    by (destruct l as [|[]]; cbn; exact Hm).
  destruct (fexp Float.prec Float.emax (Zdigits2 m + e) - e) as [|p|p]; cbn [fst];
    try exact H0.
  apply (iter_pos_invariant shr_1 (fun r => 0 <= shr_m r) shr_1_nonneg). exact H0.
Qed.

Lemma round_nearest_even_nonneg (m : Z) (l : location) :
  0 <= m -> 0 <= round_nearest_even m l.
Proof.
  intros Hm. destruct l as [|[]]; cbn; try lia. destruct (Z.even m); lia.
Qed.

(** Rounding a non-negative mantissa keeps the sign it is given. *)
Lemma binary_round_aux_sign (s : bool) (mx ex : Z) (lx : location) :
  0 <= mx -> has_sign s (binary_round_aux Float.prec Float.emax s mx ex lx).
Proof.
  intros Hm. unfold binary_round_aux.
  pose proof (shr_fexp_nonneg mx ex lx Hm) as H1.
  destruct (shr_fexp Float.prec Float.emax mx ex lx) as [mrs' e'].
  cbn [fst] in H1.
  pose proof (shr_fexp_nonneg _ e' loc_Exact
                (round_nearest_even_nonneg _ (loc_of_shr_record mrs') H1)) as H2.
  destruct (shr_fexp Float.prec Float.emax
              (round_nearest_even (shr_m mrs') (loc_of_shr_record mrs')) e' loc_Exact)
    as [mrs'' e''].
  cbn [fst] in H2.
  destruct (shr_m mrs'') as [|p|p]; [reflexivity | | lia].
  destruct (e'' <=? Float.emax - Float.prec); reflexivity.
Qed.

Lemma of_ratio_sign (s : bool) (num den : positive) :
  has_sign s (Float.of_ratio s num den).
Proof.
  unfold Float.of_ratio, SFdiv_core_binary.
  match goal with
  | |- context [Z.div_eucl ?a ?b] =>
      pose proof (Z.div_pos a b) as Hq; unfold Z.div in Hq;
      destruct (Z.div_eucl a b) as [q r] eqn:Eq
  end.
  apply binary_round_aux_sign. apply Hq; [| lia].
  match goal with
  | |- 0 <= match ?x with _ => _ end => destruct x
  end; try lia. rewrite Z.shiftl_mul_pow2 by lia. lia.
Qed.

(** The float of a decimal number carries the sign of the number. *)
Lemma of_decimal_triple_sign (s : bool) (c e : Z) :
  0 <= c -> has_sign s (Float.of_decimal_triple s c e).
Proof.
  intros Hc. unfold Float.of_decimal_triple.
  destruct c as [|p|p]; [reflexivity | | lia].
  destruct (0 <=? e) eqn:He; [| apply of_ratio_sign].
  apply Z.leb_le in He.
  pose proof (DecimalFacts.pow10_pos e He) as Hp.
  unfold binary_normalize, binary_round.
  destruct s.
  - destruct (-1 * (Z.pos p * 10 ^ e)) as [|m|m] eqn:Hm; try lia.
    destruct (shl_align m 0 _). now apply binary_round_aux_sign.
  - destruct (1 * (Z.pos p * 10 ^ e)) as [|m|m] eqn:Hm; try lia.
    destruct (shl_align m 0 _). now apply binary_round_aux_sign.
Qed.

Lemma has_sign_nonpositive (x : Float.t) :
  has_sign true x -> Float.leb x Float.zero = true.
Proof.
  destruct x as [s|s| |s m e]; cbn; intros H; try subst s; try reflexivity.
  contradiction.
Qed.

(** A Decimal that is not greater than zero is zero or negative. *)
Lemma not_positive (d : Decimal.t) :
  Decimal.gtb d (Decimal.of_int 0) = false ->
  Decimal.cz d = 0 \/ Decimal.sign d = true.
Proof.
  unfold Decimal.gtb, Decimal.cmp, Decimal.signed_coeff.
  change (Decimal.cz (Decimal.of_int 0)) with 0.
  change (Decimal.sign (Decimal.of_int 0)) with false.
  change (Decimal.expo (Decimal.of_int 0)) with 0.
  cbv iota. rewrite Z.mul_0_l.
  pose proof (DecimalFacts.cz_nonneg d) as Hc.
  pose proof (DecimalFacts.pow10_pos (Decimal.expo d - Z.min (Decimal.expo d) 0) ltac:(lia)) as Hp.
  destruct (Decimal.sign d); intros H; [now right |]. left.
  destruct (Z.compare_spec
              (Decimal.cz d * 10 ^ (Decimal.expo d - Z.min (Decimal.expo d) 0)) 0);
    try discriminate H; nia.
Qed.

(** The float of a Decimal that is not positive is not positive. *)
Lemma of_decimal_nonpositive (d : Decimal.t) :
  Decimal.leb d (Decimal.of_int 0) = true ->
  Float.leb (Float.of_decimal d) Float.zero = true.
Proof.
  unfold Decimal.leb. intros H. apply negb_true_iff in H.
  destruct (not_positive d H) as [Hz|Hs].
  - unfold Float.of_decimal. rewrite Hz. destruct (Decimal.sign d); reflexivity.
  - apply has_sign_nonpositive. unfold Float.of_decimal. rewrite Hs.
    apply of_decimal_triple_sign, DecimalFacts.cz_nonneg.
Qed.

(** ** The number a float denotes *)

Lemma inject_Z_nonzero (z : Z) : z <> 0 -> ~ (inject_Z z == 0)%Q.
Proof. intros Hz H. unfold Qeq, inject_Z in H. cbn [Qnum Qden] in H. lia. Qed.

(** The decimal expansion of a float is exact. *)
Lemma exact_decimal_value (m : positive) (ex c e : Z) :
  Float.exact_decimal m ex = (c, e) ->
  0 < c /\ (inject_Z c * DecimalFacts.q10 e == inject_Z (Z.pos m) * inject_Z 2 ^ ex)%Q.
Proof.
  unfold Float.exact_decimal. destruct (Z.leb_spec 0 ex) as [Hex|Hex]; intros H;
    apply pair_equal_spec in H as [<- <-].
  - split; [pose proof (Z.pow_pos_nonneg 2 ex ltac:(lia) Hex); nia |].
    rewrite inject_Z_mult, (Zpower_Qpower 2 ex Hex). unfold DecimalFacts.q10.
    cbn [Qpower]. ring.
  - split; [pose proof (Z.pow_pos_nonneg 5 (- ex) ltac:(lia) ltac:(lia)); nia |].
    assert (H10 : (DecimalFacts.q10 ex == / inject_Z (10 ^ (- ex)))%Q).
    { unfold DecimalFacts.q10. rewrite (Zpower_Qpower 10 (- ex)) by lia.
      rewrite <- Qpower_opp. now rewrite Z.opp_involutive. }
    assert (H2 : (inject_Z 2 ^ ex == / inject_Z (2 ^ (- ex)))%Q).
    { rewrite (Zpower_Qpower 2 (- ex)) by lia.
      rewrite <- Qpower_opp. now rewrite Z.opp_involutive. }
    rewrite H10, H2.
    replace (10 ^ (- ex)) with (2 ^ (- ex) * 5 ^ (- ex))%Z
      by (rewrite <- Z.pow_mul_l; reflexivity).
    rewrite !inject_Z_mult.
    pose proof (Z.pow_pos_nonneg 2 (- ex) ltac:(lia) ltac:(lia)) as P2.
    pose proof (Z.pow_pos_nonneg 5 (- ex) ltac:(lia) ltac:(lia)) as P5.
    field. split; apply inject_Z_nonzero; lia.
Qed.

(** The number a float denotes, from its decimal expansion. *)
Lemma float_value_decimal (s : bool) (m : positive) (ex c e : Z) :
  Float.exact_decimal m ex = (c, e) ->
  (Spec.float_value (S754_finite s m ex)
   == inject_Z (DecimalFacts.signed s c) * DecimalFacts.q10 e)%Q.
Proof.
  intros H. destruct (exact_decimal_value m ex c e H) as [_ Hv].
  change (Spec.float_value (S754_finite s m ex))
    with (inject_Z (DecimalFacts.signed s (Z.pos m)) * inject_Z 2 ^ ex)%Q.
  unfold DecimalFacts.signed. destruct s; rewrite ?inject_Z_opp.
  - setoid_replace (- inject_Z (Z.pos m) * inject_Z 2 ^ ex)%Q
      with (- (inject_Z (Z.pos m) * inject_Z 2 ^ ex))%Q by ring.
    rewrite <- Hv. ring.
  - now rewrite Hv.
Qed.

(** The cents nearest to a float: the quotient that [round(x, 2)] and
    [format(x, ".2f")] compute from the decimal expansion [c * 10^e] when
    it has more than two decimals. *)
Lemma nearest_cents (s : bool) (m : positive) (ex c e : Z) :
  Float.exact_decimal m ex = (c, e) ->
  0 < - e - 2 ->
  let q := if 0 <? Decimal.round_half_even c (- e - 2)
           then c / 10 ^ (- e - 2) + 1 else c / 10 ^ (- e - 2) in
  0 <= q
  /\ (Qabs (inject_Z (DecimalFacts.signed s q) * DecimalFacts.q10 (-2)
            - Spec.float_value (S754_finite s m ex)) <= 1 # 200)%Q.
Proof.
  intros Hce Hk.
  destruct (exact_decimal_value m ex c e Hce) as [Hc _].
  pose proof (float_value_decimal s m ex c e Hce) as Hv.
  destruct (RoundingFacts.half_even_distance c (- e - 2) ltac:(lia) Hk) as [Hq Hd].
  cbv zeta in Hq, Hd |- *.
  set (q := if 0 <? Decimal.round_half_even c (- e - 2)
            then c / 10 ^ (- e - 2) + 1 else c / 10 ^ (- e - 2)) in *.
  split; [exact Hq |]. rewrite Hv.
  replace (-2) with (e + (- e - 2)) at 1 by lia.
  rewrite (DecimalFacts.value_distance s c q e (- e - 2)) by lia.
  assert (He : (DecimalFacts.q10 e
                == DecimalFacts.q10 (-2) * / inject_Z (10 ^ (- e - 2)))%Q).
  { replace (-2) with (e + (- e - 2)) by lia.
    rewrite DecimalFacts.q10_add, (DecimalFacts.q10_nonneg (- e - 2)) by lia.
    pose proof (DecimalFacts.pow10_pos (- e - 2) ltac:(lia)) as Hp.
    field. apply inject_Z_nonzero; lia. }
  rewrite He.
  pose proof (DecimalFacts.pow10_pos (- e - 2) ltac:(lia)) as Hp.
  set (p := 10 ^ (- e - 2)) in *. set (a := Z.abs (q * p - c)) in *.
  assert (Ha : (inject_Z a * / inject_Z p <= 1 # 2)%Q).
  { apply Qle_shift_div_r; [apply RoundingFacts.inject_Z_pos; exact Hp |].
    setoid_replace ((1 # 2) * inject_Z p)%Q with (inject_Z p * (1 # 2))%Q by ring.
    unfold Qle, inject_Z; cbn [Qnum Qden Qmult]. lia. }
  change (DecimalFacts.q10 (-2)) with (1 # 100)%Q.
  setoid_replace (inject_Z a * ((1 # 100) * / inject_Z p))%Q
    with ((1 # 100) * (inject_Z a * / inject_Z p))%Q by ring.
  lra.
Qed.

(** [round(y, 2)] leaves [y] as it is (an infinity, a NaN, a zero, or a
    float with at most two decimals), or returns the float nearest to a
    number of hundredths that is within half a hundredth of [y]. *)
Lemma round_two_places (y : Float.t) :
  Float.round y 2 = y
  \/ exists z : Z,
       0 <= z
       /\ (Qabs (inject_Z (DecimalFacts.signed (Float.sign_bit y) z) * (1 # 100)
                 - Spec.float_value y) <= 1 # 200)%Q
       /\ Float.round y 2 = Float.of_decimal_triple (Float.sign_bit y) z (-2).
Proof.
  destruct y as [s|s| |s m ex]; try (left; reflexivity).
  unfold Float.round. destruct (Float.exact_decimal m ex) as [c e] eqn:Hce.
  destruct (Z.leb_spec (- e - 2) 0) as [Hk|Hk]; [left; reflexivity | right].
  destruct (nearest_cents s m ex c e Hce Hk) as [Hq Hd]. cbv zeta in Hq, Hd.
  eexists. split; [exact Hq |]. split; [exact Hd | reflexivity].
Qed.

End FloatFacts.
(* ================================================================== *)
(** * Facts about floats: the error of a rounding *)
(* ================================================================== *)

Module BinaryFacts.

Import RoundingFacts.

(** ** Powers of two *)

Definition q2 (e : Z) : Q := inject_Z 2 ^ e.

Lemma q2_pos (e : Z) : (0 < q2 e)%Q.
Proof. apply Qpower_0_lt. reflexivity. Qed.

Lemma q2_add (a b : Z) : (q2 (a + b) == q2 a * q2 b)%Q.
Proof. apply Qpower_plus. discriminate. Qed.

Lemma q2_nonneg (k : Z) : 0 <= k -> (q2 k == inject_Z (2 ^ k))%Q.
Proof. intros H. unfold q2. symmetry. now apply Zpower_Qpower. Qed.

Lemma pow2_pos (k : Z) : 0 <= k -> 0 < 2 ^ k.
Proof. intros H. apply Z.pow_pos_nonneg; lia. Qed.

Lemma q2_le (a b : Z) : a <= b -> (q2 a <= q2 b)%Q.
Proof.
  intros H. replace b with (a + (b - a)) by lia.
  rewrite q2_add, (q2_nonneg (b - a)) by lia.
  pose proof (q2_pos a) as Ha. pose proof (pow2_pos (b - a) ltac:(lia)) as Hp.
  setoid_replace (q2 a) with (q2 a * 1)%Q at 1 by ring.
  apply Qmult_le_l; [exact Ha |].
  unfold Qle, inject_Z; cbn [Qnum Qden]. lia.
Qed.

Lemma q2_half (e : Z) : (q2 (e - 1) == (1 # 2) * q2 e)%Q.
Proof.
  replace (e - 1) with (e + -1) by lia. rewrite q2_add.
  change (q2 (-1)) with (1 # 2)%Q. ring.
Qed.

(** ** Binary digits *)

Lemma digits2_bounds (p : positive) :
  2 ^ (Z.pos (digits2_pos p) - 1) <= Z.pos p < 2 ^ Z.pos (digits2_pos p).
Proof.
  induction p as [p IH|p IH|]; cbn [digits2_pos]; [| | cbn; lia];
    rewrite Pos2Z.inj_succ;
    replace (Z.succ (Z.pos (digits2_pos p)) - 1) with (Z.succ (Z.pos (digits2_pos p) - 1))
      by lia;
    rewrite !Z.pow_succ_r by lia; lia.
Qed.

Lemma Zdigits2_nonneg (m : Z) : 0 <= Zdigits2 m.
Proof. destruct m; cbn; lia. Qed.

Lemma Zdigits2_upper (m : Z) : 0 <= m -> m < 2 ^ Zdigits2 m.
Proof.
  intros Hm. destruct m as [|p|p]; [cbn; lia | | lia].
  apply (digits2_bounds p).
Qed.

Lemma Zdigits2_lower (m : Z) : 0 < m -> 2 ^ (Zdigits2 m - 1) <= m.
Proof.
  intros Hm. destruct m as [|p|p]; [lia | | lia].
  apply (digits2_bounds p).
Qed.

Lemma Zdigits2_le (m k : Z) : 0 <= m -> 0 <= k -> m < 2 ^ k -> Zdigits2 m <= k.
Proof.
  intros Hm Hk Hlt. destruct (Z.eq_dec m 0) as [-> | Hm0]; [cbn; lia |].
  pose proof (Zdigits2_lower m ltac:(lia)) as Hlo.
  pose proof (Zdigits2_nonneg m) as Hd.
  destruct (Z.le_gt_cases (Zdigits2 m) k) as [H|H]; [exact H | exfalso].
  assert (2 ^ k <= 2 ^ (Zdigits2 m - 1)) by (apply Z.pow_le_mono_r; lia). lia.
Qed.

(** ** Where a shifted mantissa lies *)

(** The record [(m, r, s)] of a right shift locates a rational [y] in
    [[m, m + 1)]: the round bit [r] tells whether [y] is in the upper half,
    the sticky bit [s] whether it is strictly inside its half. *)
Definition located (mrs : shr_record) (y : Q) : Prop :=
  match shr_r mrs, shr_s mrs with
  | false, false => (y == inject_Z (shr_m mrs))%Q
  | false, true => (inject_Z (shr_m mrs) < y /\ y < inject_Z (shr_m mrs) + (1 # 2))%Q
  | true, false => (y == inject_Z (shr_m mrs) + (1 # 2))%Q
  | true, true => (inject_Z (shr_m mrs) + (1 # 2) < y /\ y < inject_Z (shr_m mrs) + 1)%Q
  end.

Lemma inject_Z_double (p : positive) : (inject_Z (Z.pos p~0) == 2 * inject_Z (Z.pos p))%Q.
Proof. change (Z.pos p~0) with (2 * Z.pos p). now rewrite inject_Z_mult. Qed.

Lemma inject_Z_double_1 (p : positive) :
  (inject_Z (Z.pos p~1) == 2 * inject_Z (Z.pos p) + 1)%Q.
Proof.
  change (Z.pos p~1) with (2 * Z.pos p + 1). now rewrite inject_Z_plus, inject_Z_mult.
Qed.

Lemma located_bounds (mrs : shr_record) (y : Q) :
  located mrs y -> (inject_Z (shr_m mrs) <= y /\ y < inject_Z (shr_m mrs) + 1)%Q.
Proof.
  destruct mrs as [m [] []]; unfold located; cbn [shr_m shr_r shr_s]; intros H; lra.
Qed.

(** One step to the right halves the rational. *)
Lemma shr_1_located (mrs : shr_record) (y : Q) :
  0 <= shr_m mrs -> located mrs y -> located (shr_1 mrs) (y * (1 # 2)).
Proof.
  destruct mrs as [m r s]. cbn [shr_m]. intros Hm.
  destruct m as [|p|p]; [| destruct p as [p|p|] | lia];
    destruct r, s; unfold located; cbn [shr_1 shr_m shr_r shr_s orb];
    rewrite ?inject_Z_double, ?inject_Z_double_1;
    change (inject_Z 0) with 0%Q; change (inject_Z 1) with 1%Q; intros H; lra.
Qed.

Lemma iter_pos_count {A : Type} (f : A -> A) (R : Z -> A -> Prop) :
  (forall k x, 0 <= k -> R k x -> R (k + 1) (f x)) ->
  forall (p : positive) (k : Z) (x : A), 0 <= k -> R k x -> R (k + Z.pos p) (iter_pos f p x).
Proof.
  intros Hf. induction p as [p IH|p IH|]; intros k x Hk Hx; cbn [iter_pos].
  - replace (k + Z.pos p~1) with (k + 1 + Z.pos p + Z.pos p) by lia.
    apply IH; [lia |]. apply IH; [lia |]. now apply Hf.
  - replace (k + Z.pos p~0) with (k + Z.pos p + Z.pos p) by lia.
    apply IH; [lia |]. now apply IH.
  - now apply Hf.
Qed.

(** A right shift by [n] places divides the rational by [2^n] and adds
    [n] to the exponent. *)
Lemma shr_located (mrs : shr_record) (e n : Z) (y : Q) :
  0 <= shr_m mrs -> located mrs y ->
  0 <= shr_m (fst (shr mrs e n))
  /\ snd (shr mrs e n) = e + Z.max 0 n
  /\ located (fst (shr mrs e n)) (y * q2 (- Z.max 0 n)).
Proof.
  intros Hm Hy. unfold shr. destruct n as [|p|p]; cbn [fst snd].
  - split; [exact Hm |]. split; [lia |].
    change (q2 (- Z.max 0 0)) with 1%Q. destruct mrs as [m [] []]; unfold located in *;
      cbn [shr_m shr_r shr_s] in *; lra.
  - replace (Z.max 0 (Z.pos p)) with (Z.pos p) by lia.
    pose proof (iter_pos_count shr_1
                  (fun k x => 0 <= shr_m x /\ located x (y * q2 (- k)))) as Hit.
    cbv beta in Hit. specialize (Hit ltac:(
      intros k x Hk [Hx Hl]; split; [now apply FloatFacts.shr_1_nonneg |];
      replace (- (k + 1)) with (- k + -1) by lia;
      pose proof (shr_1_located x _ Hx Hl) as Hs;
      destruct (shr_1 x) as [m' [] []]; unfold located in *;
      cbn [shr_m shr_r shr_s] in *;
      rewrite q2_add; change (q2 (-1)) with (1 # 2)%Q;
      first [ rewrite <- Hs; ring | lra ]) p 0 mrs ltac:(lia)).
    rewrite Z.add_0_l in Hit.
    destruct Hit as [H1 H2].
    { split; [exact Hm |]. change (q2 (- 0)) with 1%Q.
      destruct mrs as [m [] []]; unfold located in *;
        cbn [shr_m shr_r shr_s] in *; lra. }
    split; [exact H1 |]. split; [reflexivity | exact H2].
  - split; [exact Hm |]. split; [lia |].
    replace (Z.max 0 (Z.neg p)) with 0 by lia. change (q2 (- 0)) with 1%Q.
    destruct mrs as [m [] []]; unfold located in *;
      cbn [shr_m shr_r shr_s] in *; lra.
Qed.

(** Rounding to nearest moves a located rational by half a unit at
    most. *)
Lemma round_nearest_even_close (mrs : shr_record) (y : Q) :
  located mrs y ->
  (Qabs (inject_Z (round_nearest_even (shr_m mrs) (loc_of_shr_record mrs)) - y) <= 1 # 2)%Q
  /\ shr_m mrs <= round_nearest_even (shr_m mrs) (loc_of_shr_record mrs) <= shr_m mrs + 1.
Proof.
  destruct mrs as [m [] []]; unfold located; cbn [shr_m shr_r shr_s loc_of_shr_record
    round_nearest_even]; intros H;
    try destruct (Z.even m); rewrite ?inject_Z_plus; change (inject_Z 1) with 1%Q;
    (split; [apply Qabs_case; intros; lra | lia]).
Qed.

(** ** The rounding of a mantissa *)

Local Abbreviation fexp := (SpecFloat.fexp Float.prec Float.emax).
Local Abbreviation emin := (SpecFloat.emin Float.prec Float.emax).

Lemma fexp_ge_emin (e : Z) : emin <= fexp e.
Proof. unfold SpecFloat.fexp. lia. Qed.

(** The first shift of [binary_round_aux] leaves at most [prec] bits. *)
Lemma shr_fexp_located (mx ex : Z) (lx : location) (y : Q) :
  0 <= mx -> located (shr_record_of_loc mx lx) y ->
  let mrs := fst (shr_fexp Float.prec Float.emax mx ex lx) in
  let e1 := snd (shr_fexp Float.prec Float.emax mx ex lx) in
  0 <= shr_m mrs < 2 ^ Float.prec
  /\ e1 = Z.max ex (fexp (Zdigits2 mx + ex))
  /\ located mrs (y * q2 (ex - e1)).
Proof.
  intros Hm Hy. cbv zeta. unfold shr_fexp.
  assert (Hm' : 0 <= shr_m (shr_record_of_loc mx lx)) by (destruct lx as [|[]]; exact Hm).
  assert (Hmm : shr_m (shr_record_of_loc mx lx) = mx) by (destruct lx as [|[]]; reflexivity).
  set (n := fexp (Zdigits2 mx + ex) - ex).
  destruct (shr_located (shr_record_of_loc mx lx) ex n y Hm' Hy) as (H0 & He & Hl).
  assert (He1 : ex + Z.max 0 n = Z.max ex (fexp (Zdigits2 mx + ex))) by (subst n; lia).
  rewrite He. split; [| split; [exact He1 |]].
  2:{ replace (ex - (ex + Z.max 0 n)) with (- Z.max 0 n) by lia. exact Hl. }
  split; [exact H0 |].
  apply located_bounds in Hl as [Hlo Hhi]. apply located_bounds in Hy as [_ Hyhi].
  rewrite Hmm in Hyhi.
  pose proof (Zdigits2_upper mx Hm) as Hd. pose proof (Zdigits2_nonneg mx) as Hd0.
  (* y < 2^d, so y / 2^max(0,n) < 2^prec *)
  assert (Hy2 : (y < inject_Z (2 ^ Zdigits2 mx))%Q).
  { eapply Qlt_le_trans; [exact Hyhi |].
    change 1%Q with (inject_Z 1). rewrite <- inject_Z_plus. apply inject_Z_le. lia. }
  assert (Hk : Zdigits2 mx - Z.max 0 n <= Float.prec).
  { subst n. unfold SpecFloat.fexp. cbv [Float.prec]. lia. }
  assert (Hb : (y * q2 (- Z.max 0 n) < inject_Z (2 ^ Float.prec))%Q).
  { rewrite <- (q2_nonneg (Zdigits2 mx) Hd0) in Hy2.
    rewrite <- (q2_nonneg Float.prec) by (cbv; discriminate).
    eapply Qlt_le_trans; [apply Qmult_lt_compat_r; [apply q2_pos | exact Hy2] |].
    rewrite <- q2_add. apply q2_le. lia. }
  assert (Hlt : (inject_Z (shr_m (fst (shr (shr_record_of_loc mx lx) ex n)))
                 < inject_Z (2 ^ Float.prec))%Q) by lra.
  unfold Qlt, inject_Z in Hlt. cbn [Qnum Qden] in Hlt. lia.
Qed.


(** The second shift of [binary_round_aux] only renormalises a mantissa
    that rounding has carried to [2^prec]; it loses nothing. *)
Lemma shr_fexp_renormalise (m1 e1 : Z) :
  0 <= m1 <= 2 ^ Float.prec -> emin <= e1 ->
  let mrs := fst (shr_fexp Float.prec Float.emax m1 e1 loc_Exact) in
  let e2 := snd (shr_fexp Float.prec Float.emax m1 e1 loc_Exact) in
  0 <= shr_m mrs
  /\ e1 <= e2 <= e1 + 1
  /\ (inject_Z (shr_m mrs) * q2 e2 == inject_Z m1 * q2 e1)%Q.
Proof.
  intros Hm He. cbv zeta. unfold shr_fexp.
  destruct (Z.eq_dec m1 (2 ^ Float.prec)) as [-> | Hne].
  - change (Zdigits2 (2 ^ Float.prec)) with 54.
    replace (fexp (54 + e1) - e1) with 1
      by (unfold SpecFloat.fexp, SpecFloat.emin in *; cbv [Float.prec Float.emax] in *; lia).
    cbn [shr iter_pos fst snd shr_record_of_loc].
    change (shr_m (shr_1 {| shr_m := 2 ^ Float.prec; shr_r := false; shr_s := false |}))
      with (2 ^ 52).
    split; [lia |]. split; [lia |].
    rewrite q2_add. change (q2 1) with 2%Q.
    change (inject_Z (2 ^ 52)) with (4503599627370496 # 1)%Q.
    change (inject_Z (2 ^ Float.prec)) with (9007199254740992 # 1)%Q. ring.
  - assert (Hlt : m1 < 2 ^ Float.prec) by lia.
    pose proof (Zdigits2_le m1 Float.prec ltac:(lia) ltac:(cbv; discriminate) Hlt) as Hd.
    assert (Hn : fexp (Zdigits2 m1 + e1) - e1 <= 0)
      by (unfold SpecFloat.fexp, SpecFloat.emin in *; cbv [Float.prec Float.emax] in *; lia).
    unfold shr. destruct (fexp (Zdigits2 m1 + e1) - e1) as [|p|p]; try lia;
      cbn [fst snd shr_record_of_loc shr_m]; (split; [lia |]); (split; [lia | reflexivity]).
Qed.

Lemma float_value_finite (s : bool) (m : positive) (e : Z) :
  (Spec.float_value (S754_finite s m e) == sgn s * (inject_Z (Z.pos m) * q2 e))%Q.
Proof.
  unfold Spec.float_value, sgn, q2. destruct s.
  - change (Z.neg m) with (- Z.pos m). rewrite inject_Z_opp. ring.
  - ring.
Qed.

(** What [binary_round_aux] returns for a located rational [y * 2^ex]:
    an infinity, when the exponent [e1] the rounding works at is too
    large, or a float whose value is [m1 * 2^e1], where [m1] is within one
    half of [y] scaled to that exponent. *)
Lemma binary_round_aux_close (s : bool) (mx ex : Z) (lx : location) (y : Q) :
  0 <= mx -> located (shr_record_of_loc mx lx) y ->
  let f := binary_round_aux Float.prec Float.emax s mx ex lx in
  let e1 := Z.max ex (fexp (Zdigits2 mx + ex)) in
  (f = S754_infinity s /\ Float.emax - Float.prec <= e1)
  \/ (Spec.isfinite f = true
      /\ exists m1 : Z,
           0 <= m1
           /\ (Spec.float_value f == sgn s * (inject_Z m1 * q2 e1))%Q
           /\ (Qabs (inject_Z m1 - y * q2 (ex - e1)) <= 1 # 2)%Q
           /\ (lx = loc_Exact -> e1 = ex -> (inject_Z m1 == y)%Q)).
Proof.
  intros Hm Hy. cbv zeta. unfold binary_round_aux.
  destruct (shr_fexp_located mx ex lx y Hm Hy) as (Hm1 & He1 & Hl1).
  assert (Hexact : lx = loc_Exact -> Z.max ex (fexp (Zdigits2 mx + ex)) = ex ->
                   fst (shr_fexp Float.prec Float.emax mx ex lx)
                   = {| shr_m := mx; shr_r := false; shr_s := false |}).
  { intros -> Hmax. unfold shr_fexp, shr.
    destruct (fexp (Zdigits2 mx + ex) - ex) as [|p|p] eqn:Hn; try reflexivity. lia. }
  destruct (shr_fexp Float.prec Float.emax mx ex lx) as [mrs' e'].
  cbn [fst snd] in Hm1, He1, Hl1, Hexact.
  destruct (round_nearest_even_close mrs' _ Hl1) as [Hclose Hr].
  set (m1 := round_nearest_even (shr_m mrs') (loc_of_shr_record mrs')) in *.
  assert (He' : emin <= e') by (rewrite He1; pose proof (fexp_ge_emin (Zdigits2 mx + ex)); lia).
  destruct (shr_fexp_renormalise m1 e' ltac:(lia) He') as (Hm2 & He2 & Hv).
  destruct (shr_fexp Float.prec Float.emax m1 e' loc_Exact) as [mrs'' e''].
  cbn [fst snd] in Hm2, He2, Hv.
  assert (Hm1' : exists m1' : Z,
             0 <= m1'
             /\ (inject_Z (shr_m mrs'') * q2 e''
                 == inject_Z m1' * q2 (Z.max ex (fexp (Zdigits2 mx + ex))))%Q
             /\ (Qabs (inject_Z m1' - y * q2 (ex - Z.max ex (fexp (Zdigits2 mx + ex))))
                 <= 1 # 2)%Q
             /\ (lx = loc_Exact -> Z.max ex (fexp (Zdigits2 mx + ex)) = ex ->
                 (inject_Z m1' == y)%Q)).
  { exists m1. rewrite <- He1. split; [lia |]. split; [exact Hv |]. split; [exact Hclose |].
    intros Hlx Hmax. rewrite He1 in Hmax. specialize (Hexact Hlx Hmax).
    subst m1. rewrite Hexact. cbn [shr_m loc_of_shr_record round_nearest_even].
    rewrite Hlx in Hy. cbn [shr_record_of_loc] in Hy. unfold located in Hy.
    cbn [shr_m shr_r shr_s] in Hy. now rewrite Hy. }
  destruct Hm1' as (m1' & H0 & Hval & Hcl & Hex).
  destruct (shr_m mrs'') as [|m|m] eqn:Hm''; [| | lia].
  - right. split; [reflexivity |]. exists m1'. repeat split; try assumption.
    cbn [Spec.float_value]. rewrite <- Hval. change (inject_Z 0) with 0%Q. ring.
  - destruct (Z.leb_spec e'' (Float.emax - Float.prec)) as [Hle|Hgt];
      [right | left; split; [reflexivity | lia]].
    split; [reflexivity |]. exists m1'. repeat split; try assumption.
    rewrite float_value_finite, Hval. reflexivity.
Qed.

(** Half a unit at the exponent that [fexp] gives a mantissa of [d]
    digits is a relative error of [2^-prec] at most, or half the smallest
    subnormal. *)
Definition unit_roundoff : Q := q2 (- Float.prec).
Definition half_subnormal : Q := q2 (emin - 1).

Lemma half_unit_relative (m ex : Z) :
  0 < m ->
  ((1 # 2) * q2 (fexp (Zdigits2 m + ex))
   <= unit_roundoff * (inject_Z m * q2 ex) + half_subnormal)%Q.
Proof.
  intros Hm. pose proof (Zdigits2_lower m Hm) as Hlo.
  pose proof (Zdigits2_nonneg m) as Hd0.
  assert (Hd1 : 1 <= Zdigits2 m) by (destruct m; cbn in *; lia).
  assert (Hrel : ((1 # 2) * q2 (Zdigits2 m + ex - Float.prec)
                  <= unit_roundoff * (inject_Z m * q2 ex))%Q).
  { rewrite <- q2_half.
    replace (Zdigits2 m + ex - Float.prec - 1)
      with (- Float.prec + ((Zdigits2 m - 1) + ex)) by lia.
    rewrite !q2_add, (q2_nonneg (Zdigits2 m - 1)) by lia.
    unfold unit_roundoff.
    apply mul_mono_l; [apply Qlt_le_weak, q2_pos |].
    apply Qmult_le_compat_r; [now apply inject_Z_le | apply Qlt_le_weak, q2_pos]. }
  assert (Hsub : ((1 # 2) * q2 emin == half_subnormal)%Q)
    by (unfold half_subnormal; now rewrite q2_half).
  assert (H0 : (0 <= unit_roundoff * (inject_Z m * q2 ex))%Q).
  { apply Qmult_le_0_compat; [apply Qlt_le_weak, q2_pos |].
    apply Qmult_le_0_compat; [apply inject_Z_nonneg; lia | apply Qlt_le_weak, q2_pos]. }
  assert (H1 : (0 <= half_subnormal)%Q) by apply Qlt_le_weak, q2_pos.
  unfold SpecFloat.fexp.
  destruct (Z.max_spec (Zdigits2 m + ex - Float.prec) emin) as [[_ ->]|[_ ->]].
  - rewrite Hsub. lra.
  - lra.
Qed.

(** ** Correctly rounded results *)

(** The float [f] is an infinity, or a finite float within the relative
    error [2^-53] of [x], or within half the smallest subnormal. *)
Definition rounds_to (f : Float.t) (x : Q) : Prop :=
  Float.is_inf f = true
  \/ (Spec.isfinite f = true
      /\ (Qabs (Spec.float_value f - x) <= unit_roundoff * Qabs x + half_subnormal)%Q).

Lemma unit_roundoff_pos : (0 < unit_roundoff)%Q.
Proof. apply q2_pos. Qed.

Lemma half_subnormal_pos : (0 < half_subnormal)%Q.
Proof. apply q2_pos. Qed.

Lemma sgn_abs (s : bool) (x : Q) : (0 <= x)%Q -> (Qabs (sgn s * x) == x)%Q.
Proof. intros H. rewrite Qabs_Qmult, abs_sgn, (Qabs_pos x H). ring. Qed.

Lemma binary_round_aux_rounds (s : bool) (mx ex : Z) (lx : location) (y : Q) :
  0 <= mx -> located (shr_record_of_loc mx lx) y ->
  lx = loc_Exact
  \/ ((1 # 2) * q2 ex <= unit_roundoff * (y * q2 ex) + half_subnormal)%Q ->
  rounds_to (binary_round_aux Float.prec Float.emax s mx ex lx) (sgn s * (y * q2 ex)).
Proof.
  intros Hm Hy Hcase.
  destruct (binary_round_aux_close s mx ex lx y Hm Hy)
    as [[-> _] | (Hfin & m1 & H0 & Hv & Hcl & Hex)];
    [left; reflexivity | right].
  split; [exact Hfin |].
  pose proof (located_bounds _ _ Hy) as [Hylo _].
  assert (Hmm : shr_m (shr_record_of_loc mx lx) = mx) by (destruct lx as [|[]]; reflexivity).
  rewrite Hmm in Hylo.
  assert (Hy0 : (0 <= y)%Q) by (pose proof (inject_Z_nonneg mx Hm); lra).
  pose proof (q2_pos ex) as Hq.
  assert (Hx0 : (0 <= y * q2 ex)%Q) by (apply Qmult_le_0_compat; lra).
  rewrite (sgn_abs s _ Hx0).
  set (e1 := Z.max ex (fexp (Zdigits2 mx + ex))) in *.
  pose proof (q2_pos e1) as Hq1.
  (* the error is the distance of the mantissas at the exponent e1 *)
  assert (Herr : (Qabs (Spec.float_value (binary_round_aux Float.prec Float.emax s mx ex lx)
                        - sgn s * (y * q2 ex))
                  == Qabs (inject_Z m1 - y * q2 (ex - e1)) * q2 e1)%Q).
  { rewrite Hv.
    setoid_replace (sgn s * (inject_Z m1 * q2 e1) - sgn s * (y * q2 ex))%Q
      with (sgn s * ((inject_Z m1 - y * q2 (ex - e1)) * q2 e1))%Q.
    - rewrite Qabs_Qmult, abs_sgn, Qabs_Qmult, (Qabs_pos (q2 e1)) by lra. ring.
    - replace ex with ((ex - e1) + e1) at 1 by lia. rewrite q2_add. ring. }
  rewrite Herr.
  assert (Hhalf : (Qabs (inject_Z m1 - y * q2 (ex - e1)) * q2 e1 <= (1 # 2) * q2 e1)%Q)
    by (apply Qmult_le_compat_r; lra).
  assert (Hb0 : (0 <= unit_roundoff * (y * q2 ex))%Q)
    by (apply Qmult_le_0_compat; [apply Qlt_le_weak, unit_roundoff_pos | exact Hx0]).
  pose proof half_subnormal_pos as Hs0.
  destruct (Z.max_spec ex (fexp (Zdigits2 mx + ex))) as [[Hlt He]|[Hge He]]; fold e1 in He.
  - (* the rounding shifts to the exponent fexp *)
    eapply Qle_trans; [exact Hhalf |]. rewrite He.
    destruct (Z.eq_dec mx 0) as [-> | Hm0].
    + cbn [Zdigits2 Z.add] in *. unfold SpecFloat.fexp in *.
      replace (Z.max (ex - Float.prec) emin) with emin by (cbv [Float.prec] in *; lia).
      fold half_subnormal. rewrite <- (q2_half emin). fold half_subnormal. lra.
    + eapply Qle_trans; [apply (half_unit_relative mx ex); lia |].
      assert (Hmono : (unit_roundoff * (inject_Z mx * q2 ex)
                       <= unit_roundoff * (y * q2 ex))%Q).
      { apply mul_mono_l; [apply Qlt_le_weak, unit_roundoff_pos |].
        apply Qmult_le_compat_r; lra. }
      lra.
  - (* the rounding works at the exponent it is given *)
    destruct Hcase as [Hlx | Hbound].
    + rewrite He, Z.sub_diag in *. change (q2 0) with 1%Q.
      rewrite (Hex Hlx eq_refl).
      setoid_replace (y - y * 1)%Q with 0%Q by ring. change (Qabs 0) with 0%Q. lra.
    + rewrite He in Hhalf |- *. lra.
Qed.


Lemma rounds_to_eq (f : Float.t) (x x' : Q) : (x == x')%Q -> rounds_to f x -> rounds_to f x'.
Proof.
  intros Hx [H | [Hfin H]]; [left; exact H | right].
  split; [exact Hfin |]. now rewrite <- Hx.
Qed.

Lemma rounds_to_exact (f : Float.t) :
  Spec.isfinite f = true -> rounds_to f (Spec.float_value f).
Proof.
  intros H. right. split; [exact H |].
  setoid_replace (Spec.float_value f - Spec.float_value f)%Q with 0%Q by ring.
  pose proof unit_roundoff_pos. pose proof half_subnormal_pos.
  pose proof (Qabs_nonneg (Spec.float_value f)).
  assert (0 <= unit_roundoff * Qabs (Spec.float_value f))%Q
    by (apply Qmult_le_0_compat; lra).
  change (Qabs 0) with 0%Q. lra.
Qed.

(** *** Products *)

Lemma mul_rounds (x y : Float.t) :
  Spec.isfinite x = true -> Spec.isfinite y = true ->
  rounds_to (Float.mul x y) (Spec.float_value x * Spec.float_value y).
Proof.
  intros Hx Hy.
  destruct x as [sx|sx| |sx mx ex]; try discriminate Hx;
    destruct y as [sy|sy| |sy my ey]; try discriminate Hy;
    try (apply (rounds_to_eq _ (Spec.float_value (S754_zero (xorb sx sy))));
         [cbn [Spec.float_value]; ring | apply rounds_to_exact; reflexivity]).
  unfold Float.mul, SFmul.
  eapply rounds_to_eq;
    [| apply (binary_round_aux_rounds (xorb sx sy) (Z.pos (mx * my)) (ex + ey) loc_Exact
                (inject_Z (Z.pos (mx * my)))); [lia | reflexivity | left; reflexivity]].
  rewrite !float_value_finite, sgn_xorb, q2_add, Pos2Z.inj_mul, inject_Z_mult. ring.
Qed.

(** *** Quotients of integers *)

Lemma new_location_located (nb k q : Z) :
  0 < nb -> 0 <= k < nb ->
  located (shr_record_of_loc q (new_location nb k)) (inject_Z q + inject_Z k / inject_Z nb).
Proof.
  intros Hnb Hk. pose proof (inject_Z_pos nb Hnb) as Hq.
  assert (Hlt : forall a b : Z, 0 < b -> b * k < a * nb ->
                (inject_Z k / inject_Z nb < inject_Z a / inject_Z b)%Q).
  { intros a b Hb H. apply Qlt_shift_div_r; [exact Hq |].
    unfold Qdiv. rewrite <- Qmult_assoc, (Qmult_comm (/ inject_Z b)), Qmult_assoc.
    apply Qlt_shift_div_l; [now apply inject_Z_pos |].
    rewrite <- !inject_Z_mult. unfold Qlt, inject_Z; cbn [Qnum Qden]. lia. }
  assert (Hgt : forall a b : Z, 0 < b -> a * nb < b * k ->
                (inject_Z a / inject_Z b < inject_Z k / inject_Z nb)%Q).
  { intros a b Hb H. apply Qlt_shift_div_l; [exact Hq |].
    unfold Qdiv. rewrite <- Qmult_assoc, (Qmult_comm (/ inject_Z b)), Qmult_assoc.
    apply Qlt_shift_div_r; [now apply inject_Z_pos |].
    rewrite <- !inject_Z_mult. unfold Qlt, inject_Z; cbn [Qnum Qden]. lia. }
  assert (H1 : (inject_Z k / inject_Z nb < 1)%Q)
    by (apply (Hlt 1 1); lia).
  assert (Hcases : k = 0 \/ (0 < k /\ 2 * k < nb) \/ (2 * k = nb) \/ (nb < 2 * k)) by lia.
  assert (Hzero : k = 0 -> (inject_Z k / inject_Z nb == 0)%Q).
  { intros ->. unfold Qdiv. change (inject_Z 0) with 0%Q. ring. }
  assert (Hlow : 0 < k -> 2 * k < nb ->
                 (0 < inject_Z k / inject_Z nb /\ inject_Z k / inject_Z nb < 1 # 2)%Q).
  { intros H0 H2. split; [apply (Hgt 0 1); lia | apply (Hlt 1 2); lia]. }
  assert (Hmid : 2 * k = nb -> (inject_Z k / inject_Z nb == 1 # 2)%Q).
  { intros H2. subst nb. rewrite inject_Z_mult. change (inject_Z 2) with 2%Q.
    field. apply FloatFacts.inject_Z_nonzero. lia. }
  assert (Hhigh : nb < 2 * k -> (1 # 2 < inject_Z k / inject_Z nb)%Q)
    by (intros H2; apply (Hgt 1 2); lia).
  unfold new_location, new_location_even, new_location_odd.
  destruct (Z.even nb) eqn:Heven; destruct (Z.eqb_spec k 0) as [Hk0|Hk0];
    try (cbn [shr_record_of_loc]; unfold located; cbn [shr_m shr_r shr_s];
         rewrite (Hzero Hk0); ring).
  - destruct (Z.compare_spec (2 * k) nb) as [H|H|H]; cbn [shr_record_of_loc];
      unfold located; cbn [shr_m shr_r shr_s].
    + rewrite (Hmid H). reflexivity.
    + destruct (Hlow ltac:(lia) H). split; lra.
    + specialize (Hhigh H). split; lra.
  - assert (Hodd : 2 * k <> nb).
    { intros <-. rewrite Z.even_mul in Heven. discriminate Heven. }
    destruct (Z.compare_spec (2 * k + 1) nb) as [H|H|H]; cbn [shr_record_of_loc];
      unfold located; cbn [shr_m shr_r shr_s].
    + destruct (Hlow ltac:(lia) ltac:(lia)). split; lra.
    + destruct (Hlow ltac:(lia) ltac:(lia)). split; lra.
    + specialize (Hhigh ltac:(lia)). split; lra.
Qed.


(** What the division of two integers hands to the rounding: a quotient
    located at an exponent [e'] that leaves at least [prec] bits. *)
Lemma div_core_located (m1 m2 : positive) :
  exists (q e' : Z) (l : location),
    SFdiv_core_binary Float.prec Float.emax (Z.pos m1) 0 (Z.pos m2) 0 = (q, e', l)
    /\ 0 <= q
    /\ e' = Z.min (fexp (Zdigits2 (Z.pos m1) - Zdigits2 (Z.pos m2))) 0
    /\ located (shr_record_of_loc q l)
         (inject_Z (Z.pos m1) * q2 (- e') / inject_Z (Z.pos m2)).
Proof.
  unfold SFdiv_core_binary. cbv zeta. rewrite !Z.add_0_r. change (0 - 0) with 0.
  set (e' := Z.min (fexp (Zdigits2 (Z.pos m1) - Zdigits2 (Z.pos m2))) 0).
  assert (He : e' <= 0) by (subst e'; lia).
  set (m' := match 0 - e' with
             | 0 => Z.pos m1
             | Z.pos _ => Z.shiftl (Z.pos m1) (0 - e')
             | Z.neg _ => 0
             end).
  assert (Hm' : m' = Z.pos m1 * 2 ^ (- e')).
  { subst m'. replace (0 - e') with (- e') by lia.
    destruct (- e') as [|p|p] eqn:Hs; [lia | | lia].
    apply Z.shiftl_mul_pow2. lia. }
  pose proof (pow2_pos (- e') ltac:(lia)) as Hp.
  pose proof (Z_div_mod m' (Z.pos m2) ltac:(lia)) as Hdiv.
  destruct (Z.div_eucl m' (Z.pos m2)) as [q r]. destruct Hdiv as [Hqr Hr].
  exists q, e', (new_location (Z.pos m2) r).
  split; [reflexivity |]. split; [nia |]. split; [reflexivity |].
  pose proof (new_location_located (Z.pos m2) r q ltac:(lia) Hr) as Hl.
  assert (Heq : (inject_Z q + inject_Z r / inject_Z (Z.pos m2)
                 == inject_Z (Z.pos m1) * q2 (- e') / inject_Z (Z.pos m2))%Q).
  { rewrite (q2_nonneg (- e')) by lia. rewrite <- inject_Z_mult, <- Hm', Hqr.
    rewrite inject_Z_plus, inject_Z_mult. field.
    apply FloatFacts.inject_Z_nonzero. lia. }
  destruct (shr_record_of_loc q (new_location (Z.pos m2) r)) as [m [] []];
    unfold located in *; cbn [shr_m shr_r shr_s] in *; rewrite <- Heq; exact Hl.
Qed.

(** A ratio of integers is above the power of two that their numbers of
    digits give. *)
Lemma ratio_lower (m1 m2 : positive) :
  (q2 (Zdigits2 (Z.pos m1) - 1 - Zdigits2 (Z.pos m2))
   <= inject_Z (Z.pos m1) / inject_Z (Z.pos m2))%Q.
Proof.
  pose proof (Zdigits2_lower (Z.pos m1) ltac:(lia)) as H1.
  pose proof (Zdigits2_upper (Z.pos m2) ltac:(lia)) as H2.
  pose proof (Zdigits2_nonneg (Z.pos m2)) as Hd2.
  assert (Hd1 : 1 <= Zdigits2 (Z.pos m1)) by (cbn; lia).
  apply Qle_shift_div_l; [apply inject_Z_pos; lia |].
  replace (Zdigits2 (Z.pos m1) - 1 - Zdigits2 (Z.pos m2))
    with ((Zdigits2 (Z.pos m1) - 1) + - Zdigits2 (Z.pos m2)) by lia.
  rewrite q2_add, (q2_nonneg (Zdigits2 (Z.pos m1) - 1)) by lia.
  assert (Hone : (q2 (- Zdigits2 (Z.pos m2)) * inject_Z (Z.pos m2) <= 1)%Q).
  { assert (H : (q2 (- Zdigits2 (Z.pos m2)) * q2 (Zdigits2 (Z.pos m2)) == 1)%Q).
    { rewrite <- q2_add. replace (- Zdigits2 (Z.pos m2) + Zdigits2 (Z.pos m2)) with 0 by lia.
      reflexivity. }
    rewrite <- H. apply mul_mono_l; [apply Qlt_le_weak, q2_pos |].
    rewrite (q2_nonneg _ Hd2). apply inject_Z_le. lia. }
  pose proof (inject_Z_le _ _ H1) as H1q.
  pose proof (pow2_pos (Zdigits2 (Z.pos m1) - 1) ltac:(lia)) as Hp.
  pose proof (inject_Z_pos _ Hp) as Hpq.
  rewrite <- Qmult_assoc.
  eapply Qle_trans; [apply mul_mono_l; [lra | exact Hone] |]. lra.
Qed.

Lemma of_ratio_rounds (s : bool) (num den : positive) :
  rounds_to (Float.of_ratio s num den)
    (sgn s * (inject_Z (Z.pos num) / inject_Z (Z.pos den))).
Proof.
  unfold Float.of_ratio.
  destruct (div_core_located num den) as (q & e' & l & -> & Hq & He & Hl).
  assert (Hx : (inject_Z (Z.pos num) * q2 (- e') / inject_Z (Z.pos den) * q2 e'
                == inject_Z (Z.pos num) / inject_Z (Z.pos den))%Q).
  { assert (H : (q2 (- e') * q2 e' == 1)%Q).
    { rewrite <- q2_add. replace (- e' + e') with 0 by lia. reflexivity. }
    unfold Qdiv.
    setoid_replace (inject_Z (Z.pos num) * q2 (- e') * / inject_Z (Z.pos den) * q2 e')%Q
      with (inject_Z (Z.pos num) * / inject_Z (Z.pos den) * (q2 (- e') * q2 e'))%Q by ring.
    rewrite H. ring. }
  apply (rounds_to_eq _ (sgn s * (inject_Z (Z.pos num) * q2 (- e') / inject_Z (Z.pos den)
                                  * q2 e')));
    [rewrite Hx; reflexivity |].
  apply binary_round_aux_rounds; [exact Hq | exact Hl | right].
  rewrite Hx.
  pose proof (ratio_lower num den) as Hlow.
  set (x := (inject_Z (Z.pos num) / inject_Z (Z.pos den))%Q) in *.
  set (d := Zdigits2 (Z.pos num) - Zdigits2 (Z.pos den)) in *.
  pose proof unit_roundoff_pos as Hu. pose proof half_subnormal_pos as Hs.
  assert (Hx0 : (0 <= x)%Q).
  { eapply Qle_trans; [apply Qlt_le_weak, q2_pos | exact Hlow]. }
  assert (Hux : (0 <= unit_roundoff * x)%Q) by (apply Qmult_le_0_compat; lra).
  assert (Hle : (q2 e' <= q2 (fexp d))%Q) by (apply q2_le; lia).
  unfold SpecFloat.fexp in Hle.
  destruct (Z.max_spec (d - Float.prec) emin) as [[_ Hmax]|[_ Hmax]]; rewrite Hmax in Hle.
  - pose proof (q2_half emin) as Hh. fold half_subnormal in Hh. lra.
  - assert (Hrel : ((1 # 2) * q2 (d - Float.prec) <= unit_roundoff * x)%Q).
    { rewrite <- q2_half.
      replace (d - Float.prec - 1)
        with (- Float.prec + (Zdigits2 (Z.pos num) - 1 - Zdigits2 (Z.pos den)))
        by (subst d; lia).
      rewrite q2_add. fold unit_roundoff. apply mul_mono_l; lra. }
    lra.
Qed.

(** *** Integers *)

Lemma iter_xO_value (m d : positive) : Z.pos (Pos.iter xO m d) = Z.pos m * 2 ^ Z.pos d.
Proof.
  induction d as [|d IH] using Pos.peano_ind.
  - cbn [Pos.iter]. lia.
  - rewrite Pos.iter_succ, Pos2Z.inj_xO, IH, Pos2Z.inj_succ, Z.pow_succ_r by lia. ring.
Qed.

Lemma binary_round_rounds (s : bool) (m : positive) (e : Z) :
  rounds_to (binary_round Float.prec Float.emax s m e) (sgn s * (inject_Z (Z.pos m) * q2 e)).
Proof.
  unfold binary_round, shl_align.
  set (e' := fexp (Z.pos (digits2_pos m) + e)).
  destruct (e' - e) as [|d|d] eqn:Hd.
  - apply (binary_round_aux_rounds s (Z.pos m) e loc_Exact (inject_Z (Z.pos m)));
      [lia | reflexivity | left; reflexivity].
  - apply (binary_round_aux_rounds s (Z.pos m) e loc_Exact (inject_Z (Z.pos m)));
      [lia | reflexivity | left; reflexivity].
  - eapply rounds_to_eq;
      [| apply (binary_round_aux_rounds s (Z.pos (Pos.iter xO m d)) e' loc_Exact
                  (inject_Z (Z.pos (Pos.iter xO m d)))); [lia | reflexivity | left; reflexivity]].
    clearbody e'.
    assert (Hq : (q2 e == q2 (Z.pos d) * q2 e')%Q).
    { rewrite <- q2_add. replace (Z.pos d + e') with e by lia. reflexivity. }
    rewrite iter_xO_value, inject_Z_mult, <- (q2_nonneg (Z.pos d)), Hq by lia. ring.
Qed.

Lemma binary_normalize_rounds (n : Z) :
  rounds_to (binary_normalize Float.prec Float.emax n 0 false) (inject_Z n).
Proof.
  destruct n as [|p|p]; cbn [binary_normalize].
  - right. split; [reflexivity |]. cbn [Spec.float_value].
    pose proof half_subnormal_pos. change (Qabs (0 - inject_Z 0)) with 0%Q.
    change (Qabs (inject_Z 0)) with 0%Q. lra.
  - eapply rounds_to_eq; [| apply binary_round_rounds].
    change (q2 0) with 1%Q. unfold sgn. ring.
  - eapply rounds_to_eq; [| apply binary_round_rounds].
    change (q2 0) with 1%Q. unfold sgn. change (Z.neg p) with (- Z.pos p).
    rewrite inject_Z_opp. ring.
Qed.

(** *** Decimals *)

Lemma of_decimal_triple_rounds (s : bool) (c e : Z) :
  0 <= c ->
  rounds_to (Float.of_decimal_triple s c e) (sgn s * (inject_Z c * DecimalFacts.q10 e))%Q.
Proof.
  intros Hc. unfold Float.of_decimal_triple. destruct c as [|p|p]; [| | lia].
  - eapply rounds_to_eq; [| apply (rounds_to_exact (S754_zero s)); reflexivity].
    cbn [Spec.float_value]. change (inject_Z 0) with 0%Q. ring.
  - destruct (Z.leb_spec 0 e) as [He|He].
    + eapply rounds_to_eq; [| apply binary_normalize_rounds].
      rewrite (DecimalFacts.q10_nonneg e He), !inject_Z_mult.
      unfold sgn. destruct s; [change (inject_Z (-1)) with (-1)%Q | change (inject_Z 1) with 1%Q];
        ring.
    + eapply rounds_to_eq; [| apply of_ratio_rounds].
      pose proof (DecimalFacts.pow10_pos (- e) ltac:(lia)) as Hp.
      rewrite Z2Pos.id by exact Hp.
      rewrite <- (DecimalFacts.q10_nonneg (- e)) by lia.
      assert (H : (DecimalFacts.q10 (- e) * DecimalFacts.q10 e == 1)%Q).
      { rewrite <- DecimalFacts.q10_add. replace (- e + e) with 0 by lia. reflexivity. }
      assert (Hnz : ~ (DecimalFacts.q10 (- e) == 0)%Q) by apply q10_nonzero.
      apply Qmult_comp; [reflexivity |].
      rewrite <- (Qmult_1_r (inject_Z (Z.pos p) / DecimalFacts.q10 (- e))), <- H.
      field. exact Hnz.
Qed.

(** [float(d)] is the float nearest to the Decimal [d]. *)
Lemma of_decimal_rounds (d : Decimal.t) : rounds_to (Float.of_decimal d) (Decimal.to_Q d).
Proof.
  eapply rounds_to_eq; [| apply of_decimal_triple_rounds, DecimalFacts.cz_nonneg].
  rewrite value_sgn. ring.
Qed.

Lemma rounds_to_finite (f : Float.t) (x : Q) :
  rounds_to f x -> Spec.isfinite f = true ->
  (Qabs (Spec.float_value f - x) <= unit_roundoff * Qabs x + half_subnormal)%Q.
Proof.
  intros [Hinf | [_ H]] Hfin; [| exact H].
  unfold Spec.isfinite in Hfin. rewrite Hinf, andb_false_r in Hfin. discriminate Hfin.
Qed.

Lemma unit_roundoff_value : (unit_roundoff == 1 # 9007199254740992)%Q.
Proof. reflexivity. Qed.

Lemma half_subnormal_small : (half_subnormal <= 1 # 1152921504606846976)%Q.
Proof.
  unfold half_subnormal. eapply Qle_trans; [apply (q2_le _ (-60)); cbv; discriminate |].
  apply Qle_lteq. right. reflexivity.
Qed.

(** The bound of a correctly rounded result, with its constants. *)
Lemma rounds_to_numeral (f : Float.t) (x : Q) :
  rounds_to f x -> Spec.isfinite f = true ->
  (Qabs (Spec.float_value f - x)
   <= (1 # 9007199254740992) * Qabs x + (1 # 1152921504606846976))%Q.
Proof.
  intros H Hfin. pose proof (rounds_to_finite f x H Hfin) as Hb.
  rewrite unit_roundoff_value in Hb. pose proof half_subnormal_small. lra.
Qed.

Lemma round_finite (y : Float.t) (n : Z) :
  Spec.isfinite (Float.round y n) = true -> Spec.isfinite y = true.
Proof. destruct y; intros H; try exact H; reflexivity. Qed.

Lemma mul_finite (x y : Float.t) :
  Spec.isfinite (Float.mul x y) = true -> Spec.isfinite x = true /\ Spec.isfinite y = true.
Proof.
  destruct x as [sx|sx| |sx mx ex], y as [sy|sy| |sy my ey]; intros H;
    first [ split; reflexivity | discriminate H ].
Qed.

Lemma hundred_value :
  Spec.isfinite (Float.of_Z 100) = true /\ (Spec.float_value (Float.of_Z 100) == 100)%Q.
Proof. split; vm_compute; reflexivity. Qed.

(** ** A percentage computed in floats *)

(** The error of [round(float(q) * 100, 2)] against [100 * x] when the
    Decimal [q] is within a relative [1E-27] of [x]: half a hundredth for
    the rounding to two places, and four relative errors of [2^-53] for
    the conversion, the product and the conversion back. *)
Lemma percentage_error (x xq v1 v2 v3 : Q) :
  (Qabs (xq - x) <= (1 # 1000000000000000000000000000) * (Qabs x + 1))%Q ->
  (Qabs (v1 - xq) <= (1 # 9007199254740992) * Qabs xq + (1 # 1152921504606846976))%Q ->
  (Qabs (v2 - v1 * 100)
   <= (1 # 9007199254740992) * Qabs (v1 * 100) + (1 # 1152921504606846976))%Q ->
  (v3 == v2
   \/ exists c,
        Qabs (c - v2) <= 1 # 200
        /\ Qabs (v3 - c) <= (1 # 9007199254740992) * Qabs c + (1 # 1152921504606846976))%Q ->
  (Qabs (v3 - x * 100) <= (1 # 200) + (Qabs (x * 100) + 1) * (1 # 2251799813685248))%Q.
Proof.
  intros H0 H1 H2 H3.
  assert (Hx100 : (Qabs (x * 100) == 100 * Qabs x)%Q).
  { rewrite Qabs_Qmult. change (Qabs 100) with 100%Q. ring. }
  rewrite Hx100.
  pose proof (Qabs_nonneg x) as Ax0.
  pose proof (Qle_Qabs x) as Ax1.
  pose proof (Qle_Qabs (- x)) as Ax2. rewrite Qabs_opp in Ax2.
  set (A := Qabs x) in *.
  apply Qabs_Qle_condition in H0 as [H0a H0b].
  assert (Hq : (Qabs xq <= A + (1 # 1000000000000000000000000000) * (A + 1))%Q)
    by (apply Qabs_case; intros; lra).
  pose proof (Qle_Qabs xq) as Bq1.
  pose proof (Qle_Qabs (- xq)) as Bq2. rewrite Qabs_opp in Bq2.
  apply Qabs_Qle_condition in H1 as [H1a H1b].
  assert (Hv1 : (Qabs (v1 * 100) <= 100 * (A + 3 * (1 # 9007199254740992) * (A + 1)))%Q)
    by (apply Qabs_case; intros; lra).
  pose proof (Qle_Qabs (v1 * 100)) as Bv1.
  pose proof (Qle_Qabs (- (v1 * 100))) as Bv2. rewrite Qabs_opp in Bv2.
  apply Qabs_Qle_condition in H2 as [H2a H2b].
  destruct H3 as [H3 | (c & H3 & H4)].
  - rewrite H3. apply Qabs_Qle_condition. split; lra.
  - apply Qabs_Qle_condition in H3 as [H3a H3b].
    assert (Hc : (Qabs c <= 101 * A + 1)%Q) by (apply Qabs_case; intros; lra).
    pose proof (Qle_Qabs c) as Bc1.
    pose proof (Qle_Qabs (- c)) as Bc2. rewrite Qabs_opp in Bc2.
    apply Qabs_Qle_condition in H4 as [H4a H4b].
    apply Qabs_Qle_condition. split; lra.
Qed.

(** [round(float(q) * 100, 2)], when it is finite, is within half a
    hundredth and a relative [2^-51] of [100 * x]. *)
Lemma float_percentage_close (q : Decimal.t) (x : Q) :
  (Qabs (Decimal.to_Q q - x) <= (1 # 1000000000000000000000000000) * (Qabs x + 1))%Q ->
  Spec.isfinite (Float.round (Float.mul (Float.of_decimal q) (Float.of_Z 100)) 2) = true ->
  (Qabs (Spec.float_value (Float.round (Float.mul (Float.of_decimal q) (Float.of_Z 100)) 2)
         - x * 100)
   <= (1 # 200) + (Qabs (x * 100) + 1) * (1 # 2251799813685248))%Q.
Proof.
  intros Hq Hfin.
  pose proof (round_finite _ _ Hfin) as Hfin2.
  destruct (mul_finite _ _ Hfin2) as [Hfin1 _].
  destruct hundred_value as [Hfin100 H100].
  pose proof (rounds_to_numeral _ _ (of_decimal_rounds q) Hfin1) as H1.
  pose proof (rounds_to_numeral _ _ (mul_rounds _ _ Hfin1 Hfin100) Hfin2) as H2.
  rewrite H100 in H2.
  set (f2 := Float.mul (Float.of_decimal q) (Float.of_Z 100)) in *.
  apply (percentage_error x (Decimal.to_Q q) (Spec.float_value (Float.of_decimal q))
           (Spec.float_value f2)); try assumption.
  destruct (FloatFacts.round_two_places f2) as [Heq | (z & Hz & Hc & Heq)].
  - left. now rewrite Heq.
  - right. exists (sgn (Float.sign_bit f2) * (inject_Z z * DecimalFacts.q10 (-2)))%Q.
    rewrite Heq in Hfin |- *.
    split.
    + rewrite signed_sgn in Hc. change (DecimalFacts.q10 (-2)) with (1 # 100)%Q.
      rewrite Qmult_assoc. exact Hc.
    + exact (rounds_to_numeral _ _ (of_decimal_triple_rounds _ z (-2) Hz) Hfin).
Qed.


Lemma tiny_le_1 : (Spec.subnormal <= 1)%Q.
Proof.
  rewrite subnormal_q10. change 1%Q with (DecimalFacts.q10 0).
  apply q10_le. cbv. discriminate.
Qed.

Lemma relative_numeral (w t k A : Q) :
  (w == k)%Q -> (0 <= k)%Q -> (t <= 1)%Q -> (w * (A + t) <= k * (A + 1))%Q.
Proof. intros Hw Hk Ht. rewrite Hw. apply mul_mono_l; lra. Qed.

(** A Decimal quotient is within a relative [1E-27] of the ratio. *)
Lemma quotient_numeral (a b d : Decimal.t) :
  Decimal.div a b = Ok d ->
  (Qabs (Decimal.to_Q d - Decimal.to_Q a / Decimal.to_Q b)
   <= (1 # 1000000000000000000000000000)
      * (Qabs (Decimal.to_Q a / Decimal.to_Q b) + 1))%Q.
Proof.
  intros H. destruct (div_error a b d H) as [_ Hb].
  eapply Qle_trans; [exact Hb |].
  apply relative_numeral; [exact ulp_value | discriminate | exact tiny_le_1].
Qed.

(** The growth percentage of a year, computed as
    [round(float(year_interest / year_start_balance) * 100, 2)], is within
    half a hundredth and the drift of floating point of the percentage. *)
Lemma growth_close (year_interest year_start_balance q : Decimal.t) :
  Decimal.div year_interest year_start_balance = Ok q ->
  Spec.isfinite (Float.round (Float.mul (Float.of_decimal q) (Float.of_Z 100)) 2) = true ->
  (Qabs (Spec.float_value (Float.round (Float.mul (Float.of_decimal q) (Float.of_Z 100)) 2)
         - Spec.growth_percentage year_interest year_start_balance)
   <= (1 # 200)
      + Spec.float_drift (Spec.growth_percentage year_interest year_start_balance))%Q.
Proof.
  intros H Hfin. unfold Spec.growth_percentage, Spec.float_drift.
  apply float_percentage_close; [now apply quotient_numeral | exact Hfin].
Qed.

(** ** Results that do not overflow *)

(** The largest magnitude the roundings below are asked about:
    [2^1023], half the range of the finite floats. *)
Definition half_range : Q := q2 (Float.emax - 1).

(** The exponent of a float is at most [b]. *)
Definition exponent_le (b : Z) (f : Float.t) : Prop :=
  match f with
  | S754_finite _ _ e => e <= b
  | _ => True
  end.

Lemma q2_lt_inv (a b : Z) : (q2 a < q2 b)%Q -> a < b.
Proof.
  intros H. destruct (Z.lt_ge_cases a b) as [Hlt|Hge]; [exact Hlt | exfalso].
  pose proof (q2_le b a Hge). lra.
Qed.

Lemma binary_round_aux_bounded (s : bool) (mx ex : Z) (lx : location) :
  exponent_le (Float.emax - Float.prec) (binary_round_aux Float.prec Float.emax s mx ex lx).
Proof.
  unfold binary_round_aux.
  destruct (shr_fexp Float.prec Float.emax mx ex lx) as [mrs' e'].
  destruct (shr_fexp Float.prec Float.emax _ e' loc_Exact) as [mrs'' e''].
  destruct (shr_m mrs'') as [|m|m]; cbn [exponent_le]; try exact I.
  destruct (Z.leb_spec e'' (Float.emax - Float.prec)); cbn [exponent_le]; [assumption | exact I].
Qed.

(** A rounding that starts below [emax - prec] from a magnitude below
    [2^1023] returns a finite float. *)
Lemma binary_round_aux_finite (s : bool) (mx ex : Z) (lx : location) (y : Q) :
  0 <= mx -> located (shr_record_of_loc mx lx) y ->
  ex < Float.emax - Float.prec ->
  (y * q2 ex < half_range)%Q ->
  Spec.isfinite (binary_round_aux Float.prec Float.emax s mx ex lx) = true.
Proof.
  intros Hm Hy Hex Hsmall.
  destruct (binary_round_aux_close s mx ex lx y Hm Hy) as [[_ He1] | [Hfin _]];
    [exfalso | exact Hfin].
  pose proof (located_bounds _ _ Hy) as [Hylo _].
  assert (Hmm : shr_m (shr_record_of_loc mx lx) = mx) by (destruct lx as [|[]]; reflexivity).
  rewrite Hmm in Hylo.
  assert (Hd : Float.emax <= Zdigits2 mx + ex).
  { unfold SpecFloat.fexp, SpecFloat.emin in He1. cbv [Float.emax Float.prec] in *. lia. }
  destruct (Z.eq_dec mx 0) as [-> | Hm0]; [cbn [Zdigits2] in Hd; cbv [Float.emax Float.prec] in *; lia |].
  pose proof (Zdigits2_lower mx ltac:(lia)) as Hlo.
  assert (Hd1 : 1 <= Zdigits2 mx) by (destruct mx; cbn in *; lia).
  assert (Hbig : (q2 (Zdigits2 mx - 1 + ex) <= y * q2 ex)%Q).
  { rewrite q2_add, (q2_nonneg (Zdigits2 mx - 1)) by lia.
    apply Qmult_le_compat_r; [| apply Qlt_le_weak, q2_pos].
    eapply Qle_trans; [apply inject_Z_le; exact Hlo | exact Hylo]. }
  assert (Hlt : (q2 (Zdigits2 mx - 1 + ex) < half_range)%Q) by lra.
  apply q2_lt_inv in Hlt. lia.
Qed.

Lemma of_ratio_bounded (s : bool) (num den : positive) :
  exponent_le (Float.emax - Float.prec) (Float.of_ratio s num den).
Proof.
  unfold Float.of_ratio.
  destruct (SFdiv_core_binary Float.prec Float.emax (Z.pos num) 0 (Z.pos den) 0) as [[q e] l].
  apply binary_round_aux_bounded.
Qed.

Lemma of_ratio_finite (s : bool) (num den : positive) :
  (inject_Z (Z.pos num) / inject_Z (Z.pos den) < half_range)%Q ->
  Spec.isfinite (Float.of_ratio s num den) = true.
Proof.
  intros Hsmall. unfold Float.of_ratio.
  destruct (div_core_located num den) as (q & e' & l & -> & Hq & He & Hl).
  apply (binary_round_aux_finite s q e' l _ Hq Hl).
  - cbv [Float.emax Float.prec]. lia.
  - assert (H : (q2 (- e') * q2 e' == 1)%Q).
    { rewrite <- q2_add. replace (- e' + e') with 0 by lia. reflexivity. }
    unfold Qdiv in *.
    setoid_replace (inject_Z (Z.pos num) * q2 (- e') * / inject_Z (Z.pos den) * q2 e')%Q
      with (inject_Z (Z.pos num) * / inject_Z (Z.pos den) * (q2 (- e') * q2 e'))%Q by ring.
    rewrite H, Qmult_1_r. exact Hsmall.
Qed.

Lemma binary_round_bounded (s : bool) (m : positive) (e : Z) :
  exponent_le (Float.emax - Float.prec) (binary_round Float.prec Float.emax s m e).
Proof.
  unfold binary_round. destruct (shl_align m e _) as [mz ez].
  apply binary_round_aux_bounded.
Qed.

Lemma binary_round_finite (s : bool) (m : positive) (e : Z) :
  e < Float.emax - Float.prec ->
  (inject_Z (Z.pos m) * q2 e < half_range)%Q ->
  Spec.isfinite (binary_round Float.prec Float.emax s m e) = true.
Proof.
  intros He Hsmall. unfold binary_round, shl_align.
  set (e' := fexp (Z.pos (digits2_pos m) + e)).
  destruct (e' - e) as [|d|d] eqn:Hd.
  - apply (binary_round_aux_finite s (Z.pos m) e loc_Exact (inject_Z (Z.pos m)));
      [lia | reflexivity | exact He | exact Hsmall].
  - apply (binary_round_aux_finite s (Z.pos m) e loc_Exact (inject_Z (Z.pos m)));
      [lia | reflexivity | exact He | exact Hsmall].
  - clearbody e'.
    apply (binary_round_aux_finite s (Z.pos (Pos.iter xO m d)) e' loc_Exact
             (inject_Z (Z.pos (Pos.iter xO m d)))); [lia | reflexivity | lia |].
    assert (Hq : (q2 e == q2 (Z.pos d) * q2 e')%Q).
    { rewrite <- q2_add. replace (Z.pos d + e') with e by lia. reflexivity. }
    rewrite iter_xO_value, inject_Z_mult, <- (q2_nonneg (Z.pos d)) by lia.
    rewrite Hq, Qmult_assoc in Hsmall. exact Hsmall.
Qed.

Lemma of_decimal_triple_bounded (s : bool) (c e : Z) :
  exponent_le (Float.emax - Float.prec) (Float.of_decimal_triple s c e).
Proof.
  unfold Float.of_decimal_triple. destruct c as [|p|p]; try exact I.
  destruct (0 <=? e); [| apply of_ratio_bounded].
  unfold binary_normalize.
  destruct ((if s then -1 else 1) * (Z.pos p * 10 ^ e)) as [|n|n];
    [exact I | apply binary_round_bounded | apply binary_round_bounded].
Qed.

Lemma of_decimal_triple_finite (s : bool) (c e : Z) :
  0 <= c ->
  (inject_Z c * DecimalFacts.q10 e < half_range)%Q ->
  Spec.isfinite (Float.of_decimal_triple s c e) = true.
Proof.
  intros Hc Hsmall. unfold Float.of_decimal_triple. destruct c as [|p|p]; [reflexivity | | lia].
  destruct (Z.leb_spec 0 e) as [He|He].
  - rewrite (DecimalFacts.q10_nonneg e He), <- inject_Z_mult in Hsmall.
    pose proof (DecimalFacts.pow10_pos e He) as Hp.
    assert (Hpos : 0 < Z.pos p * 10 ^ e) by nia.
    unfold binary_normalize.
    destruct (Z.pos p * 10 ^ e) as [|n|n] eqn:Hn; [lia | | lia].
    destruct s.
    + change (-1 * Z.pos n) with (Z.neg n). cbv iota.
      apply binary_round_finite; [cbv; reflexivity |].
      change (q2 0) with 1%Q. now rewrite Qmult_1_r.
    + change (1 * Z.pos n) with (Z.pos n). cbv iota.
      apply binary_round_finite; [cbv; reflexivity |].
      change (q2 0) with 1%Q. now rewrite Qmult_1_r.
  - apply of_ratio_finite.
    pose proof (DecimalFacts.pow10_pos (- e) ltac:(lia)) as Hp.
    rewrite Z2Pos.id by exact Hp.
    rewrite <- (DecimalFacts.q10_nonneg (- e)) by lia.
    assert (H : (DecimalFacts.q10 (- e) * DecimalFacts.q10 e == 1)%Q).
    { rewrite <- DecimalFacts.q10_add. replace (- e + e) with 0 by lia. reflexivity. }
    assert (Heq : (inject_Z (Z.pos p) / DecimalFacts.q10 (- e)
                   == inject_Z (Z.pos p) * DecimalFacts.q10 e)%Q).
    { rewrite <- (Qmult_1_r (inject_Z (Z.pos p) / DecimalFacts.q10 (- e))), <- H.
      field. apply q10_nonzero. }
    rewrite Heq. exact Hsmall.
Qed.

Lemma mul_finite_small (x y : Float.t) (bx by_ : Z) :
  Spec.isfinite x = true -> Spec.isfinite y = true ->
  exponent_le bx x -> exponent_le by_ y ->
  bx + by_ < Float.emax - Float.prec ->
  (Qabs (Spec.float_value x * Spec.float_value y) < half_range)%Q ->
  Spec.isfinite (Float.mul x y) = true.
Proof.
  intros Hx Hy Hbx Hby Hb Hsmall.
  destruct x as [sx|sx| |sx mx ex]; try discriminate Hx;
    destruct y as [sy|sy| |sy my ey]; try discriminate Hy; try reflexivity.
  cbn [exponent_le] in Hbx, Hby. unfold Float.mul, SFmul.
  apply (binary_round_aux_finite _ (Z.pos (mx * my)) (ex + ey) loc_Exact
           (inject_Z (Z.pos (mx * my)))); [lia | reflexivity | lia |].
  rewrite !float_value_finite in Hsmall.
  setoid_replace (sgn sx * (inject_Z (Z.pos mx) * q2 ex) * (sgn sy * (inject_Z (Z.pos my) * q2 ey)))%Q
    with (sgn (xorb sx sy) * (inject_Z (Z.pos (mx * my)) * q2 (ex + ey)))%Q in Hsmall
    by (rewrite sgn_xorb, q2_add, Pos2Z.inj_mul, inject_Z_mult; ring).
  rewrite sgn_abs in Hsmall; [exact Hsmall |].
  apply Qmult_le_0_compat; [apply inject_Z_nonneg; lia | apply Qlt_le_weak, q2_pos].
Qed.


(** ** A percentage that does not overflow *)

Lemma hundred_exponent : exponent_le (-46) (Float.of_Z 100).
Proof. vm_compute. intros H. discriminate H. Qed.

Lemma half_range_large : (401 * inject_Z (10 ^ 300) < half_range)%Q.
Proof. vm_compute. reflexivity. Qed.

(** [round(float(q) * 100, 2)] is finite when [100 * x] is at most
    [10^300] in magnitude. *)
Lemma float_percentage_finite (q : Decimal.t) (x : Q) :
  (Qabs (Decimal.to_Q q - x) <= (1 # 1000000000000000000000000000) * (Qabs x + 1))%Q ->
  (Qabs (x * 100) <= inject_Z (10 ^ 300))%Q ->
  Spec.isfinite (Float.round (Float.mul (Float.of_decimal q) (Float.of_Z 100)) 2) = true.
Proof.
  intros Hq Hx.
  pose proof half_range_large as Hlarge.
  assert (HB : (1 <= inject_Z (10 ^ 300))%Q).
  { change 1%Q with (inject_Z 1). apply inject_Z_le.
    pose proof (DecimalFacts.pow10_pos 300 ltac:(lia)). lia. }
  set (B := inject_Z (10 ^ 300)) in *.
  assert (Hx100 : (Qabs (x * 100) == 100 * Qabs x)%Q).
  { rewrite Qabs_Qmult. change (Qabs 100) with 100%Q. ring. }
  rewrite Hx100 in Hx.
  pose proof (Qabs_nonneg x) as Ax0.
  pose proof (Qle_Qabs x) as Ax1.
  pose proof (Qle_Qabs (- x)) as Ax2. rewrite Qabs_opp in Ax2.
  apply Qabs_Qle_condition in Hq as [Hqa Hqb].
  assert (Hq1 : (Qabs (Decimal.to_Q q) <= B)%Q) by (apply Qabs_case; intros; lra).
  (* the conversion of the quotient *)
  assert (Hfin1 : Spec.isfinite (Float.of_decimal q) = true).
  { apply of_decimal_triple_finite; [apply DecimalFacts.cz_nonneg |].
    rewrite <- abs_value. lra. }
  pose proof (of_decimal_triple_bounded (Decimal.sign q) (Decimal.cz q) (Decimal.expo q))
    as Hb1. fold (Float.of_decimal q) in Hb1.
  pose proof (rounds_to_numeral _ _ (of_decimal_rounds q) Hfin1) as H1.
  apply Qabs_Qle_condition in H1 as [H1a H1b].
  pose proof (Qle_Qabs (Decimal.to_Q q)) as Bq1.
  pose proof (Qle_Qabs (- Decimal.to_Q q)) as Bq2. rewrite Qabs_opp in Bq2.
  set (v1 := Spec.float_value (Float.of_decimal q)) in *.
  assert (Hv1 : (Qabs (v1 * 100) <= 200 * B)%Q) by (apply Qabs_case; intros; lra).
  (* the product *)
  destruct hundred_value as [Hfin100 H100].
  assert (Hfin2 : Spec.isfinite (Float.mul (Float.of_decimal q) (Float.of_Z 100)) = true).
  { apply (mul_finite_small _ _ (Float.emax - Float.prec) (-46));
      [exact Hfin1 | exact Hfin100 | exact Hb1 | exact hundred_exponent | reflexivity |].
    fold v1. rewrite H100. lra. }
  pose proof (rounds_to_numeral _ _ (mul_rounds _ _ Hfin1 Hfin100) Hfin2) as H2.
  fold v1 in H2. rewrite H100 in H2.
  apply Qabs_Qle_condition in H2 as [H2a H2b].
  pose proof (Qle_Qabs (v1 * 100)) as Bv1.
  pose proof (Qle_Qabs (- (v1 * 100))) as Bv2. rewrite Qabs_opp in Bv2.
  set (f2 := Float.mul (Float.of_decimal q) (Float.of_Z 100)) in *.
  (* the rounding to two places *)
  destruct (FloatFacts.round_two_places f2) as [-> | (z & Hz & Hc & ->)]; [exact Hfin2 |].
  apply of_decimal_triple_finite; [exact Hz |].
  rewrite signed_sgn in Hc. change (DecimalFacts.q10 (-2)) with (1 # 100)%Q.
  pose proof (inject_Z_nonneg z Hz) as Hz0.
  apply Qabs_Qle_condition in Hc as [Hca Hcb].
  unfold sgn in Hca, Hcb. destruct (Float.sign_bit f2); lra.
Qed.

(** The growth percentage of a year is finite when the percentage is at
    most [10^300] in magnitude. *)
Lemma growth_finite (year_interest year_start_balance q : Decimal.t) :
  Decimal.div year_interest year_start_balance = Ok q ->
  (Qabs (Spec.growth_percentage year_interest year_start_balance) <= inject_Z (10 ^ 300))%Q ->
  Spec.isfinite (Float.round (Float.mul (Float.of_decimal q) (Float.of_Z 100)) 2) = true.
Proof.
  intros H Hsmall. unfold Spec.growth_percentage in Hsmall.
  eapply float_percentage_finite; [apply quotient_numeral; exact H | exact Hsmall].
Qed.

End BinaryFacts.

(* ================================================================== *)
(** * Facts about the frequency parser *)
(* ================================================================== *)

Module UtilsFacts.

Import Utils.
Local Open Scope string_scope.

Lemma append_assoc (a b c : string) : (a ++ b) ++ c = a ++ b ++ c.
Proof. induction a as [|x a IH]; cbn; [reflexivity | now rewrite IH]. Qed.

Lemma occurs_in_context (needle s before after : string) :
  Str.occurs_in needle s -> Str.occurs_in needle (before ++ s ++ after).
Proof.
  intros (pre & post & ->). exists (before ++ pre), (post ++ after).
  now rewrite !append_assoc.
Qed.

(** A key is absent from the dict exactly when the lookup fails. *)
Lemma lookup_None (key : string) (d : list (string * Z)) :
  lookup key d = None <-> ~ In key (keys d).
Proof.
  induction d as [|[k v] d IH]; cbn [lookup keys map fst In].
  - tauto.
  - destruct (String.eqb_spec key k) as [->|Hne].
    + split; [discriminate | intros H; exfalso; apply H; now left].
    + rewrite IH. unfold keys. split.
      * intros H [Heq|Hin]; [now apply Hne | now apply H].
      * intros H Hin. apply H. now right.
Qed.

(** The error message names every key of FREQUENCY_MAP. *)
Lemma message_lists_names (value name : string) :
  In name (keys FREQUENCY_MAP) -> Str.occurs_in name (invalid_frequency_message value).
Proof.
  intros Hin. unfold invalid_frequency_message.
  change ("Invalid frequency '" ++ value ++ "'. Use: "
          ++ Str.join ", " (keys FREQUENCY_MAP) ++ " or an integer.")
    with ("Invalid frequency '"
          ++ (value ++ "'. Use: " ++ Str.join ", " (keys FREQUENCY_MAP) ++ " or an integer.")).
  assert (Hvalid : Str.occurs_in name (Str.join ", " (keys FREQUENCY_MAP))).
  { cbn in Hin. unfold Str.occurs_in.
    repeat (destruct Hin as [<- | Hin];
            [ first
                [ exists "", ", weekly, biweekly, monthly, quarterly, semiannually, annually, yearly"; reflexivity
                | exists "daily, ", ", biweekly, monthly, quarterly, semiannually, annually, yearly"; reflexivity
                | exists "daily, weekly, ", ", monthly, quarterly, semiannually, annually, yearly"; reflexivity
                | exists "daily, weekly, biweekly, ", ", quarterly, semiannually, annually, yearly"; reflexivity
                | exists "daily, weekly, biweekly, monthly, ", ", semiannually, annually, yearly"; reflexivity
                | exists "daily, weekly, biweekly, monthly, quarterly, ", ", annually, yearly"; reflexivity
                | exists "daily, weekly, biweekly, monthly, quarterly, semiannually, ", ", yearly"; reflexivity
                | exists "daily, weekly, biweekly, monthly, quarterly, semiannually, annually, ", ""; reflexivity ]
            | ]).
    contradiction. }
  destruct Hvalid as (pre & post & Hvalid). rewrite Hvalid.
  exists ("Invalid frequency '" ++ value ++ "'. Use: " ++ pre), (post ++ " or an integer.").
  now rewrite !append_assoc.
Qed.

(** The three ways [parse_frequency] ends on a string. *)
Lemma parse_frequency_cases (s : string) :
  let v := Str.lower (Str.strip s) in
  match lookup v FREQUENCY_MAP, py_int v with
  | Some n, _ => parse_frequency (FreqStr s) = Ok n
  | None, Some n => parse_frequency (FreqStr s) = Ok n
  | None, None => parse_frequency (FreqStr s) = Raise (ValueError (invalid_frequency_message v))
  end.
Proof.
  cbv zeta. unfold parse_frequency.
  destruct (lookup (Str.lower (Str.strip s)) FREQUENCY_MAP); [reflexivity |].
  destruct (py_int (Str.lower (Str.strip s))); reflexivity.
Qed.

(** ** Integers written in decimal are read back *)

Lemma all_chars_app (p : ascii -> bool) (a b : string) :
  Str.all_chars p (a ++ b) = Str.all_chars p a && Str.all_chars p b.
Proof.
  induction a as [|c a IH]; cbn; [reflexivity |]. now rewrite IH, andb_assoc.
Qed.

Lemma rev_acc_app (s acc : string) : Str.rev_acc s acc = Str.rev s ++ acc.
Proof.
  unfold Str.rev. revert acc. induction s as [|c s IH]; intros acc; cbn [Str.rev_acc].
  - reflexivity.
  - rewrite IH, (IH (String c "")), append_assoc. reflexivity.
Qed.

Lemma rev_cons (c : ascii) (s : string) : Str.rev (String c s) = Str.rev s ++ String c "".
Proof. unfold Str.rev at 1. cbn [Str.rev_acc]. apply rev_acc_app. Qed.

Lemma append_nil_r (s : string) : s ++ "" = s.
Proof. induction s as [|c s IH]; cbn; [reflexivity | now rewrite IH]. Qed.

Lemma rev_app (a b : string) : Str.rev (a ++ b) = Str.rev b ++ Str.rev a.
Proof.
  induction a as [|c a IH].
  - change (Str.rev "") with "". now rewrite append_nil_r.
  - cbn [append]. rewrite !rev_cons, IH, append_assoc. reflexivity.
Qed.

Lemma rev_involutive (s : string) : Str.rev (Str.rev s) = s.
Proof.
  induction s as [|c s IH]; [reflexivity |].
  rewrite rev_cons, rev_app, IH. reflexivity.
Qed.

Lemma all_chars_rev (p : ascii -> bool) (s : string) :
  Str.all_chars p (Str.rev s) = Str.all_chars p s.
Proof.
  induction s as [|c s IH]; [reflexivity |].
  rewrite rev_cons, all_chars_app, IH. cbn. rewrite andb_true_r, andb_comm. reflexivity.
Qed.

Lemma lstrip_no_space (s : string) :
  Str.all_chars (fun c => negb (Str.is_space c)) s = true -> Str.lstrip s = s.
Proof.
  destruct s as [|c s]; [reflexivity |]. cbn. intros H.
  apply andb_prop in H as [H _]. apply negb_true_iff in H. now rewrite H.
Qed.

(** A string without white space is its own [strip]. *)
Lemma strip_no_space (s : string) :
  Str.all_chars (fun c => negb (Str.is_space c)) s = true -> Str.strip s = s.
Proof.
  intros H. unfold Str.strip, Str.rstrip.
  rewrite (lstrip_no_space s H), lstrip_no_space by now rewrite all_chars_rev.
  apply rev_involutive.
Qed.

Lemma lower_fixed (s : string) :
  Str.all_chars (fun c => Ascii.eqb (Str.lower_char c) c) s = true -> Str.lower s = s.
Proof.
  induction s as [|c s IH]; [reflexivity |]. cbn. intros H.
  apply andb_prop in H as [Hc H]. apply Ascii.eqb_eq in Hc. now rewrite Hc, IH.
Qed.

Lemma all_chars_weaken (p q : ascii -> bool) (s : string) :
  (forall c, p c = true -> q c = true) -> Str.all_chars p s = true -> Str.all_chars q s = true.
Proof.
  intros Hpq. induction s as [|c s IH]; [reflexivity |]. cbn. intros H.
  apply andb_prop in H as [Hc H]. now rewrite (Hpq c Hc), IH.
Qed.

Lemma digit_char_is_digit (d : Z) : 0 <= d <= 9 -> Str.is_digit (Str.digit_char d) = true.
Proof.
  intros H. assert (d = 0 \/ d = 1 \/ d = 2 \/ d = 3 \/ d = 4 \/ d = 5 \/ d = 6 \/ d = 7 \/ d = 8 \/ d = 9) as Hd by lia.
  repeat (destruct Hd as [-> | Hd]; [reflexivity |]). subst d. reflexivity.
Qed.

Lemma digit_char_value (d : Z) : 0 <= d <= 9 -> Str.digit_value (Str.digit_char d) = d.
Proof.
  intros H. assert (d = 0 \/ d = 1 \/ d = 2 \/ d = 3 \/ d = 4 \/ d = 5 \/ d = 6 \/ d = 7 \/ d = 8 \/ d = 9) as Hd by lia.
  repeat (destruct Hd as [-> | Hd]; [reflexivity |]). subst d. reflexivity.
Qed.

(** The numeral of a non-negative integer: digits only, at least one, and
    they denote the integer. *)
Lemma digits_value_app (s1 s2 : string) (x : Z) :
  Str.digits_value_acc (s1 ++ s2) x = Str.digits_value_acc s2 (Str.digits_value_acc s1 x).
Proof. revert x; induction s1 as [|c s1 IH]; intros x; cbn; [reflexivity | apply IH]. Qed.

Lemma length_app (s1 s2 : string) :
  String.length (s1 ++ s2) = (String.length s1 + String.length s2)%nat.
Proof. induction s1 as [|c s1 IH]; cbn; [reflexivity | now rewrite IH]. Qed.

Lemma of_nonneg_aux_spec (fuel : nat) :
  forall n acc, 0 <= n < 10 ^ Z.of_nat (S fuel) ->
  exists ds,
    Str.of_nonneg_aux (S fuel) n acc = ds ++ acc
    /\ ds <> ""
    /\ Str.all_chars Str.is_digit ds = true
    /\ forall a, Str.digits_value_acc ds a = a * 10 ^ Z.of_nat (String.length ds) + n.
Proof.
  assert (Hone : forall n acc, 0 <= n < 10 ->
            exists ds,
              String (Str.digit_char (n mod 10)) acc = ds ++ acc
              /\ ds <> ""
              /\ Str.all_chars Str.is_digit ds = true
              /\ forall a, Str.digits_value_acc ds a
                           = a * 10 ^ Z.of_nat (String.length ds) + n).
  { intros n acc Hs. exists (String (Str.digit_char (n mod 10)) "").
    rewrite Z.mod_small by lia.
    repeat split; [discriminate | cbn; now rewrite digit_char_is_digit by lia |].
    intros a. cbn [Str.digits_value_acc String.length].
    change (10 ^ Z.of_nat 1) with 10. rewrite digit_char_value by lia. lia. }
  induction fuel as [|f IH]; intros n acc Hn.
  - cbn [Str.of_nonneg_aux]. change (10 ^ Z.of_nat 1) with 10 in Hn.
    destruct (Z.ltb_spec n 10); [| lia]. now apply Hone.
  - remember (S f) as f1 eqn:Hf1. cbn [Str.of_nonneg_aux].
    pose proof (Z.mod_pos_bound n 10 ltac:(lia)) as Hm.
    pose proof (Z.div_mod n 10 ltac:(lia)) as Hdm.
    destruct (Z.ltb_spec n 10) as [Hs|Hs]; [apply Hone; lia |].
    destruct (IH (n / 10) (String (Str.digit_char (n mod 10)) acc))
      as (ds & Hds & Hne & Hall & Hval).
    { split; [apply Z.div_pos; lia |]. apply Z.div_lt_upper_bound; [lia |].
      rewrite (Nat2Z.inj_succ f1), <- Z.add_1_r, Z.pow_add_r in Hn by lia.
      change (10 ^ 1) with 10 in Hn. lia. }
    exists (ds ++ String (Str.digit_char (n mod 10)) "").
    rewrite Hds, append_assoc.
    repeat split.
    + destruct ds; [contradiction | discriminate].
    + rewrite all_chars_app, Hall. cbn. now rewrite digit_char_is_digit by lia.
    + intros a.
      rewrite digits_value_app, Hval, length_app. cbn [Str.digits_value_acc String.length].
      rewrite digit_char_value by lia.
      rewrite Nat2Z.inj_add, Z.pow_add_r by lia. change (10 ^ Z.of_nat 1) with 10. lia.
Qed.

Lemma of_nonneg_spec (n : Z) :
  0 <= n ->
  exists ds,
    Str.of_nonneg n = ds /\ ds <> "" /\ Str.all_chars Str.is_digit ds = true
    /\ Str.digits_value_acc ds 0 = n.
Proof.
  intros Hn. unfold Str.of_nonneg.
  destruct (of_nonneg_aux_spec (Z.to_nat (Z.log2 n)) n "") as (ds & Hds & Hne & Hall & Hval).
  - split; [exact Hn |].
    rewrite Nat2Z.inj_succ, Z2Nat.id by apply Z.log2_nonneg.
    destruct (Z.eq_dec n 0) as [->|Hnz]; [reflexivity |].
    pose proof (Z.log2_spec n ltac:(lia)) as [_ Hlt].
    eapply Z.lt_le_trans; [exact Hlt |].
    apply Z.pow_le_mono_l. pose proof (Z.log2_nonneg n). lia.
  - exists ds. rewrite Hds.
    rewrite append_nil_r. repeat split; try assumption. rewrite Hval. lia.
Qed.

(** [int] reads a numeral of digits back. *)
Lemma int_digits_all (ds : string) :
  Str.all_chars Str.is_digit ds = true ->
  forall prev a, (ds <> "" \/ prev = true) ->
  int_digits ds prev a = Some (Str.digits_value_acc ds a).
Proof.
  induction ds as [|c ds IH]; intros Hall prev a Hne.
  - destruct Hne as [Hne | ->]; [contradiction | reflexivity].
  - cbn in Hall. apply andb_prop in Hall as [Hc Hall].
    cbn [int_digits Str.digits_value_acc]. rewrite Hc. apply IH; [exact Hall | now right].
Qed.

Definition numeral_char (c : ascii) : bool := Str.is_digit c || Ascii.eqb c "-".

Lemma numeral_char_props (c : ascii) :
  numeral_char c = true ->
  negb (Str.is_space c) = true /\ Ascii.eqb (Str.lower_char c) c = true.
Proof.
  destruct c as [b0 b1 b2 b3 b4 b5 b6 b7].
  destruct b0, b1, b2, b3, b4, b5, b6, b7; intros H;
    try discriminate H; split; reflexivity.
Qed.

Lemma lookup_numeral (c : ascii) (r : string) :
  numeral_char c = true -> lookup (String c r) FREQUENCY_MAP = None.
Proof.
  destruct c as [b0 b1 b2 b3 b4 b5 b6 b7].
  destruct b0, b1, b2, b3, b4, b5, b6, b7; intros H;
    try discriminate H; reflexivity.
Qed.

Lemma digit_is_no_sign (c : ascii) :
  Str.is_digit c = true -> c <> "-"%char /\ c <> "+"%char.
Proof.
  intros H. split; intros ->; discriminate H.
Qed.

(** The numeral of an integer: a sign for a negative one, then digits. *)
Lemma of_int_spec (n : Z) :
  exists ds,
    Str.of_int n = (if (n <? 0)%Z then "-" else "") ++ ds
    /\ ds <> "" /\ Str.all_chars Str.is_digit ds = true
    /\ Str.digits_value_acc ds 0 = Z.abs n.
Proof.
  unfold Str.of_int. destruct (Z.ltb_spec n 0) as [Hneg|Hpos].
  - destruct (of_nonneg_spec (- n) ltac:(lia)) as (ds & -> & Hne & Hall & Hval).
    exists ds. repeat split; try assumption. rewrite Hval. lia.
  - destruct (of_nonneg_spec n Hpos) as (ds & -> & Hne & Hall & Hval).
    exists ds. repeat split; try assumption. rewrite Hval. lia.
Qed.

Lemma of_int_numeral (n : Z) : Str.all_chars numeral_char (Str.of_int n) = true.
Proof.
  destruct (of_int_spec n) as (ds & -> & _ & Hall & _).
  rewrite all_chars_app.
  rewrite (all_chars_weaken Str.is_digit numeral_char ds); [| | exact Hall].
  - destruct (n <? 0)%Z; reflexivity.
  - intros c Hc. unfold numeral_char. now rewrite Hc.
Qed.

Lemma of_int_fixed (n : Z) : Str.lower (Str.strip (Str.of_int n)) = Str.of_int n.
Proof.
  pose proof (of_int_numeral n) as H.
  rewrite strip_no_space, lower_fixed; [reflexivity | |].
  - eapply all_chars_weaken; [| exact H]. intros c Hc. now apply numeral_char_props.
  - eapply all_chars_weaken; [| exact H]. intros c Hc. now apply numeral_char_props.
Qed.

(** [int(str(n)) == n] *)
Lemma py_int_of_int (n : Z) : py_int (Str.of_int n) = Some n.
Proof.
  unfold py_int. rewrite strip_no_space.
  2:{ eapply all_chars_weaken; [| apply of_int_numeral].
      intros c Hc. now apply numeral_char_props. }
  destruct (of_int_spec n) as (ds & -> & Hne & Hall & Hval).
  destruct (Z.ltb_spec n 0) as [Hneg|Hpos].
  - cbn [append]. rewrite int_digits_all by (auto). f_equal. lia.
  - cbn [append]. destruct ds as [|c ds]; [contradiction |].
    pose proof Hall as Hall'. cbn in Hall'. apply andb_prop in Hall' as [Hc _].
    destruct (digit_is_no_sign c Hc) as [Hm Hp].
    assert (Hbody : (let '(neg, body) :=
               match String c ds with
               | String "-" r => (true, r)
               | String "+" r => (false, r)
               | _ => (false, String c ds)
               end in
             match int_digits body false 0 with
             | Some n0 => Some (if neg then - n0 else n0)
             | None => None
             end) = Some n); [| exact Hbody].
    destruct c as [b0 b1 b2 b3 b4 b5 b6 b7].
    destruct b0, b1, b2, b3, b4, b5, b6, b7; try discriminate Hc;
      (rewrite int_digits_all by auto; f_equal; lia).
Qed.

(** An integer written in decimal is returned as it is. *)
Lemma parse_frequency_of_int (n : Z) : parse_frequency (FreqStr (Str.of_int n)) = Ok n.
Proof.
  unfold parse_frequency. rewrite of_int_fixed.
  assert (Hlookup : lookup (Str.of_int n) FREQUENCY_MAP = None).
  { pose proof (of_int_numeral n) as H.
    destruct (of_int_spec n) as (ds & Heq & Hne & _).
    destruct (Str.of_int n) as [|c r].
    - destruct (n <? 0)%Z; [discriminate Heq |]. cbn in Heq. now subst ds.
    - cbn in H. apply andb_prop in H as [Hc _]. now apply lookup_numeral. }
  rewrite Hlookup, py_int_of_int. reflexivity.
Qed.

End UtilsFacts.
(* ================================================================== *)
(** * Properties of the projection result *)
(* ================================================================== *)

Import Calculator.

(** C1 (as amended).  With no contribution, the [final_amount] of the
    result equals [P * (1 + r/n)^(n*Y)] within half a cent plus the
    rounding error of the 28-digit Decimal arithmetic, which is at most
    [(|P| + t) * (1 + |r/n| + t)^(n*Y) * ((1 + 1E-27)^(4*n*Y) - 1)] with
    [t = 1E-999999]; and it is within half a cent when no Decimal operation
    on the balance is rounded: the division [rate / compound_freq] and the
    product and the sum of each of the [n * Y] periods are exact. *)
Theorem C1_closed_form_up_to_rounding
    (libm : Platform) (P r : Decimal.t) (Y n : Z) (c : Decimal.t) (cf : Z)
    (res : ProjectionResult) :
  1 <= Y -> 1 <= n ->
  Decimal.cz c = 0 ->
  calculate_compound_interest libm P r Y n c cf = Ok res ->
  (Qabs (Decimal.to_Q (final_amount res)
         - Spec.compound_formula (Decimal.to_Q P) (Decimal.to_Q r) n Y)
   <= (1 # 200) + Spec.rounding_drift (Decimal.to_Q P) (Decimal.to_Q r) n Y)%Q
  /\ (Spec.balance_path_exact P r Y n = true ->
      (Qabs (Decimal.to_Q (final_amount res)
             - Spec.compound_formula (Decimal.to_Q P) (Decimal.to_Q r) n Y)
       <= 1 # 200)%Q).
Proof.
  intros HY Hn Hc H.
  apply EngineFacts.calculate_inv in H as (pr & s & Hdiv & Hloop & Hfa & _).
  apply (GrowthFacts.years_grow pr c n cf Hc) in Hloop.
  rewrite range_length in Hloop. cbn [y_balance] in Hloop.
  replace (Z.to_nat (Y + 1 - 1) * Z.to_nat n)%nat with (Z.to_nat (n * Y)) in Hloop
    by (rewrite Z2Nat.inj_mul by lia; replace (Y + 1 - 1) with Y by lia; lia).
  apply GrowthFacts.round_currency_close in Hfa.
  unfold Spec.compound_formula. split.
  - pose proof (RoundingFacts.balance_drift r pr P _ n (n * Y) ltac:(nia) Hdiv Hloop)
      as Hdrift.
    fold (Spec.rounding_drift (Decimal.to_Q P) (Decimal.to_Q r) n Y) in Hdrift.
    eapply Qle_trans; [apply (RoundingFacts.abs_triangle3 _ (Decimal.to_Q (y_balance s))) |].
    lra.
  - intros Hex. unfold Spec.balance_path_exact in Hex. rewrite Hdiv in Hex.
    apply andb_prop in Hex as [Hpr Hgrow]. apply Qeq_bool_eq in Hpr.
    pose proof (GrowthFacts.grow_value pr _ _ _ Hgrow Hloop) as Hval.
    rewrite Z2Nat.id in Hval by nia.
    rewrite <- Hpr, <- Hval. exact Hfa.
Qed.

(** A run of C1 where nothing is rounded: 100 at 4%, compounded twice a
    year for two years. *)
Lemma C1_witness :
  exists res,
    calculate_compound_interest RefPlatform.libm
      (Decimal.mk false 100 0) (Decimal.mk false 4 (-2)) 2 2
      (Decimal.mk false 0 0) 12 = Ok res
    /\ final_amount res = Decimal.mk false 10824 (-2)
    /\ (Qabs (Decimal.to_Q (final_amount res)
              - Spec.compound_formula (Decimal.to_Q (Decimal.mk false 100 0))
                  (Decimal.to_Q (Decimal.mk false 4 (-2))) 2 2) <= 1 # 200)%Q.
Proof.
  eexists. split; [vm_compute; reflexivity |].
  split; [reflexivity |].
  destruct (C1_closed_form_up_to_rounding RefPlatform.libm
              (Decimal.mk false 100 0) (Decimal.mk false 4 (-2)) 2 2
              (Decimal.mk false 0 0) 12 _
              ltac:(lia) ltac:(lia) eq_refl ltac:(vm_compute; reflexivity))
    as [_ Hexact].
  apply Hexact. vm_compute. reflexivity.
Defined.

(** C1 as stated fails.  Principal 1.004999999999998995, rate 1E-15, one
    year compounded once: the exact sum has 34 digits and the context
    rounds it to 1.005000000000000000000000000, which rounds half-up to
    1.01, while [P * (1 + r)] is 1.004999999999999999999999999998995:
    the two are more than half a cent apart. *)
Lemma C1_counterexample :
  exists res,
    calculate_compound_interest RefPlatform.libm
      (Decimal.mk false 1004999999999998995 (-18)) (Decimal.mk false 1 (-15)) 1 1
      (Decimal.mk false 0 0) 12 = Ok res
    /\ final_amount res = Decimal.mk false 101 (-2)
    /\ ~ (Qabs (Decimal.to_Q (final_amount res)
                - Spec.compound_formula
                    (Decimal.to_Q (Decimal.mk false 1004999999999998995 (-18)))
                    (Decimal.to_Q (Decimal.mk false 1 (-15))) 1 1) <= 1 # 200)%Q.
Proof.
  eexists. split; [vm_compute; reflexivity |].
  split; [reflexivity |].
  vm_compute. intros H. apply H. reflexivity.
Qed.

(** The same on an amount in cents: 55,555,555,555,555,555,555,555,555.55
    at 7% compounded monthly for one year ends 0.64 cent away from the
    closed form. *)
Example closed_form_missed_on_a_large_principal :
  exists res,
    calculate_compound_interest RefPlatform.libm
      (Decimal.mk false 5555555555555555555555555555 (-2)) (Decimal.mk false 7 (-2)) 1 12
      (Decimal.mk false 0 0) 12 = Ok res
    /\ ~ (Qabs (Decimal.to_Q (final_amount res)
                - Spec.compound_formula
                    (Decimal.to_Q (Decimal.mk false 5555555555555555555555555555 (-2)))
                    (Decimal.to_Q (Decimal.mk false 7 (-2))) 12 1) <= 1 # 200)%Q.
Proof.
  eexists. split; [vm_compute; reflexivity |].
  vm_compute. intros H. apply H. reflexivity.
Qed.

(** C2.  For every valid input (years >= 1, frequencies >= 1), the
    [yearly_breakdown] of the result [calculate_compound_interest] returns
    has exactly [years] snapshots, and their [year] fields are 1, 2, ...,
    [years] in this order. *)
Theorem C2_breakdown_covers_the_years
    (libm : Platform) (P r : Decimal.t) (Y n : Z) (c : Decimal.t) (cf : Z)
    (res : ProjectionResult) :
  1 <= Y -> 1 <= n -> 1 <= cf ->
  calculate_compound_interest libm P r Y n c cf = Ok res ->
  Z.of_nat (List.length (yearly_breakdown res)) = Y
  /\ map year (yearly_breakdown res) = map Z.of_nat (seq 1 (Z.to_nat Y)).
Proof.
  intros HY _ _ H.
  apply EngineFacts.calculate_inv in H as (pr & s & _ & Hloop & _ & _ & _ & Hbd).
  apply EngineFacts.years_appended in Hloop. simpl in Hloop.
  rewrite range_from_one in Hloop. rewrite Hbd.
  split; [| exact Hloop].
  rewrite <- (length_map year), Hloop, length_map, length_seq. lia.
Qed.

(** A run of C2: 2500.00 at 4% for three years, compounded quarterly. *)
Lemma C2_witness :
  exists res,
    calculate_compound_interest RefPlatform.libm
      (Decimal.mk false 250000 (-2)) (Decimal.mk false 4 (-2)) 3 4
      (Decimal.mk false 0 0) 12 = Ok res
    /\ Z.of_nat (List.length (yearly_breakdown res)) = 3
    /\ map year (yearly_breakdown res) = map Z.of_nat (seq 1 (Z.to_nat 3)).
Proof.
  eexists. split.
  - vm_compute. reflexivity.
  - apply (C2_breakdown_covers_the_years RefPlatform.libm
             (Decimal.mk false 250000 (-2)) (Decimal.mk false 4 (-2)) 3 4
             (Decimal.mk false 0 0) 12); [lia | lia | lia | vm_compute; reflexivity].
Defined.

(** C3.  For every valid input, [final_amount] is the [balance] of the
    last snapshot of [yearly_breakdown] and [total_interest] is its
    [cumulative_interest]. *)
Theorem C3_summary_matches_last_snapshot
    (libm : Platform) (P r : Decimal.t) (Y n : Z) (c : Decimal.t) (cf : Z)
    (res : ProjectionResult) :
  1 <= Y -> 1 <= n -> 1 <= cf ->
  calculate_compound_interest libm P r Y n c cf = Ok res ->
  exists earlier snap,
    yearly_breakdown res = (earlier ++ [snap])%list
    /\ final_amount res = balance snap
    /\ total_interest res = cumulative_interest snap.
Proof.
  intros HY _ _ H.
  apply EngineFacts.calculate_inv in H as (pr & s & _ & Hloop & Hfa & Hti & _ & Hbd).
  apply EngineFacts.last_snapshot in Hloop as (earlier & snap & Hb & Hrb & Hrc).
  - exists earlier, snap. rewrite Hbd. split; [exact Hb |].
    rewrite Hrb in Hfa. rewrite Hrc in Hti.
    injection Hfa as <-. injection Hti as <-. split; reflexivity.
  - intros Hnil. apply (f_equal (@List.length Z)) in Hnil.
    rewrite range_length in Hnil. simpl in Hnil. lia.
Qed.

(** A run of C3: 2500.00 at 4% for three years, compounded quarterly. *)
Lemma C3_witness :
  exists res,
    calculate_compound_interest RefPlatform.libm
      (Decimal.mk false 250000 (-2)) (Decimal.mk false 4 (-2)) 3 4
      (Decimal.mk false 0 0) 12 = Ok res
    /\ exists earlier snap,
         yearly_breakdown res = (earlier ++ [snap])%list
         /\ final_amount res = balance snap
         /\ total_interest res = cumulative_interest snap.
Proof.
  eexists. split.
  - vm_compute. reflexivity.
  - apply (C3_summary_matches_last_snapshot RefPlatform.libm
             (Decimal.mk false 250000 (-2)) (Decimal.mk false 4 (-2)) 3 4
             (Decimal.mk false 0 0) 12); [lia | lia | lia | vm_compute; reflexivity].
Defined.

(** C4 (as amended).  For every valid input with a positive contribution:
    each period accrues interest and then, exactly on the periods whose
    1-based index is divisible by [max(1, compound_freq //
    contribution_freq)], adds one contribution to the balance, to the
    contributions of the year and to the running total; when
    [contribution_freq > compound_freq] these are all the periods.
    [total_contributions] is the running total of these additions rounded
    half-up to cents.  With [N] the number of such periods over all years
    and [c] the contribution, it is always within half a cent plus the
    drift of [N] rounded additions of [N * c]; when no addition is rounded
    it is [N * c] rounded half-up to cents, so within half a cent of
    [N * c], and equal to [N * c] when [c] has at most two decimal places.
    No addition is rounded when [N * c], written at the exponent
    [min(e, 0)] of a contribution of exponent [e], has at most 28 digits. *)
Theorem C4_contribution_policy
    (libm : Platform) (P r : Decimal.t) (Y n : Z) (c : Decimal.t) (cf : Z) :
  1 <= Y -> 1 <= n -> 1 <= cf ->
  Decimal.gtb c (Decimal.of_int 0) = true ->
  (forall pr s period s',
      period_body pr c n cf s period = Ok s' ->
      exists interest b1,
        Decimal.mul (p_balance s) pr = Ok interest
        /\ Decimal.add (p_balance s) interest = Ok b1
        /\ Decimal.add (p_year_interest s) interest = Ok (p_year_interest s')
        /\ if Spec.contributes n cf period then
             Decimal.add b1 c = Ok (p_balance s')
             /\ Decimal.add (p_year_contributions s) c = Ok (p_year_contributions s')
             /\ Decimal.add (p_total_contributions s) c = Ok (p_total_contributions s')
           else
             p_balance s' = b1
             /\ p_year_contributions s' = p_year_contributions s
             /\ p_total_contributions s' = p_total_contributions s)
  /\ (n < cf ->
      Spec.periods_per_contribution n cf = 1
      /\ Spec.contribution_periods n cf = range 0 n)
  /\ (forall res,
        calculate_compound_interest libm P r Y n c cf = Ok res ->
        (Qabs (Decimal.to_Q (total_contributions res)
               - inject_Z (Spec.contributions_made Y n cf) * Decimal.to_Q c)
         <= (1 # 200)
            + Spec.summing_drift (Decimal.to_Q c) (Spec.contributions_made Y n cf))%Q
        /\ (Spec.total_path_exact c (Spec.contributions_made Y n cf) = true ->
            (exists total,
                (Decimal.to_Q total
                 == inject_Z (Spec.contributions_made Y n cf) * Decimal.to_Q c)%Q
                /\ _round_currency total = Ok (total_contributions res))
            /\ (Qabs (Decimal.to_Q (total_contributions res)
                      - inject_Z (Spec.contributions_made Y n cf) * Decimal.to_Q c)
                <= 1 # 200)%Q
            /\ (-2 <= Decimal.expo c ->
                (Decimal.to_Q (total_contributions res)
                 == inject_Z (Spec.contributions_made Y n cf) * Decimal.to_Q c)%Q)))
  /\ (Decimal.Etiny <= Decimal.expo c ->
      Spec.contributions_made Y n cf
      * (Decimal.cz c * 10 ^ Z.max 0 (Decimal.expo c)) < 10 ^ Decimal.prec ->
      Spec.total_path_exact c (Spec.contributions_made Y n cf) = true).
Proof.
  intros HY Hn Hcf Hpos.
  destruct (ContributionFacts.positive_contribution _ Hpos) as [Hsign Hcz].
  assert (Hcount : 0 <= Spec.contributions_made Y n cf)
    by (unfold Spec.contributions_made; nia).
  split; [| split; [| split]].
  - intros pr s period s'. now apply ContributionFacts.period_body_inv.
  - intros Hlt. now apply ContributionFacts.every_period_contributes.
  - intros res H.
    destruct (ContributionFacts.total_is_sum libm P r Y n c cf res HY Hn Hcf Hpos H)
      as (total & Hsum & Htc).
    pose proof (GrowthFacts.round_currency_close _ _ Htc) as Hclose.
    split.
    + pose proof (ContributionFacts.total_drift c total _ Hsign Hcount Hsum) as Hd.
      eapply Qle_trans;
        [apply (RoundingFacts.abs_triangle3 _ (Decimal.to_Q total)) |].
      apply Qplus_le_compat; assumption.
    + intros Hex. unfold Spec.total_path_exact in Hex.
      pose proof (ContributionFacts.sum_exact c _ _ _ Hex Hsum) as Hval.
      rewrite (Z2Nat.id _ Hcount) in Hval.
      assert (Hv : (Decimal.to_Q total
                    == inject_Z (Spec.contributions_made Y n cf) * Decimal.to_Q c)%Q).
      { rewrite Hval. change (Decimal.to_Q dec0) with (0 * 1)%Q. ring. }
      split; [| split].
      * exists total. split; [exact Hv | exact Htc].
      * rewrite <- Hv. exact Hclose.
      * intros H2. rewrite <- Hv.
        apply (ContributionFacts.round_currency_of_cents total _
                 (Spec.contributions_made Y n cf
                  * (Decimal.cz c * 10 ^ (Decimal.expo c + 2))));
          [| exact Htc].
        rewrite Hv, (DecimalFacts.to_Q_unfold c), Hsign. unfold DecimalFacts.signed.
        replace (Decimal.expo c) with ((Decimal.expo c + 2) + -2) at 1 by lia.
        rewrite DecimalFacts.q10_add, (DecimalFacts.q10_nonneg (Decimal.expo c + 2)) by lia.
        change (DecimalFacts.q10 (-2)) with (1 # 100)%Q.
        rewrite !inject_Z_mult. ring.
  - intros He Hfit. unfold Spec.total_path_exact.
    change dec0 with (Spec.running_total c 0).
    apply ContributionFacts.fitting_sums_exactly; try assumption; [lia |].
    rewrite (Z2Nat.id _ Hcount), Z.add_0_l. exact Hfit.
Qed.

(** A run of C4: nothing invested, a contribution written [1E+2] each
    month at 5% compounded monthly for five years makes sixty
    contributions, 6000 in all. *)
Lemma C4_witness :
  exists res,
    calculate_compound_interest RefPlatform.libm
      (Decimal.mk false 0 0) (Decimal.mk false 5 (-2)) 5 12
      (Decimal.mk false 1 2) 12 = Ok res
    /\ Spec.contributions_made 5 12 12 = 60
    /\ Spec.total_path_exact (Decimal.mk false 1 2) 60 = true
    /\ (Decimal.to_Q (total_contributions res) == 6000)%Q.
Proof.
  eexists. split; [vm_compute; reflexivity |].
  split; [reflexivity |].
  pose proof (C4_contribution_policy RefPlatform.libm
                (Decimal.mk false 0 0) (Decimal.mk false 5 (-2)) 5 12
                (Decimal.mk false 1 2) 12
                ltac:(lia) ltac:(lia) ltac:(lia) ltac:(reflexivity))
    as (_ & _ & Htotal & Hfits).
  assert (Hex : Spec.total_path_exact (Decimal.mk false 1 2)
                  (Spec.contributions_made 5 12 12) = true).
  { apply Hfits; [cbv; discriminate | reflexivity]. }
  split; [exact Hex |].
  destruct (Htotal _ ltac:(vm_compute; reflexivity)) as (_ & Hexact).
  destruct (Hexact Hex) as (_ & _ & Hequal).
  rewrite Hequal by (cbn; lia). reflexivity.
Defined.

(** C4 as stated fails on the total.  A contribution of 0.001 once a year
    for one year: one contribution is made, and [total_contributions] is
    0.00, not 0.001. *)
Lemma C4_counterexample :
  exists res,
    calculate_compound_interest RefPlatform.libm
      (Decimal.mk false 100 0) (Decimal.mk false 5 (-2)) 1 1
      (Decimal.mk false 1 (-3)) 1 = Ok res
    /\ Spec.contributions_made 1 1 1 = 1
    /\ total_contributions res = Decimal.mk false 0 (-2)
    /\ ~ (Decimal.to_Q (total_contributions res)
          == inject_Z (Spec.contributions_made 1 1 1)
             * Decimal.to_Q (Decimal.mk false 1 (-3)))%Q.
Proof.
  eexists. split; [vm_compute; reflexivity |].
  split; [reflexivity |]. split; [reflexivity |].
  vm_compute. discriminate.
Qed.

(** Nor is the total always the product rounded to cents.  A contribution
    of 29 digits, 1.0049999999999999999999999995, made once: the addition
    to the running total rounds it to 28 digits, 1.005000000000000000000000000,
    and [total_contributions] is 1.01, more than half a cent away from the
    contribution, whose rounding to cents is 1.00. *)
Lemma total_contributions_rounded_twice :
  exists res,
    calculate_compound_interest RefPlatform.libm
      (Decimal.mk false 100 0) (Decimal.mk false 5 (-2)) 1 1
      (Decimal.mk false 10049999999999999999999999995 (-28)) 1 = Ok res
    /\ Spec.contributions_made 1 1 1 = 1
    /\ Spec.total_path_exact (Decimal.mk false 10049999999999999999999999995 (-28)) 1
       = false
    /\ total_contributions res = Decimal.mk false 101 (-2)
    /\ _round_currency (Decimal.mk false 10049999999999999999999999995 (-28))
       = Ok (Decimal.mk false 100 (-2))
    /\ ~ (Qabs (Decimal.to_Q (total_contributions res)
                - inject_Z (Spec.contributions_made 1 1 1)
                  * Decimal.to_Q (Decimal.mk false 10049999999999999999999999995 (-28)))
          <= 1 # 200)%Q.
Proof.
  eexists. split; [vm_compute; reflexivity |].
  split; [reflexivity |]. split; [vm_compute; reflexivity |].
  split; [reflexivity |]. split; [vm_compute; reflexivity |].
  vm_compute. intros H. apply H. reflexivity.
Qed.

(** C7 (as amended).  For every simulated year: when the balance at the
    start of the year is positive, [ytd_growth_pct] is
    [round(float(year_interest / year_start_balance) * 100, 2)], a binary
    float computed from the Decimal quotient; when it is finite, and it is
    whenever the percentage [year_interest / year_start_balance * 100] is
    at most [10^300] in magnitude, it is within half a hundredth, plus a
    relative [2^-51] for the floating point, of that percentage;
    otherwise, that is when the starting balance is zero or negative, it
    is 0.0. *)
Theorem C7_growth_by_start_balance
    (libm : Platform) (P r : Decimal.t) (Y n : Z) (c : Decimal.t) (cf : Z)
    (res : ProjectionResult) (k : Z) :
  0 <= k < Y ->
  calculate_compound_interest libm P r Y n c cf = Ok res ->
  exists pr s p snap,
    Decimal.div r (Decimal.of_int n) = Ok pr
    /\ Spec.state_after_years pr c n cf P k = Ok s
    /\ Spec.year_end pr c n cf s = Ok p
    /\ nth_error (yearly_breakdown res) (Z.to_nat k) = Some snap
    /\ year snap = k + 1
    /\ if Decimal.gtb (y_balance s) (Decimal.of_int 0) then
         (exists q,
             Decimal.div (p_year_interest p) (y_balance s) = Ok q
             /\ ytd_growth_pct snap
                = Float.round (Float.mul (Float.of_decimal q) (Float.of_Z 100)) 2)
         /\ (Spec.isfinite (ytd_growth_pct snap) = true ->
             (Qabs (Spec.float_value (ytd_growth_pct snap)
                    - Spec.growth_percentage (p_year_interest p) (y_balance s))
              <= (1 # 200)
                 + Spec.float_drift
                     (Spec.growth_percentage (p_year_interest p) (y_balance s)))%Q)
         /\ ((Qabs (Spec.growth_percentage (p_year_interest p) (y_balance s))
              <= inject_Z (10 ^ 300))%Q ->
             Spec.isfinite (ytd_growth_pct snap) = true)
       else ytd_growth_pct snap = S754_zero false.
Proof.
  intros Hk H.
  apply EngineFacts.calculate_inv in H as (pr & s & Hdiv & Hloop & _ & _ & _ & Hbd).
  destruct (EngineFacts.year_of_run pr c n cf Y k _ _ Hloop eq_refl Hk)
    as (sk & sk1 & snap & Hsk & Hyear & Hb & Hnth).
  destruct (EngineFacts.year_body_growth pr c n cf _ _ _ Hyear)
    as (p & snap' & Hp & Hb' & Hy & Hg).
  rewrite Hb in Hb'. apply app_inj_tail in Hb' as [_ <-].
  exists pr, sk, p, snap. rewrite Hbd.
  do 5 (split; [assumption |]).
  destruct (Decimal.gtb (y_balance sk) (Decimal.of_int 0)); [| exact Hg].
  destruct Hg as (q & Hq & Hytd).
  split; [exists q; split; assumption |]. split.
  - intros Hfin. rewrite Hytd in Hfin |- *.
    now apply BinaryFacts.growth_close.
  - intros Hsmall. rewrite Hytd.
    now apply (BinaryFacts.growth_finite (p_year_interest p) (y_balance sk)).
Qed.

(** A run of C7: the second year of 100 at 10%, compounded yearly, grows
    by 10 percent. *)
Lemma C7_witness :
  exists res snap,
    calculate_compound_interest RefPlatform.libm
      (Decimal.mk false 100 0) (Decimal.mk false 1 (-1)) 2 1
      (Decimal.mk false 0 0) 12 = Ok res
    /\ nth_error (yearly_breakdown res) 1 = Some snap
    /\ ytd_growth_pct snap = Float.of_Z 10.
Proof.
  eexists. eexists. split; [vm_compute; reflexivity |].
  split; [vm_compute; reflexivity |].
  destruct (C7_growth_by_start_balance RefPlatform.libm
              (Decimal.mk false 100 0) (Decimal.mk false 1 (-1)) 2 1
              (Decimal.mk false 0 0) 12 _ 1 ltac:(lia) ltac:(vm_compute; reflexivity))
    as (pr & s & p & snap & _ & _ & _ & Hnth & _ & _).
  vm_compute in Hnth. injection Hnth as <-. vm_compute. reflexivity.
Defined.

(** C7 as stated fails on the guard.  100 at -200% compounded yearly for
    two years: the second year starts from -100 and earns 200, so the
    growth percentage is -200, but the snapshot holds 0.0, although the
    starting balance is not zero. *)
Lemma C7_counterexample :
  exists res s p snap,
    calculate_compound_interest RefPlatform.libm
      (Decimal.mk false 100 0) (Decimal.mk true 2 0) 2 1
      (Decimal.mk false 0 0) 12 = Ok res
    /\ Spec.state_after_years (Decimal.mk true 2 0) (Decimal.mk false 0 0) 1 12
         (Decimal.mk false 100 0) 1 = Ok s
    /\ Spec.year_end (Decimal.mk true 2 0) (Decimal.mk false 0 0) 1 12 s = Ok p
    /\ nth_error (yearly_breakdown res) 1 = Some snap
    /\ y_balance s = Decimal.mk true 100 0
    /\ p_year_interest p = Decimal.mk false 200 0
    /\ (Spec.growth_percentage (p_year_interest p) (y_balance s) == - (200))%Q
    /\ ytd_growth_pct snap = S754_zero false.
Proof.
  do 4 eexists.
  split; [vm_compute; reflexivity |].
  split; [vm_compute; reflexivity |].
  split; [vm_compute; reflexivity |].
  repeat split; vm_compute; reflexivity.
Qed.

(** Nor is the stored value always the percentage rounded to 2 decimal
    places.  1000 at 1.015% compounded yearly: the year earns 10.15, the
    percentage is 1.015, which rounds to 1.02 (half-even and half-up
    alike), but the float nearest to [float(0.01015) * 100] is below 1.015
    and the snapshot holds 1.01. *)
Lemma growth_rounded_in_binary :
  exists res s p snap,
    calculate_compound_interest RefPlatform.libm
      (Decimal.mk false 1000 0) (Decimal.mk false 1015 (-5)) 1 1
      (Decimal.mk false 0 0) 12 = Ok res
    /\ Spec.state_after_years (Decimal.mk false 1015 (-5)) (Decimal.mk false 0 0) 1 12
         (Decimal.mk false 1000 0) 0 = Ok s
    /\ Spec.year_end (Decimal.mk false 1015 (-5)) (Decimal.mk false 0 0) 1 12 s = Ok p
    /\ nth_error (yearly_breakdown res) 0 = Some snap
    /\ (Spec.growth_percentage (p_year_interest p) (y_balance s) == 203 # 200)%Q
    /\ Spec.decimal_percentage (p_year_interest p) (y_balance s) Decimal.ROUND_HALF_EVEN
       = Ok (Decimal.mk false 102 (-2))
    /\ Spec.decimal_percentage (p_year_interest p) (y_balance s) Decimal.ROUND_HALF_UP
       = Ok (Decimal.mk false 102 (-2))
    /\ ytd_growth_pct snap = Float.of_decimal (Decimal.mk false 101 (-2))
    /\ Float.eqb (ytd_growth_pct snap) (Float.of_decimal (Decimal.mk false 102 (-2)))
       = false.
Proof.
  do 4 eexists.
  split; [vm_compute; reflexivity |].
  split; [vm_compute; reflexivity |].
  split; [vm_compute; reflexivity |].
  repeat split; vm_compute; reflexivity.
Qed.

(** C6.  For every rate r <= 0, whatever the compounding frequency,
    [calculate_doubling_time] returns positive infinity. *)
Theorem C6_never_doubles_without_growth
    (libm : Platform) (rate : Decimal.t) (n : Z) :
  Decimal.leb rate (Decimal.of_int 0) = true ->
  calculate_doubling_time libm rate n = Ok Float.inf.
Proof.
  intros H. unfold calculate_doubling_time.
  rewrite (FloatFacts.of_decimal_nonpositive rate H). reflexivity.
Qed.

(** Runs of C6: a rate of -5% compounded monthly. *)
Lemma C6_witness :
  calculate_doubling_time RefPlatform.libm (Decimal.mk true 5 (-2)) 12 = Ok Float.inf.
Proof.
  apply (C6_never_doubles_without_growth RefPlatform.libm (Decimal.mk true 5 (-2)) 12).
  reflexivity.
Defined.




(* ================================================================== *)
(** * Properties of the formatters and of the command line *)
(* ================================================================== *)

Import Formatters.

(** C8 (as amended).  With the quiet option every formatter renders the
    final amount and nothing of the breakdown: the CSV formatter writes a
    header row [final_amount] followed by a single row holding the amount,
    the JSON formatter an object whose only field is [final_amount], and
    the plain and rich formatters the amount as currency. *)
Theorem C8_quiet_renders_the_final_amount
    (plain_report rich_report : ProjectionResult -> RenderOptions -> outcome string)
    (rich_available : bool) (res : ProjectionResult) (options : RenderOptions) :
  quiet options = true ->
  let amount := Float.of_decimal (final_amount res) in
  csv_rows res options = [ [CStr "final_amount"]; [CFloat amount] ]
  /\ csv_render res options
     = ("final_amount" ++ CRLF ++ csv_field true (FloatStr.repr amount) ++ CRLF)%string
  /\ json_document res options = Ok (JObject [ ("final_amount"%string, JFloat amount) ])
  /\ json_render res options
     = Ok ("{" ++ dquote ++ "final_amount" ++ dquote ++ ": " ++ json_float amount ++ "}")%string
  /\ plain_render plain_report res options = Ok (Utils.format_currency (final_amount res))
  /\ rich_render plain_report rich_report rich_available res options
     = Ok (Utils.format_currency (final_amount res)).
Proof.
  intros Hq amount.
  unfold csv_render, csv_rows, json_render, json_document, rich_render, plain_render.
  rewrite Hq. destruct rich_available; repeat split; reflexivity.
Qed.

(** A run of C8: the quiet renderings of 20096.61. *)
Lemma C8_witness :
  csv_render Spec.sample_result Spec.quiet_options
  = ("final_amount" ++ CRLF ++ "20096.61" ++ CRLF)%string
  /\ json_render Spec.sample_result Spec.quiet_options
     = Ok ("{" ++ dquote ++ "final_amount" ++ dquote ++ ": 20096.61}")%string
  /\ plain_render (fun _ _ => Ok ""%string) Spec.sample_result Spec.quiet_options
     = Ok "$20,096.61"%string.
Proof.
  destruct (C8_quiet_renders_the_final_amount
              (fun _ _ => Ok ""%string) (fun _ _ => Ok ""%string) true
              Spec.sample_result Spec.quiet_options eq_refl)
    as (_ & Hcsv & _ & Hjson & Hplain & _).
  rewrite Hcsv, Hjson, Hplain. repeat split; vm_compute; reflexivity.
Defined.

(** C8 as stated fails for CSV: the quiet output is not a single row but
    two, the header and the amount. *)
Lemma C8_counterexample :
  csv_rows Spec.sample_result Spec.quiet_options
  = [ [CStr "final_amount"];
      [CFloat (Float.of_decimal (Decimal.mk false 2009661 (-2)))] ]
  /\ List.length (csv_rows Spec.sample_result Spec.quiet_options) <> 1%nat
  /\ csv_render Spec.sample_result Spec.quiet_options
     = ("final_amount" ++ CRLF ++ "20096.61" ++ CRLF)%string.
Proof.
  split; [reflexivity |]. split; [discriminate |]. vm_compute. reflexivity.
Qed.

Import Utils.

(** C9.  On a string, [parse_frequency] raises exactly when the trimmed,
    lower-cased string is neither a named period nor an integer that
    [int] accepts; the error is then a ValueError whose message lists the
    names of the periods; and the named periods map to 365, 52, 26, 12, 4,
    2, 1 and 1. *)
Theorem C9_parse_frequency_errors (s : string) :
  let v := Str.lower (Str.strip s) in
  let names :=
    [ "daily"; "weekly"; "biweekly"; "monthly"; "quarterly"; "semiannually";
      "annually"; "yearly" ]%string in
  ((exists msg,
       parse_frequency (FreqStr s) = Raise (ValueError msg)
       /\ forall name, In name names -> Str.occurs_in name msg)
   <-> ~ In v names /\ py_int v = None)
  /\ (forall e,
        parse_frequency (FreqStr s) = Raise e ->
        e = ValueError (invalid_frequency_message v))
  /\ (v = "daily"%string -> parse_frequency (FreqStr s) = Ok 365)
  /\ (v = "weekly"%string -> parse_frequency (FreqStr s) = Ok 52)
  /\ (v = "biweekly"%string -> parse_frequency (FreqStr s) = Ok 26)
  /\ (v = "monthly"%string -> parse_frequency (FreqStr s) = Ok 12)
  /\ (v = "quarterly"%string -> parse_frequency (FreqStr s) = Ok 4)
  /\ (v = "semiannually"%string -> parse_frequency (FreqStr s) = Ok 2)
  /\ (v = "annually"%string -> parse_frequency (FreqStr s) = Ok 1)
  /\ (v = "yearly"%string -> parse_frequency (FreqStr s) = Ok 1).
Proof.
  intros v names.
  pose proof (UtilsFacts.parse_frequency_cases s) as Hcases. cbv zeta in Hcases. fold v in Hcases.
  pose proof (UtilsFacts.lookup_None v FREQUENCY_MAP) as Hlookup.
  change (keys FREQUENCY_MAP) with names in Hlookup.
  split; [| split].
  - split.
    + intros (msg & Hraise & _).
      destruct (lookup v FREQUENCY_MAP) as [n|] eqn:Hl.
      * rewrite Hcases in Hraise. discriminate Hraise.
      * split; [now apply Hlookup |].
        destruct (py_int v) as [n|]; [| reflexivity].
        rewrite Hcases in Hraise. discriminate Hraise.
    + intros [Hnot Hint]. apply Hlookup in Hnot. rewrite Hnot, Hint in Hcases.
      exists (invalid_frequency_message v). split; [exact Hcases |].
      intros name Hin. now apply UtilsFacts.message_lists_names.
  - intros e Hraise.
    destruct (lookup v FREQUENCY_MAP) as [n|]; [rewrite Hcases in Hraise; discriminate Hraise |].
    destruct (py_int v) as [n|]; rewrite Hcases in Hraise; [discriminate Hraise |].
    now injection Hraise as <-.
  - repeat split; intros Hv; unfold parse_frequency; fold v; rewrite Hv; reflexivity.
Qed.

(** C10.  [parse_frequency] returns an integer as it is, whether it is
    given as an [int] or written in decimal, zero and negative values
    included; so the command line [compound 10000 -n 0] passes the
    validation of [main] with a compounding frequency of 0 and reaches the
    division [rate / compound_freq] of the engine, which raises
    DivisionByZero. *)
Theorem C10_zero_frequency_reaches_the_engine
    (libm : Platform)
    (plain_report rich_report : ProjectionResult -> RenderOptions -> outcome string)
    (rich_available : bool) :
  (forall n, parse_frequency (FreqInt n) = Ok n)
  /\ (forall n, parse_frequency (FreqStr (Str.of_int n)) = Ok n)
  /\ parse_frequency (FreqStr "0") = Ok 0
  /\ parse_frequency (FreqStr "-12") = Ok (-12)
  /\ (exists inputs,
        Cli.validate Spec.zero_frequency_args = inr ([], inputs)
        /\ Cli.in_compound_freq inputs = 0
        /\ Decimal.div (Cli.in_rate inputs) (Decimal.of_int (Cli.in_compound_freq inputs))
           = Raise DivisionByZero
        /\ calculate_compound_interest libm
             (Cli.in_principal inputs) (Cli.in_rate inputs) (Cli.in_years inputs)
             (Cli.in_compound_freq inputs) (Cli.in_contribution inputs)
             (Cli.in_contribution_freq inputs) = Raise DivisionByZero)
  /\ Cli.main libm plain_report rich_report rich_available Spec.zero_frequency_args
     = Cli.crash [] DivisionByZero.
Proof.
  split; [reflexivity |].
  split; [apply UtilsFacts.parse_frequency_of_int |].
  split; [reflexivity |]. split; [reflexivity |].
  split.
  - eexists. split; [vm_compute; reflexivity |]. repeat split; reflexivity.
  - reflexivity.
Qed.
(* ================================================================== *)
(** * Further facts about the engine *)
(* ================================================================== *)

Module AmountFacts.

Import Calculator.

(** What [_round_currency] returns has exponent -2 and fits the context. *)
Lemma round_currency_shape (d q : Decimal.t) :
  _round_currency d = Ok q -> Spec.cents q.
Proof.
  intros H. apply DecimalFacts.quantize_inv in H as (-> & Hn & _).
  split; [apply DecimalFacts.rescale_expo |].
  set (q := Decimal.rescale d (Decimal.expo cent) Decimal.ROUND_HALF_UP) in *.
  pose proof (DecimalFacts.cz_nonneg q) as H0.
  destruct (Z.eq_dec (Decimal.cz q) 0) as [Hz|Hz].
  - rewrite Hz. reflexivity.
  - pose proof (DecimalFacts.ndigits_spec (Decimal.cz q) ltac:(lia)) as [_ Hhi].
    eapply Z.lt_le_trans; [exact Hhi |]. apply Z.pow_le_mono_r; lia.
Qed.

Lemma for_each_ext {S I : Type} (f g : S -> I -> outcome S) (items : list I) (s : S) :
  (forall s i, f s i = g s i) -> for_each f items s = for_each g items s.
Proof.
  intros H. revert s. induction items as [|i items IH]; intros s; cbn [for_each].
  - reflexivity.
  - rewrite H. destruct (g s i); cbn [bind]; [apply IH | reflexivity].
Qed.

Section Loop.

Variables (period_rate contribution : Decimal.t).
Variables (compound_freq contribution_freq : Z).

Local Abbreviation year_body :=
  (year_body period_rate contribution compound_freq contribution_freq).
Local Abbreviation period_body :=
  (period_body period_rate contribution compound_freq contribution_freq).

(** An invariant of the outer loop together with a property of each
    snapshot it appends. *)
Lemma breakdown_forall (P : YearlySnapshot -> Prop) (Inv : YearState -> Prop) :
  (forall s y s', Inv s -> year_body s y = Ok s' ->
     Inv s' /\ exists snap, y_breakdown s' = (y_breakdown s ++ [snap])%list /\ P snap) ->
  forall items s s',
    Inv s -> Forall P (y_breakdown s) ->
    for_each year_body items s = Ok s' ->
    Inv s' /\ Forall P (y_breakdown s').
Proof.
  intros Hstep items. induction items as [|y items IH]; intros s s' Hi Hs H;
    cbn [for_each] in H.
  - injection H as <-. split; assumption.
  - bind_inv H. destruct (Hstep _ _ _ Hi E) as (Hi' & snap & Hb & Hp).
    apply (IH v s' Hi'); [| exact H].
    rewrite Hb. apply Forall_app. split; [exact Hs | constructor; [exact Hp | constructor]].
Qed.

(** Every snapshot holds four rounded amounts. *)
Lemma snapshots_in_cents (items : list Z) (s s' : YearState) :
  Forall Spec.snapshot_in_cents (y_breakdown s) ->
  for_each year_body items s = Ok s' ->
  Forall Spec.snapshot_in_cents (y_breakdown s').
Proof.
  intros Hs H.
  apply (breakdown_forall Spec.snapshot_in_cents (fun _ => True)) in H; auto.
  - apply H.
  - intros s0 y s0' _ Hy. split; [exact I |].
    apply EngineFacts.year_body_inv in Hy
      as (p & ci & g & snap & _ & _ & _ & _ & _ & _ & Hb & _ & H1 & H2 & H3 & _ & H4).
    exists snap. split; [exact Hb |].
    repeat split; eapply round_currency_shape; eassumption.
Qed.

End Loop.

End AmountFacts.


(* ================================================================== *)
(** * Signs and zeros of Decimal results *)
(* ================================================================== *)

Module SignFacts.

Import Decimal DecimalFacts.

Lemma mkz_sign (s : bool) (c e : Z) : sign (mkz s c e) = s.
Proof. reflexivity. Qed.

(** Rounding to the context keeps the sign, and keeps a zero zero. *)
Lemma fix_sign (d d' : t) : fix_ d = Ok d' -> sign d' = sign d.
Proof.
  unfold fix_. intros H.
  repeat match type of H with
         | (if ?b then _ else _) = _ => destruct b
         | (let '(_, _) := ?p in _) = _ => destruct p
         | Raise _ = Ok _ => discriminate H
         end;
    injection H as <-; reflexivity.
Qed.

Lemma fix_zero (d d' : t) : cz d = 0 -> fix_ d = Ok d' -> cz d' = 0.
Proof.
  intros Hz. unfold fix_. rewrite Hz. cbn [Z.eqb]. intros H. injection H as <-.
  apply cz_mkz. lia.
Qed.

(** A value that is not negative: its sign is clear, or it is a zero. *)
Definition nonneg (d : t) : Prop := sign d = false \/ cz d = 0.

Lemma not_negative_nonneg (d : t) : Spec.not_negative d = true <-> nonneg d.
Proof.
  unfold Spec.not_negative, ltb, cmp, signed_coeff, nonneg.
  change (cz (of_int 0)) with 0. change (sign (of_int 0)) with false.
  change (expo (of_int 0)) with 0. cbv iota. rewrite Z.mul_0_l.
  pose proof (cz_nonneg d) as Hc.
  pose proof (pow10_pos (expo d - Z.min (expo d) 0) ltac:(lia)) as Hp.
  destruct (sign d).
  - destruct (Z.compare_spec (- cz d * 10 ^ (expo d - Z.min (expo d) 0)) 0) as [He|Hl|Hg];
      cbn [negb]; split; intros H; try discriminate H; try reflexivity.
    + right. nia.
    + destruct H as [H|H]; [discriminate H | nia].
    + right. nia.
  - destruct (Z.compare_spec (cz d * 10 ^ (expo d - Z.min (expo d) 0)) 0) as [He|Hl|Hg];
      cbn [negb]; split; intros H; try discriminate H; try reflexivity; try (now left).
    nia.
Qed.

Lemma fix_nonneg (d d' : t) : nonneg d -> fix_ d = Ok d' -> nonneg d'.
Proof.
  intros [Hs|Hz] H.
  - left. rewrite (fix_sign _ _ H). exact Hs.
  - right. eapply fix_zero; eassumption.
Qed.

Lemma mul_zero_r (a b d : t) : cz b = 0 -> mul a b = Ok d -> cz d = 0.
Proof.
  intros Hz H. unfold mul in H. apply fix_zero in H; [exact H |].
  rewrite cz_mkz by lia. rewrite Hz. lia.
Qed.

Lemma mul_nonneg (a b d : t) : nonneg a -> nonneg b -> mul a b = Ok d -> nonneg d.
Proof.
  intros Ha Hb H. unfold mul in H. apply fix_nonneg in H; [exact H |].
  pose proof (cz_nonneg a). pose proof (cz_nonneg b).
  unfold nonneg. rewrite mkz_sign, cz_mkz by nia.
  destruct Ha as [Ha|Ha], Hb as [Hb|Hb]; try (right; rewrite ?Ha, ?Hb; lia).
  left. rewrite Ha, Hb. reflexivity.
Qed.

Lemma add_zero (a b d : t) : cz a = 0 -> cz b = 0 -> add a b = Ok d -> cz d = 0.
Proof.
  intros Ha Hb. unfold add. rewrite Ha, Hb. cbn [Z.eqb andb]. intros H.
  apply fix_zero in H; [exact H |]. apply cz_mkz. lia.
Qed.

Lemma rescale_zero (d : t) (e : Z) (rnd : rounding) : cz d = 0 -> cz (rescale d e rnd) = 0.
Proof. intros Hz. unfold rescale. rewrite Hz. cbn [Z.eqb]. apply cz_mkz. lia. Qed.

Lemma rescale_nonneg (d : t) (e : Z) (rnd : rounding) : nonneg d -> nonneg (rescale d e rnd).
Proof.
  intros [Hs|Hz].
  - left. rewrite rescale_sign. exact Hs.
  - right. now apply rescale_zero.
Qed.

Lemma add_nonneg (a b d : t) : nonneg a -> nonneg b -> add a b = Ok d -> nonneg d.
Proof.
  intros Ha Hb. unfold add. intros H.
  pose proof (cz_nonneg a) as Ha0. pose proof (cz_nonneg b) as Hb0.
  destruct (Z.eqb_spec (cz a) 0) as [Haz|Haz]; destruct (Z.eqb_spec (cz b) 0) as [Hbz|Hbz];
    cbn [andb] in H.
  - apply fix_zero in H; [right; exact H | apply cz_mkz; lia].
  - apply fix_nonneg in H; [exact H |]. now apply rescale_nonneg.
  - apply fix_nonneg in H; [exact H |]. now apply rescale_nonneg.
  - destruct Ha as [Ha|Ha]; [| lia]. destruct Hb as [Hb|Hb]; [| lia].
    destruct (normalize a b) as [op1 op2] eqn:Hn.
    apply RoundingFacts.normalize_spec in Hn as (Hs1 & Hs2 & _); [| lia | lia].
    rewrite Hs1, Hs2, Ha, Hb in H. cbn [Bool.eqb] in H.
    apply fix_sign in H. left. rewrite H. reflexivity.
Qed.

Lemma div_zero (a b d : t) : cz a = 0 -> div a b = Ok d -> cz d = 0.
Proof.
  intros Hz. unfold div. rewrite Hz. cbn [Z.eqb].
  destruct (cz b =? 0); [discriminate |]. intros H.
  apply fix_zero in H; [exact H |]. apply cz_mkz. lia.
Qed.

Lemma div_sign (a b d : t) : div a b = Ok d -> sign d = xorb (sign a) (sign b).
Proof.
  unfold div. intros H.
  repeat match type of H with
         | (if ?b then _ else _) = _ => destruct b
         | (let '(_, _) := ?p in _) = _ => destruct p
         | Raise _ = Ok _ => discriminate H
         end;
    apply fix_sign in H; exact H.
Qed.

Lemma div_nonneg (a b d : t) : nonneg a -> sign b = false -> div a b = Ok d -> nonneg d.
Proof.
  intros [Ha|Ha] Hb H.
  - left. rewrite (div_sign _ _ _ H), Ha, Hb. reflexivity.
  - right. eapply div_zero; eassumption.
Qed.

Lemma round_currency_nonneg (d q : t) :
  nonneg d -> Calculator._round_currency d = Ok q -> nonneg q.
Proof.
  intros Hd H. apply quantize_inv in H as (-> & _). now apply rescale_nonneg.
Qed.

Lemma round_currency_zero (d q : t) :
  cz d = 0 -> Calculator._round_currency d = Ok q -> cz q = 0.
Proof.
  intros Hd H. apply quantize_inv in H as (-> & _). now apply rescale_zero.
Qed.

End SignFacts.

Module FlatFacts.

Import Calculator.

(** The growth percentage of a year without interest is +0.0. *)
Lemma no_interest_no_growth (start : Decimal.t) (g : Float.t) :
  ytd_growth_of dec0 start = Ok g -> Float.round g 2 = S754_zero false.
Proof.
  unfold ytd_growth_of.
  destruct (Decimal.gtb start (Decimal.of_int 0)) eqn:Hpos; intros H.
  - apply ContributionFacts.positive_contribution in Hpos as [Hs Hc].
    bind_inv H. injection H as <-.
    unfold Decimal.div in E. change (Decimal.cz dec0) with 0 in E.
    destruct (Z.eqb_spec (Decimal.cz start) 0); [lia |].
    cbn [Z.eqb] in E. unfold Decimal.fix_ in E.
    rewrite DecimalFacts.cz_mkz in E by lia. cbn [Z.eqb] in E.
    injection E as <-. rewrite Hs. reflexivity.
  - injection H as <-. reflexivity.
Qed.

Section Flat.

Variables (period_rate contribution : Decimal.t).
Variables (compound_freq contribution_freq : Z).
Hypothesis negative_frequency : compound_freq < 0.

Local Abbreviation year_body :=
  (year_body period_rate contribution compound_freq contribution_freq).

(** With a negative frequency the inner loop is empty and a year changes
    nothing. *)
Lemma flat_year (s s' : YearState) (y : Z) :
  y_total_contributions s = dec0 -> y_cumulative_interest s = dec0 ->
  year_body s y = Ok s' ->
  exists b,
    _round_currency (y_balance s) = Ok b
    /\ s' = {| y_balance := y_balance s;
               y_total_contributions := dec0;
               y_cumulative_interest := dec0;
               y_breakdown := (y_breakdown s ++ [Spec.flat_snapshot b y])%list |}.
Proof.
  intros Htc Hci H.
  apply EngineFacts.year_body_inv in H
    as (p & ci & g & snap & Hp & Hadd & Hg & Hb & Ht & Hc & Hbd & Hy & H1 & H2 & H3 & H4 & H5).
  rewrite range_empty in Hp by lia. cbn [for_each] in Hp. injection Hp as <-.
  cbn [p_balance p_year_interest p_year_contributions p_total_contributions] in *.
  rewrite Hci in Hadd. change (Decimal.add dec0 dec0) with (Ok dec0) in Hadd.
  injection Hadd as <-.
  change (_round_currency dec0) with (Ok Spec.zero_cents) in H2, H3, H5.
  injection H2 as H2. injection H3 as H3. injection H5 as H5.
  apply no_interest_no_growth in Hg. rewrite Hg in H4.
  exists (balance snap). split; [exact H1 |].
  destruct s' as [b' t' c' bd'].
  cbn [y_balance y_total_contributions y_cumulative_interest y_breakdown] in Hb, Ht, Hc, Hbd.
  destruct snap as [sy sb si sc sg sci].
  cbn [year balance interest_earned contributions_ytd ytd_growth_pct cumulative_interest]
    in *.
  subst. rewrite Htc. reflexivity.
Qed.

Lemma flat_years (items : list Z) :
  forall s s' b,
    y_total_contributions s = dec0 -> y_cumulative_interest s = dec0 ->
    _round_currency (y_balance s) = Ok b ->
    for_each year_body items s = Ok s' ->
    s' = {| y_balance := y_balance s;
            y_total_contributions := dec0;
            y_cumulative_interest := dec0;
            y_breakdown := (y_breakdown s ++ map (Spec.flat_snapshot b) items)%list |}.
Proof.
  induction items as [|y items IH]; intros s s' b Htc Hci Hb H; cbn [for_each] in H.
  - injection H as <-. cbn [map]. rewrite app_nil_r.
    destruct s as [sb st sc sbd].
    cbn [y_balance y_total_contributions y_cumulative_interest y_breakdown] in *.
    subst. reflexivity.
  - bind_inv H. apply flat_year in E as (b' & Hb' & ->); [| assumption | assumption].
    rewrite Hb in Hb'. injection Hb' as <-.
    apply (IH _ _ b) in H; [| reflexivity | reflexivity | exact Hb].
    rewrite H. cbn [y_balance y_breakdown map]. rewrite <- app_assoc. reflexivity.
Qed.

End Flat.

End FlatFacts.


Module IgnoredFacts.

Import Calculator.

Section Ignored.

Variables (period_rate contribution : Decimal.t).
Variables (compound_freq contribution_freq : Z).
Hypothesis not_positive : Decimal.gtb contribution (Decimal.of_int 0) = false.

(** A contribution that is not positive takes the [else] branch of every
    period, as the contribution 0 does. *)
Lemma period_body_ignores (s : PeriodState) (period : Z) :
  period_body period_rate contribution compound_freq contribution_freq s period
  = period_body period_rate dec0 compound_freq contribution_freq s period.
Proof.
  unfold period_body. rewrite not_positive.
  change (Decimal.gtb dec0 (Decimal.of_int 0)) with false. reflexivity.
Qed.

Lemma year_body_ignores (s : YearState) (y : Z) :
  year_body period_rate contribution compound_freq contribution_freq s y
  = year_body period_rate dec0 compound_freq contribution_freq s y.
Proof.
  unfold year_body.
  rewrite (AmountFacts.for_each_ext _ _ _ _ period_body_ignores). reflexivity.
Qed.

(** The contributions of a year and the running total stay what they
    were. *)
Lemma periods_keep_totals (items : list Z) (s s' : PeriodState) :
  for_each (period_body period_rate contribution compound_freq contribution_freq) items s
  = Ok s' ->
  p_year_contributions s' = p_year_contributions s
  /\ p_total_contributions s' = p_total_contributions s.
Proof.
  revert s. induction items as [|p items IH]; intros s H; cbn [for_each] in H.
  - injection H as <-. split; reflexivity.
  - bind_inv H. apply IH in H as [H1 H2]. rewrite H1, H2.
    unfold period_body in E. rewrite not_positive in E.
    bind_inv E. bind_inv E. bind_inv E. injection E as <-. split; reflexivity.
Qed.

Lemma years_keep_totals (items : list Z) (s s' : YearState) :
  y_total_contributions s = dec0 ->
  Forall (fun snap => contributions_ytd snap = Spec.zero_cents) (y_breakdown s) ->
  for_each (year_body period_rate contribution compound_freq contribution_freq) items s
  = Ok s' ->
  y_total_contributions s' = dec0
  /\ Forall (fun snap => contributions_ytd snap = Spec.zero_cents) (y_breakdown s').
Proof.
  intros Ht Hs H.
  apply (AmountFacts.breakdown_forall period_rate contribution compound_freq contribution_freq
           (fun snap => contributions_ytd snap = Spec.zero_cents)
           (fun s => y_total_contributions s = dec0) ) in H; auto.
  intros s0 y s0' Hi Hy.
  apply EngineFacts.year_body_inv in Hy
    as (p & ci & g & snap & Hp & _ & _ & _ & Htc & _ & Hb & _ & _ & _ & H3 & _).
  apply periods_keep_totals in Hp as [Hyc Htot].
  cbn [p_year_contributions p_total_contributions] in Hyc, Htot.
  split; [congruence |].
  exists snap. split; [exact Hb |].
  rewrite Hyc in H3. change (_round_currency dec0) with (Ok Spec.zero_cents) in H3.
  now injection H3.
Qed.

End Ignored.

End IgnoredFacts.


Module InterestFacts.

Import Calculator SignFacts.

Section NonNegative.

Variables (period_rate contribution : Decimal.t).
Variables (compound_freq contribution_freq : Z).
Hypothesis rate_nonneg : nonneg period_rate.
Hypothesis contribution_nonneg : nonneg contribution.

Local Abbreviation year_body :=
  (year_body period_rate contribution compound_freq contribution_freq).
Local Abbreviation period_body :=
  (period_body period_rate contribution compound_freq contribution_freq).

Definition period_nonneg (s : PeriodState) : Prop :=
  nonneg (p_balance s) /\ nonneg (p_year_interest s)
  /\ nonneg (p_year_contributions s) /\ nonneg (p_total_contributions s).

Lemma period_keeps_nonneg (s s' : PeriodState) (period : Z) :
  period_nonneg s -> period_body s period = Ok s' -> period_nonneg s'.
Proof.
  intros (Hb & Hi & Hc & Ht) H. unfold Calculator.period_body in H.
  bind_inv H. bind_inv H. bind_inv H.
  pose proof (mul_nonneg _ _ _ Hb rate_nonneg E) as Hint.
  pose proof (add_nonneg _ _ _ Hb Hint E0) as Hb1.
  pose proof (add_nonneg _ _ _ Hi Hint E1) as Hi1.
  destruct (Decimal.gtb contribution (Decimal.of_int 0)).
  - bind_inv H.
    destruct (_ =? 0) in H.
    + bind_inv H. bind_inv H. bind_inv H. injection H as <-.
      unfold period_nonneg.
      cbn [p_balance p_year_interest p_year_contributions p_total_contributions].
      repeat split; try assumption;
        match goal with
        | Hx : Decimal.add ?a contribution = Ok ?d |- nonneg ?d =>
            exact (add_nonneg a contribution d ltac:(assumption) contribution_nonneg Hx)
        end.
    + injection H as <-. repeat split; assumption.
  - injection H as <-. repeat split; assumption.
Qed.

Definition year_nonneg (s : YearState) : Prop :=
  nonneg (y_balance s) /\ nonneg (y_total_contributions s)
  /\ nonneg (y_cumulative_interest s).

Definition snapshot_nonneg (snap : YearlySnapshot) : Prop :=
  nonneg (balance snap) /\ nonneg (interest_earned snap)
  /\ nonneg (contributions_ytd snap) /\ nonneg (cumulative_interest snap).

Lemma dec0_nonneg : nonneg dec0.
Proof. now left. Qed.

Lemma years_keep_nonneg (items : list Z) (s s' : YearState) :
  year_nonneg s -> Forall snapshot_nonneg (y_breakdown s) ->
  for_each year_body items s = Ok s' ->
  year_nonneg s' /\ Forall snapshot_nonneg (y_breakdown s').
Proof.
  apply (AmountFacts.breakdown_forall period_rate contribution compound_freq contribution_freq
           snapshot_nonneg year_nonneg).
  intros s0 y s0' (Hb & Ht & Hc) Hy.
  apply EngineFacts.year_body_inv in Hy
    as (p & ci & g & snap & Hp & Hadd & _ & Hbal & Htc & Hci & Hbd & _ & H1 & H2 & H3 & _ & H4).
  apply (for_each_invariant _ period_nonneg
           (fun s i s' => period_keeps_nonneg s s' i)) in Hp;
    [| unfold period_nonneg;
       cbn [p_balance p_year_interest p_year_contributions p_total_contributions];
       auto using dec0_nonneg].
  destruct Hp as (Pb & Pi & Pc & Pt).
  pose proof (add_nonneg _ _ _ Hc Pi Hadd) as Hci'.
  split.
  - unfold year_nonneg. rewrite Hbal, Htc, Hci. auto.
  - exists snap. split; [exact Hbd |].
    unfold snapshot_nonneg.
    pose proof (round_currency_nonneg _ _ Pb H1).
    pose proof (round_currency_nonneg _ _ Pi H2).
    pose proof (round_currency_nonneg _ _ Pc H3).
    pose proof (round_currency_nonneg _ _ Hci' H4).
    auto.
Qed.

End NonNegative.

Section ZeroRate.

Variables (period_rate contribution : Decimal.t).
Variables (compound_freq contribution_freq : Z).
Hypothesis zero_rate : Decimal.cz period_rate = 0.

Local Abbreviation year_body :=
  (year_body period_rate contribution compound_freq contribution_freq).
Local Abbreviation period_body :=
  (period_body period_rate contribution compound_freq contribution_freq).

Lemma period_without_interest (s s' : PeriodState) (period : Z) :
  Decimal.cz (p_year_interest s) = 0 -> period_body s period = Ok s' ->
  Decimal.cz (p_year_interest s') = 0.
Proof.
  intros Hi H. unfold Calculator.period_body in H.
  bind_inv H. bind_inv H. bind_inv H.
  pose proof (mul_zero_r _ _ _ zero_rate E) as Hint.
  pose proof (add_zero _ _ _ Hi Hint E1) as Hi1.
  destruct (Decimal.gtb contribution (Decimal.of_int 0)).
  - bind_inv H.
    destruct (_ =? 0) in H.
    + bind_inv H. bind_inv H. bind_inv H. injection H as <-. exact Hi1.
    + injection H as <-. exact Hi1.
  - injection H as <-. exact Hi1.
Qed.

Definition snapshot_without_interest (snap : YearlySnapshot) : Prop :=
  Decimal.cz (interest_earned snap) = 0
  /\ Decimal.cz (cumulative_interest snap) = 0
  /\ Float.is_zero (ytd_growth_pct snap) = true.

(** The growth percentage of a year whose interest is zero is a zero. *)
Lemma zero_interest_zero_growth (yi start : Decimal.t) (g : Float.t) :
  Decimal.cz yi = 0 -> ytd_growth_of yi start = Ok g ->
  Float.is_zero (Float.round g 2) = true.
Proof.
  intros Hz. unfold ytd_growth_of.
  destruct (Decimal.gtb start (Decimal.of_int 0)); intros H.
  - bind_inv H. injection H as <-.
    apply (div_zero _ _ _ Hz) in E.
    unfold Float.of_decimal, Float.of_decimal_triple. rewrite E.
    destruct (Decimal.sign v); reflexivity.
  - injection H as <-. reflexivity.
Qed.

Lemma years_without_interest (items : list Z) (s s' : YearState) :
  Decimal.cz (y_cumulative_interest s) = 0 ->
  Forall snapshot_without_interest (y_breakdown s) ->
  for_each year_body items s = Ok s' ->
  Decimal.cz (y_cumulative_interest s') = 0
  /\ Forall snapshot_without_interest (y_breakdown s').
Proof.
  apply (AmountFacts.breakdown_forall period_rate contribution compound_freq contribution_freq
           snapshot_without_interest (fun s => Decimal.cz (y_cumulative_interest s) = 0)).
  intros s0 y s0' Hc Hy.
  apply EngineFacts.year_body_inv in Hy
    as (p & ci & g & snap & Hp & Hadd & Hg & _ & _ & Hci & Hbd & _ & _ & H2 & _ & H4 & H5).
  apply (for_each_invariant _ (fun s => Decimal.cz (p_year_interest s) = 0)
           (fun s i s' => period_without_interest s s' i)) in Hp; [| reflexivity].
  pose proof (add_zero _ _ _ Hc Hp Hadd) as Hci'.
  split; [rewrite Hci; exact Hci' |].
  exists snap. split; [exact Hbd |].
  repeat split.
  - exact (round_currency_zero _ _ Hp H2).
  - exact (round_currency_zero _ _ Hci' H5).
  - rewrite H4. exact (zero_interest_zero_growth _ _ _ Hp Hg).
Qed.

End ZeroRate.

End InterestFacts.

(* ================================================================== *)
(** * Facts about the command line and the parsers *)
(* ================================================================== *)

Module CliFacts.

Import Calculator.
Local Open Scope string_scope.

(** What the validation of [main] ends with when it does not reach the
    engine, and what it has checked when it does. *)
Lemma validate_cases (args : Cli.Args) :
  match Cli.validate args with
  | inl r => Spec.failure_report r \/ Spec.crash_report r
  | inr (warnings, i) =>
      Spec.not_negative (Cli.in_principal i) = true
      /\ Spec.not_negative (Cli.in_contribution i) = true
      /\ 1 <= Cli.in_years i
      /\ Cli.in_years i = Cli.arg_time args
      /\ Cli.parse_amount (Cli.arg_principal args) = Ok (Cli.in_principal i)
      /\ Utils.parse_rate (Utils.RateStr (Cli.arg_rate args)) = Ok (Cli.in_rate i)
      /\ Utils.parse_frequency (Utils.FreqStr (Cli.arg_compound args))
         = Ok (Cli.in_compound_freq i)
      /\ Cli.parse_amount (Cli.arg_contribution args) = Ok (Cli.in_contribution i)
      /\ Utils.parse_frequency (Utils.FreqStr (Cli.arg_contribution_freq args))
         = Ok (Cli.in_contribution_freq i)
  end.
Proof.
  assert (Hfail : forall w m,
             String.prefix "Error" m = true -> Spec.failure_report (Cli.fail_with w m)).
  { intros w m Hm. repeat split. exists w, m. split; [reflexivity | exact Hm]. }
  assert (Hcrash : forall w e, Spec.crash_report (Cli.crash w e)).
  { intros w e. split; [reflexivity | exists e; reflexivity]. }
  unfold Cli.validate.
  destruct (Cli.parse_amount (Cli.arg_principal args)) as [principal|e] eqn:Hp.
  2:{ destruct e; (left; apply Hfail; reflexivity) || (right; apply Hcrash). }
  destruct (Decimal.ltb principal (Decimal.of_int 0)) eqn:Hneg.
  { left. apply Hfail. reflexivity. }
  destruct (Utils.parse_rate (Utils.RateStr (Cli.arg_rate args))) as [rate|e] eqn:Hr.
  2:{ destruct e; (left; apply Hfail; reflexivity) || (right; apply Hcrash). }
  match goal with |- context [Utils.parse_frequency ?a] =>
    destruct (Utils.parse_frequency a) as [n|e] eqn:Hn end.
  2:{ destruct e; (left; apply Hfail; reflexivity) || (right; apply Hcrash). }
  destruct (Cli.parse_amount (Cli.arg_contribution args)) as [contribution|e] eqn:Hc.
  2:{ destruct e; (left; apply Hfail; reflexivity) || (right; apply Hcrash). }
  destruct (Decimal.ltb contribution (Decimal.of_int 0)) eqn:Hcneg.
  { left. apply Hfail. reflexivity. }
  match goal with |- context [Utils.parse_frequency ?a] =>
    destruct (Utils.parse_frequency a) as [cf|e] eqn:Hcf end.
  2:{ destruct e; (left; apply Hfail; reflexivity) || (right; apply Hcrash). }
  destruct (Z.leb_spec (Cli.arg_time args) 0) as [Ht|Ht].
  { left. apply Hfail. reflexivity. }
  cbn [Cli.in_principal Cli.in_rate Cli.in_years Cli.in_compound_freq Cli.in_contribution
       Cli.in_contribution_freq].
  unfold Spec.not_negative. rewrite Hneg, Hcneg.
  repeat split; try reflexivity. lia.
Qed.

End CliFacts.

Module AmountTextFacts.

Local Open Scope string_scope.

Lemma remove_app (p : ascii -> bool) (a b : string) :
  Str.remove p (a ++ b) = Str.remove p a ++ Str.remove p b.
Proof.
  induction a as [|c a IH]; cbn [append Str.remove]; [reflexivity |].
  destruct (p c); [exact IH | cbn [append]; now rewrite IH].
Qed.

(** The text [parse_amount] hands to the Decimal constructor. *)
Definition cleaned (value : string) : string :=
  Str.strip
    (Str.remove (Str.is_char " ")
       (Str.remove (Str.is_char ",")
          (Str.remove (Str.is_char "$") value))).

Lemma parse_amount_Ok (value : string) (d : Decimal.t) :
  Cli.parse_amount value = Ok d <-> Utils.finite_decimal (cleaned value) = Ok d.
Proof.
  unfold Cli.parse_amount. fold (cleaned value).
  destruct (Utils.finite_decimal (cleaned value)) as [x|e]; [reflexivity |].
  destruct e; split; intros H; discriminate H.
Qed.

(** One of the three removed characters does not reach the constructor. *)
Lemma cleaned_noise (c : ascii) (a b : string) :
  Spec.amount_noise c = true -> cleaned (a ++ String c b) = cleaned (a ++ b).
Proof.
  intros Hc. unfold cleaned. f_equal.
  rewrite !(remove_app (Str.is_char "$")). cbn [Str.remove].
  unfold Spec.amount_noise in Hc.
  destruct (Ascii.eqb_spec c "$") as [->|H1].
  - reflexivity.
  - assert (Hd : Str.is_char "$" c = false).
    { unfold Str.is_char. destruct (Ascii.eqb_spec "$"%char c); [congruence | reflexivity]. }
    rewrite Hd. rewrite !(remove_app (Str.is_char ",")). cbn [Str.remove].
    destruct (Ascii.eqb_spec c ",") as [->|H2].
    + reflexivity.
    + assert (Hm : Str.is_char "," c = false).
      { unfold Str.is_char. destruct (Ascii.eqb_spec ","%char c); [congruence | reflexivity]. }
      rewrite Hm. rewrite !(remove_app (Str.is_char " ")). cbn [Str.remove].
      destruct (Ascii.eqb_spec c " ") as [->|H3]; [reflexivity | discriminate Hc].
Qed.

End AmountTextFacts.

Module TrimFacts.

Import UtilsFacts.
Local Open Scope string_scope.

Lemma lstrip_spaces (w : string) :
  Str.all_chars Str.is_space w = true -> Str.lstrip w = "".
Proof.
  induction w as [|c w IH]; [reflexivity |]. cbn [Str.all_chars Str.lstrip]. intros H.
  apply andb_prop in H as [Hc H]. rewrite Hc. now apply IH.
Qed.

Lemma lstrip_spaces_app (w s : string) :
  Str.all_chars Str.is_space w = true -> Str.lstrip (w ++ s) = Str.lstrip s.
Proof.
  induction w as [|c w IH]; [reflexivity |]. cbn [Str.all_chars append Str.lstrip]. intros H.
  apply andb_prop in H as [Hc H]. rewrite Hc. now apply IH.
Qed.

Lemma lstrip_app (s w : string) :
  Str.lstrip (s ++ w)
  = match Str.lstrip s with
    | "" => Str.lstrip w
    | _ => Str.lstrip s ++ w
    end.
Proof.
  induction s as [|c s IH]; [reflexivity |]. cbn [append Str.lstrip].
  destruct (Str.is_space c); [exact IH | reflexivity].
Qed.

Lemma rstrip_spaces_app (s w : string) :
  Str.all_chars Str.is_space w = true -> Str.rstrip (s ++ w) = Str.rstrip s.
Proof.
  intros H. unfold Str.rstrip. rewrite rev_app, lstrip_spaces_app; [reflexivity |].
  now rewrite all_chars_rev.
Qed.

(** White space around a text does not change what [strip] returns. *)
Lemma strip_padded (w1 s w2 : string) :
  Str.all_chars Str.is_space w1 = true -> Str.all_chars Str.is_space w2 = true ->
  Str.strip (w1 ++ s ++ w2) = Str.strip s.
Proof.
  intros H1 H2. unfold Str.strip.
  rewrite (lstrip_spaces_app w1 _ H1), lstrip_app.
  destruct (Str.lstrip s) as [|c r] eqn:Hs.
  - now rewrite (lstrip_spaces w2 H2).
  - now apply rstrip_spaces_app.
Qed.

Lemma lower_char_space (c : ascii) : Str.is_space (Str.lower_char c) = Str.is_space c.
Proof.
  destruct c as [b0 b1 b2 b3 b4 b5 b6 b7].
  destruct b0, b1, b2, b3, b4, b5, b6, b7; reflexivity.
Qed.

Lemma lower_char_idempotent (c : ascii) :
  Str.lower_char (Str.lower_char c) = Str.lower_char c.
Proof.
  destruct c as [b0 b1 b2 b3 b4 b5 b6 b7].
  destruct b0, b1, b2, b3, b4, b5, b6, b7; reflexivity.
Qed.

Lemma lower_idempotent (s : string) : Str.lower (Str.lower s) = Str.lower s.
Proof.
  induction s as [|c s IH]; [reflexivity |]. cbn [Str.lower].
  now rewrite lower_char_idempotent, IH.
Qed.

Lemma lower_app (a b : string) : Str.lower (a ++ b) = Str.lower a ++ Str.lower b.
Proof.
  induction a as [|c a IH]; [reflexivity |]. cbn [append Str.lower]. now rewrite IH.
Qed.

Lemma lower_rev (s : string) : Str.lower (Str.rev s) = Str.rev (Str.lower s).
Proof.
  induction s as [|c s IH]; [reflexivity |]. cbn [Str.lower].
  now rewrite !rev_cons, lower_app, IH.
Qed.

Lemma lower_lstrip (s : string) : Str.lstrip (Str.lower s) = Str.lower (Str.lstrip s).
Proof.
  induction s as [|c s IH]; [reflexivity |]. cbn [Str.lower Str.lstrip].
  rewrite lower_char_space. destruct (Str.is_space c); [exact IH | reflexivity].
Qed.

(** Trimming and lower-casing commute. *)
Lemma lower_strip (s : string) : Str.strip (Str.lower s) = Str.lower (Str.strip s).
Proof.
  unfold Str.strip, Str.rstrip.
  now rewrite lower_lstrip, <- lower_rev, lower_lstrip, lower_rev.
Qed.

End TrimFacts.
(* ================================================================== *)
(** * Facts about the printed numbers *)
(* ================================================================== *)

Module CurrencyFacts.

Import UtilsFacts DecimalFacts.
Local Open Scope string_scope.

Lemma remove_ext (p q : ascii -> bool) (s : string) :
  (forall c, p c = q c) -> Str.remove p s = Str.remove q s.
Proof.
  intros H. induction s as [|c s IH]; [reflexivity |]. cbn [Str.remove].
  now rewrite (H c), IH.
Qed.

Lemma remove_remove (p q : ascii -> bool) (s : string) :
  Str.remove p (Str.remove q s) = Str.remove (fun c => q c || p c) s.
Proof.
  induction s as [|c s IH]; [reflexivity |]. cbn [Str.remove].
  destruct (q c); cbn [orb Str.remove]; [exact IH |].
  destruct (p c); [exact IH | now rewrite IH].
Qed.

Lemma remove_keep (p : ascii -> bool) (s : string) :
  Str.all_chars (fun c => negb (p c)) s = true -> Str.remove p s = s.
Proof.
  induction s as [|c s IH]; [reflexivity |]. cbn [Str.all_chars Str.remove]. intros H.
  apply andb_prop in H as [Hc H]. apply negb_true_iff in Hc. now rewrite Hc, IH.
Qed.

(** The three replacements of [parse_amount] remove the characters of
    [amount_noise] in one pass. *)
Lemma cleaned_one_pass (value : string) :
  AmountTextFacts.cleaned value = Str.strip (Str.remove Spec.amount_noise value).
Proof.
  unfold AmountTextFacts.cleaned. rewrite !remove_remove. f_equal.
  apply remove_ext. intros c. unfold Str.is_char, Spec.amount_noise.
  rewrite (Ascii.eqb_sym "$" c), (Ascii.eqb_sym "," c), (Ascii.eqb_sym " " c).
  destruct (Ascii.eqb c "$"), (Ascii.eqb c ","), (Ascii.eqb c " "); reflexivity.
Qed.

(** Removing the commas undoes the grouping. *)
Lemma remove_grouped (p : ascii -> bool) (s : string) :
  p ","%char = true ->
  forall count acc,
    Str.remove p (FloatStr.group_thousands_rev s count acc)
    = Str.rev (Str.remove p s) ++ Str.remove p acc.
Proof.
  intros Hp. induction s as [|c s IH]; intros count acc; [reflexivity |].
  assert (Hstep : forall acc',
             Str.rev (Str.remove p s) ++ Str.remove p (String c acc')
             = Str.rev (Str.remove p (String c s)) ++ Str.remove p acc').
  { intros acc'. cbn [Str.remove]. destruct (p c); [reflexivity |].
    now rewrite rev_cons, append_assoc. }
  cbn [FloatStr.group_thousands_rev].
  destruct count as [|[|[|[|count]]]]; rewrite IH; try apply Hstep.
  rewrite <- Hstep. cbn [Str.remove]. now rewrite Hp.
Qed.

Lemma digit_is_no_noise (c : ascii) :
  Str.is_digit c = true -> negb (Spec.amount_noise c) = true.
Proof.
  destruct c as [b0 b1 b2 b3 b4 b5 b6 b7].
  destruct b0, b1, b2, b3, b4, b5, b6, b7; intros H; try discriminate H; reflexivity.
Qed.

Lemma ungroup (ds : string) :
  Str.all_chars Str.is_digit ds = true ->
  Str.remove Spec.amount_noise (FloatStr.group_thousands ds) = ds.
Proof.
  intros H. unfold FloatStr.group_thousands.
  rewrite remove_grouped by reflexivity. cbn [Str.remove]. rewrite append_nil_r.
  rewrite remove_keep, rev_involutive; [reflexivity |].
  rewrite all_chars_rev. eapply all_chars_weaken; [| exact H]. exact digit_is_no_noise.
Qed.

(** ** Reading a numeral with two decimals *)

Lemma span_digits_app (a b : string) :
  Str.all_chars Str.is_digit a = true ->
  match b with String c _ => Str.is_digit c = false | "" => True end ->
  Str.span_digits (a ++ b) = (a, b).
Proof.
  intros Ha Hb. induction a as [|c a IH].
  - cbn [append]. destruct b as [|c b]; [reflexivity |]. cbn [Str.span_digits].
    now rewrite Hb.
  - cbn [Str.all_chars] in Ha. apply andb_prop in Ha as [Hc Ha].
    cbn [append Str.span_digits]. now rewrite Hc, (IH Ha).
Qed.

Lemma span_digits_all (a : string) :
  Str.all_chars Str.is_digit a = true -> Str.span_digits a = (a, "").
Proof.
  intros Ha. rewrite <- (append_nil_r a) at 1. now apply span_digits_app.
Qed.

(** The characters of a plain numeral: digits and the point. *)
Definition plain_char (c : ascii) : bool := Str.is_digit c || Ascii.eqb c ".".

Lemma plain_char_props (c : ascii) :
  plain_char c = true ->
  negb (Str.is_space c) = true
  /\ negb (Str.is_char "_" c) = true
  /\ Ascii.eqb (Str.lower_char c) c = true
  /\ negb (Spec.amount_noise c) = true.
Proof.
  destruct c as [b0 b1 b2 b3 b4 b5 b6 b7].
  destruct b0, b1, b2, b3, b4, b5, b6, b7; intros H;
    try discriminate H; repeat split; reflexivity.
Qed.

Lemma sign_prefix_plain (p : ascii -> bool) (s : bool) (r : string) :
  p "-"%char = true -> Str.all_chars p r = true ->
  Str.all_chars p (FloatStr.sign_prefix s ++ r) = true.
Proof.
  intros Hm Hr. destruct s; cbn [FloatStr.sign_prefix append Str.all_chars];
    [now rewrite Hm, Hr | exact Hr].
Qed.

(** A signed text that starts with a digit is read as a number. *)
Lemma parse_digit_led (s : bool) (c : ascii) (r : string) :
  Str.is_digit c = true ->
  Str.all_chars plain_char r = true ->
  DecimalStr.parse (FloatStr.sign_prefix s ++ String c r)
  = DecimalStr.parse_number s (String c r).
Proof.
  intros Hc Hr.
  assert (Hall : Str.all_chars plain_char (String c r) = true).
  { cbn [Str.all_chars]. unfold plain_char at 1. now rewrite Hc, Hr. }
  assert (Hlow : Str.lower (String c r) = String c r).
  { apply lower_fixed. eapply all_chars_weaken; [| exact Hall].
    intros a Ha. now apply plain_char_props. }
  unfold DecimalStr.parse.
  rewrite strip_no_space.
  2:{ apply sign_prefix_plain; [reflexivity |].
      eapply all_chars_weaken; [| exact Hall]. intros a Ha. now apply plain_char_props. }
  rewrite remove_keep.
  2:{ apply sign_prefix_plain; [reflexivity |].
      eapply all_chars_weaken; [| exact Hall]. intros a Ha. now apply plain_char_props. }
  destruct s; cbn [FloatStr.sign_prefix append].
  - rewrite Hlow. clear Hall Hlow.
    destruct c as [b0 b1 b2 b3 b4 b5 b6 b7].
    destruct b0, b1, b2, b3, b4, b5, b6, b7; try discriminate Hc; reflexivity.
  - clear Hall. revert Hlow.
    destruct c as [b0 b1 b2 b3 b4 b5 b6 b7].
    destruct b0, b1, b2, b3, b4, b5, b6, b7; try discriminate Hc;
      intros Hlow; cbv iota; rewrite Hlow; reflexivity.
Qed.

(** The numeral [ip.ab] is read as the Decimal with the coefficient
    [ip * 100 + 10 * a + b] and the exponent -2. *)
Lemma parse_two_decimals (s : bool) (ip : string) (a b : Z) :
  ip <> "" -> Str.all_chars Str.is_digit ip = true ->
  0 <= a <= 9 -> 0 <= b <= 9 ->
  DecimalStr.parse
    (FloatStr.sign_prefix s ++ ip ++ "."
       ++ String (Str.digit_char a) (String (Str.digit_char b) ""))
  = Some (DecimalStr.Finite
            (Decimal.mkz s (Str.digits_value_acc ip 0 * 100 + 10 * a + b) (-2))).
Proof.
  intros Hne Hip Ha Hb.
  set (fp := String (Str.digit_char a) (String (Str.digit_char b) "")).
  assert (Hfp : Str.all_chars Str.is_digit fp = true).
  { subst fp. cbn [Str.all_chars]. now rewrite !digit_char_is_digit by lia. }
  destruct ip as [|c ip]; [contradiction |].
  pose proof Hip as Hip'. cbn [Str.all_chars] in Hip'. apply andb_prop in Hip' as [Hc Hrest].
  cbn [append]. rewrite parse_digit_led; [| exact Hc |].
  2:{ rewrite all_chars_app.
      rewrite (all_chars_weaken Str.is_digit plain_char ip); [| | exact Hrest].
      2:{ intros x Hx. unfold plain_char. now rewrite Hx. }
      cbn [append Str.all_chars andb].
      apply andb_true_intro. split; [reflexivity |].
      eapply all_chars_weaken; [| exact Hfp]. intros x Hx. unfold plain_char. now rewrite Hx. }
  unfold DecimalStr.parse_number.
  change (String c (ip ++ String "." fp)) with (String c ip ++ String "." fp).
  rewrite (span_digits_app (String c ip) (String "." fp) Hip eq_refl).
  rewrite (span_digits_all fp Hfp).
  cbn [append DecimalStr.parse_exponent].
  do 2 f_equal. unfold Str.digits_value.
  change (String c (ip ++ fp)) with (String c ip ++ fp).
  rewrite digits_value_app. subst fp. cbn [Str.digits_value_acc].
  rewrite !digit_char_value by lia.
  f_equal; try reflexivity; lia.
Qed.

(** The two digits that [format_fixed] prints after the point. *)
Lemma two_digits (n : Z) :
  0 <= n < 100 ->
  Str.repeat "0" (Z.to_nat 2 - String.length (Str.of_nonneg n)) ++ Str.of_nonneg n
  = String (Str.digit_char (n / 10)) (String (Str.digit_char (n mod 10)) "").
Proof.
  intros Hn. unfold Str.of_nonneg.
  destruct (Z.ltb_spec n 10) as [Hs|Hs].
  - cbn [Str.of_nonneg_aux]. destruct (Z.ltb_spec n 10); [| lia].
    rewrite Z.div_small by lia. reflexivity.
  - assert (Hlog : 3 <= Z.log2 n).
    { apply Z.log2_le_pow2; [lia |]. change (2 ^ 3) with 8. lia. }
    destruct (Z.to_nat (Z.log2 n)) as [|f] eqn:Hf; [lia |].
    cbn [Str.of_nonneg_aux].
    destruct (Z.ltb_spec n 10); [lia |].
    destruct (Z.ltb_spec (n / 10) 10) as [_|Hbig].
    + rewrite (Z.mod_small (n / 10)).
      * reflexivity.
      * split; [apply Z.div_pos; lia | apply Z.div_lt_upper_bound; lia].
    + assert (n / 10 < 10) by (apply Z.div_lt_upper_bound; lia). lia.
Qed.

End CurrencyFacts.

Module CentsFacts.

Import UtilsFacts DecimalFacts.
Local Open Scope string_scope.

(** What [format(x, ",.2f")] prints for a finite float: the sign, the
    grouped integer part of a number of cents [q], a point and two digits;
    [q] cents are within half a cent of [x]. *)
Lemma format_fixed_cents (x : Float.t) :
  Spec.isfinite x = true ->
  exists q,
    0 <= q
    /\ FloatStr.format_fixed true 2 x
       = FloatStr.sign_prefix (Float.sign_bit x)
         ++ FloatStr.group_thousands (Str.of_nonneg (q / 100)) ++ "."
         ++ String (Str.digit_char (q mod 100 / 10))
              (String (Str.digit_char (q mod 100 mod 10)) "")
    /\ (Qabs (inject_Z (signed (Float.sign_bit x) q) * q10 (-2) - Spec.float_value x)
        <= 1 # 200)%Q.
Proof.
  assert (Hrender : forall (s : bool) (q : Z), 0 <= q ->
            FloatStr.sign_prefix s
            ++ FloatStr.group_thousands (Str.of_nonneg (q / 10 ^ 2))
            ++ "." ++ Str.repeat "0" (Z.to_nat 2 - length (Str.of_nonneg (q mod 10 ^ 2)))
            ++ Str.of_nonneg (q mod 10 ^ 2)
            = FloatStr.sign_prefix s
              ++ FloatStr.group_thousands (Str.of_nonneg (q / 100)) ++ "."
              ++ String (Str.digit_char (q mod 100 / 10))
                   (String (Str.digit_char (q mod 100 mod 10)) "")).
  { intros s q Hq. change (10 ^ 2) with 100.
    rewrite (CurrencyFacts.two_digits (q mod 100)) by (apply Z.mod_pos_bound; lia).
    reflexivity. }
  intros Hfin. destruct x as [s| s | | s m ex]; try discriminate Hfin.
  - exists 0. split; [lia |]. split; [exact (Hrender s 0 ltac:(lia)) |].
    destruct s; cbn; unfold Qle; cbn; lia.
  - unfold FloatStr.format_fixed. cbn [Float.sign_bit].
    destruct (Float.exact_decimal m ex) as [c e] eqn:Hce.
    destruct (FloatFacts.exact_decimal_value m ex c e Hce) as [Hc _].
    pose proof (FloatFacts.float_value_decimal s m ex c e Hce) as Hv.
    destruct (Z.leb_spec (- e - 2) 0) as [Hk|Hk].
    + exists (c * 10 ^ (- (- e - 2))).
      assert (Hq : 0 <= c * 10 ^ (- (- e - 2))).
      { pose proof (pow10_pos (- (- e - 2)) ltac:(lia)). nia. }
      split; [exact Hq |]. split; [exact (Hrender s _ Hq) |]. rewrite Hv.
      rewrite (shift_value s c (-2) (- (- e - 2)) ltac:(lia)).
      replace (-2 + - (- e - 2)) with e by lia.
      setoid_replace (inject_Z (signed s c) * q10 e - inject_Z (signed s c) * q10 e)%Q
        with 0%Q by ring.
      cbn. unfold Qle; cbn; lia.
    + destruct (FloatFacts.nearest_cents s m ex c e Hce Hk) as [Hq Hd].
      cbv zeta in Hq, Hd. eexists. split; [exact Hq |].
      split; [exact (Hrender s _ Hq) | exact Hd].
Qed.

End CentsFacts.

Module ReadBackFacts.

Import UtilsFacts DecimalFacts CurrencyFacts.
Local Open Scope string_scope.

(** What [parse_amount] reads from a printed amount of [q] cents. *)
Lemma parse_printed_cents (s : bool) (q : Z) :
  0 <= q ->
  Cli.parse_amount
    ("$" ++ FloatStr.sign_prefix s
         ++ FloatStr.group_thousands (Str.of_nonneg (q / 100)) ++ "."
         ++ String (Str.digit_char (q mod 100 / 10))
              (String (Str.digit_char (q mod 100 mod 10)) ""))
  = Ok (Decimal.mkz s q (-2)).
Proof.
  intros Hq. apply AmountTextFacts.parse_amount_Ok. rewrite cleaned_one_pass.
  assert (Hip0 : 0 <= q / 100) by (apply Z.div_pos; lia).
  destruct (of_nonneg_spec (q / 100) Hip0) as (ip & Hip & Hne & Hall & Hval).
  rewrite Hip.
  pose proof (Z.mod_pos_bound q 100 ltac:(lia)) as Hm.
  set (a := q mod 100 / 10). set (b := q mod 100 mod 10).
  assert (Ha : 0 <= a <= 9).
  { subst a. split; [apply Z.div_pos; lia |].
    assert (q mod 100 / 10 < 10) by (apply Z.div_lt_upper_bound; lia). lia. }
  assert (Hb : 0 <= b <= 9).
  { subst b. pose proof (Z.mod_pos_bound (q mod 100) 10 ltac:(lia)). lia. }
  set (fp := String (Str.digit_char a) (String (Str.digit_char b) "")).
  assert (Hfp : Str.all_chars plain_char (String "." fp) = true).
  { subst fp. cbn [Str.all_chars]. unfold plain_char.
    now rewrite !digit_char_is_digit by lia. }
  assert (Hclean : Str.remove Spec.amount_noise
                     ("$" ++ FloatStr.sign_prefix s
                          ++ FloatStr.group_thousands ip ++ "." ++ fp)
                   = FloatStr.sign_prefix s ++ ip ++ "." ++ fp).
  { change ("$" ++ FloatStr.sign_prefix s ++ FloatStr.group_thousands ip ++ "." ++ fp)
      with (String "$" (FloatStr.sign_prefix s
                          ++ FloatStr.group_thousands ip ++ String "." fp)).
    cbn [Str.remove]. change (Spec.amount_noise "$") with true. cbv iota.
    rewrite !AmountTextFacts.remove_app, (ungroup ip Hall).
    rewrite (remove_keep Spec.amount_noise (String "." fp)).
    2:{ eapply all_chars_weaken; [| exact Hfp]. intros x Hx. now apply plain_char_props. }
    destruct s; reflexivity. }
  rewrite Hclean.
  assert (Hplain : Str.all_chars (fun c => negb (Str.is_space c))
                     (FloatStr.sign_prefix s ++ ip ++ "." ++ fp) = true).
  { apply sign_prefix_plain; [reflexivity |]. rewrite all_chars_app.
    apply andb_true_intro. split.
    - eapply all_chars_weaken; [| exact Hall]. intros x Hx.
      apply plain_char_props. unfold plain_char. now rewrite Hx.
    - eapply all_chars_weaken; [| exact Hfp]. intros x Hx. now apply plain_char_props. }
  rewrite (strip_no_space _ Hplain).
  unfold Utils.finite_decimal. subst fp.
  rewrite (parse_two_decimals s ip a b Hne Hall Ha Hb).
  do 2 f_equal. rewrite Hval. subst a b.
  pose proof (Z.div_mod q 100 ltac:(lia)). pose proof (Z.div_mod (q mod 100) 10 ltac:(lia)).
  lia.
Qed.

End ReadBackFacts.

Module CsvFacts.

Import Calculator Formatters UtilsFacts.
Local Open Scope string_scope.

(** The characters that make [csv.writer] quote a field. *)
Definition csv_safe (c : ascii) : bool :=
  negb (Ascii.eqb c "," || Ascii.eqb c (ascii_of_N 34) || Ascii.eqb c CR || Ascii.eqb c LF).

Lemma needs_quotes_safe (s : string) :
  Str.all_chars csv_safe s = true -> needs_quotes s = false.
Proof.
  induction s as [|c s IH]; [reflexivity |]. cbn [Str.all_chars needs_quotes]. intros H.
  apply andb_prop in H as [Hc H]. rewrite (IH H). unfold csv_safe in Hc.
  apply negb_true_iff in Hc. rewrite orb_false_r. exact Hc.
Qed.

(** The characters of the numerals: digits, signs, the point and the
    letters of [inf], [nan] and of the exponent. *)
Definition numeral_text_char (c : ascii) : bool :=
  Str.is_digit c || Ascii.eqb c "-" || Ascii.eqb c "+" || Ascii.eqb c "."
  || Ascii.eqb c "e" || Ascii.eqb c "i" || Ascii.eqb c "n" || Ascii.eqb c "f"
  || Ascii.eqb c "a".

Lemma numeral_text_safe (c : ascii) : numeral_text_char c = true -> csv_safe c = true.
Proof.
  destruct c as [b0 b1 b2 b3 b4 b5 b6 b7].
  destruct b0, b1, b2, b3, b4, b5, b6, b7; intros H; try discriminate H; reflexivity.
Qed.

Lemma digit_numeral_text (c : ascii) : Str.is_digit c = true -> numeral_text_char c = true.
Proof. intros H. unfold numeral_text_char. now rewrite H. Qed.

Lemma of_nonneg_aux_digits (p : ascii -> bool) (fuel : nat) :
  (forall c, Str.is_digit c = true -> p c = true) ->
  forall n acc, Str.all_chars p acc = true ->
  Str.all_chars p (Str.of_nonneg_aux fuel n acc) = true.
Proof.
  intros Hp. induction fuel as [|f IH]; intros n acc Hacc; [exact Hacc |].
  cbn [Str.of_nonneg_aux].
  assert (Hd : Str.all_chars p (String (Str.digit_char (n mod 10)) acc) = true).
  { cbn [Str.all_chars]. rewrite Hacc, andb_true_r. apply Hp, digit_char_is_digit.
    pose proof (Z.mod_pos_bound n 10 ltac:(lia)). lia. }
  destruct (n <? 10)%Z; [exact Hd | now apply IH].
Qed.

Lemma of_nonneg_text (n : Z) : Str.all_chars numeral_text_char (Str.of_nonneg n) = true.
Proof.
  unfold Str.of_nonneg. apply of_nonneg_aux_digits; [exact digit_numeral_text | reflexivity].
Qed.

Lemma of_int_text (n : Z) : Str.all_chars numeral_text_char (Str.of_int n) = true.
Proof.
  unfold Str.of_int. destruct (n <? 0)%Z; [| apply of_nonneg_text].
  cbn [append Str.all_chars]. now rewrite of_nonneg_text.
Qed.

Lemma all_chars_substring (p : ascii -> bool) (s : string) :
  Str.all_chars p s = true ->
  forall n m, Str.all_chars p (String.substring n m s) = true.
Proof.
  induction s as [|c s IH]; intros H n m.
  - destruct n, m; reflexivity.
  - cbn [Str.all_chars] in H. apply andb_prop in H as [Hc H].
    destruct n as [|n]; cbn [String.substring].
    + destruct m as [|m]; [reflexivity |]. cbn [Str.all_chars]. now rewrite Hc, IH.
    + now apply IH.
Qed.

Lemma all_chars_repeat (p : ascii -> bool) (c : ascii) (n : nat) :
  p c = true -> Str.all_chars p (Str.repeat c n) = true.
Proof.
  intros Hc. induction n as [|n IH]; [reflexivity |]. cbn [Str.repeat Str.all_chars].
  now rewrite Hc, IH.
Qed.

Lemma exponent_text_chars (e : Z) :
  Str.all_chars numeral_text_char (FloatStr.exponent_text e) = true.
Proof.
  unfold FloatStr.exponent_text. rewrite !all_chars_app, of_nonneg_text.
  destruct (e <? 0)%Z, (Z.abs e <? 10)%Z; reflexivity.
Qed.

Lemma sign_prefix_chars (s : bool) :
  Str.all_chars numeral_text_char (FloatStr.sign_prefix s) = true.
Proof. destruct s; reflexivity. Qed.

(** [repr] of a float is made of the characters of the numerals. *)
Lemma repr_text (x : Float.t) : Str.all_chars numeral_text_char (FloatStr.repr x) = true.
Proof.
  destruct x as [s|s| |s m ex]; cbn [FloatStr.repr];
    try (destruct s; reflexivity); try reflexivity.
  destruct (FloatStr.shortest m ex) as [d e10].
  pose proof (of_nonneg_text d) as Hds.
  set (ds := Str.of_nonneg d) in *. cbv zeta.
  rewrite all_chars_app, sign_prefix_chars. cbn [andb].
  repeat match goal with
         | |- context [if ?b then _ else _] => destruct b
         end;
    rewrite ?all_chars_app, ?exponent_text_chars, ?Hds, ?all_chars_substring,
      ?all_chars_repeat by (exact Hds || reflexivity);
    reflexivity.
Qed.

Lemma app_nonempty_r (a b : string) : b <> "" -> a ++ b <> "".
Proof. intros Hb. destruct a; [exact Hb | discriminate]. Qed.

Lemma exponent_text_nonempty (e : Z) : FloatStr.exponent_text e <> "".
Proof. unfold FloatStr.exponent_text. destruct (e <? 0)%Z; discriminate. Qed.

Lemma repr_nonempty (x : Float.t) : FloatStr.repr x <> "".
Proof.
  destruct x as [s|s| |s m ex]; cbn [FloatStr.repr];
    try (destruct s; discriminate); try discriminate.
  destruct (FloatStr.shortest m ex) as [d e10]. cbv zeta.
  apply app_nonempty_r.
  repeat match goal with
         | |- context [if ?b then _ else _] => destruct b
         end;
    first [ discriminate
          | apply app_nonempty_r;
            first [ discriminate
                  | apply app_nonempty_r;
                    first [ discriminate | apply exponent_text_nonempty ] ] ].
Qed.

(** A cell whose text [csv.writer] writes as it is. *)
Definition bare_cell (c : cell) : Prop :=
  Str.all_chars csv_safe (cell_text c) = true /\ cell_text c <> "".

Lemma number_cells_bare (c : cell) :
  match c with CStr _ => False | _ => True end -> bare_cell c.
Proof.
  destruct c as [s|n|x]; [contradiction | |]; intros _; split.
  - eapply all_chars_weaken; [exact numeral_text_safe | apply of_int_text].
  - unfold cell_text, Str.of_int, Str.of_nonneg.
    destruct (n <? 0)%Z; [discriminate |]. cbn [Str.of_nonneg_aux].
    destruct (n <? 10)%Z; [discriminate |].
    generalize (Z.to_nat (Z.log2 n)) (n / 10). intros f k.
    assert (H : forall acc, acc <> "" -> Str.of_nonneg_aux f k acc <> "").
    { clear. revert k. induction f as [|f IH]; intros k acc Hacc; [exact Hacc |].
      cbn [Str.of_nonneg_aux]. destruct (k <? 10)%Z; [discriminate |].
      apply IH. discriminate. }
    apply H. discriminate.
  - eapply all_chars_weaken; [exact numeral_text_safe | apply repr_text].
  - apply repr_nonempty.
Qed.

Lemma csv_field_bare (alone : bool) (c : cell) :
  bare_cell c -> csv_field alone (cell_text c) = cell_text c.
Proof.
  intros [Hsafe Hne]. unfold csv_field. rewrite (needs_quotes_safe _ Hsafe).
  destruct (cell_text c); [contradiction |]. cbn [String.eqb].
  now rewrite andb_false_r.
Qed.

(** The line of a row without quoting. *)
Definition bare_line (cells : list cell) : string :=
  Str.join "," (map cell_text cells) ++ CRLF.

Lemma writerow_bare (cells : list cell) :
  Forall bare_cell cells -> writerow cells = bare_line cells.
Proof.
  intros H. unfold writerow, bare_line. do 2 f_equal.
  apply map_ext_in. intros c Hc. apply csv_field_bare.
  rewrite Forall_forall in H. now apply H.
Qed.

Lemma csv_rows_bare (result : ProjectionResult) (options : RenderOptions) :
  Forall (Forall bare_cell) (csv_rows result options).
Proof.
  assert (Hstr : forall s, Str.all_chars csv_safe s = true -> s <> "" -> bare_cell (CStr s)).
  { intros s Hs Hne. split; assumption. }
  unfold csv_rows. destruct (quiet options).
  - repeat constructor; try discriminate.
    + eapply all_chars_weaken; [exact numeral_text_safe | apply repr_text].
    + apply repr_nonempty.
  - constructor.
    + unfold csv_header. repeat constructor; discriminate.
    + apply Forall_forall. intros row Hrow. apply in_map_iff in Hrow as (snap & <- & _).
      unfold csv_data_row. repeat constructor; now apply number_cells_bare.
Qed.

End CsvFacts.

Module RateFacts.

Import UtilsFacts DecimalFacts CurrencyFacts.
Local Open Scope string_scope.

(** [Decimal(str(n)) == Decimal(n)] *)
Lemma finite_decimal_of_int (n : Z) :
  Utils.finite_decimal (Str.of_int n) = Ok (Decimal.of_int n).
Proof.
  destruct (of_int_spec n) as (ds & Htext & Hne & Hall & Hval).
  unfold Utils.finite_decimal. rewrite Htext.
  change (if (n <? 0)%Z then "-" else "") with (FloatStr.sign_prefix (n <? 0)%Z).
  destruct ds as [|c ds]; [contradiction |].
  pose proof Hall as Hall'. cbn [Str.all_chars] in Hall'.
  apply andb_prop in Hall' as [Hc Hrest].
  rewrite parse_digit_led; [| exact Hc |].
  2:{ eapply all_chars_weaken; [| exact Hrest]. intros x Hx. unfold plain_char.
      now rewrite Hx. }
  unfold DecimalStr.parse_number. rewrite (span_digits_all _ Hall).
  rewrite append_nil_r. cbn [DecimalStr.parse_exponent String.length].
  unfold Decimal.of_int, Str.digits_value. now rewrite Hval.
Qed.

Lemma ltb_one (n : Z) : Decimal.ltb (Decimal.of_int n) (Decimal.of_int 1) = (n <? 1)%Z.
Proof.
  assert (Hcz : Decimal.cz (Decimal.of_int n) = Z.abs n) by (apply cz_mkz; lia).
  assert (Hs : Decimal.sign (Decimal.of_int n) = (n <? 0)%Z) by reflexivity.
  assert (He : Decimal.expo (Decimal.of_int n) = 0) by reflexivity.
  unfold Decimal.ltb, Decimal.cmp, Decimal.signed_coeff. rewrite Hcz, Hs, He.
  change (Decimal.expo (Decimal.of_int 1)) with 0.
  change (Decimal.sign (Decimal.of_int 1)) with false.
  change (Decimal.cz (Decimal.of_int 1)) with 1. cbv iota.
  change (Z.min 0 0) with 0. change (0 - 0) with 0. rewrite !Z.pow_0_r, !Z.mul_1_r.
  destruct (Z.compare_spec (if (n <? 0)%Z then - Z.abs n else Z.abs n) 1) as [H|H|H];
    destruct (Z.ltb_spec n 1) as [H1|H1];
    try reflexivity;
    destruct (Z.ltb_spec n 0); lia.
Qed.

Lemma percent_text (ds : string) :
  Str.all_chars Str.is_digit ds = true ->
  Str.strip (ds ++ "%") = ds ++ "%"
  /\ Str.contains_char "%" (ds ++ "%") = true
  /\ Str.remove (fun c => Ascii.eqb c "%" || Str.is_space c) (ds ++ "%") = ds.
Proof.
  intros Hall. split; [| split].
  - apply strip_no_space. rewrite all_chars_app. apply andb_true_intro. split; [| reflexivity].
    eapply all_chars_weaken; [| exact Hall]. intros x Hx.
    apply plain_char_props. unfold plain_char. now rewrite Hx.
  - clear Hall. induction ds as [|c ds IH]; [reflexivity |].
    cbn [append Str.contains_char]. rewrite IH. apply orb_true_r.
  - rewrite AmountTextFacts.remove_app. cbn [Str.remove]. cbv beta.
    change (Ascii.eqb "%" "%" || Str.is_space "%") with true. cbv iota.
    rewrite append_nil_r. apply remove_keep.
    eapply all_chars_weaken; [| exact Hall].
    intros x. destruct x as [b0 b1 b2 b3 b4 b5 b6 b7].
    destruct b0, b1, b2, b3, b4, b5, b6, b7; intros H; try discriminate H; reflexivity.
Qed.

End RateFacts.
(* ================================================================== *)
(** * Further properties of the engine *)
(* ================================================================== *)

Import Calculator.

(** X1.  Every amount of a projection is reported in cents: the final
    amount, the total interest, the total contributions and the four
    amounts of every yearly snapshot have exponent -2 and a coefficient of
    at most 28 digits. *)
Theorem X1_amounts_are_in_cents
    (libm : Platform) (P r : Decimal.t) (Y n : Z) (c : Decimal.t) (cf : Z)
    (res : ProjectionResult) :
  calculate_compound_interest libm P r Y n c cf = Ok res ->
  Spec.cents (final_amount res)
  /\ Spec.cents (total_interest res)
  /\ Spec.cents (total_contributions res)
  /\ Forall Spec.snapshot_in_cents (yearly_breakdown res).
Proof.
  intros H.
  apply EngineFacts.calculate_inv in H as (pr & s & _ & Hloop & Hfa & Hti & Htc & Hbd).
  repeat split; try (eapply AmountFacts.round_currency_shape; eassumption).
  rewrite Hbd. eapply AmountFacts.snapshots_in_cents; [| exact Hloop]. constructor.
Qed.

(** A run of X1: 2500.00 at 4% for three years, compounded quarterly,
    with 10.005 added every quarter. *)
Lemma X1_witness :
  exists res,
    calculate_compound_interest RefPlatform.libm
      (Decimal.mk false 250000 (-2)) (Decimal.mk false 4 (-2)) 3 4
      (Decimal.mk false 10005 (-3)) 4 = Ok res
    /\ Spec.cents (final_amount res)
    /\ Spec.cents (total_interest res)
    /\ Spec.cents (total_contributions res)
    /\ Forall Spec.snapshot_in_cents (yearly_breakdown res).
Proof.
  eexists. split; [vm_compute; reflexivity |].
  apply (X1_amounts_are_in_cents RefPlatform.libm
           (Decimal.mk false 250000 (-2)) (Decimal.mk false 4 (-2)) 3 4
           (Decimal.mk false 10005 (-3)) 4).
  vm_compute. reflexivity.
Defined.

(** X2.  When [years] is zero or negative the loop over the years does not
    run: the breakdown is empty, the final amount is the principal rounded
    to cents, and the interest and contribution totals are 0.00. *)
Theorem X2_no_years_no_breakdown
    (libm : Platform) (P r : Decimal.t) (Y n : Z) (c : Decimal.t) (cf : Z)
    (res : ProjectionResult) :
  Y <= 0 ->
  calculate_compound_interest libm P r Y n c cf = Ok res ->
  yearly_breakdown res = []
  /\ _round_currency P = Ok (final_amount res)
  /\ total_interest res = Spec.zero_cents
  /\ total_contributions res = Spec.zero_cents.
Proof.
  intros HY H.
  apply EngineFacts.calculate_inv in H as (pr & s & _ & Hloop & Hfa & Hti & Htc & Hbd).
  rewrite range_empty in Hloop by lia. cbn [for_each] in Hloop. injection Hloop as <-.
  cbn [y_balance y_cumulative_interest y_total_contributions y_breakdown] in *.
  change (_round_currency dec0) with (Ok Spec.zero_cents) in Hti, Htc.
  injection Hti as <-. injection Htc as <-. auto.
Qed.

(** A run of X2: no year at all. *)
Lemma X2_witness :
  exists res,
    calculate_compound_interest RefPlatform.libm
      (Decimal.mk false 1234567 (-3)) (Decimal.mk false 7 (-2)) 0 12
      (Decimal.mk false 100 0) 12 = Ok res
    /\ yearly_breakdown res = []
    /\ final_amount res = Decimal.mk false 123457 (-2)
    /\ total_interest res = Spec.zero_cents
    /\ total_contributions res = Spec.zero_cents.
Proof.
  eexists. split; [vm_compute; reflexivity |].
  destruct (X2_no_years_no_breakdown RefPlatform.libm
              (Decimal.mk false 1234567 (-3)) (Decimal.mk false 7 (-2)) 0 12
              (Decimal.mk false 100 0) 12 _ ltac:(lia) ltac:(vm_compute; reflexivity))
    as (Hb & _ & Hi & Hc).
  repeat split; assumption || reflexivity.
Defined.

(** X3.  A compounding frequency of zero makes the first statement of the
    engine, [rate / compound_freq], raise: DivisionByZero for a rate that
    is not zero, InvalidOperation (0 / 0) for a zero rate.  No result is
    produced, whatever the other arguments. *)
Theorem X3_zero_frequency_raises
    (libm : Platform) (P r : Decimal.t) (Y : Z) (c : Decimal.t) (cf : Z) :
  calculate_compound_interest libm P r Y 0 c cf
  = Raise (if Decimal.cz r =? 0 then InvalidOperation else DivisionByZero).
Proof.
  unfold calculate_compound_interest, Decimal.div.
  change (Decimal.cz (Decimal.of_int 0)) with 0. cbn [Z.eqb].
  destruct (Decimal.cz r =? 0); reflexivity.
Qed.

(** X4.  A negative compounding frequency is accepted, and then the loop
    over the periods is empty: nothing compounds and nothing is
    contributed.  The final amount is the principal rounded to cents, the
    totals are 0.00, and every year's snapshot repeats this amount with
    0.00 interest, 0.00 contributions and 0.0 growth. *)
Theorem X4_negative_frequency_is_flat
    (libm : Platform) (P r : Decimal.t) (Y n : Z) (c : Decimal.t) (cf : Z)
    (res : ProjectionResult) :
  n < 0 ->
  calculate_compound_interest libm P r Y n c cf = Ok res ->
  _round_currency P = Ok (final_amount res)
  /\ total_interest res = Spec.zero_cents
  /\ total_contributions res = Spec.zero_cents
  /\ yearly_breakdown res
     = map (Spec.flat_snapshot (final_amount res)) (range 1 (Y + 1)).
Proof.
  intros Hn H.
  apply EngineFacts.calculate_inv in H as (pr & s & _ & Hloop & Hfa & Hti & Htc & Hbd).
  destruct (range 1 (Y + 1)) as [|y0 items] eqn:Hr.
  - cbn [for_each] in Hloop. injection Hloop as <-.
    cbn [y_balance y_cumulative_interest y_total_contributions y_breakdown] in *.
    change (_round_currency dec0) with (Ok Spec.zero_cents) in Hti, Htc.
    injection Hti as <-. injection Htc as <-. auto.
  - assert (Hb : exists b, _round_currency P = Ok b).
    { cbn [for_each] in Hloop. bind_inv Hloop.
      apply (FlatFacts.flat_year pr c n cf Hn) in E as (b & Hb & _); [| reflexivity..].
      exists b. exact Hb. }
    destruct Hb as (b & Hb).
    apply (FlatFacts.flat_years pr c n cf Hn _ _ _ b) in Hloop;
      [| reflexivity | reflexivity | exact Hb].
    subst s. cbn [y_balance y_cumulative_interest y_total_contributions y_breakdown app] in *.
    change (_round_currency dec0) with (Ok Spec.zero_cents) in Hti, Htc.
    injection Hti as <-. injection Htc as <-.
    rewrite Hb in Hfa. injection Hfa as <-. rewrite Hbd. auto.
Qed.

(** A run of X4: 1000 for two years at 6%, "compounded" -12 times a year. *)
Lemma X4_witness :
  exists res,
    calculate_compound_interest RefPlatform.libm
      (Decimal.mk false 1000 0) (Decimal.mk false 6 (-2)) 2 (-12)
      (Decimal.mk false 50 0) 12 = Ok res
    /\ final_amount res = Decimal.mk false 100000 (-2)
    /\ yearly_breakdown res
       = [ Spec.flat_snapshot (Decimal.mk false 100000 (-2)) 1;
           Spec.flat_snapshot (Decimal.mk false 100000 (-2)) 2 ].
Proof.
  eexists. split; [vm_compute; reflexivity |].
  destruct (X4_negative_frequency_is_flat RefPlatform.libm
              (Decimal.mk false 1000 0) (Decimal.mk false 6 (-2)) 2 (-12)
              (Decimal.mk false 50 0) 12 _ ltac:(lia) ltac:(vm_compute; reflexivity))
    as (Hfa & _ & _ & Hbd).
  split; [reflexivity | exact Hbd].
Defined.

(** X5.  A contribution that is zero or negative is never applied: the
    projection is the one computed for a contribution of 0, with only the
    echoed [contribution] field different, and it reports 0.00 as total
    contributions and as the contributions of every year. *)
Theorem X5_nonpositive_contribution_is_ignored
    (libm : Platform) (P r : Decimal.t) (Y n : Z) (c : Decimal.t) (cf : Z) :
  Decimal.gtb c (Decimal.of_int 0) = false ->
  calculate_compound_interest libm P r Y n c cf
  = (res <- calculate_compound_interest libm P r Y n dec0 cf ;;
     Ok (Spec.with_contribution res c))
  /\ forall res,
       calculate_compound_interest libm P r Y n c cf = Ok res ->
       total_contributions res = Spec.zero_cents
       /\ Forall (fun snap => contributions_ytd snap = Spec.zero_cents)
            (yearly_breakdown res).
Proof.
  intros Hc. split.
  - unfold calculate_compound_interest.
    destruct (Decimal.div r (Decimal.of_int n)) as [pr|e]; cbn [bind]; [| reflexivity].
    rewrite (AmountFacts.for_each_ext _ _ _ _ (IgnoredFacts.year_body_ignores pr c n cf Hc)).
    destruct (for_each _ _ _) as [s|e]; cbn [bind]; [| reflexivity].
    destruct (_round_currency (y_balance s)); cbn [bind]; [| reflexivity].
    destruct (_round_currency (y_cumulative_interest s)); cbn [bind]; [| reflexivity].
    destruct (calculate_effective_apy libm r n); cbn [bind]; [| reflexivity].
    destruct (calculate_doubling_time libm r n); cbn [bind]; [| reflexivity].
    destruct (_round_currency (y_total_contributions s)); cbn [bind]; reflexivity.
  - intros res H.
    apply EngineFacts.calculate_inv in H as (pr & s & _ & Hloop & _ & _ & Htc & Hbd).
    apply (IgnoredFacts.years_keep_totals pr c n cf Hc) in Hloop as [Ht Hs];
      [| reflexivity | constructor].
    rewrite Ht in Htc. change (_round_currency dec0) with (Ok Spec.zero_cents) in Htc.
    injection Htc as <-. rewrite Hbd. split; [reflexivity | exact Hs].
Qed.

(** A run of X5: a contribution of -50 changes nothing. *)
Lemma X5_witness :
  exists res,
    calculate_compound_interest RefPlatform.libm
      (Decimal.mk false 1000 0) (Decimal.mk false 5 (-2)) 2 4
      (Decimal.mk true 50 0) 4 = Ok res
    /\ final_amount res = Decimal.mk false 110449 (-2)
    /\ total_contributions res = Spec.zero_cents.
Proof.
  eexists. split; [vm_compute; reflexivity |].
  destruct (X5_nonpositive_contribution_is_ignored RefPlatform.libm
              (Decimal.mk false 1000 0) (Decimal.mk false 5 (-2)) 2 4
              (Decimal.mk true 50 0) 4 eq_refl) as [_ H].
  destruct (H _ ltac:(vm_compute; reflexivity)) as [Ht _].
  split; [reflexivity | exact Ht].
Defined.

(** X6.  At a rate of zero no interest is ever reported: the total
    interest, the interest and the cumulative interest of every year are
    zero, and every growth percentage is 0.0. *)
Theorem X6_zero_rate_earns_nothing
    (libm : Platform) (P r : Decimal.t) (Y n : Z) (c : Decimal.t) (cf : Z)
    (res : ProjectionResult) :
  Decimal.cz r = 0 ->
  calculate_compound_interest libm P r Y n c cf = Ok res ->
  Decimal.cz (total_interest res) = 0
  /\ Forall (fun snap =>
               Decimal.cz (interest_earned snap) = 0
               /\ Decimal.cz (cumulative_interest snap) = 0
               /\ Float.is_zero (ytd_growth_pct snap) = true)
       (yearly_breakdown res).
Proof.
  intros Hr H.
  apply EngineFacts.calculate_inv in H as (pr & s & Hdiv & Hloop & _ & Hti & _ & Hbd).
  apply (SignFacts.div_zero _ _ _ Hr) in Hdiv.
  apply (InterestFacts.years_without_interest pr c n cf Hdiv) in Hloop as [Hc Hs];
    [| reflexivity | constructor].
  split; [exact (SignFacts.round_currency_zero _ _ Hc Hti) |].
  rewrite Hbd. exact Hs.
Qed.

(** A run of X6: 500 with 25 added each quarter for two years at 0%. *)
Lemma X6_witness :
  exists res,
    calculate_compound_interest RefPlatform.libm
      (Decimal.mk false 500 0) (Decimal.mk false 0 0) 2 4
      (Decimal.mk false 25 0) 4 = Ok res
    /\ final_amount res = Decimal.mk false 70000 (-2)
    /\ Decimal.cz (total_interest res) = 0.
Proof.
  eexists. split; [vm_compute; reflexivity |].
  destruct (X6_zero_rate_earns_nothing RefPlatform.libm
              (Decimal.mk false 500 0) (Decimal.mk false 0 0) 2 4
              (Decimal.mk false 25 0) 4 _ eq_refl ltac:(vm_compute; reflexivity))
    as [Ht _].
  split; [reflexivity | exact Ht].
Defined.

(** X7.  For a principal, a rate and a contribution that are not negative
    and a positive compounding frequency, no amount of the projection is
    negative: neither the final amount, nor the totals, nor any amount of
    a yearly snapshot. *)
Theorem X7_amounts_are_not_negative
    (libm : Platform) (P r : Decimal.t) (Y n : Z) (c : Decimal.t) (cf : Z)
    (res : ProjectionResult) :
  1 <= n ->
  Spec.not_negative P = true ->
  Spec.not_negative r = true ->
  Spec.not_negative c = true ->
  calculate_compound_interest libm P r Y n c cf = Ok res ->
  Spec.not_negative (final_amount res) = true
  /\ Spec.not_negative (total_interest res) = true
  /\ Spec.not_negative (total_contributions res) = true
  /\ Forall Spec.snapshot_not_negative (yearly_breakdown res).
Proof.
  intros Hn HP Hr Hc H.
  apply SignFacts.not_negative_nonneg in HP, Hr, Hc.
  apply EngineFacts.calculate_inv in H as (pr & s & Hdiv & Hloop & Hfa & Hti & Htc & Hbd).
  assert (Hpr : SignFacts.nonneg pr).
  { apply (SignFacts.div_nonneg _ _ _ Hr) in Hdiv; [exact Hdiv |].
    unfold Decimal.of_int. cbn [Decimal.sign Decimal.mkz].
    destruct (Z.ltb_spec n 0); [lia | reflexivity]. }
  apply (InterestFacts.years_keep_nonneg pr c n cf Hpr Hc) in Hloop
    as ((Hb & Ht & Hi) & Hs);
    [| unfold InterestFacts.year_nonneg;
       cbn [y_balance y_total_contributions y_cumulative_interest];
       auto using InterestFacts.dec0_nonneg
     | constructor].
  pose proof (SignFacts.round_currency_nonneg _ _ Hb Hfa) as Rb.
  pose proof (SignFacts.round_currency_nonneg _ _ Hi Hti) as Ri.
  pose proof (SignFacts.round_currency_nonneg _ _ Ht Htc) as Rt.
  apply SignFacts.not_negative_nonneg in Rb, Ri, Rt.
  repeat split; try assumption.
  rewrite Hbd. eapply Forall_impl; [| exact Hs].
  intros snap (H1 & H2 & H3 & H4).
  repeat split; apply SignFacts.not_negative_nonneg; assumption.
Qed.

(** A run of X7: 2500.00 at 4% for three years, compounded quarterly. *)
Lemma X7_witness :
  exists res,
    calculate_compound_interest RefPlatform.libm
      (Decimal.mk false 250000 (-2)) (Decimal.mk false 4 (-2)) 3 4
      (Decimal.mk false 0 0) 12 = Ok res
    /\ Spec.not_negative (final_amount res) = true
    /\ Spec.not_negative (total_interest res) = true
    /\ Spec.not_negative (total_contributions res) = true
    /\ Forall Spec.snapshot_not_negative (yearly_breakdown res).
Proof.
  eexists. split; [vm_compute; reflexivity |].
  apply (X7_amounts_are_not_negative RefPlatform.libm
           (Decimal.mk false 250000 (-2)) (Decimal.mk false 4 (-2)) 3 4
           (Decimal.mk false 0 0) 12);
    [lia | reflexivity | reflexivity | reflexivity | vm_compute; reflexivity].
Defined.


(** X9.  A longer projection extends a shorter one: with everything else
    equal, the yearly breakdown for [Y] years is the beginning of the
    breakdown for any larger number of years. *)
Theorem X9_longer_runs_extend_shorter_ones
    (libm : Platform) (P r : Decimal.t) (Y Y' n : Z) (c : Decimal.t) (cf : Z)
    (res res' : ProjectionResult) :
  Y <= Y' ->
  calculate_compound_interest libm P r Y n c cf = Ok res ->
  calculate_compound_interest libm P r Y' n c cf = Ok res' ->
  exists later, yearly_breakdown res' = (yearly_breakdown res ++ later)%list.
Proof.
  intros HY H H'.
  apply EngineFacts.calculate_inv in H as (pr & s & Hdiv & Hloop & _ & _ & _ & Hbd).
  apply EngineFacts.calculate_inv in H' as (pr' & s' & Hdiv' & Hloop' & _ & _ & _ & Hbd').
  rewrite Hdiv in Hdiv'. injection Hdiv' as <-.
  rewrite Hbd, Hbd'.
  destruct (Z.le_gt_cases 1 (Y + 1)) as [Hpos|Hneg].
  - rewrite (range_split 1 (Y + 1) (Y' + 1)) in Hloop' by lia.
    rewrite for_each_app, Hloop in Hloop'. cbn [bind] in Hloop'.
    eapply EngineFacts.breakdown_extends. exact Hloop'.
  - rewrite range_empty in Hloop by lia. cbn [for_each] in Hloop. injection Hloop as <-.
    cbn [y_breakdown]. exists (y_breakdown s'). reflexivity.
Qed.

(** A run of X9: one year and two years of 100 at 10%. *)
Lemma X9_witness :
  exists res res' later,
    calculate_compound_interest RefPlatform.libm
      (Decimal.mk false 100 0) (Decimal.mk false 1 (-1)) 1 1 (Decimal.mk false 0 0) 12
    = Ok res
    /\ calculate_compound_interest RefPlatform.libm
         (Decimal.mk false 100 0) (Decimal.mk false 1 (-1)) 2 1 (Decimal.mk false 0 0) 12
       = Ok res'
    /\ yearly_breakdown res' = (yearly_breakdown res ++ later)%list.
Proof.
  eexists. eexists.
  assert (H1 : calculate_compound_interest RefPlatform.libm
                 (Decimal.mk false 100 0) (Decimal.mk false 1 (-1)) 1 1
                 (Decimal.mk false 0 0) 12 = Ok _) by (vm_compute; reflexivity).
  assert (H2 : calculate_compound_interest RefPlatform.libm
                 (Decimal.mk false 100 0) (Decimal.mk false 1 (-1)) 2 1
                 (Decimal.mk false 0 0) 12 = Ok _) by (vm_compute; reflexivity).
  destruct (X9_longer_runs_extend_shorter_ones _ _ _ 1 2 _ _ _ _ _ ltac:(lia) H1 H2)
    as (later & Hl).
  exists later. split; [exact H1 |]. split; [exact H2 | exact Hl].
Defined.

(** X10.  When the validation of [main] lets a run reach the engine, the
    principal and the contribution it passes are not negative and the
    number of years is at least 1; each input is what its parser read from
    the command line.  (The two frequencies are passed unchecked.) *)
Theorem X10_validation_is_sound
    (args : Cli.Args) (warnings : list string) (i : Cli.EngineInputs) :
  Cli.validate args = inr (warnings, i) ->
  Spec.not_negative (Cli.in_principal i) = true
  /\ Spec.not_negative (Cli.in_contribution i) = true
  /\ 1 <= Cli.in_years i
  /\ Cli.in_years i = Cli.arg_time args
  /\ Cli.parse_amount (Cli.arg_principal args) = Ok (Cli.in_principal i)
  /\ Utils.parse_rate (Utils.RateStr (Cli.arg_rate args)) = Ok (Cli.in_rate i)
  /\ Utils.parse_frequency (Utils.FreqStr (Cli.arg_compound args))
     = Ok (Cli.in_compound_freq i)
  /\ Cli.parse_amount (Cli.arg_contribution args) = Ok (Cli.in_contribution i)
  /\ Utils.parse_frequency (Utils.FreqStr (Cli.arg_contribution_freq args))
     = Ok (Cli.in_contribution_freq i).
Proof.
  intros H. pose proof (CliFacts.validate_cases args) as Hc. rewrite H in Hc. exact Hc.
Qed.

(** A run of X10: [compound "$10,000" -c 250] with the defaults. *)
Lemma X10_witness :
  exists i,
    Cli.validate
      {| Cli.arg_principal := "$10,000"; Cli.arg_rate := "7%"; Cli.arg_time := 10;
         Cli.arg_compound := "monthly"; Cli.arg_contribution := "250";
         Cli.arg_contribution_freq := "monthly"; Cli.arg_output := "rich";
         Cli.arg_no_chart := false; Cli.arg_no_table := false; Cli.arg_quiet := false |}
    = inr ([], i)
    /\ Cli.in_principal i = Decimal.mk false 10000 0
    /\ Cli.in_rate i = Decimal.mk false 7 (-2)
    /\ Spec.not_negative (Cli.in_contribution i) = true
    /\ 1 <= Cli.in_years i.
Proof.
  eexists.
  match goal with
  | |- ?v = inr ([], ?i) /\ _ =>
      assert (H : v = inr ([], i)) by (vm_compute; reflexivity)
  end.
  split; [exact H |].
  split; [reflexivity |]. split; [reflexivity |].
  destruct (X10_validation_is_sound _ _ _ H) as (_ & Hc & Hy & _).
  split; [exact Hc | exact Hy].
Defined.

(** X12.  [parse_amount] ignores dollar signs, commas and spaces wherever
    they stand: a text reads as an amount exactly when the text without one
    of these characters does, and as the same amount. *)
Theorem X12_amount_noise_is_ignored (c : ascii) (a b : string) (d : Decimal.t) :
  Spec.amount_noise c = true ->
  Cli.parse_amount (a ++ String c b) = Ok d <-> Cli.parse_amount (a ++ b) = Ok d.
Proof.
  intros Hc. rewrite !AmountTextFacts.parse_amount_Ok.
  rewrite (AmountTextFacts.cleaned_noise c a b Hc). reflexivity.
Qed.

(** A run of X12: the comma of [10,000.50]. *)
Lemma X12_witness :
  Cli.parse_amount "10,000.50" = Ok (Decimal.mk false 1000050 (-2))
  /\ Cli.parse_amount "10000.50" = Ok (Decimal.mk false 1000050 (-2)).
Proof.
  assert (H : Cli.parse_amount "10000.50" = Ok (Decimal.mk false 1000050 (-2)))
    by (vm_compute; reflexivity).
  split; [| exact H].
  apply (X12_amount_noise_is_ignored ","%char "10" "000.50" _ eq_refl). exact H.
Defined.

(** X13.  [parse_frequency] ignores the white space around its text and
    the case of its letters: padding the text with white space, or
    lower-casing it, changes neither the frequency returned nor the error
    raised. *)
Theorem X13_frequency_text_is_normalised (w1 s w2 : string) :
  Str.all_chars Str.is_space w1 = true ->
  Str.all_chars Str.is_space w2 = true ->
  Utils.parse_frequency (Utils.FreqStr (w1 ++ s ++ w2)) = Utils.parse_frequency (Utils.FreqStr s)
  /\ Utils.parse_frequency (Utils.FreqStr (Str.lower s)) = Utils.parse_frequency (Utils.FreqStr s).
Proof.
  intros H1 H2. unfold Utils.parse_frequency. split.
  - now rewrite (TrimFacts.strip_padded w1 s w2 H1 H2).
  - now rewrite TrimFacts.lower_strip, TrimFacts.lower_idempotent.
Qed.

(** A run of X13: a padded [MONTHLY]. *)
Lemma X13_witness :
  Utils.parse_frequency (Utils.FreqStr "  MONTHLY ") = Ok 12
  /\ Utils.parse_frequency (Utils.FreqStr "MONTHLY") = Ok 12.
Proof.
  assert (H : Utils.parse_frequency (Utils.FreqStr "MONTHLY") = Ok 12) by reflexivity.
  split; [| exact H].
  destruct (X13_frequency_text_is_normalised "  " "MONTHLY" " " eq_refl eq_refl) as [Hp _].
  rewrite <- H. exact Hp.
Defined.

(** X14.  [parse_amount] reads back what [format_currency] prints: for a
    finite float the printed text is read as a Decimal with two decimal
    places and the sign of the float, within half a cent of the float. *)
Theorem X14_printed_amounts_read_back (x : Float.t) :
  Spec.isfinite x = true ->
  exists d,
    Cli.parse_amount (Utils.format_currency_float x "$") = Ok d
    /\ Decimal.expo d = -2
    /\ Decimal.sign d = Float.sign_bit x
    /\ (Qabs (Decimal.to_Q d - Spec.float_value x) <= 1 # 200)%Q.
Proof.
  intros Hfin.
  destruct (CentsFacts.format_fixed_cents x Hfin) as (q & Hq & Htext & Hval).
  exists (Decimal.mkz (Float.sign_bit x) q (-2)).
  split; [| split; [reflexivity | split; [reflexivity |]]].
  - unfold Utils.format_currency_float. rewrite Htext.
    exact (ReadBackFacts.parse_printed_cents (Float.sign_bit x) q Hq).
  - rewrite (DecimalFacts.to_Q_mkz _ _ _ Hq). exact Hval.
Qed.

(** A run of X14: the amount 1234.56. *)
Lemma X14_witness :
  exists d,
    Cli.parse_amount (Utils.format_currency (Decimal.mk false 123456 (-2))) = Ok d
    /\ Decimal.expo d = -2
    /\ Decimal.sign d = false
    /\ (Qabs (Decimal.to_Q d
              - Spec.float_value (Float.of_decimal (Decimal.mk false 123456 (-2))))
        <= 1 # 200)%Q.
Proof.
  assert (Hfin : Spec.isfinite (Float.of_decimal (Decimal.mk false 123456 (-2))) = true)
    by (vm_compute; reflexivity).
  exact (X14_printed_amounts_read_back
           (Float.of_decimal (Decimal.mk false 123456 (-2))) Hfin).
Defined.

(** X15.  [CsvFormatter.render] never quotes a field: every line of its
    output is the texts of the cells of a row separated by commas and ended
    by CRLF, and no cell text holds a comma, a quote or a line break, so a
    line has as many fields as its row has cells. *)
Theorem X15_csv_fields_are_written_bare
    (result : Calculator.ProjectionResult) (options : Formatters.RenderOptions) :
  Formatters.csv_render result options
  = String.concat ""
      (map (fun row =>
              (Str.join "," (map Formatters.cell_text row) ++ Formatters.CRLF)%string)
         (Formatters.csv_rows result options))
  /\ Forall
       (Forall (fun c => Formatters.needs_quotes (Formatters.cell_text c) = false))
       (Formatters.csv_rows result options).
Proof.
  pose proof (CsvFacts.csv_rows_bare result options) as H. split.
  - unfold Formatters.csv_render. f_equal. apply map_ext_in. intros row Hrow.
    rewrite Forall_forall in H. exact (CsvFacts.writerow_bare row (H row Hrow)).
  - eapply Forall_impl; [| exact H]. intros row Hr.
    eapply Forall_impl; [| exact Hr]. intros c [Hc _].
    now apply CsvFacts.needs_quotes_safe.
Qed.

(** X16.  [get_formatter] ignores the white space around a name and the
    case of its letters: padding the name with white space, or lower-casing
    it, changes neither the formatter returned nor the error raised. *)
Theorem X16_formatter_names_are_normalised (w1 name w2 : string) :
  Str.all_chars Str.is_space w1 = true ->
  Str.all_chars Str.is_space w2 = true ->
  Formatters.get_formatter (w1 ++ name ++ w2) = Formatters.get_formatter name
  /\ Formatters.get_formatter (Str.lower name) = Formatters.get_formatter name.
Proof.
  intros H1 H2. unfold Formatters.get_formatter. split.
  - now rewrite !TrimFacts.lower_strip, (TrimFacts.strip_padded w1 name w2 H1 H2).
  - now rewrite TrimFacts.lower_idempotent.
Qed.

(** A run of X16: [ JSON ] with a space on each side. *)
Lemma X16_witness :
  Formatters.get_formatter " JSON " = Ok Formatters.JsonFormatter
  /\ Formatters.get_formatter "JSON" = Ok Formatters.JsonFormatter.
Proof.
  assert (H : Formatters.get_formatter "JSON" = Ok Formatters.JsonFormatter) by reflexivity.
  split; [| exact H].
  destruct (X16_formatter_names_are_normalised " " "JSON" " " eq_refl eq_refl) as [Hp _].
  rewrite <- H. exact Hp.
Defined.

(** X17.  An integer rate of 1 or more, of at most 4300 digits (the
    limit of [str] on an [int]), is a percentage however it is written:
    the int [n], the text of [n] and the text of [n] followed by a per cent
    sign are all read as [Decimal(n) / 100]. *)
Theorem X17_integer_rates_are_percentages (n : Z) :
  1 <= n < 10 ^ 4300 ->
  let percentage := Decimal.div (Decimal.of_int n) (Decimal.of_int 100) in
  Utils.parse_rate (Utils.RateInt n) = percentage
  /\ Utils.parse_rate (Utils.RateStr (Str.of_int n)) = percentage
  /\ Utils.parse_rate (Utils.RateStr (Str.of_int n ++ "%")) = percentage.
Proof.
  intros [Hn _] percentage. subst percentage.
  pose proof (RateFacts.finite_decimal_of_int n) as Hd.
  assert (Hlt : (n <? 1) = false) by (apply Z.ltb_ge; exact Hn).
  destruct (UtilsFacts.of_int_spec n) as (ds & Htext & Hne & Hall & Hval).
  destruct (Z.ltb_spec n 0) as [Hneg|_]; [lia |]. cbn [append] in Htext.
  split; [| split].
  - unfold Utils.parse_rate. rewrite Hd. cbn [bind]. now rewrite Hlt.
  - unfold Utils.parse_rate. rewrite UtilsFacts.strip_no_space.
    2:{ eapply UtilsFacts.all_chars_weaken; [| apply UtilsFacts.of_int_numeral].
        intros c Hc. now apply UtilsFacts.numeral_char_props. }
    replace (Str.contains_char "%" (Str.of_int n)) with false.
    2:{ rewrite Htext. clear - Hall. induction ds as [|c ds IH]; [reflexivity |].
        cbn [Str.all_chars] in Hall. apply andb_prop in Hall as [Hc Hall].
        cbn [Str.contains_char]. rewrite <- (IH Hall), orb_false_r.
        destruct c as [b0 b1 b2 b3 b4 b5 b6 b7].
        destruct b0, b1, b2, b3, b4, b5, b6, b7; try discriminate Hc; reflexivity. }
    rewrite Hd. cbn [bind]. now rewrite RateFacts.ltb_one, Hlt.
  - unfold Utils.parse_rate. rewrite Htext.
    destruct (RateFacts.percent_text ds Hall) as (Hs & Hc & Hr).
    rewrite Hs, Hc, Hr, <- Htext, Hd. reflexivity.
Qed.

(** A run of X17: the rate 7. *)
Lemma X17_witness :
  Utils.parse_rate (Utils.RateInt 7) = Ok (Decimal.mk false 7 (-2))
  /\ Utils.parse_rate (Utils.RateStr "7") = Ok (Decimal.mk false 7 (-2))
  /\ Utils.parse_rate (Utils.RateStr "7%") = Ok (Decimal.mk false 7 (-2)).
Proof.
  exact (X17_integer_rates_are_percentages 7
           ltac:(split; [lia | vm_compute; reflexivity])).
Defined.
